(** * CEX cryptographic library: a shallow embedding of SHX, CSG::LeftEncode,
      KDF2 and StreamWriter, with the properties the specification states
      about them.

    Conventions of the embedding.
    - [byte] is the Standard Library's 256-constructor type; a cast
      [static_cast<byte>(x)] is [byte_of_Z], which keeps the low 8 bits.
    - [uint] (32 bits) and [size_t] (64 bits) values are integers of [Z];
      the wrap-around of every arithmetic operation is written out with
      [wrap32] and [wrap64].
    - A [std::vector<T>] is a [list T]; [size] is its length as a [size_t].
    - A C++ function that may throw, or that indexes a vector, returns an
      [outcome]: [Returned v], [Thrown origin message] (the two strings the
      exception is constructed with), [Asserted] (a failed [CexAssert]) or
      [Undefined] (an access outside a vector's bounds, which C++ leaves
      undefined; the source has no check there).
    - A function that updates a vector passed by reference returns the
      updated vector. *)

From Stdlib Require Import ZArith Lia List String.
From Stdlib.Strings Require Import Byte.
From stdpp Require Import base list.
Import ListNotations.
Local Open Scope Z_scope.

(** ** Outcomes of a call *)

Inductive outcome (A : Type) : Type :=
| Returned (a : A)
| Thrown (origin message : string)
| Asserted (message : string)
| Undefined.

Arguments Returned {A} a.
Arguments Thrown {A} origin message.
Arguments Asserted {A} message.
Arguments Undefined {A}.

Definition obind {A B : Type} (c : outcome A) (k : A -> outcome B) : outcome B :=
  match c with
  | Returned a => k a
  | Thrown o m => Thrown o m
  | Asserted m => Asserted m
  | Undefined => Undefined
  end.

Notation "x <~ c ;; k" := (obind c (fun x => k))
  (at level 100, c at next level, right associativity).

(** [throws c]: the call ends in a C++ exception. *)
Definition throws {A : Type} (c : outcome A) : Prop :=
  exists origin message, c = Thrown origin message.

(** ** Machine integers and vectors *)

Definition wrap32 (x : Z) : Z := x mod 2 ^ 32.
Definition wrap64 (x : Z) : Z := x mod 2 ^ 64.

Notation "a +% b" := (wrap64 (a + b)) (at level 50, left associativity).
Notation "a -% b" := (wrap64 (a - b)) (at level 50, left associativity).
Notation "a *% b" := (wrap64 (a * b)) (at level 40, left associativity).

Definition word32 (x : Z) : Prop := 0 <= x < 2 ^ 32.

Definition byte_to_Z (b : byte) : Z := Z.of_N (Byte.to_N b).

Definition byte_of_Z (x : Z) : byte :=
  match Byte.of_N (Z.to_N (x mod 256)) with
  | Some b => b
  | None => x00
  end.

Definition size {A : Type} (v : list A) : Z := Z.of_nat (length v).

(** The word at index [i] of a vector of integers (0 outside it). *)
Definition word_at (v : list Z) (i : Z) : Z := nth (Z.to_nat i) v 0.

Definition in_bounds {A : Type} (v : list A) (i : Z) : bool :=
  (0 <=? i) && (i <? size v).

(** [v[i]] read and written through [operator[]]. *)
Definition vget {A : Type} (v : list A) (i : Z) : outcome A :=
  if in_bounds v i then
    match v !! Z.to_nat i with
    | Some x => Returned x
    | None => Undefined
    end
  else Undefined.

Definition vset {A : Type} (v : list A) (i : Z) (x : A) : outcome (list A) :=
  if in_bounds v i then Returned (<[Z.to_nat i := x]> v) else Undefined.

(** A run of [n] consecutive elements starting at [off]. *)
Definition vread {A : Type} (v : list A) (off : Z) (n : nat) : outcome (list A) :=
  if (0 <=? off) && (off + Z.of_nat n <=? size v)
  then Returned (take n (drop (Z.to_nat off) v))
  else Undefined.

Definition vwrite {A : Type} (v : list A) (off : Z) (xs : list A) : outcome (list A) :=
  if (0 <=? off) && (off + size xs <=? size v)
  then Returned (take (Z.to_nat off) v ++ xs ++ drop (Z.to_nat off + length xs) v)
  else Undefined.

(** [std::vector::resize(n)]: truncate, or extend with value-initialised
    elements. *)
Definition resize_to {A : Type} (d : A) (v : list A) (n : Z) : list A :=
  take (Z.to_nat n) v ++ replicate (Z.to_nat n - length v) d.

(** A loop [for (i = lo; i < hi; ++i) body] over a vector. *)
Fixpoint for_each {A : Type} (body : A -> Z -> outcome A) (idx : list Z) (a : A) : outcome A :=
  match idx with
  | [] => Returned a
  | i :: rest => a' <~ body a i ;; for_each body rest a'
  end.

(** ** IntUtils and MemUtils *)

Module IntUtils.

(** Modelled from the spec: IntUtils.h and MemUtils.h are not under src/.
    The spec's layer 0 names them: endian conversion and rotate
    primitives. [LeBytesTo32] and [BeBytesTo32] assemble four bytes of a
    vector into a [uint], least resp. most significant byte first;
    [LeNNToBytes] store the bytes of a value least significant first;
    [RotL32] and [RotR32] rotate a 32-bit word; [Copy] is [memcpy]
    between byte vectors. *)

Fixpoint le_decode (bs : list byte) : Z :=
  match bs with
  | [] => 0
  | b :: rest => Z.lor (byte_to_Z b) (Z.shiftl (le_decode rest) 8)
  end.

Fixpoint le_encode (n : nat) (x : Z) : list byte :=
  match n with
  | O => []
  | S m => byte_of_Z x :: le_encode m (Z.shiftr x 8)
  end.

Definition be_decode (bs : list byte) : Z := le_decode (rev bs).
Definition be_encode (n : nat) (x : Z) : list byte := rev (le_encode n x).

Definition LeBytesTo32 (Input : list byte) (InOffset : Z) : outcome Z :=
  bs <~ vread Input InOffset 4 ;; Returned (le_decode bs).

Definition BeBytesTo32 (Input : list byte) (InOffset : Z) : outcome Z :=
  bs <~ vread Input InOffset 4 ;; Returned (be_decode bs).

Definition Le16ToBytes (Value : Z) (Output : list byte) (OutOffset : Z) : outcome (list byte) :=
  vwrite Output OutOffset (le_encode 2 Value).

Definition Le32ToBytes (Value : Z) (Output : list byte) (OutOffset : Z) : outcome (list byte) :=
  vwrite Output OutOffset (le_encode 4 Value).

Definition Le64ToBytes (Value : Z) (Output : list byte) (OutOffset : Z) : outcome (list byte) :=
  vwrite Output OutOffset (le_encode 8 Value).

Definition RotL32 (Value Shift : Z) : Z :=
  wrap32 (Z.lor (Z.shiftl Value Shift) (Z.shiftr Value (32 - Shift))).

Definition RotR32 (Value Shift : Z) : Z :=
  wrap32 (Z.lor (Z.shiftr Value Shift) (Z.shiftl Value (32 - Shift))).

Definition Min (a b : Z) : Z := if a <? b then a else b.

(** [MemUtils::Copy]: [memcpy] of [Length] bytes between two vectors whose
    elements take [sizeof_T] bytes each; the offsets count elements. *)
Definition Copy {A : Type} (sizeof_T : Z) (Input : list A) (InOffset : Z)
    (Output : list A) (OutOffset : Z) (Length : Z) : outcome (list A) :=
  if Length =? 0 then Returned Output
  else
    xs <~ vread Input InOffset (Z.to_nat (Length / sizeof_T)) ;;
    vwrite Output OutOffset xs.

(** [LeBytesTo64]: the eight bytes at [InOffset] as a 64-bit word, the
    least significant byte first. *)
Definition LeBytesTo64 (Input : list byte) (InOffset : Z) : outcome Z :=
  bs <~ vread Input InOffset 8 ;; Returned (le_decode bs).

End IntUtils.

(** ** Serpent primitives *)

Module Serpent.

(** Modelled from the spec: Serpent.h is not under src/. The spec (4.5)
    fixes its content: the eight S-boxes, their inverses and the linear
    transform are the ones published by the Serpent designers, applied in
    bitsliced form: bit [j] of the four words R0..R3 forms one S-box input
    nibble, R0 giving the least significant bit. *)

Definition quad : Type := (Z * Z * Z * Z)%type.

Definition S0 : list Z := [3; 8; 15; 1; 10; 6; 5; 11; 14; 13; 4; 2; 7; 0; 9; 12].
Definition S1 : list Z := [15; 12; 2; 7; 9; 0; 5; 10; 1; 11; 14; 8; 6; 13; 3; 4].
Definition S2 : list Z := [8; 6; 7; 9; 3; 12; 10; 15; 13; 1; 14; 4; 0; 11; 5; 2].
Definition S3 : list Z := [0; 15; 11; 8; 12; 9; 6; 3; 13; 1; 2; 4; 10; 7; 5; 14].
Definition S4 : list Z := [1; 15; 8; 3; 12; 0; 11; 6; 2; 5; 4; 10; 9; 14; 7; 13].
Definition S5 : list Z := [15; 5; 2; 11; 4; 10; 9; 12; 0; 3; 14; 8; 13; 6; 7; 1].
Definition S6 : list Z := [7; 2; 12; 5; 8; 4; 6; 11; 14; 9; 1; 15; 13; 3; 10; 0].
Definition S7 : list Z := [1; 13; 15; 0; 14; 8; 2; 11; 7; 4; 12; 10; 9; 3; 5; 6].

Definition I0 : list Z := [13; 3; 11; 0; 10; 6; 5; 12; 1; 14; 4; 7; 15; 9; 8; 2].
Definition I1 : list Z := [5; 8; 2; 14; 15; 6; 12; 3; 11; 4; 7; 9; 1; 13; 10; 0].
Definition I2 : list Z := [12; 9; 15; 4; 11; 14; 1; 2; 0; 3; 6; 13; 5; 8; 10; 7].
Definition I3 : list Z := [0; 9; 10; 7; 11; 14; 6; 13; 3; 5; 12; 2; 4; 8; 15; 1].
Definition I4 : list Z := [5; 0; 8; 3; 10; 9; 7; 14; 2; 12; 11; 6; 4; 15; 13; 1].
Definition I5 : list Z := [8; 15; 2; 9; 4; 1; 13; 14; 11; 6; 5; 3; 7; 12; 10; 0].
Definition I6 : list Z := [15; 10; 1; 13; 5; 3; 6; 0; 4; 9; 14; 7; 2; 12; 8; 11].
Definition I7 : list Z := [3; 0; 6; 13; 9; 14; 15; 8; 5; 12; 11; 7; 10; 1; 4; 2].

(** The S-box input formed by bit [j] of the four words. *)
Definition nibble (q : quad) (j : Z) : Z :=
  let '(r0, r1, r2, r3) := q in
  Z.b2z (Z.testbit r0 j) + 2 * Z.b2z (Z.testbit r1 j)
  + 4 * Z.b2z (Z.testbit r2 j) + 8 * Z.b2z (Z.testbit r3 j).

Definition lookup_box (tbl : list Z) (n : Z) : Z := nth (Z.to_nat n) tbl 0.

(** Output word [k], built up to bit [width]: bit [j] is bit [k] of the
    S-box value at nibble [j]. *)
Fixpoint plane (tbl : list Z) (q : quad) (k : Z) (width : nat) : Z :=
  match width with
  | O => 0
  | S w =>
    Z.lor (plane tbl q k w)
          (Z.shiftl (Z.b2z (Z.testbit (lookup_box tbl (nibble q (Z.of_nat w))) k)) (Z.of_nat w))
  end.

Definition bitslice (tbl : list Z) (q : quad) : quad :=
  (plane tbl q 0 32, plane tbl q 1 32, plane tbl q 2 32, plane tbl q 3 32).

Definition Sb0 : quad -> quad := bitslice S0.
Definition Sb1 : quad -> quad := bitslice S1.
Definition Sb2 : quad -> quad := bitslice S2.
Definition Sb3 : quad -> quad := bitslice S3.
Definition Sb4 : quad -> quad := bitslice S4.
Definition Sb5 : quad -> quad := bitslice S5.
Definition Sb6 : quad -> quad := bitslice S6.
Definition Sb7 : quad -> quad := bitslice S7.

Definition Ib0 : quad -> quad := bitslice I0.
Definition Ib1 : quad -> quad := bitslice I1.
Definition Ib2 : quad -> quad := bitslice I2.
Definition Ib3 : quad -> quad := bitslice I3.
Definition Ib4 : quad -> quad := bitslice I4.
Definition Ib5 : quad -> quad := bitslice I5.
Definition Ib6 : quad -> quad := bitslice I6.
Definition Ib7 : quad -> quad := bitslice I7.

Definition shl32 (x n : Z) : Z := wrap32 (Z.shiftl x n).

Definition LinearTransform (q : quad) : quad :=
  let '(R0, R1, R2, R3) := q in
  let x0 := IntUtils.RotL32 R0 13 in
  let x2 := IntUtils.RotL32 R2 3 in
  let x1 := Z.lxor (Z.lxor R1 x0) x2 in
  let x3 := Z.lxor (Z.lxor R3 x2) (shl32 x0 3) in
  let R1 := IntUtils.RotL32 x1 1 in
  let R3 := IntUtils.RotL32 x3 7 in
  let R0 := IntUtils.RotL32 (Z.lxor (Z.lxor x0 R1) R3) 5 in
  let R2 := IntUtils.RotL32 (Z.lxor (Z.lxor x2 R3) (shl32 R1 7)) 22 in
  (R0, R1, R2, R3).

Definition InverseTransform (q : quad) : quad :=
  let '(R0, R1, R2, R3) := q in
  let x2 := Z.lxor (Z.lxor (IntUtils.RotR32 R2 22) R3) (shl32 R1 7) in
  let x0 := Z.lxor (Z.lxor (IntUtils.RotR32 R0 5) R1) R3 in
  let x3 := IntUtils.RotR32 R3 7 in
  let x1 := IntUtils.RotR32 R1 1 in
  let R3 := Z.lxor (Z.lxor x3 x2) (shl32 x0 3) in
  let R1 := Z.lxor (Z.lxor x1 x0) x2 in
  let R2 := IntUtils.RotR32 x2 3 in
  let R0 := IntUtils.RotR32 x0 13 in
  (R0, R1, R2, R3).

End Serpent.

(** ** Digests, key containers and the HKDF generator *)

Module Digests.
(** The members of the [Digests] enumeration the spec names. *)
Inductive t : Set := None | SHA256 | SHA512.

Definition eqb (a b : t) : bool :=
  match a, b with
  | None, None | SHA256, SHA256 | SHA512, SHA512 => true
  | _, _ => false
  end.
End Digests.

Module DigestFromName.
(** Modelled from the spec: DigestFromName.h is not under src/. The sizes
    are those of SHA-2: block 64 and 128 bytes, output 32 and 64 bytes;
    the padding size is the finaliser's minimum, 9 and 17 bytes. *)
Definition GetBlockSize (d : Digests.t) : Z :=
  match d with Digests.None => 0 | Digests.SHA256 => 64 | Digests.SHA512 => 128 end.
Definition GetDigestSize (d : Digests.t) : Z :=
  match d with Digests.None => 0 | Digests.SHA256 => 32 | Digests.SHA512 => 64 end.
Definition GetPaddingSize (d : Digests.t) : Z :=
  match d with Digests.None => 0 | Digests.SHA256 => 9 | Digests.SHA512 => 17 end.
End DigestFromName.

Record SymmetricKeySize : Set := mkSymmetricKeySize
  { KeySize : Z; NonceSize : Z; InfoSize : Z }.

(** Modelled from the spec: SymmetricKeySize.h is not under src/. Called with
    a key length alone, [Contains] looks for an entry of that key size. *)
Definition Contains (sizes : list SymmetricKeySize) (keySize : Z) : bool :=
  existsb (fun e => KeySize e =? keySize) sizes.

(** The (Key, Nonce, Info) container of the spec's data model. *)
Record ISymmetricKey : Set := mkSymmetricKey
  { Key : list byte; Nonce : list byte; Info : list byte }.

Module HKDF.
(** How SecureExpand starts the generator: with key, salt and info
    (Extract, then Expand) or with the key alone (Expand only), the
    generator's info having been assigned before or left as it is. *)
Inductive init : Set :=
| InitializeKeySaltInfo (key salt info : list byte)
| InitializeKey (info : option (list byte)) (key : list byte).

(** Modelled from the spec: HKDF.h and the digests are not under src/.
    The generator is taken as an interface: byte [i] of the stream an
    HKDF over the digest produces once started as [init] says. *)
Class Generator : Type := stream : Digests.t -> init -> nat -> byte.

(** [gen.Generate(Output)] fills the whole vector. *)
Definition Generate `{Generator} (d : Digests.t) (i : init) (Output : list byte) : list byte :=
  map (stream d i) (seq 0 (length Output)).
End HKDF.

(** The SIMD macros the bulk paths are compiled under. *)
Record Simd : Set := mkSimd { AVX512 : bool; AVX2 : bool; AVX : bool }.

(** ** SHX: the extended Serpent cipher (SHX.cpp) *)

Module SHX.
Import IntUtils Serpent DigestFromName.

(** Modelled from the spec: SHX.h is not under src/. The block size is
    the spec's 16 bytes, the round bounds are those of the constructor's
    message, and PHI is the constant of Serpent's key schedule. *)
Definition BLOCK_SIZE : Z := 16.
Definition MAX_ROUNDS : Z := 64.
Definition MIN_ROUNDS : Z := 32.
Definition PHI : Z := 2654435769.
Definition DEF_DSTINFO : list byte :=
  list_byte_of_string "SHX version 1 information string".

Record t : Type := mk
  { m_cprKeySize : Z;
    m_expKey : list Z;
    m_kdfEngineType : Digests.t;
    m_kdfInfo : list byte;
    m_kdfInfoMax : Z;
    m_kdfKeySize : Z;
    m_isEncryption : bool;
    m_isInitialized : bool;
    m_legalKeySizes : list SymmetricKeySize;
    m_legalRounds : list Z;
    m_rndCount : Z }.

Definition set_cprKeySize (s : t) (v : Z) : t :=
  mk v (m_expKey s) (m_kdfEngineType s) (m_kdfInfo s) (m_kdfInfoMax s) (m_kdfKeySize s)
     (m_isEncryption s) (m_isInitialized s) (m_legalKeySizes s) (m_legalRounds s) (m_rndCount s).
Definition set_expKey (s : t) (v : list Z) : t :=
  mk (m_cprKeySize s) v (m_kdfEngineType s) (m_kdfInfo s) (m_kdfInfoMax s) (m_kdfKeySize s)
     (m_isEncryption s) (m_isInitialized s) (m_legalKeySizes s) (m_legalRounds s) (m_rndCount s).
Definition set_kdfInfo (s : t) (v : list byte) : t :=
  mk (m_cprKeySize s) (m_expKey s) (m_kdfEngineType s) v (m_kdfInfoMax s) (m_kdfKeySize s)
     (m_isEncryption s) (m_isInitialized s) (m_legalKeySizes s) (m_legalRounds s) (m_rndCount s).
Definition set_kdfInfoMax (s : t) (v : Z) : t :=
  mk (m_cprKeySize s) (m_expKey s) (m_kdfEngineType s) (m_kdfInfo s) v (m_kdfKeySize s)
     (m_isEncryption s) (m_isInitialized s) (m_legalKeySizes s) (m_legalRounds s) (m_rndCount s).
Definition set_kdfKeySize (s : t) (v : Z) : t :=
  mk (m_cprKeySize s) (m_expKey s) (m_kdfEngineType s) (m_kdfInfo s) (m_kdfInfoMax s) v
     (m_isEncryption s) (m_isInitialized s) (m_legalKeySizes s) (m_legalRounds s) (m_rndCount s).
Definition set_isEncryption (s : t) (v : bool) : t :=
  mk (m_cprKeySize s) (m_expKey s) (m_kdfEngineType s) (m_kdfInfo s) (m_kdfInfoMax s) (m_kdfKeySize s)
     v (m_isInitialized s) (m_legalKeySizes s) (m_legalRounds s) (m_rndCount s).
Definition set_isInitialized (s : t) (v : bool) : t :=
  mk (m_cprKeySize s) (m_expKey s) (m_kdfEngineType s) (m_kdfInfo s) (m_kdfInfoMax s) (m_kdfKeySize s)
     (m_isEncryption s) v (m_legalKeySizes s) (m_legalRounds s) (m_rndCount s).
Definition set_legalKeySizes (s : t) (v : list SymmetricKeySize) : t :=
  mk (m_cprKeySize s) (m_expKey s) (m_kdfEngineType s) (m_kdfInfo s) (m_kdfInfoMax s) (m_kdfKeySize s)
     (m_isEncryption s) (m_isInitialized s) v (m_legalRounds s) (m_rndCount s).
Definition set_legalRounds (s : t) (v : list Z) : t :=
  mk (m_cprKeySize s) (m_expKey s) (m_kdfEngineType s) (m_kdfInfo s) (m_kdfInfoMax s) (m_kdfKeySize s)
     (m_isEncryption s) (m_isInitialized s) (m_legalKeySizes s) v (m_rndCount s).
Definition set_rndCount (s : t) (v : Z) : t :=
  mk (m_cprKeySize s) (m_expKey s) (m_kdfEngineType s) (m_kdfInfo s) (m_kdfInfoMax s) (m_kdfKeySize s)
     (m_isEncryption s) (m_isInitialized s) (m_legalKeySizes s) (m_legalRounds s) v.

(** *** Helper functions *)

Definition LoadState (s : t) (ExtractorType : Digests.t) : t :=
  if Digests.eqb ExtractorType Digests.None then
    let s := set_legalRounds s [32; 40] in
    set_legalKeySizes s
      [mkSymmetricKeySize 16 16 0; mkSymmetricKeySize 24 16 0;
       mkSymmetricKeySize 32 16 0; mkSymmetricKeySize 64 16 0]
  else
    let s := set_legalRounds s [32; 40; 48; 56; 64] in
    let s := set_kdfKeySize s (GetBlockSize (m_kdfEngineType s)) in
    let s := set_kdfInfoMax s
               (m_kdfKeySize s -% (GetPaddingSize (m_kdfEngineType s) +% 1)) in
    set_legalKeySizes s
      [mkSymmetricKeySize (GetDigestSize (m_kdfEngineType s)) BLOCK_SIZE (m_kdfInfoMax s);
       mkSymmetricKeySize (m_kdfKeySize s) BLOCK_SIZE (m_kdfInfoMax s);
       mkSymmetricKeySize (m_kdfKeySize s *% 2) BLOCK_SIZE (m_kdfInfoMax s)].

(** *** Constructor [SHX(Digests DigestType, size_t Rounds)] *)

Definition new (DigestType : Digests.t) (Rounds : Z) : outcome t :=
  if (Rounds <=? MAX_ROUNDS) && (Rounds >=? MIN_ROUNDS) && (Rounds mod 8 =? 0) then
    Returned
      (LoadState
         {| m_cprKeySize := 0; m_expKey := []; m_kdfEngineType := DigestType;
            m_kdfInfo := DEF_DSTINFO; m_kdfInfoMax := 0; m_kdfKeySize := 0;
            m_isEncryption := false; m_isInitialized := false;
            m_legalKeySizes := []; m_legalRounds := []; m_rndCount := Rounds |}
         DigestType)
  else
    Thrown "SHX:CTor" "Invalid rounds size! Sizes supported are 32, 40, 48, 56, 64.".

(** *** Accessors *)

Definition Rounds (s : t) : Z := m_rndCount s.
Definition IsInitialized (s : t) : bool := m_isInitialized s.
Definition IsEncryption (s : t) : bool := m_isEncryption s.
Definition LegalKeySizes (s : t) : list SymmetricKeySize := m_legalKeySizes s.

(** *** Key schedule *)

(** The start of SecureExpand: the branch on the key length, and the
    call that starts the generator. *)
Definition SecureExpand_init (s : t) (Key : list byte) : outcome (t * HKDF.init) :=
  if size Key >? GetBlockSize (m_kdfEngineType s) then
    let s := set_kdfKeySize s (GetBlockSize (m_kdfEngineType s)) in
    let kdfKey := replicate (Z.to_nat (m_kdfKeySize s)) x00 in
    kdfKey <~ Copy 1 Key 0 kdfKey 0 (m_kdfKeySize s) ;;
    let saltSize := size Key -% m_kdfKeySize s in
    let kdfSalt := replicate (Z.to_nat saltSize) x00 in
    kdfSalt <~ Copy 1 Key (m_kdfKeySize s) kdfSalt 0 saltSize ;;
    Returned (s, HKDF.InitializeKeySaltInfo kdfKey kdfSalt (m_kdfInfo s))
  else
    let info := if negb (size (m_kdfInfo s) =? 0) then Some (m_kdfInfo s) else None in
    Returned (s, HKDF.InitializeKey info Key).

Definition SecureExpand `{HKDF.Generator} (s : t) (Key : list byte) : outcome t :=
  let keySize := 4 *% (m_rndCount s +% 1) in
  let keyBytes := keySize *% 4 in
  r <~ SecureExpand_init s Key ;;
  let '(s, gen) := r in
  let rawKey := replicate (Z.to_nat keyBytes) x00 in
  let rawKey := HKDF.Generate (m_kdfEngineType s) gen rawKey in
  let expKey := resize_to 0 (m_expKey s) keySize in
  expKey <~ for_each
              (fun K i => w <~ LeBytesTo32 rawKey (i *% 4) ;; vset K i w)
              (seqZ 0 (size expKey)) expKey ;;
  Returned (set_expKey s expKey).

(** [W[i] = RotL32((uint)(W[i-8] ^ W[i-5] ^ W[i-3] ^ W[i-1] ^ PHI ^ c), 11)] *)
Definition Poly8 (W : list Z) (i c : Z) : outcome (list Z) :=
  a <~ vget W (i -% 8) ;;
  b <~ vget W (i -% 5) ;;
  d <~ vget W (i -% 3) ;;
  e <~ vget W (i -% 1) ;;
  vset W i
    (RotL32 (wrap32 (Z.lxor (Z.lxor (Z.lxor (Z.lxor (Z.lxor a b) d) e) PHI) c)) 11).

(** The extended polynomial, with taps 16, 13, 11, 10, 8, 5, 3, 1. *)
Definition Poly16 (W : list Z) (i c : Z) : outcome (list Z) :=
  a <~ vget W (i -% 16) ;;
  b <~ vget W (i -% 13) ;;
  d <~ vget W (i -% 11) ;;
  e <~ vget W (i -% 10) ;;
  f <~ vget W (i -% 8) ;;
  g <~ vget W (i -% 5) ;;
  h <~ vget W (i -% 3) ;;
  j <~ vget W (i -% 1) ;;
  vset W i
    (RotL32
       (wrap32
          (Z.lxor (Z.lxor (Z.lxor (Z.lxor (Z.lxor (Z.lxor (Z.lxor (Z.lxor (Z.lxor
             a b) d) e) f) g) h) j) PHI) c)) 11).

(** Step 1, [for (offset = Key.size(); offset > 0; offset -= 4)]. Every
    pass reads four key bytes below [offset], so [length Key] passes and
    one test are all a run can make; [fuel] is that bound. *)
Fixpoint ReverseCopy (fuel : nat) (Key : list byte) (Wp : list Z) (offset index : Z)
    : outcome (list Z * Z) :=
  match fuel with
  | O => Undefined
  | S fuel' =>
    if offset >? 0 then
      w <~ BeBytesTo32 Key (offset -% 4) ;;
      Wp <~ vset Wp index w ;;
      ReverseCopy fuel' Key Wp (offset -% 4) (wrap32 (index + 1))
    else Returned (Wp, index)
  end.

(** [Sb(Wk[cnt], Wk[cnt + 1], Wk[cnt + 2], Wk[cnt + 3])], by reference. *)
Definition SbAt (Sb : quad -> quad) (Wk : list Z) (cnt : Z) : outcome (list Z) :=
  a <~ vget Wk cnt ;;
  b <~ vget Wk (wrap32 (cnt + 1)) ;;
  c <~ vget Wk (wrap32 (cnt + 2)) ;;
  d <~ vget Wk (wrap32 (cnt + 3)) ;;
  let '(a, b, c, d) := Sb (a, b, c, d) in
  Wk <~ vset Wk cnt a ;;
  Wk <~ vset Wk (wrap32 (cnt + 1)) b ;;
  Wk <~ vset Wk (wrap32 (cnt + 2)) c ;;
  vset Wk (wrap32 (cnt + 3)) d.

(** Step 4, [while (cnt < keySize - 4)]: a pass moves [cnt] up by 32 and
    indexes [Wk] there, so a run makes fewer than [length Wk] passes. *)
Fixpoint SboxPass (fuel : nat) (Wk : list Z) (cnt keySize : Z) : outcome (list Z * Z) :=
  match fuel with
  | O => Undefined
  | S fuel' =>
    if cnt <? keySize -% 4 then
      Wk <~ SbAt Sb3 Wk cnt ;; let cnt := wrap32 (cnt + 4) in
      Wk <~ SbAt Sb2 Wk cnt ;; let cnt := wrap32 (cnt + 4) in
      Wk <~ SbAt Sb1 Wk cnt ;; let cnt := wrap32 (cnt + 4) in
      Wk <~ SbAt Sb0 Wk cnt ;; let cnt := wrap32 (cnt + 4) in
      Wk <~ SbAt Sb7 Wk cnt ;; let cnt := wrap32 (cnt + 4) in
      Wk <~ SbAt Sb6 Wk cnt ;; let cnt := wrap32 (cnt + 4) in
      Wk <~ SbAt Sb5 Wk cnt ;; let cnt := wrap32 (cnt + 4) in
      Wk <~ SbAt Sb4 Wk cnt ;; let cnt := wrap32 (cnt + 4) in
      SboxPass fuel' Wk cnt keySize
    else Returned (Wk, cnt)
  end.

(** Steps 1 to 3 of StandardExpand: the words [Wk] before the S-boxes. *)
Definition StandardPrekey (Key : list byte) (keySize : Z) : outcome (list Z) :=
  let padSize := if size Key <? 32 then 16 else size Key / 2 in
  let Wp := replicate (Z.to_nat padSize) 0 in
  r <~ ReverseCopy (S (length Key)) Key Wp (size Key) 0 ;;
  let '(Wp, index) := r in
  Wp <~ (if index <? 8 then vset Wp index 1 else Returned Wp) ;;
  let Wk := replicate (Z.to_nat keySize) 0 in
  if padSize =? 16 then
    Wp <~ for_each (fun W i => Poly8 W i (i -% 8)) (seqZ 8 (16 - 8)) Wp ;;
    Wk <~ Copy 4 Wp 8 Wk 0 (8 *% 4) ;;
    for_each (fun W i => Poly8 W i i) (seqZ 8 (keySize - 8)) Wk
  else
    Wp <~ for_each (fun W i => Poly16 W i (i -% 16)) (seqZ 16 (32 - 16)) Wp ;;
    Wk <~ Copy 4 Wp 16 Wk 0 (16 *% 4) ;;
    for_each (fun W i => Poly16 W i i) (seqZ 16 (keySize - 16)) Wk.

Definition StandardExpand (s : t) (Key : list byte) : outcome t :=
  let s := set_rndCount s (if size Key =? 64 then 40 else 32) in
  let keySize := 4 *% (m_rndCount s +% 1) in
  Wk <~ StandardPrekey Key keySize ;;
  r <~ SboxPass (S (length Wk)) Wk 0 keySize ;;
  let '(Wk, cnt) := r in
  Wk <~ SbAt Sb3 Wk cnt ;;
  Returned (set_expKey s Wk).

Definition ExpandKey `{HKDF.Generator} (s : t) (Key : list byte) : outcome t :=
  if negb (Digests.eqb (m_kdfEngineType s) Digests.None)
  then SecureExpand s Key
  else StandardExpand s Key.

(** *** Initialize *)

Definition Initialize `{HKDF.Generator} (s : t) (Encryption : bool) (KeyParams : ISymmetricKey)
    : outcome t :=
  if negb (Contains (m_legalKeySizes s) (size (Key KeyParams))) then
    Thrown "SHX:Initialize"
           "Invalid key size! Key must be one of the LegalKeySizes() in length."
  else if negb (Digests.eqb (m_kdfEngineType s) Digests.None)
          && (size (Info KeyParams) >? m_kdfInfoMax s) then
    Thrown "SHX:Initialize"
           "Invalid info size! Info parameter must be no longer than DistributionCodeMax size."
  else
    let s := if size (Info KeyParams) >? 0 then set_kdfInfo s (Info KeyParams) else s in
    let s := set_isEncryption s Encryption in
    let s := set_cprKeySize s (size (Key KeyParams) *% 8) in
    s <~ ExpandKey s (Key KeyParams) ;;
    Returned (set_isInitialized s true).
(** *** Rounds processing *)

(** [R0 ^= K[i0]; R1 ^= K[i1]; R2 ^= K[i2]; R3 ^= K[i3]]. Decrypt128
    writes the four lines from R3 down to R0. *)
Definition AddKey (K : list Z) (i0 i1 i2 i3 : Z) (R : quad) : outcome quad :=
  let '(R0, R1, R2, R3) := R in
  k0 <~ vget K i0 ;;
  k1 <~ vget K i1 ;;
  k2 <~ vget K i2 ;;
  k3 <~ vget K i3 ;;
  Returned (Z.lxor R0 k0, Z.lxor R1 k1, Z.lxor R2 k2, Z.lxor R3 k3).

(** The [do ... while (keyCtr != RNDCNT)] loop of Encrypt128. A pass
    indexes 32 fresh words of the key, so a run makes at most
    [length K] passes and then leaves the key; [fuel] bounds the passes
    and is never used up. *)
Fixpoint Encrypt128_loop (fuel : nat) (K : list Z) (RNDCNT keyCtr : Z) (R : quad)
    : outcome (Z * quad) :=
  match fuel with
  | O => Undefined
  | S fuel' =>
    R <~ AddKey K keyCtr (keyCtr +% 1) (keyCtr +% 2) (keyCtr +% 3) R ;;
    let R := LinearTransform (Sb0 R) in
    R <~ AddKey K (keyCtr +% 4) (keyCtr +% 5) (keyCtr +% 6) (keyCtr +% 7) R ;;
    let R := LinearTransform (Sb1 R) in
    R <~ AddKey K (keyCtr +% 8) (keyCtr +% 9) (keyCtr +% 10) (keyCtr +% 11) R ;;
    let R := LinearTransform (Sb2 R) in
    R <~ AddKey K (keyCtr +% 12) (keyCtr +% 13) (keyCtr +% 14) (keyCtr +% 15) R ;;
    let R := LinearTransform (Sb3 R) in
    R <~ AddKey K (keyCtr +% 16) (keyCtr +% 17) (keyCtr +% 18) (keyCtr +% 19) R ;;
    let R := LinearTransform (Sb4 R) in
    R <~ AddKey K (keyCtr +% 20) (keyCtr +% 21) (keyCtr +% 22) (keyCtr +% 23) R ;;
    let R := LinearTransform (Sb5 R) in
    R <~ AddKey K (keyCtr +% 24) (keyCtr +% 25) (keyCtr +% 26) (keyCtr +% 27) R ;;
    let R := LinearTransform (Sb6 R) in
    R <~ AddKey K (keyCtr +% 28) (keyCtr +% 29) (keyCtr +% 30) (keyCtr +% 31) R ;;
    let R := Sb7 R in
    let keyCtr := keyCtr +% 32 in
    let R := if negb (keyCtr =? RNDCNT) then LinearTransform R else R in
    if negb (keyCtr =? RNDCNT)
    then Encrypt128_loop fuel' K RNDCNT keyCtr R
    else Returned (keyCtr, R)
  end.

Definition Encrypt128 (m_expKey : list Z) (Input : list byte) (InOffset : Z)
    (Output : list byte) (OutOffset : Z) : outcome (list byte) :=
  let RNDCNT := size m_expKey -% 4 in
  let keyCtr := 0 in
  R0 <~ LeBytesTo32 Input InOffset ;;
  R1 <~ LeBytesTo32 Input (InOffset +% 4) ;;
  R2 <~ LeBytesTo32 Input (InOffset +% 8) ;;
  R3 <~ LeBytesTo32 Input (InOffset +% 12) ;;
  r <~ Encrypt128_loop (S (length m_expKey)) m_expKey RNDCNT keyCtr (R0, R1, R2, R3) ;;
  let '(keyCtr, (R0, R1, R2, R3)) := r in
  k0 <~ vget m_expKey keyCtr ;;
  Output <~ Le32ToBytes (Z.lxor k0 R0) Output OutOffset ;;
  k1 <~ vget m_expKey (keyCtr +% 1) ;;
  Output <~ Le32ToBytes (Z.lxor k1 R1) Output (OutOffset +% 4) ;;
  k2 <~ vget m_expKey (keyCtr +% 2) ;;
  Output <~ Le32ToBytes (Z.lxor k2 R2) Output (OutOffset +% 8) ;;
  k3 <~ vget m_expKey (keyCtr +% 3) ;;
  Le32ToBytes (Z.lxor k3 R3) Output (OutOffset +% 12).

(** The loop of Decrypt128; [fuel] as for Encrypt128. *)
Fixpoint Decrypt128_loop (fuel : nat) (K : list Z) (RNDCNT keyCtr : Z) (R : quad)
    : outcome (Z * quad) :=
  match fuel with
  | O => Undefined
  | S fuel' =>
    let R := Ib7 R in
    R <~ AddKey K (keyCtr -% 4) (keyCtr -% 3) (keyCtr -% 2) (keyCtr -% 1) R ;;
    let R := InverseTransform R in
    let R := Ib6 R in
    R <~ AddKey K (keyCtr -% 8) (keyCtr -% 7) (keyCtr -% 6) (keyCtr -% 5) R ;;
    let R := InverseTransform R in
    let R := Ib5 R in
    R <~ AddKey K (keyCtr -% 12) (keyCtr -% 11) (keyCtr -% 10) (keyCtr -% 9) R ;;
    let R := InverseTransform R in
    let R := Ib4 R in
    R <~ AddKey K (keyCtr -% 16) (keyCtr -% 15) (keyCtr -% 14) (keyCtr -% 13) R ;;
    let R := InverseTransform R in
    let R := Ib3 R in
    R <~ AddKey K (keyCtr -% 20) (keyCtr -% 19) (keyCtr -% 18) (keyCtr -% 17) R ;;
    let R := InverseTransform R in
    let R := Ib2 R in
    R <~ AddKey K (keyCtr -% 24) (keyCtr -% 23) (keyCtr -% 22) (keyCtr -% 21) R ;;
    let R := InverseTransform R in
    let R := Ib1 R in
    R <~ AddKey K (keyCtr -% 28) (keyCtr -% 27) (keyCtr -% 26) (keyCtr -% 25) R ;;
    let R := InverseTransform R in
    let R := Ib0 R in
    let keyCtr := keyCtr -% 28 in
    r <~ (if negb (keyCtr =? RNDCNT) then
            R <~ AddKey K (keyCtr -% 4) (keyCtr -% 3) (keyCtr -% 2) (keyCtr -% 1) R ;;
            Returned (keyCtr -% 4, InverseTransform R)
          else Returned (keyCtr, R)) ;;
    let '(keyCtr, R) := r in
    if negb (keyCtr =? RNDCNT)
    then Decrypt128_loop fuel' K RNDCNT keyCtr R
    else Returned (keyCtr, R)
  end.

Definition Decrypt128 (m_expKey : list Z) (Input : list byte) (InOffset : Z)
    (Output : list byte) (OutOffset : Z) : outcome (list byte) :=
  let RNDCNT := 4 in
  let keyCtr := size m_expKey in
  R3 <~ LeBytesTo32 Input (InOffset +% 12) ;;
  R2 <~ LeBytesTo32 Input (InOffset +% 8) ;;
  R1 <~ LeBytesTo32 Input (InOffset +% 4) ;;
  R0 <~ LeBytesTo32 Input InOffset ;;
  R <~ AddKey m_expKey (keyCtr -% 4) (keyCtr -% 3) (keyCtr -% 2) (keyCtr -% 1)
         (R0, R1, R2, R3) ;;
  let keyCtr := keyCtr -% 4 in
  r <~ Decrypt128_loop (S (length m_expKey)) m_expKey RNDCNT keyCtr R ;;
  let '(keyCtr, (R0, R1, R2, R3)) := r in
  k3 <~ vget m_expKey (keyCtr -% 1) ;;
  Output <~ Le32ToBytes (Z.lxor R3 k3) Output (OutOffset +% 12) ;;
  k2 <~ vget m_expKey (keyCtr -% 2) ;;
  Output <~ Le32ToBytes (Z.lxor R2 k2) Output (OutOffset +% 8) ;;
  k1 <~ vget m_expKey (keyCtr -% 3) ;;
  Output <~ Le32ToBytes (Z.lxor R1 k1) Output (OutOffset +% 4) ;;
  k0 <~ vget m_expKey (keyCtr -% 4) ;;
  Le32ToBytes (Z.lxor R0 k0) Output OutOffset.

(** *** Bulk paths *)

(** Modelled from the spec: the templates SHXEncryptW and SHXDecryptW are
    defined in Serpent.h, which is not under src/. Spec 4.3: a bulk call
    works on 4, 8 or 16 blocks held in SIMD words, with the same subkeys
    in every lane, and its result is that of the scalar transform on each
    block alone. The blocks are loaded, transformed lane by lane, and
    stored. *)
Fixpoint lanes_apply (f : list byte -> outcome (list byte)) (lanes : nat) (data : list byte)
    : outcome (list byte) :=
  match lanes with
  | O => Returned []
  | S n =>
    o <~ f (take 16 data) ;;
    rest <~ lanes_apply f n (drop 16 data) ;;
    Returned (o ++ rest)
  end.

Definition SHXEncryptW (lanes : nat) (Input : list byte) (InOffset : Z)
    (Output : list byte) (OutOffset : Z) (Key : list Z) : outcome (list byte) :=
  data <~ vread Input InOffset (16 * lanes) ;;
  res <~ lanes_apply (fun blk => Encrypt128 Key blk 0 (replicate 16 x00) 0) lanes data ;;
  vwrite Output OutOffset res.

Definition SHXDecryptW (lanes : nat) (Input : list byte) (InOffset : Z)
    (Output : list byte) (OutOffset : Z) (Key : list Z) : outcome (list byte) :=
  data <~ vread Input InOffset (16 * lanes) ;;
  res <~ lanes_apply (fun blk => Decrypt128 Key blk 0 (replicate 16 x00) 0) lanes data ;;
  vwrite Output OutOffset res.

(** Lane counts of [UInt128], [UInt256] and [UInt512] in 32-bit words. *)
Definition UInt128 : nat := 4.
Definition UInt256 : nat := 8.
Definition UInt512 : nat := 16.

(** The calls [f(Input, InOffset + d, Output, OutOffset + d)] written one
    after the other, for the [d] listed. *)
Definition calls (f : list byte -> Z -> list byte -> Z -> outcome (list byte))
    (ds : list Z) (Input : list byte) (InOffset : Z) (Output : list byte) (OutOffset : Z)
    : outcome (list byte) :=
  for_each (fun Out d => f Input (InOffset +% d) Out (OutOffset +% d)) ds Output.

Section Bulk.
Variable cfg : Simd.
Variable K : list Z.

Definition Encrypt512 (Input : list byte) (InOffset : Z) (Output : list byte) (OutOffset : Z)
    : outcome (list byte) :=
  if negb (AVX512 cfg) && negb (AVX2 cfg) && AVX cfg then
    SHXEncryptW UInt128 Input InOffset Output OutOffset K
  else
    calls (Encrypt128 K) [0; 16; 32; 48] Input InOffset Output OutOffset.

Definition Encrypt1024 (Input : list byte) (InOffset : Z) (Output : list byte) (OutOffset : Z)
    : outcome (list byte) :=
  if negb (AVX512 cfg) && AVX2 cfg then
    SHXEncryptW UInt256 Input InOffset Output OutOffset K
  else if negb (AVX512 cfg) && negb (AVX2 cfg) && AVX cfg then
    calls (fun I io O oo => SHXEncryptW UInt128 I io O oo K) [0; 64]
          Input InOffset Output OutOffset
  else
    calls (Encrypt128 K) [0; 16; 32; 48; 64; 80; 96; 112] Input InOffset Output OutOffset.

Definition Encrypt2048 (Input : list byte) (InOffset : Z) (Output : list byte) (OutOffset : Z)
    : outcome (list byte) :=
  if AVX512 cfg then
    SHXEncryptW UInt512 Input InOffset Output OutOffset K
  else if negb (AVX512 cfg) && AVX2 cfg then
    calls (fun I io O oo => SHXEncryptW UInt256 I io O oo K) [0; 128]
          Input InOffset Output OutOffset
  else if negb (AVX512 cfg) && negb (AVX2 cfg) && AVX cfg then
    calls (fun I io O oo => SHXEncryptW UInt128 I io O oo K) [0; 64; 128; 192]
          Input InOffset Output OutOffset
  else
    calls (Encrypt128 K)
          [0; 16; 32; 48; 64; 80; 96; 112; 128; 144; 160; 176; 192; 208; 224; 240]
          Input InOffset Output OutOffset.

Definition Decrypt512 (Input : list byte) (InOffset : Z) (Output : list byte) (OutOffset : Z)
    : outcome (list byte) :=
  if negb (AVX512 cfg) && negb (AVX2 cfg) && AVX cfg then
    SHXDecryptW UInt128 Input InOffset Output OutOffset K
  else
    calls (Decrypt128 K) [0; 16; 32; 48] Input InOffset Output OutOffset.

Definition Decrypt1024 (Input : list byte) (InOffset : Z) (Output : list byte) (OutOffset : Z)
    : outcome (list byte) :=
  if negb (AVX512 cfg) && AVX2 cfg then
    SHXDecryptW UInt256 Input InOffset Output OutOffset K
  else if negb (AVX512 cfg) && negb (AVX2 cfg) && AVX cfg then
    calls (fun I io O oo => SHXDecryptW UInt128 I io O oo K) [0; 64]
          Input InOffset Output OutOffset
  else
    calls (Decrypt128 K) [0; 16; 32; 48; 64; 80; 96; 112] Input InOffset Output OutOffset.

Definition Decrypt2048 (Input : list byte) (InOffset : Z) (Output : list byte) (OutOffset : Z)
    : outcome (list byte) :=
  if AVX512 cfg then
    SHXDecryptW UInt512 Input InOffset Output OutOffset K
  else if negb (AVX512 cfg) && AVX2 cfg then
    calls (fun I io O oo => SHXDecryptW UInt256 I io O oo K) [0; 128]
          Input InOffset Output OutOffset
  else if negb (AVX512 cfg) && negb (AVX2 cfg) && AVX cfg then
    calls (fun I io O oo => SHXDecryptW UInt128 I io O oo K) [0; 64; 128; 192]
          Input InOffset Output OutOffset
  else
    calls (Decrypt128 K)
          [0; 16; 32; 48; 64; 80; 96; 112; 128; 144; 160; 176; 192; 208; 224; 240]
          Input InOffset Output OutOffset.
End Bulk.

(** *** Public functions *)

Definition EncryptBlock (s : t) (Input Output : list byte) : outcome (list byte) :=
  Encrypt128 (m_expKey s) Input 0 Output 0.

Definition DecryptBlock (s : t) (Input Output : list byte) : outcome (list byte) :=
  Decrypt128 (m_expKey s) Input 0 Output 0.

Definition Transform (s : t) (Input : list byte) (InOffset : Z)
    (Output : list byte) (OutOffset : Z) : outcome (list byte) :=
  if m_isEncryption s
  then Encrypt128 (m_expKey s) Input InOffset Output OutOffset
  else Decrypt128 (m_expKey s) Input InOffset Output OutOffset.

Definition Transform512 (cfg : Simd) (s : t) (Input : list byte) (InOffset : Z)
    (Output : list byte) (OutOffset : Z) : outcome (list byte) :=
  if m_isEncryption s
  then Encrypt512 cfg (m_expKey s) Input InOffset Output OutOffset
  else Decrypt512 cfg (m_expKey s) Input InOffset Output OutOffset.

Definition Transform1024 (cfg : Simd) (s : t) (Input : list byte) (InOffset : Z)
    (Output : list byte) (OutOffset : Z) : outcome (list byte) :=
  if m_isEncryption s
  then Encrypt1024 cfg (m_expKey s) Input InOffset Output OutOffset
  else Decrypt1024 cfg (m_expKey s) Input InOffset Output OutOffset.

Definition Transform2048 (cfg : Simd) (s : t) (Input : list byte) (InOffset : Z)
    (Output : list byte) (OutOffset : Z) : outcome (list byte) :=
  if m_isEncryption s
  then Encrypt2048 cfg (m_expKey s) Input InOffset Output OutOffset
  else Decrypt2048 cfg (m_expKey s) Input InOffset Output OutOffset.

(** The scalar transform applied to each of [n] consecutive blocks on its
    own: block [i] of the result is what [Transform] writes for block [i]
    of the input, in a buffer of its own. *)
Definition Transform_blockwise (s : t) (n : nat) (Input : list byte) (InOffset : Z)
    (Output : list byte) (OutOffset : Z) : outcome (list byte) :=
  data <~ vread Input InOffset (16 * n) ;;
  res <~ lanes_apply (fun blk => Transform s blk 0 (replicate 16 x00) 0) n data ;;
  vwrite Output OutOffset res.


(** *** The other accessors and overloads *)

Definition BlockSize (s : t) : Z := BLOCK_SIZE.
Definition DistributionCode (s : t) : list byte := m_kdfInfo s.
Definition DistributionCodeMax (s : t) : Z := m_kdfInfoMax s.
Definition KdfEngine (s : t) : Digests.t := m_kdfEngineType s.
Definition LegalRounds (s : t) : list Z := m_legalRounds s.

(** [EncryptBlock(Input, InOffset, Output, OutOffset)] and
    [DecryptBlock(Input, InOffset, Output, OutOffset)]. *)
Definition EncryptBlockAt (s : t) (Input : list byte) (InOffset : Z)
    (Output : list byte) (OutOffset : Z) : outcome (list byte) :=
  Encrypt128 (m_expKey s) Input InOffset Output OutOffset.

Definition DecryptBlockAt (s : t) (Input : list byte) (InOffset : Z)
    (Output : list byte) (OutOffset : Z) : outcome (list byte) :=
  Decrypt128 (m_expKey s) Input InOffset Output OutOffset.

End SHX.

(** ** CSG: the left_encode of the cSHAKE customisation (CSG.h) *)

Module CSG.

(** [sizeof(size_t)] on the 64-bit targets of the library. *)
Definition sizeof_size_t : Z := 8.

(** [for (v = Value, n = 0; v && (n < sizeof(size_t)); ++n, v >>= 8);]
    The test fails once [n] has reached 8, so 8 passes are all a run can
    make. *)
Fixpoint CountBytes (fuel : nat) (v n : Z) : Z :=
  match fuel with
  | O => n
  | S fuel' =>
    if negb (v =? 0) && (n <? sizeof_size_t)
    then CountBytes fuel' (Z.shiftr v 8) (n +% 1)
    else n
  end.

Definition LeftEncode (Buffer : list byte) (Offset Value : Z) : outcome (list byte * Z) :=
  let n := CountBytes 8 Value 0 in
  let n := if n =? 0 then 1 else n in
  Buffer <~ for_each
              (fun B i => vset B (Offset +% i) (byte_of_Z (Z.shiftr Value (8 *% (n -% i)))))
              (seqZ 1 n) Buffer ;;
  Buffer <~ vset Buffer Offset (byte_of_Z n) ;;
  Returned (Buffer, n +% 1).


Definition sizeof_ulong : Z := 8.

(** [AbsorbBlock]: [State[i] ^= LeBytesTo64(Input, InOffset + i * 8)] for
    [i < Length / sizeof(ulong)]. *)
Definition AbsorbBlock (Input : list byte) (InOffset Length : Z) (State : list Z)
    : outcome (list Z) :=
  for_each
    (fun St i =>
       w <~ IntUtils.LeBytesTo64 Input (InOffset +% (i *% sizeof_ulong)) ;;
       x <~ vget St i ;;
       vset St i (Z.lxor x w))
    (seqZ 0 (Length / sizeof_ulong)) State.

End CSG.

(** ** KDF2 (KDF2.cpp) *)

Module IDigest.
(** Modelled from the spec: the digests are not under src/. A digest is
    taken as an interface: byte [i] of the hash of a message. KDF2 holds
    a digest object; the bytes passed to [Update] since the last
    [Finalize] or [Reset] are its state. *)
Class Hash : Type := digest : Digests.t -> list byte -> nat -> byte.

Definition Finalize `{Hash} (d : Digests.t) (message : list byte) (hashSize : Z) : list byte :=
  map (digest d message) (seq 0 (Z.to_nat hashSize)).
End IDigest.

Module KDF2.
Import IntUtils DigestFromName.

(** Modelled from the spec: KDF2.h is not under src/; the minimum salt
    length is the 4 bytes of the exception's message. *)
Definition MIN_SALTLEN : Z := 4.
Definition sizeof_uint : Z := 4.

Record t : Type := mk
  { m_msgDigest : list byte;
    m_blockSize : Z;
    m_hashSize : Z;
    m_isInitialized : bool;
    m_kdfCounter : Z;
    m_kdfDigestType : Digests.t;
    m_kdfKey : list byte;
    m_kdfSalt : list byte;
    m_legalKeySizes : list SymmetricKeySize }.

Definition set_msgDigest (s : t) (v : list byte) : t :=
  mk v (m_blockSize s) (m_hashSize s) (m_isInitialized s) (m_kdfCounter s)
     (m_kdfDigestType s) (m_kdfKey s) (m_kdfSalt s) (m_legalKeySizes s).
Definition set_isInitialized (s : t) (v : bool) : t :=
  mk (m_msgDigest s) (m_blockSize s) (m_hashSize s) v (m_kdfCounter s)
     (m_kdfDigestType s) (m_kdfKey s) (m_kdfSalt s) (m_legalKeySizes s).
Definition set_kdfCounter (s : t) (v : Z) : t :=
  mk (m_msgDigest s) (m_blockSize s) (m_hashSize s) (m_isInitialized s) v
     (m_kdfDigestType s) (m_kdfKey s) (m_kdfSalt s) (m_legalKeySizes s).
Definition set_kdfKey (s : t) (v : list byte) : t :=
  mk (m_msgDigest s) (m_blockSize s) (m_hashSize s) (m_isInitialized s) (m_kdfCounter s)
     (m_kdfDigestType s) v (m_kdfSalt s) (m_legalKeySizes s).
Definition set_kdfSalt (s : t) (v : list byte) : t :=
  mk (m_msgDigest s) (m_blockSize s) (m_hashSize s) (m_isInitialized s) (m_kdfCounter s)
     (m_kdfDigestType s) (m_kdfKey s) v (m_legalKeySizes s).
Definition set_legalKeySizes (s : t) (v : list SymmetricKeySize) : t :=
  mk (m_msgDigest s) (m_blockSize s) (m_hashSize s) (m_isInitialized s) (m_kdfCounter s)
     (m_kdfDigestType s) (m_kdfKey s) (m_kdfSalt s) v.

Definition LoadState (s : t) : t :=
  let saltLen := m_blockSize s -% (GetPaddingSize (m_kdfDigestType s) +% sizeof_uint) in
  set_legalKeySizes s
    [mkSymmetricKeySize (m_hashSize s) 0 0;
     mkSymmetricKeySize (m_blockSize s) saltLen 0;
     mkSymmetricKeySize (m_blockSize s) saltLen (m_blockSize s)].

(** Constructor [KDF2(Digests DigestType)]. *)
Definition new (DigestType : Digests.t) : outcome t :=
  if negb (Digests.eqb DigestType Digests.None) then
    Returned
      (LoadState
         {| m_msgDigest := []; m_blockSize := GetBlockSize DigestType;
            m_hashSize := GetDigestSize DigestType; m_isInitialized := false;
            m_kdfCounter := 1; m_kdfDigestType := DigestType;
            m_kdfKey := []; m_kdfSalt := []; m_legalKeySizes := [] |})
  else Thrown "KDF2:CTor" "Digest type can not be none!".

Definition Reset (s : t) : t :=
  let s := set_msgDigest s [] in
  let s := set_kdfCounter s 1 in
  let s := set_kdfKey s [] in
  let s := set_kdfSalt s [] in
  set_isInitialized s false.

(** The [do ... while (prcLen != 0)] loop of Expand. A pass takes
    [Min(m_hashSize, prcLen)] bytes off [prcLen]; with a digest of one
    byte or more, [Length] passes and one more for [Length = 0] are all
    a run can make. *)
Fixpoint Expand_loop `{IDigest.Hash} (fuel : nat) (s : t) (Output : list byte)
    (OutOffset prcLen : Z) : outcome (t * list byte) :=
  match fuel with
  | O => Undefined
  | S fuel' =>
    let c := m_kdfCounter s in
    let message :=
      m_msgDigest s ++ m_kdfKey s
      ++ [byte_of_Z (Z.shiftr c 24); byte_of_Z (Z.shiftr c 16);
          byte_of_Z (Z.shiftr c 8); byte_of_Z c] in
    let message := if negb (size (m_kdfSalt s) =? 0) then message ++ m_kdfSalt s
                   else message in
    let hash := IDigest.Finalize (m_kdfDigestType s) message (m_hashSize s) in
    let s := set_msgDigest s [] in
    let s := set_kdfCounter s (wrap32 (m_kdfCounter s + 1)) in
    let prcRmd := Min (m_hashSize s) prcLen in
    Output <~ Copy 1 hash 0 Output OutOffset prcRmd ;;
    let prcLen := prcLen -% prcRmd in
    let OutOffset := OutOffset +% prcRmd in
    if negb (prcLen =? 0)
    then Expand_loop fuel' s Output OutOffset prcLen
    else Returned (s, Output)
  end.

(** [Expand]. [Length / m_hashSize] with a digest size of 0 is a division
    by zero, which C++ leaves undefined; so it is in the two [Generate]. *)
Definition Expand `{IDigest.Hash} (s : t) (Output : list byte) (OutOffset Length : Z)
    : outcome (t * list byte * Z) :=
  if m_hashSize s =? 0 then Undefined
  else if m_kdfCounter s +% (Length / m_hashSize s) >? 255 then
    Thrown "KDF2:Expand" "Maximum length value is 255 * the digest return size!"
  else
    r <~ Expand_loop (S (Z.to_nat Length)) s Output OutOffset Length ;;
    Returned (r, Length).

(** [Generate(Output)]; the two [CexAssert] are taken as checked. *)
Definition Generate `{IDigest.Hash} (s : t) (Output : list byte)
    : outcome (t * list byte * Z) :=
  if negb (m_isInitialized s) then
    Asserted "the generator must be initialized before use"
  else if negb (negb (size Output =? 0)) then
    Asserted "the output buffer too small"
  else if m_hashSize s =? 0 then Undefined
  else if m_kdfCounter s +% (size Output / m_hashSize s) >? 255 then
    Thrown "KDF2:Generate" "KDF2 may only be used for 255 * HashLen bytes of output"
  else Expand s Output 0 (size Output).

(** [Generate(Output, OutOffset, Length)]. *)
Definition GenerateAt `{IDigest.Hash} (s : t) (Output : list byte) (OutOffset Length : Z)
    : outcome (t * list byte * Z) :=
  if negb (m_isInitialized s) then
    Asserted "the generator must be initialized before use"
  else if negb (negb (size Output =? 0)) then
    Asserted "the output buffer too small"
  else if m_hashSize s =? 0 then Undefined
  else if m_kdfCounter s +% (Length / m_hashSize s) >? 255 then
    Thrown "KDF2:Generate" "KDF2 may only be used for 255 * HashLen bytes of output"
  else Expand s Output OutOffset Length.

(** [Initialize(const std::vector<byte> &Key)]. *)
Definition Initialize (s : t) (Key : list byte) : outcome t :=
  if size Key <? m_hashSize s then
    Thrown "KDF2:Initialize"
           "Salt size is too small; must be a minumum of digest return size!"
  else
    let s := if m_isInitialized s then Reset s else s in
    s <~ (if size Key <=? m_blockSize s then
            let kdfKey := resize_to x00 (m_kdfKey s) (m_blockSize s) in
            kdfKey <~ Copy 1 Key 0 kdfKey 0 (size Key) ;;
            Returned (set_kdfKey s kdfKey)
          else
            let kdfKey := resize_to x00 (m_kdfKey s) (m_blockSize s) in
            kdfKey <~ Copy 1 Key 0 kdfKey 0 (m_blockSize s) ;;
            let s := set_kdfKey s kdfKey in
            let kdfSalt := resize_to x00 (m_kdfSalt s) (size Key -% m_blockSize s) in
            kdfSalt <~ Copy 1 Key (m_blockSize s) kdfSalt 0 (size kdfSalt) ;;
            Returned (set_kdfSalt s kdfSalt)) ;;
    Returned (set_isInitialized s true).

(** [Initialize(Key, Salt)]. *)
Definition Initialize2 (s : t) (Key Salt : list byte) : outcome t :=
  if size Key <? m_hashSize s then
    Thrown "KDF2:Initialize"
           "Key size is too small; must be a minumum of digest return size!"
  else if size Salt <? MIN_SALTLEN then
    Thrown "KDF2:Initialize" "Salt size is too small; must be a minumum of 4 bytes!"
  else
    let s := if m_isInitialized s then Reset s else s in
    let kdfKey := resize_to x00 (m_kdfKey s) (size Key) in
    kdfKey <~ Copy 1 Key 0 kdfKey 0 (size Key) ;;
    let s := set_kdfKey s kdfKey in
    s <~ (if size Salt >? 0 then
            let kdfSalt := resize_to x00 (m_kdfSalt s) (size Salt) in
            kdfSalt <~ Copy 1 Salt 0 kdfSalt 0 (size Salt) ;;
            Returned (set_kdfSalt s kdfSalt)
          else Returned s) ;;
    Returned (set_isInitialized s true).

(** [Initialize(Key, Salt, Info)]. *)
Definition Initialize3 (s : t) (Key Salt Info : list byte) : outcome t :=
  if size Key <? m_hashSize s then
    Thrown "KDF2:Initialize"
           "Key size is too small; must be a minumum of digest return size!"
  else if size Salt <? MIN_SALTLEN then
    Thrown "KDF2:Initialize" "Salt size is too small; must be a minumum of 4 bytes!"
  else
    let s := if m_isInitialized s then Reset s else s in
    let kdfKey := resize_to x00 (m_kdfKey s) (size Key) in
    kdfKey <~ Copy 1 Key 0 kdfKey 0 (size Key) ;;
    let s := set_kdfKey s kdfKey in
    s <~ (if size Salt >? 0 then
            let kdfSalt := resize_to x00 (m_kdfSalt s) (size Salt +% size Info) in
            kdfSalt <~ Copy 1 Salt 0 kdfSalt 0 (size Salt) ;;
            kdfSalt <~ (if size Info >? 0
                        then Copy 1 Info 0 kdfSalt (size Salt) (size Info)
                        else Returned kdfSalt) ;;
            Returned (set_kdfSalt s kdfSalt)
          else Returned s) ;;
    Returned (set_isInitialized s true).

(** [Initialize(ISymmetricKey &GenParam)]. *)
Definition InitializeKey (s : t) (GenParam : ISymmetricKey) : outcome t :=
  if negb (size (Nonce GenParam) =? 0) then
    if negb (size (Info GenParam) =? 0)
    then Initialize3 s (Key GenParam) (Nonce GenParam) (Info GenParam)
    else Initialize2 s (Key GenParam) (Nonce GenParam)
  else Initialize s (Key GenParam).

Definition ReSeed (s : t) (Seed : list byte) : outcome t :=
  if size Seed <? m_hashSize s then Thrown "KDF2:Update" "Seed is too small!"
  else Initialize s Seed.

(** The states a KDF2 object can be in: those its member functions lead
    to from a constructed object. *)
Inductive reachable `{IDigest.Hash} : t -> Prop :=
| reach_new d s : new d = Returned s -> reachable s
| reach_Initialize s Key s' :
    reachable s -> Initialize s Key = Returned s' -> reachable s'
| reach_Initialize2 s Key Salt s' :
    reachable s -> Initialize2 s Key Salt = Returned s' -> reachable s'
| reach_Initialize3 s Key Salt Info s' :
    reachable s -> Initialize3 s Key Salt Info = Returned s' -> reachable s'
| reach_Generate s Output s' Output' n :
    reachable s -> Generate s Output = Returned (s', Output', n) -> reachable s'
| reach_GenerateAt s Output off len s' Output' n :
    reachable s -> GenerateAt s Output off len = Returned (s', Output', n) -> reachable s'
| reach_Reset s : reachable s -> reachable (Reset s).

(** A run of [Generate] calls, one per requested output length: the
    vectors they fill. *)
Fixpoint Generate_all `{IDigest.Hash} (s : t) (lengths : list nat)
    : outcome (list (list byte)) :=
  match lengths with
  | [] => Returned []
  | n :: rest =>
    r <~ Generate s (replicate n x00) ;;
    let '(s, Output, _) := r in
    outs <~ Generate_all s rest ;;
    Returned (Output :: outs)
  end.


(** Accessors. *)
Definition IsInitialized (s : t) : bool := m_isInitialized s.
Definition MinKeySize (s : t) : Z := m_blockSize s.
Definition LegalKeySizes (s : t) : list SymmetricKeySize := m_legalKeySizes s.

End KDF2.

(** ** StreamWriter (StreamWriter.h) *)

Module StreamWriter.
Import IntUtils.

(** The integer types a value or an array is written with. *)
Inductive IntType : Set := UInt8 | UInt16 | UInt32 | UInt64.

Definition sizeof (T : IntType) : Z :=
  match T with UInt8 => 1 | UInt16 => 2 | UInt32 => 4 | UInt64 => 8 end.

(** The byte order of the machine the library is built for. *)
Inductive Endian : Set := LittleEndian | BigEndian.

(** The bytes a value of type [T] occupies in memory. *)
Definition object_bytes (host : Endian) (T : IntType) (v : Z) : list byte :=
  match host with
  | LittleEndian => le_encode (Z.to_nat (sizeof T)) v
  | BigEndian => be_encode (Z.to_nat (sizeof T)) v
  end.

(** Modelled from the spec: IntUtils.h and MemUtils.h are not under src/.
    [LeToBlock] stores [Length / sizeof(T)] elements of an array of [T]
    as little-endian bytes; [CopyArray] is [MemUtils::Copy] from an array
    of [T] to bytes, a [memcpy] of [Length] bytes of the elements as they
    lie in memory; [CopyFromValue] is the [memcpy] of the first [Length]
    bytes of one value. *)
Definition LeToBlock (T : IntType) (Input : list Z) (InOffset : Z)
    (Output : list byte) (OutOffset Length : Z) : outcome (list byte) :=
  xs <~ vread Input InOffset (Z.to_nat (Length / sizeof T)) ;;
  vwrite Output OutOffset (concat (map (le_encode (Z.to_nat (sizeof T))) xs)).

Definition CopyArray (host : Endian) (T : IntType) (Input : list Z) (InOffset : Z)
    (Output : list byte) (OutOffset Length : Z) : outcome (list byte) :=
  xs <~ vread Input InOffset (Z.to_nat (Length / sizeof T)) ;;
  vwrite Output OutOffset (concat (map (object_bytes host T) xs)).

Definition CopyFromValue (host : Endian) (T : IntType) (Value : Z)
    (Output : list byte) (OutOffset Length : Z) : outcome (list byte) :=
  vwrite Output OutOffset (take (Z.to_nat Length) (object_bytes host T Value)).

Record t : Type := mk { m_streamPosition : Z; m_streamState : list byte }.

(** [StreamWriter(size_t Length)]. *)
Definition new (Length : Z) : t :=
  {| m_streamPosition := 0; m_streamState := replicate (Z.to_nat Length) x00 |}.

Definition Position (s : t) : Z := m_streamPosition s.
Definition GetBytes (s : t) : list byte := m_streamState s.

Section Host.
Variable host : Endian.

(** [Write(const std::vector<T> &Input)]. *)
Definition WriteVector (T : IntType) (s : t) (Input : list Z) : outcome t :=
  let INPSZE := size Input *% sizeof T in
  let state :=
    if m_streamPosition s +% INPSZE >? size (m_streamState s)
    then resize_to x00 (m_streamState s) (m_streamPosition s +% INPSZE)
    else m_streamState s in
  state <~ LeToBlock T Input 0 state (m_streamPosition s) INPSZE ;;
  Returned {| m_streamPosition := m_streamPosition s +% INPSZE; m_streamState := state |}.

(** [Write(const Array &Input, size_t InOffset, size_t Elements)]. The
    block that holds [MemUtils::Copy] follows the [if] without an
    [else]: it runs for every element size. *)
Definition WriteArray (T : IntType) (s : t) (Input : list Z) (InOffset Elements : Z)
    : outcome t :=
  let INPSZE := sizeof T *% Elements in
  let state :=
    if m_streamPosition s +% INPSZE >? size (m_streamState s)
    then resize_to x00 (m_streamState s) (m_streamPosition s +% INPSZE)
    else m_streamState s in
  state <~ (if sizeof T >? 1
            then LeToBlock T Input InOffset state (m_streamPosition s) INPSZE
            else Returned state) ;;
  state <~ CopyArray host T Input InOffset state (m_streamPosition s) INPSZE ;;
  Returned {| m_streamPosition := m_streamPosition s +% INPSZE; m_streamState := state |}.

(** [Write(T Value)]. *)
Definition Write (T : IntType) (s : t) (Value : Z) : outcome t :=
  let VALSZE := sizeof T in
  let state :=
    if m_streamPosition s +% VALSZE >? size (m_streamState s)
    then resize_to x00 (m_streamState s) (m_streamPosition s +% VALSZE)
    else m_streamState s in
  state <~ (if VALSZE =? 8 then Le64ToBytes Value state (m_streamPosition s)
            else if VALSZE =? 4 then Le32ToBytes Value state (m_streamPosition s)
            else if VALSZE =? 2 then Le16ToBytes Value state (m_streamPosition s)
            else CopyFromValue host T Value state (m_streamPosition s) 1) ;;
  Returned {| m_streamPosition := m_streamPosition s +% VALSZE; m_streamState := state |}.
End Host.

End StreamWriter.

(** ** TestUtils (Test/TestUtils.h) *)

Module TestUtils.

(** [IsEqual(A, B)]: the loop walks down from the last index; [fuel]
    bounds its passes by the length of [A] and is never used up. *)
Fixpoint IsEqual_loop (fuel : nat) (A B : list byte) (i : Z) : outcome bool :=
  match fuel with
  | O => Undefined
  | S fuel' =>
    if negb (i =? 0) then
      let i := i -% 1 in
      a <~ vget A i ;;
      b <~ vget B i ;;
      if negb (byte_to_Z a =? byte_to_Z b) then Returned false
      else IsEqual_loop fuel' A B i
    else Returned true
  end.

Definition IsEqual (A B : list byte) : outcome bool :=
  let i := size A in
  if negb (i =? size B) then Returned false
  else IsEqual_loop (S (length A)) A B i.

(** [Reduce(Seed)]: [len] and [i] are [unsigned int]. *)
Definition Reduce (Seed : list byte) : outcome (list byte) :=
  let len := wrap32 (size Seed / 2) in
  let data := replicate (Z.to_nat len) x00 in
  for_each
    (fun data i =>
       a <~ vget Seed i ;;
       b <~ vget Seed (wrap32 (len + i)) ;;
       vset data i (byte_of_Z (Z.lxor (byte_to_Z a) (byte_to_Z b))))
    (seqZ 0 len) data.

End TestUtils.

(** * Functional descriptions used in the proofs

    The definitions below are not taken from the source: they describe, as
    plain functions, what the loops of the source compute, and the
    properties are stated through them. *)

Definition quad_ok (q : Serpent.quad) : Prop :=
  let '(a, b, c, d) := q in word32 a /\ word32 b /\ word32 c /\ word32 d.

(** A table and its inverse: values below 16, and [inv] undoes [tbl]. *)
Definition inverse_tables (tbl inv : list Z) : bool :=
  forallb
    (fun n =>
       let v := Serpent.lookup_box tbl n in
       (0 <=? v) && (v <? 16) && (Serpent.lookup_box inv v =? n))
    (seqZ 0 16).

(** [v] with the run [xs] put in place from index [off] on. *)
Definition splice {A : Type} (v : list A) (off : nat) (xs : list A) : list A :=
  take off v ++ xs ++ drop (off + length xs) v.

(** The four words of a state xored with the key words [K[c .. c + 3]]. *)
Definition xor4 (K : list Z) (c : Z) (R : Serpent.quad) : Serpent.quad :=
  let '(R0, R1, R2, R3) := R in
  (Z.lxor R0 (word_at K c), Z.lxor R1 (word_at K (c + 1)),
   Z.lxor R2 (word_at K (c + 2)), Z.lxor R3 (word_at K (c + 3))).

(** Eight rounds on the key words from [c] on, the linear transform of the
    eighth left out. *)
Definition enc_octet (K : list Z) (c : Z) (R : Serpent.quad) : Serpent.quad :=
  let R := Serpent.LinearTransform (Serpent.Sb0 (xor4 K c R)) in
  let R := Serpent.LinearTransform (Serpent.Sb1 (xor4 K (c + 4) R)) in
  let R := Serpent.LinearTransform (Serpent.Sb2 (xor4 K (c + 8) R)) in
  let R := Serpent.LinearTransform (Serpent.Sb3 (xor4 K (c + 12) R)) in
  let R := Serpent.LinearTransform (Serpent.Sb4 (xor4 K (c + 16) R)) in
  let R := Serpent.LinearTransform (Serpent.Sb5 (xor4 K (c + 20) R)) in
  let R := Serpent.LinearTransform (Serpent.Sb6 (xor4 K (c + 24) R)) in
  Serpent.Sb7 (xor4 K (c + 28) R).

(** The inverse rounds 7 down to 0 on the key words from [c] on, the key
    words of round 0 left out. *)
Definition dec_octet (K : list Z) (c : Z) (R : Serpent.quad) : Serpent.quad :=
  let R := Serpent.InverseTransform (xor4 K (c + 28) (Serpent.Ib7 R)) in
  let R := Serpent.InverseTransform (xor4 K (c + 24) (Serpent.Ib6 R)) in
  let R := Serpent.InverseTransform (xor4 K (c + 20) (Serpent.Ib5 R)) in
  let R := Serpent.InverseTransform (xor4 K (c + 16) (Serpent.Ib4 R)) in
  let R := Serpent.InverseTransform (xor4 K (c + 12) (Serpent.Ib3 R)) in
  let R := Serpent.InverseTransform (xor4 K (c + 8) (Serpent.Ib2 R)) in
  let R := Serpent.InverseTransform (xor4 K (c + 4) (Serpent.Ib1 R)) in
  Serpent.Ib0 R.

(** [m + 1] groups of eight rounds, the first on the key words from [c]. *)
Fixpoint enc_from (K : list Z) (c : Z) (m : nat) (R : Serpent.quad) : Serpent.quad :=
  match m with
  | O => enc_octet K c R
  | S m' => enc_from K (c + 32) m' (Serpent.LinearTransform (enc_octet K c R))
  end.

(** [m + 1] groups of eight inverse rounds, the first on the key words from
    [c], the next ones below. *)
Fixpoint dec_from (K : list Z) (c : Z) (m : nat) (R : Serpent.quad) : Serpent.quad :=
  match m with
  | O => dec_octet K c R
  | S m' => dec_from K (c - 32) m' (Serpent.InverseTransform (xor4 K c (dec_octet K c R)))
  end.

Definition load_quad (blk : list byte) : Serpent.quad :=
  (IntUtils.le_decode (take 4 blk), IntUtils.le_decode (take 4 (drop 4 blk)),
   IntUtils.le_decode (take 4 (drop 8 blk)), IntUtils.le_decode (take 4 (drop 12 blk))).

Definition store_quad (q : Serpent.quad) : list byte :=
  let '(a, b, c, d) := q in
  IntUtils.le_encode 4 a ++ IntUtils.le_encode 4 b
  ++ IntUtils.le_encode 4 c ++ IntUtils.le_encode 4 d.

(** An expanded key for [8 * (m + 1)] rounds. *)
Definition key_for (m : nat) (K : list Z) : Prop :=
  size K = 32 * (Z.of_nat m + 1) + 4 /\ size K < 2 ^ 64 /\ Forall word32 K.

(** What Encrypt128 and Decrypt128 compute on one block with such a key. *)
Definition enc_block (m : nat) (K : list Z) (blk : list byte) : list byte :=
  store_quad (xor4 K (size K - 4) (enc_from K 0 m (load_quad blk))).

Definition dec_block (m : nat) (K : list Z) (blk : list byte) : list byte :=
  store_quad
    (xor4 K 0 (dec_from K (size K - 36) m (xor4 K (size K - 4) (load_quad blk)))).

(** What is left to undo below the key index [c] once a group of eight
    rounds has been undone: nothing but the key words of round 0, or [i]
    further groups. *)
Definition dec_rest (K : list Z) (i : nat) (c : Z) (R : Serpent.quad) : Serpent.quad :=
  match i with
  | O => xor4 K c R
  | S i' => dec_from K (c - 32) i' (Serpent.InverseTransform R)
  end.

(** The word the standard polynomial puts at index [i]: the words 8, 5, 3
    and 1 places below, the constant PHI and the counter [c], xored and
    rotated left by 11. *)
Definition poly8 (W : list Z) (i c : Z) : Z :=
  IntUtils.RotL32
    (wrap32
       (Z.lxor (Z.lxor (Z.lxor (Z.lxor (Z.lxor
          (word_at W (i - 8)) (word_at W (i - 5))) (word_at W (i - 3)))
          (word_at W (i - 1))) SHX.PHI) c)) 11.

(** The same for the extended polynomial: the words 16, 13, 11, 10, 8, 5, 3
    and 1 places below. *)
Definition poly16 (W : list Z) (i c : Z) : Z :=
  IntUtils.RotL32
    (wrap32
       (Z.lxor (Z.lxor (Z.lxor (Z.lxor (Z.lxor (Z.lxor (Z.lxor (Z.lxor (Z.lxor
          (word_at W (i - 16)) (word_at W (i - 13))) (word_at W (i - 11)))
          (word_at W (i - 10))) (word_at W (i - 8))) (word_at W (i - 5)))
          (word_at W (i - 3))) (word_at W (i - 1))) SHX.PHI) c)) 11.

(** Key word [t] of a key read from its end: the four bytes that end
    [4 * t] bytes before the end, most significant byte first. *)
Definition key_word (Key : list byte) (t : Z) : Z :=
  IntUtils.be_decode (take 4 (drop (Z.to_nat (size Key - 4 * (t + 1))) Key)).

(** The words of the standard schedule before the S-boxes, for a key of
    up to 32 bytes: [Wp] holds the key words, the padding and eight words
    of the polynomial; [Wk] starts with those eight and goes on with the
    polynomial, the counter being the index. *)
Definition prekey8 (Key : list byte) (Wp Wk : list Z) : Prop :=
  let n := size Key / 4 in
  size Wp = 16
  /\ (forall t, 0 <= t < n -> word_at Wp t = key_word Key t)
  /\ (n < 8 -> word_at Wp n = 1)
  /\ (forall t, n < t < 8 -> word_at Wp t = 0)
  /\ (forall i, 8 <= i < 16 -> word_at Wp i = poly8 Wp i (i - 8))
  /\ (forall i, 0 <= i < 8 -> word_at Wk i = word_at Wp (i + 8))
  /\ (forall i, 8 <= i < size Wk -> word_at Wk i = poly8 Wk i i).

(** The same for a 64-byte key and the extended polynomial. *)
Definition prekey16 (Key : list byte) (Wp Wk : list Z) : Prop :=
  size Wp = 32
  /\ (forall t, 0 <= t < 16 -> word_at Wp t = key_word Key t)
  /\ (forall i, 16 <= i < 32 -> word_at Wp i = poly16 Wp i (i - 16))
  /\ (forall i, 0 <= i < 16 -> word_at Wk i = word_at Wp (i + 16))
  /\ (forall i, 16 <= i < size Wk -> word_at Wk i = poly16 Wk i i).

(** ** Runs of blocks

    The byte offsets [b, b + w, ...] of [k] calls one after the other, and
    the images under [g] of [n] consecutive 16-byte blocks of a buffer. *)
Fixpoint offsets (b w : Z) (k : nat) : list Z :=
  match k with
  | O => []
  | S k' => b :: offsets (b + w) w k'
  end.

Fixpoint blocks (g : list byte -> list byte) (Input : list byte) (off n : nat) : list byte :=
  match n with
  | O => []
  | S n' => g (take 16 (drop off Input)) ++ blocks g Input (off + 16) n'
  end.

(** What Transform computes on one block, by the direction of the
    instance. *)
Definition tfm_block (s : SHX.t) (m : nat) (blk : list byte) : list byte :=
  if SHX.m_isEncryption s
  then enc_block m (SHX.m_expKey s) blk
  else dec_block m (SHX.m_expKey s) blk.

(** ** left_encode, as the text of the specification has it

    The number of bytes of the minimal representation of a value, one at
    least, and the encoding: that length in one byte, then the value in
    that many bytes, the most significant first. *)
Definition byte_length (x : Z) : nat := Z.to_nat (Z.log2 x / 8 + 1).

Definition left_encode (x : Z) : list byte :=
  byte_of_Z (Z.of_nat (byte_length x)) :: IntUtils.be_encode (byte_length x) x.

(** ** Sample data

    A generator stream, instances and keys on which the statements are
    run. *)

Definition counting_stream : HKDF.Generator :=
  fun _ _ n => byte_of_Z (Z.of_nat n * 7 + 3).

Definition sample_key (n : nat) : ISymmetricKey :=
  {| Key := map (fun i => byte_of_Z (i * 3 + 1)) (seqZ 0 (Z.of_nat n));
     Nonce := []; Info := [] |}.

Definition sample_block : list byte :=
  map (fun i => byte_of_Z (i * 17 + 5)) (seqZ 0 16).

Definition sample_input : list byte :=
  map (fun i => byte_of_Z (i * 29 + 11)) (seqZ 0 300).

(** The instance the constructor returns for a digest and a legal number
    of rounds. *)
Definition constructed (d : Digests.t) (r : Z) : SHX.t :=
  SHX.LoadState
    {| SHX.m_cprKeySize := 0; SHX.m_expKey := []; SHX.m_kdfEngineType := d;
       SHX.m_kdfInfo := SHX.DEF_DSTINFO; SHX.m_kdfInfoMax := 0;
       SHX.m_kdfKeySize := 0; SHX.m_isEncryption := false;
       SHX.m_isInitialized := false; SHX.m_legalKeySizes := [];
       SHX.m_legalRounds := []; SHX.m_rndCount := r |} d.

(** The standard-mode instance after Initialize with the sample key of [n]
    bytes. *)
Definition initialized (enc : bool) (n : nat) : SHX.t :=
  match SHX.Initialize (H := counting_stream) (constructed Digests.None 32) enc
          (sample_key n) with
  | Returned s => s
  | _ => constructed Digests.None 32
  end.

(** A digest on which the KDF2 statements are run, and the sizes and the
    empty fields every KDF2 object keeps: the key, the salt and the counter
    of an object that is not initialised are those of the constructor. *)
Definition sample_hash : IDigest.Hash :=
  fun _ message i => byte_of_Z (Z.of_nat (length message) * 5 + Z.of_nat i).

Definition kdf_inv (s : KDF2.t) : Prop :=
  KDF2.m_kdfDigestType s <> Digests.None
  /\ KDF2.m_hashSize s = DigestFromName.GetDigestSize (KDF2.m_kdfDigestType s)
  /\ KDF2.m_blockSize s = DigestFromName.GetBlockSize (KDF2.m_kdfDigestType s)
  /\ (KDF2.m_isInitialized s = false ->
      KDF2.m_kdfKey s = [] /\ KDF2.m_kdfSalt s = [] /\ KDF2.m_kdfCounter s = 1).

(** The state [Initialize(Key)] starts to fill: the object itself, or the
    object after [Reset] when it was initialised. *)
Definition kdf_cleared (s : KDF2.t) : KDF2.t :=
  if KDF2.m_isInitialized s then KDF2.Reset s else s.

(** The KDF2 object the constructor returns for a digest, and that object
    after [Initialize] with the sample key of 32 bytes. *)
Definition kdf_constructed (d : Digests.t) : KDF2.t :=
  KDF2.LoadState
    {| KDF2.m_msgDigest := []; KDF2.m_blockSize := DigestFromName.GetBlockSize d;
       KDF2.m_hashSize := DigestFromName.GetDigestSize d;
       KDF2.m_isInitialized := false; KDF2.m_kdfCounter := 1;
       KDF2.m_kdfDigestType := d; KDF2.m_kdfKey := []; KDF2.m_kdfSalt := [];
       KDF2.m_legalKeySizes := [] |}.

Definition kdf_ready : KDF2.t :=
  match KDF2.Initialize (kdf_constructed Digests.SHA256) (Key (sample_key 32)) with
  | Returned s => s
  | _ => kdf_constructed Digests.SHA256
  end.

(** The stream of a StreamWriter once it holds [n] bytes at least: resized
    to [n], with zero bytes, when it was shorter. *)
Definition grown (state : list byte) (n : Z) : list byte :=
  if n >? size state then resize_to x00 state n else state.

(** ** Auxiliary definitions for the further properties *)

(** The states an SHX object constructed over the digest [d] with [r]
    rounds goes through: Initialize is the member function that changes
    it. *)
Inductive shx_reachable `{HKDF.Generator} (d : Digests.t) (r : Z) : SHX.t -> Prop :=
| shx_constructed s : SHX.new d r = Returned s -> shx_reachable d r s
| shx_initialized s enc kp s' :
    shx_reachable d r s -> SHX.Initialize s enc kp = Returned s' ->
    shx_reachable d r s'.

(** What every such state keeps of the constructor. *)
Definition shx_inv (d : Digests.t) (r : Z) (s : SHX.t) : Prop :=
  (32 <= r <= 64 /\ r mod 8 = 0)
  /\ SHX.m_kdfEngineType s = d
  /\ SHX.m_legalKeySizes s = SHX.m_legalKeySizes (constructed d r)
  /\ SHX.m_legalRounds s = SHX.m_legalRounds (constructed d r)
  /\ SHX.m_kdfInfoMax s = SHX.m_kdfInfoMax (constructed d r)
  /\ (d <> Digests.None -> SHX.m_rndCount s = r).

(** The expanded key of the standard schedule for a key. *)
Definition standard_key (Key : list byte) : list Z :=
  match SHX.StandardExpand (constructed Digests.None 32) Key with
  | Returned s => SHX.m_expKey s
  | _ => []
  end.

(** How SecureExpand starts the generator for a key, with the
    distribution code [info] in force. *)
Definition hkdf_start (d : Digests.t) (info Key : list byte) : HKDF.init :=
  let blk := DigestFromName.GetBlockSize d in
  if size Key >? blk
  then HKDF.InitializeKeySaltInfo (take (Z.to_nat blk) Key) (drop (Z.to_nat blk) Key) info
  else HKDF.InitializeKey (if negb (size info =? 0) then Some info else None) Key.

(** The [4 * (rounds + 1)] words read from the generator's output, four
    bytes a word, the least significant first. *)
Definition hkdf_words `{HKDF.Generator} (d : Digests.t) (gen : HKDF.init) (rounds : Z)
    : list Z :=
  let raw := HKDF.Generate d gen (replicate (Z.to_nat (16 * (rounds + 1))) x00) in
  map (fun i => IntUtils.le_decode (take 4 (drop (Z.to_nat (i * 4)) raw)))
      (seqZ 0 (4 * (rounds + 1))).

(** The state Initialize leaves, field by field. *)
Definition initialized_as `{HKDF.Generator} (s : SHX.t) (enc : bool) (kp : ISymmetricKey)
    : SHX.t :=
  let d := SHX.m_kdfEngineType s in
  let blk := DigestFromName.GetBlockSize d in
  let info := if size (Info kp) >? 0 then Info kp else SHX.m_kdfInfo s in
  {| SHX.m_cprKeySize := size (Key kp) * 8;
     SHX.m_expKey :=
       if Digests.eqb d Digests.None then standard_key (Key kp)
       else hkdf_words d (hkdf_start d info (Key kp)) (SHX.m_rndCount s);
     SHX.m_kdfEngineType := d;
     SHX.m_kdfInfo := info;
     SHX.m_kdfInfoMax := SHX.m_kdfInfoMax s;
     SHX.m_kdfKeySize :=
       if negb (Digests.eqb d Digests.None) && (size (Key kp) >? blk)
       then blk else SHX.m_kdfKeySize s;
     SHX.m_isEncryption := enc;
     SHX.m_isInitialized := true;
     SHX.m_legalKeySizes := SHX.m_legalKeySizes s;
     SHX.m_legalRounds := SHX.m_legalRounds s;
     SHX.m_rndCount :=
       if Digests.eqb d Digests.None
       then (if size (Key kp) =? 64 then 40 else 32)
       else SHX.m_rndCount s |}.

(** ** KDF2, block by block

    Block [c] of the output of KDF2 is the digest of the key, the counter
    [c] in four bytes, the most significant first, and the salt;
    [kdf2_blocks] are [k] blocks from counter [c] on, [kdf2_stream] their
    first [n] bytes. *)
Definition kdf2_block `{IDigest.Hash} (d : Digests.t) (h : Z) (key salt : list byte)
    (c : Z) : list byte :=
  IDigest.Finalize d (key ++ IntUtils.be_encode 4 c ++ salt) h.

Fixpoint kdf2_blocks `{IDigest.Hash} (d : Digests.t) (h : Z) (key salt : list byte)
    (c : Z) (k : nat) : list byte :=
  match k with
  | O => []
  | S k' => kdf2_block d h key salt c ++ kdf2_blocks d h key salt (c + 1) k'
  end.

(** The passes of the loop of Expand for a request of [n] bytes: one for
    every block begun, and one for an empty request. *)
Definition kdf2_passes (h n : Z) : Z := if n =? 0 then 1 else (n + h - 1) / h.

Definition kdf2_stream `{IDigest.Hash} (d : Digests.t) (h : Z) (key salt : list byte)
    (c n : Z) : list byte :=
  take (Z.to_nat n) (kdf2_blocks d h key salt c (Z.to_nat (kdf2_passes h n))).

(** What every state of a KDF2 object keeps, beside [kdf_inv]: no digest
    input is pending between calls, the counter stays in 1 .. 256, and
    the legal key sizes are those of the constructor. *)
Definition kdf_inv2 (s : KDF2.t) : Prop :=
  kdf_inv s
  /\ KDF2.m_msgDigest s = []
  /\ 1 <= KDF2.m_kdfCounter s <= 256
  /\ KDF2.m_legalKeySizes s
     = KDF2.m_legalKeySizes (kdf_constructed (KDF2.m_kdfDigestType s)).

(** The states a KDF2 object goes through when its member functions are
    called with [size_t] arguments: the offsets and lengths are not
    negative. *)
Inductive kdf_run `{IDigest.Hash} : KDF2.t -> Prop :=
| run_new d s : KDF2.new d = Returned s -> kdf_run s
| run_Initialize s Key s' :
    kdf_run s -> KDF2.Initialize s Key = Returned s' -> kdf_run s'
| run_Initialize2 s Key Salt s' :
    kdf_run s -> KDF2.Initialize2 s Key Salt = Returned s' -> kdf_run s'
| run_Initialize3 s Key Salt Info s' :
    kdf_run s -> KDF2.Initialize3 s Key Salt Info = Returned s' -> kdf_run s'
| run_InitializeKey s GenParam s' :
    kdf_run s -> KDF2.InitializeKey s GenParam = Returned s' -> kdf_run s'
| run_ReSeed s Seed s' :
    kdf_run s -> KDF2.ReSeed s Seed = Returned s' -> kdf_run s'
| run_Generate s Output s' Output' n :
    kdf_run s -> size Output < 2 ^ 64 ->
    KDF2.Generate s Output = Returned (s', Output', n) -> kdf_run s'
| run_GenerateAt s Output off len s' Output' n :
    kdf_run s -> 0 <= off < 2 ^ 64 -> 0 <= len < 2 ^ 64 ->
    KDF2.GenerateAt s Output off len = Returned (s', Output', n) -> kdf_run s'
| run_Reset s : kdf_run s -> kdf_run (KDF2.Reset s).

(** The KDF2 object of a digest that holds a key and a salt and has
    produced no output yet. *)
Definition kdf_started (d : Digests.t) (K S : list byte) : KDF2.t :=
  KDF2.set_isInitialized (KDF2.set_kdfSalt (KDF2.set_kdfKey (kdf_constructed d) K) S) true.

(** A caller's loop over the elements of a vector:
    [for (x : Input) writer.Write(x)]. *)
Fixpoint Write_each (host : StreamWriter.Endian) (T : StreamWriter.IntType)
    (s : StreamWriter.t) (Input : list Z) : outcome StreamWriter.t :=
  match Input with
  | [] => Returned s
  | x :: rest => s' <~ StreamWriter.Write host T s x ;; Write_each host T s' rest
  end.

(** The word [AbsorbBlock] reads for [State[i]], and the state after the
    first [k] words of the input were absorbed. *)
Definition absorb_word (Input : list byte) (InOffset : Z) (i : nat) : Z :=
  IntUtils.le_decode (take 8 (drop (Z.to_nat (InOffset + 8 * Z.of_nat i)) Input)).

Definition absorbed (Input : list byte) (InOffset : Z) (k : nat) (State : list Z) : list Z :=
  imap (fun i x => if (i <? k)%nat then Z.lxor x (absorb_word Input InOffset i) else x)
       State.

(** A reader of the encoding of [LeftEncode]: the byte at [Offset] counts
    the bytes of the value that follow it, the most significant first. *)
Definition left_decode (Buffer : list byte) (Offset : nat) : Z :=
  match Buffer !! Offset with
  | Some n => IntUtils.be_decode (take (Z.to_nat (byte_to_Z n)) (drop (S Offset) Buffer))
  | None => 0
  end.

(** * Properties of the embedding *)

(** ** Outcomes, machine integers and vectors *)

Lemma wrap64_small (x : Z) : 0 <= x < 2 ^ 64 -> wrap64 x = x.
Proof. intros H. unfold wrap64. now apply Z.mod_small. Qed.

Lemma wrap32_small (x : Z) : 0 <= x < 2 ^ 32 -> wrap32 x = x.
Proof. intros H. unfold wrap32. now apply Z.mod_small. Qed.

Lemma wrap32_word (x : Z) : word32 (wrap32 x).
Proof. unfold word32, wrap32. apply Z.mod_pos_bound. lia. Qed.

Lemma word32_wrap (x : Z) : word32 x -> wrap32 x = x.
Proof. apply wrap32_small. Qed.

Lemma word32_high_bits (x n : Z) : word32 x -> 32 <= n -> Z.testbit x n = false.
Proof.
  intros Hx Hn. rewrite <- (word32_wrap x Hx). unfold wrap32.
  apply Z.mod_pow2_bits_high. lia.
Qed.

Lemma wrap32_testbit (x n : Z) :
  Z.testbit (wrap32 x) n = (n <? 32) && Z.testbit x n.
Proof. unfold wrap32. apply Z.testbit_mod_pow2. lia. Qed.

Lemma word32_of_bits (x : Z) :
  0 <= x -> (forall n, 32 <= n -> Z.testbit x n = false) -> word32 x.
Proof.
  intros H0 Hhi.
  assert (E : wrap32 x = x).
  { apply Z.bits_inj'. intros n Hn. rewrite wrap32_testbit.
    destruct (Z.ltb_spec n 32) as [Hlt|Hge]; [reflexivity|].
    simpl. symmetry. apply Hhi. lia. }
  rewrite <- E. apply wrap32_word.
Qed.

Lemma word32_lxor (a b : Z) : word32 a -> word32 b -> word32 (Z.lxor a b).
Proof.
  intros Ha Hb. apply word32_of_bits.
  - apply Z.lxor_nonneg. unfold word32 in *. lia.
  - intros n Hn. rewrite Z.lxor_spec, !word32_high_bits by assumption. reflexivity.
Qed.

Lemma byte_to_Z_range (b : byte) : 0 <= byte_to_Z b < 256.
Proof.
  unfold byte_to_Z. pose proof (Byte.to_N_bounded b). lia.
Qed.

Lemma byte_to_of_Z (x : Z) : byte_to_Z (byte_of_Z x) = x mod 256.
Proof.
  unfold byte_to_Z, byte_of_Z.
  assert (Hr : 0 <= x mod 256 < 256) by (apply Z.mod_pos_bound; lia).
  destruct (Byte.of_N (Z.to_N (x mod 256))) as [b|] eqn:E.
  - apply Byte.to_of_N in E. rewrite E. lia.
  - apply Byte.of_N_None_iff in E. lia.
Qed.

Lemma byte_of_to_Z (b : byte) : byte_of_Z (byte_to_Z b) = b.
Proof.
  unfold byte_of_Z. rewrite Z.mod_small by apply byte_to_Z_range.
  unfold byte_to_Z. rewrite N2Z.id, Byte.of_to_N. reflexivity.
Qed.

Lemma byte_of_Z_mod (x : Z) : byte_of_Z (x mod 256) = byte_of_Z x.
Proof. unfold byte_of_Z. rewrite Z.mod_mod by lia. reflexivity. Qed.

Lemma size_nonneg {A : Type} (v : list A) : 0 <= size v.
Proof. unfold size. lia. Qed.

Lemma size_app {A : Type} (u v : list A) : size (u ++ v) = size u + size v.
Proof. unfold size. rewrite length_app. lia. Qed.

Lemma size_replicate {A : Type} (n : nat) (x : A) : size (replicate n x) = Z.of_nat n.
Proof. unfold size. now rewrite length_replicate. Qed.

Lemma vget_in {A : Type} (v : list A) (i : Z) (x : A) :
  0 <= i -> v !! Z.to_nat i = Some x -> vget v i = Returned x.
Proof.
  intros Hi Hx. unfold vget, in_bounds, size.
  apply lookup_lt_Some in Hx as Hlt.
  destruct (Z.leb_spec 0 i); [|lia]. destruct (Z.ltb_spec i (Z.of_nat (length v))); [|lia].
  simpl. now rewrite Hx.
Qed.

Lemma vget_word (v : list Z) (i : Z) :
  0 <= i < size v -> vget v i = Returned (word_at v i).
Proof.
  intros Hi. unfold size in Hi.
  destruct (lookup_lt_is_Some_2 v (Z.to_nat i)) as [x Hx]; [lia|].
  rewrite (vget_in v i x) by (lia || assumption).
  unfold word_at. f_equal. symmetry. apply nth_lookup_Some with (d := 0) in Hx. exact Hx.
Qed.

Lemma vget_out {A : Type} (v : list A) (i : Z) :
  ~ (0 <= i < size v) -> vget v i = Undefined.
Proof.
  intros Hi. unfold vget, in_bounds.
  destruct (Z.leb_spec 0 i); destruct (Z.ltb_spec i (size v)); simpl; try reflexivity; lia.
Qed.

Lemma vset_in {A : Type} (v : list A) (i : Z) (x : A) :
  0 <= i < size v -> vset v i x = Returned (<[Z.to_nat i := x]> v).
Proof.
  intros Hi. unfold vset, in_bounds.
  destruct (Z.leb_spec 0 i); [|lia]. destruct (Z.ltb_spec i (size v)); [|lia]. reflexivity.
Qed.

Lemma vread_in {A : Type} (v : list A) (off : Z) (n : nat) :
  0 <= off -> off + Z.of_nat n <= size v ->
  vread v off n = Returned (take n (drop (Z.to_nat off) v)).
Proof.
  intros H0 H1. unfold vread.
  destruct (Z.leb_spec 0 off); [|lia].
  destruct (Z.leb_spec (off + Z.of_nat n) (size v)); [|lia]. reflexivity.
Qed.

Lemma vwrite_in {A : Type} (v : list A) (off : Z) (xs : list A) :
  0 <= off -> off + size xs <= size v ->
  vwrite v off xs
  = Returned (take (Z.to_nat off) v ++ xs ++ drop (Z.to_nat off + length xs) v).
Proof.
  intros H0 H1. unfold vwrite.
  destruct (Z.leb_spec 0 off); [|lia].
  destruct (Z.leb_spec (off + size xs) (size v)); [|lia]. reflexivity.
Qed.

Lemma word_at_insert_eq (v : list Z) (i : Z) (x : Z) :
  0 <= i < size v -> word_at (<[Z.to_nat i := x]> v) i = x.
Proof.
  intros Hi. unfold word_at, size in *.
  apply nth_lookup_Some. apply list_lookup_insert_eq. lia.
Qed.

Lemma word_at_insert_ne (v : list Z) (i j : Z) (x : Z) :
  0 <= i -> 0 <= j -> i <> j -> word_at (<[Z.to_nat i := x]> v) j = word_at v j.
Proof.
  intros Hi Hj Hne. unfold word_at.
  rewrite !nth_lookup. rewrite list_lookup_insert_ne by lia. reflexivity.
Qed.

Lemma size_insert {A : Type} (v : list A) (i : nat) (x : A) : size (<[i := x]> v) = size v.
Proof. unfold size. now rewrite length_insert. Qed.

(** ** Endian conversion *)

Lemma lor_shiftl8 (b y : Z) :
  0 <= b < 256 -> 0 <= y -> Z.lor b (Z.shiftl y 8) = b + 256 * y.
Proof.
  intros Hb Hy.
  rewrite <- Z.lxor_lor, <- Z.add_nocarry_lxor.
  - rewrite Z.shiftl_mul_pow2 by lia. change (2 ^ 8) with 256. lia.
  - apply Z.bits_inj'. intros n Hn. rewrite Z.land_spec, Z.bits_0.
    destruct (Z.ltb_spec n 8) as [Hlt|Hge].
    + rewrite Z.shiftl_spec_low by lia. apply andb_false_r.
    + replace (Z.testbit b n) with false; [reflexivity|].
      symmetry. apply Z.bits_above_log2; [lia|].
      destruct (Z.eq_dec b 0) as [->|Hnz]; [simpl; lia|].
      apply Z.log2_lt_pow2; [lia|].
      apply Z.lt_le_trans with (2 ^ 8); [change (2 ^ 8) with 256; lia|].
      apply Z.pow_le_mono_r; lia.
  - apply Z.bits_inj'. intros n Hn. rewrite Z.land_spec, Z.bits_0.
    destruct (Z.ltb_spec n 8) as [Hlt|Hge].
    + rewrite Z.shiftl_spec_low by lia. apply andb_false_r.
    + replace (Z.testbit b n) with false; [reflexivity|].
      symmetry. apply Z.bits_above_log2; [lia|].
      destruct (Z.eq_dec b 0) as [->|Hnz]; [simpl; lia|].
      apply Z.log2_lt_pow2; [lia|].
      apply Z.lt_le_trans with (2 ^ 8); [change (2 ^ 8) with 256; lia|].
      apply Z.pow_le_mono_r; lia.
Qed.

Lemma le_decode_nonneg (bs : list byte) : 0 <= IntUtils.le_decode bs.
Proof.
  induction bs as [|b bs IH]; simpl; [lia|].
  rewrite lor_shiftl8 by (apply byte_to_Z_range || assumption).
  pose proof (byte_to_Z_range b). lia.
Qed.

Lemma le_decode_cons (b : byte) (bs : list byte) :
  IntUtils.le_decode (b :: bs) = byte_to_Z b + 256 * IntUtils.le_decode bs.
Proof. simpl. apply lor_shiftl8; [apply byte_to_Z_range | apply le_decode_nonneg]. Qed.

Lemma le_decode_range (bs : list byte) :
  0 <= IntUtils.le_decode bs < 2 ^ (8 * size bs).
Proof.
  induction bs as [|b bs IH].
  - simpl. unfold size. simpl. lia.
  - rewrite le_decode_cons. unfold size in *. simpl length.
    replace (8 * Z.of_nat (S (length bs))) with (8 + 8 * Z.of_nat (length bs)) by lia.
    rewrite Z.pow_add_r by lia. change (2 ^ 8) with 256.
    pose proof (byte_to_Z_range b). nia.
Qed.

Lemma le_encode_length (n : nat) (x : Z) : length (IntUtils.le_encode n x) = n.
Proof. revert x. induction n as [|n IH]; intros x; simpl; [reflexivity|]. now rewrite IH. Qed.

Lemma le_decode_encode (n : nat) (x : Z) :
  IntUtils.le_decode (IntUtils.le_encode n x) = x mod 2 ^ (8 * Z.of_nat n).
Proof.
  revert x. induction n as [|n IH]; intros x.
  - simpl. now rewrite Z.mod_1_r.
  - cbn [IntUtils.le_encode]. rewrite le_decode_cons, IH, byte_to_of_Z.
    rewrite Z.shiftr_div_pow2 by lia. change (2 ^ 8) with 256.
    replace (8 * Z.of_nat (S n)) with (8 + 8 * Z.of_nat n) by lia.
    rewrite Z.pow_add_r by lia. change (2 ^ 8) with 256.
    rewrite Z.rem_mul_r by lia. reflexivity.
Qed.

Lemma le_encode_decode (bs : list byte) :
  IntUtils.le_encode (length bs) (IntUtils.le_decode bs) = bs.
Proof.
  induction bs as [|b bs IH]; [reflexivity|].
  cbn [length IntUtils.le_encode]. rewrite le_decode_cons.
  pose proof (byte_to_Z_range b) as Hb.
  f_equal.
  - rewrite <- byte_of_Z_mod.
    replace ((byte_to_Z b + 256 * IntUtils.le_decode bs) mod 256) with (byte_to_Z b).
    + apply byte_of_to_Z.
    + replace (256 * IntUtils.le_decode bs) with (IntUtils.le_decode bs * 256) by lia.
      rewrite Z.mod_add by lia. now rewrite Z.mod_small.
  - rewrite Z.shiftr_div_pow2 by lia. change (2 ^ 8) with 256.
    replace ((byte_to_Z b + 256 * IntUtils.le_decode bs) / 256) with (IntUtils.le_decode bs).
    + exact IH.
    + replace (256 * IntUtils.le_decode bs) with (IntUtils.le_decode bs * 256) by lia.
      rewrite Z.div_add by lia. rewrite Z.div_small by lia. lia.
Qed.

Lemma le_decode_word32 (bs : list byte) : length bs = 4%nat -> word32 (IntUtils.le_decode bs).
Proof.
  intros H. pose proof (le_decode_range bs) as Hr. unfold size in Hr. rewrite H in Hr.
  exact Hr.
Qed.

Lemma le_encode_decode4 (bs : list byte) :
  length bs = 4%nat -> IntUtils.le_encode 4 (IntUtils.le_decode bs) = bs.
Proof. intros H. rewrite <- H. apply le_encode_decode. Qed.

Lemma le_decode_encode4 (x : Z) :
  word32 x -> IntUtils.le_decode (IntUtils.le_encode 4 x) = x.
Proof. intros H. rewrite le_decode_encode. apply Z.mod_small. exact H. Qed.

(** ** Rotations and the linear transform *)

Lemma RotL32_word (x s : Z) : word32 (IntUtils.RotL32 x s).
Proof. apply wrap32_word. Qed.

Lemma RotR32_word (x s : Z) : word32 (IntUtils.RotR32 x s).
Proof. apply wrap32_word. Qed.

Lemma RotL32_testbit (x s n : Z) :
  word32 x -> 0 < s < 32 -> 0 <= n < 32 ->
  Z.testbit (IntUtils.RotL32 x s) n = Z.testbit x ((n - s) mod 32).
Proof.
  intros Hx Hs Hn. unfold IntUtils.RotL32.
  rewrite wrap32_testbit, Z.lor_spec, Z.shiftl_spec, Z.shiftr_spec by lia.
  destruct (Z.ltb_spec n 32); [|lia]. simpl.
  destruct (Z_lt_ge_dec n s) as [Hlt|Hge].
  - rewrite (Z.testbit_neg_r x (n - s)) by lia. simpl.
    f_equal. apply Z.mod_unique with (q := -1); lia.
  - rewrite (word32_high_bits x (n + (32 - s))) by (assumption || lia).
    rewrite orb_false_r. f_equal. symmetry. apply Z.mod_small. lia.
Qed.

Lemma RotR32_testbit (x s n : Z) :
  word32 x -> 0 < s < 32 -> 0 <= n < 32 ->
  Z.testbit (IntUtils.RotR32 x s) n = Z.testbit x ((n + s) mod 32).
Proof.
  intros Hx Hs Hn. unfold IntUtils.RotR32.
  rewrite wrap32_testbit, Z.lor_spec, Z.shiftl_spec, Z.shiftr_spec by lia.
  destruct (Z.ltb_spec n 32); [|lia]. simpl.
  destruct (Z_lt_ge_dec (n + s) 32) as [Hlt|Hge].
  - rewrite (Z.testbit_neg_r x (n - (32 - s))) by lia.
    rewrite orb_false_r. f_equal. symmetry. apply Z.mod_small. lia.
  - rewrite (word32_high_bits x (n + s)) by (assumption || lia). simpl.
    f_equal. apply Z.mod_unique with (q := 1); lia.
Qed.

Lemma word32_eq_bits (x y : Z) :
  word32 x -> word32 y ->
  (forall n, 0 <= n < 32 -> Z.testbit x n = Z.testbit y n) -> x = y.
Proof.
  intros Hx Hy H. apply Z.bits_inj'. intros n Hn.
  destruct (Z_lt_ge_dec n 32) as [Hlt|Hge]; [apply H; lia|].
  rewrite !word32_high_bits by (assumption || lia). reflexivity.
Qed.

Lemma RotR32_RotL32 (x s : Z) :
  word32 x -> 0 < s < 32 -> IntUtils.RotR32 (IntUtils.RotL32 x s) s = x.
Proof.
  intros Hx Hs. apply word32_eq_bits; [apply RotR32_word | assumption |].
  intros n Hn.
  rewrite RotR32_testbit by (apply RotL32_word || lia).
  rewrite RotL32_testbit by (assumption || lia || (apply Z.mod_pos_bound; lia)).
  f_equal. rewrite Zminus_mod_idemp_l.
  replace (n + s - s) with n by lia. apply Z.mod_small. lia.
Qed.

Lemma RotL32_RotR32 (x s : Z) :
  word32 x -> 0 < s < 32 -> IntUtils.RotL32 (IntUtils.RotR32 x s) s = x.
Proof.
  intros Hx Hs. apply word32_eq_bits; [apply RotL32_word | assumption |].
  intros n Hn.
  rewrite RotL32_testbit by (apply RotR32_word || lia).
  rewrite RotR32_testbit by (assumption || lia || (apply Z.mod_pos_bound; lia)).
  f_equal. rewrite Zplus_mod_idemp_l.
  replace (n - s + s) with n by lia. apply Z.mod_small. lia.
Qed.

Lemma lxor_cancel_r (a b : Z) : Z.lxor (Z.lxor a b) b = a.
Proof. rewrite Z.lxor_assoc, Z.lxor_nilpotent. apply Z.lxor_0_r. Qed.

Lemma lxor_cancel_2 (a b c : Z) : Z.lxor (Z.lxor (Z.lxor (Z.lxor a b) c) b) c = a.
Proof.
  apply Z.bits_inj'. intros n Hn. rewrite !Z.lxor_spec.
  destruct (Z.testbit a n), (Z.testbit b n), (Z.testbit c n); reflexivity.
Qed.

Lemma shl32_word (x n : Z) : word32 (Serpent.shl32 x n).
Proof. apply wrap32_word. Qed.

Lemma LinearTransform_ok (q : Serpent.quad) : quad_ok (Serpent.LinearTransform q).
Proof.
  destruct q as [[[a b] c] d]. unfold Serpent.LinearTransform, quad_ok.
  repeat split; apply wrap32_word.
Qed.

Lemma InverseTransform_LinearTransform (q : Serpent.quad) :
  quad_ok q -> Serpent.InverseTransform (Serpent.LinearTransform q) = q.
Proof.
  destruct q as [[[a b] c] d]. intros (Ha & Hb & Hc & Hd).
  unfold Serpent.LinearTransform, Serpent.InverseTransform.
  set (x0 := IntUtils.RotL32 a 13). set (x2 := IntUtils.RotL32 c 3).
  set (x1 := Z.lxor (Z.lxor b x0) x2).
  set (x3 := Z.lxor (Z.lxor d x2) (Serpent.shl32 x0 3)).
  set (r1 := IntUtils.RotL32 x1 1). set (r3 := IntUtils.RotL32 x3 7).
  assert (W0 : word32 x0) by apply RotL32_word.
  assert (W2 : word32 x2) by apply RotL32_word.
  assert (W1 : word32 x1) by (unfold x1; auto using word32_lxor).
  assert (W3 : word32 x3) by (unfold x3; auto using word32_lxor, shl32_word).
  assert (V1 : word32 r1) by apply RotL32_word.
  assert (V3 : word32 r3) by apply RotL32_word.
  rewrite !RotR32_RotL32 by (auto using word32_lxor, shl32_word || lia).
  rewrite !lxor_cancel_2.
  unfold r1, r3. rewrite !RotR32_RotL32 by (assumption || lia).
  unfold x3, x1. rewrite !lxor_cancel_2.
  unfold x0, x2. rewrite !RotR32_RotL32 by (assumption || lia).
  reflexivity.
Qed.

(** ** Bitsliced S-boxes *)

Lemma b2z_shiftl_testbit (c : bool) (j n : Z) :
  0 <= j -> 0 <= n -> Z.testbit (Z.shiftl (Z.b2z c) j) n = (n =? j) && c.
Proof.
  intros Hj Hn. rewrite Z.shiftl_spec by lia.
  destruct (Z.eqb_spec n j) as [->|Hne].
  - rewrite Z.sub_diag, Z.b2z_bit0. reflexivity.
  - simpl. destruct (Z_lt_ge_dec n j).
    + apply Z.testbit_neg_r. lia.
    + destruct c; simpl.
      * apply Z.bits_above_log2; simpl; lia.
      * apply Z.bits_0.
Qed.

Lemma plane_nonneg (tbl : list Z) (q : Serpent.quad) (k : Z) (w : nat) :
  0 <= Serpent.plane tbl q k w.
Proof.
  induction w as [|w IH]; simpl; [lia|].
  apply Z.lor_nonneg. split; [exact IH|].
  apply Z.shiftl_nonneg. destruct (Z.testbit _ k); simpl; lia.
Qed.

Lemma plane_testbit (tbl : list Z) (q : Serpent.quad) (k : Z) (w : nat) (n : Z) :
  0 <= n ->
  Z.testbit (Serpent.plane tbl q k w) n
  = (n <? Z.of_nat w) && Z.testbit (Serpent.lookup_box tbl (Serpent.nibble q n)) k.
Proof.
  intros Hn. induction w as [|w IH].
  - cbn [Serpent.plane]. rewrite Z.bits_0. change (Z.of_nat 0) with 0.
    destruct (Z.ltb_spec n 0) as [Hlt|_]; [lia|reflexivity].
  - cbn [Serpent.plane]. rewrite Z.lor_spec, IH, b2z_shiftl_testbit by lia.
    destruct (Z.eqb_spec n (Z.of_nat w)) as [->|Hne].
    + destruct (Z.ltb_spec (Z.of_nat w) (Z.of_nat w)); [lia|].
      destruct (Z.ltb_spec (Z.of_nat w) (Z.of_nat (S w))); [|lia]. reflexivity.
    + rewrite andb_false_l, orb_false_r.
      destruct (Z.ltb_spec n (Z.of_nat w)), (Z.ltb_spec n (Z.of_nat (S w))); try reflexivity; lia.
Qed.

Lemma plane_word32 (tbl : list Z) (q : Serpent.quad) (k : Z) :
  word32 (Serpent.plane tbl q k 32).
Proof.
  apply word32_of_bits; [apply plane_nonneg|].
  intros n Hn. rewrite plane_testbit by lia.
  destruct (Z.ltb_spec n (Z.of_nat 32)); [lia|reflexivity].
Qed.

Lemma bitslice_ok (tbl : list Z) (q : Serpent.quad) : quad_ok (Serpent.bitslice tbl q).
Proof. unfold Serpent.bitslice, quad_ok. repeat split; apply plane_word32. Qed.

Lemma nibble_range (q : Serpent.quad) (j : Z) : 0 <= Serpent.nibble q j < 16.
Proof.
  destruct q as [[[a b] c] d]. unfold Serpent.nibble.
  destruct (Z.testbit a j), (Z.testbit b j), (Z.testbit c j), (Z.testbit d j); simpl; lia.
Qed.

Lemma small_cases (v : Z) (P : Z -> Prop) :
  0 <= v < 16 ->
  P 0 -> P 1 -> P 2 -> P 3 -> P 4 -> P 5 -> P 6 -> P 7 ->
  P 8 -> P 9 -> P 10 -> P 11 -> P 12 -> P 13 -> P 14 -> P 15 -> P v.
Proof.
  intros Hv. intros.
  assert (C : v = 0 \/ v = 1 \/ v = 2 \/ v = 3 \/ v = 4 \/ v = 5 \/ v = 6 \/ v = 7 \/
              v = 8 \/ v = 9 \/ v = 10 \/ v = 11 \/ v = 12 \/ v = 13 \/ v = 14 \/ v = 15) by lia.
  repeat (destruct C as [->|C]; [assumption|]). subst. assumption.
Qed.

Lemma nibble_of_bits (v : Z) :
  0 <= v < 16 ->
  Z.b2z (Z.testbit v 0) + 2 * Z.b2z (Z.testbit v 1)
  + 4 * Z.b2z (Z.testbit v 2) + 8 * Z.b2z (Z.testbit v 3) = v.
Proof. intros Hv. pattern v. apply small_cases; [exact Hv | reflexivity ..]. Qed.

Lemma nibble_bitslice (tbl : list Z) (q : Serpent.quad) (j : Z) :
  0 <= j < 32 ->
  0 <= Serpent.lookup_box tbl (Serpent.nibble q j) < 16 ->
  Serpent.nibble (Serpent.bitslice tbl q) j = Serpent.lookup_box tbl (Serpent.nibble q j).
Proof.
  intros Hj Hv. unfold Serpent.bitslice. cbn [Serpent.nibble].
  rewrite !plane_testbit by lia.
  destruct (Z.ltb_spec j (Z.of_nat 32)); [|lia]. rewrite !andb_true_l.
  apply nibble_of_bits. exact Hv.
Qed.

Lemma inverse_tables_spec (tbl inv : list Z) (n : Z) :
  inverse_tables tbl inv = true -> 0 <= n < 16 ->
  0 <= Serpent.lookup_box tbl n < 16
  /\ Serpent.lookup_box inv (Serpent.lookup_box tbl n) = n.
Proof.
  intros H Hn. unfold inverse_tables in H. rewrite forallb_forall in H.
  specialize (H n). cbv zeta in H.
  assert (Hin : In n (seqZ 0 16)).
  { apply list_elem_of_In. apply elem_of_seqZ. lia. }
  specialize (H Hin).
  apply andb_prop in H as [H H3]. apply andb_prop in H as [H1 H2].
  apply Z.leb_le in H1. apply Z.ltb_lt in H2. apply Z.eqb_eq in H3. lia.
Qed.

Lemma nibble_testbit (q : Serpent.quad) (j : Z) :
  let '(a, b, c, d) := q in
  Z.testbit (Serpent.nibble q j) 0 = Z.testbit a j
  /\ Z.testbit (Serpent.nibble q j) 1 = Z.testbit b j
  /\ Z.testbit (Serpent.nibble q j) 2 = Z.testbit c j
  /\ Z.testbit (Serpent.nibble q j) 3 = Z.testbit d j.
Proof.
  destruct q as [[[a b] c] d]. unfold Serpent.nibble.
  destruct (Z.testbit a j), (Z.testbit b j), (Z.testbit c j), (Z.testbit d j);
    repeat split; reflexivity.
Qed.

Lemma bitslice_inverse (tbl inv : list Z) (q : Serpent.quad) :
  inverse_tables tbl inv = true -> quad_ok q ->
  Serpent.bitslice inv (Serpent.bitslice tbl q) = q.
Proof.
  intros Ht Hq.
  assert (Hbit : forall k j, 0 <= j < 32 ->
            Z.testbit (Serpent.plane inv (Serpent.bitslice tbl q) k 32) j
            = Z.testbit (Serpent.nibble q j) k).
  { intros k j Hj. rewrite plane_testbit by lia.
    destruct (Z.ltb_spec j (Z.of_nat 32)); [|lia]. rewrite andb_true_l.
    destruct (inverse_tables_spec tbl inv (Serpent.nibble q j) Ht (nibble_range q j))
      as [Hr Hi].
    rewrite nibble_bitslice by (assumption || lia). now rewrite Hi. }
  destruct q as [[[a b] c] d]. destruct Hq as (Ha & Hb & Hc & Hd).
  unfold Serpent.bitslice at 1.
  repeat f_equal.
  all: apply word32_eq_bits; [apply plane_word32 | assumption |].
  all: intros n Hn; rewrite Hbit by lia.
  all: pose proof (nibble_testbit (a, b, c, d) n) as (E0 & E1 & E2 & E3); assumption.
Qed.

(** ** Runs of a vector *)

Lemma splice_length {A : Type} (v : list A) (off : nat) (xs : list A) :
  (off + length xs <= length v)%nat -> length (splice v off xs) = length v.
Proof.
  intros H. unfold splice. rewrite !length_app, length_take, length_drop. lia.
Qed.

Lemma splice_lookup {A : Type} (v : list A) (off : nat) (xs : list A) (i : nat) :
  (off + length xs <= length v)%nat ->
  splice v off xs !! i
  = if decide (i < off)%nat then v !! i
    else if decide (i < off + length xs)%nat then xs !! (i - off)%nat
    else v !! i.
Proof.
  intros H. unfold splice.
  destruct (decide (i < off)%nat) as [Hlt|Hge].
  - rewrite lookup_app_l by (rewrite length_take; lia). apply lookup_take_lt. lia.
  - rewrite lookup_app_r by (rewrite length_take; lia).
    rewrite length_take. replace (off `min` length v)%nat with off by lia.
    destruct (decide (i < off + length xs)%nat) as [Hin|Hout].
    + apply lookup_app_l. lia.
    + rewrite lookup_app_r by lia. rewrite lookup_drop. f_equal. lia.
Qed.

Lemma splice_after {A : Type} (v : list A) (off : nat) (xs ys : list A) :
  (off + length xs + length ys <= length v)%nat ->
  splice (splice v off xs) (off + length xs) ys = splice v off (xs ++ ys).
Proof.
  intros H. apply list_eq. intros i.
  rewrite !splice_lookup by (rewrite ?splice_length, ?length_app; lia).
  rewrite length_app.
  repeat case_decide; try lia; try reflexivity.
  - symmetry. apply lookup_app_l. lia.
  - rewrite lookup_app_r by lia. f_equal. lia.
Qed.

Lemma splice_before {A : Type} (v : list A) (off : nat) (xs ys : list A) :
  (off + length xs + length ys <= length v)%nat ->
  splice (splice v (off + length xs) ys) off xs = splice v off (xs ++ ys).
Proof.
  intros H. apply list_eq. intros i.
  rewrite !splice_lookup by (rewrite ?splice_length, ?length_app; lia).
  rewrite length_app.
  repeat case_decide; try lia; try reflexivity.
  - symmetry. apply lookup_app_l. lia.
  - rewrite lookup_app_r by lia. f_equal. lia.
Qed.

Lemma splice_all {A : Type} (v xs : list A) :
  length xs = length v -> splice v 0 xs = xs.
Proof.
  intros H. unfold splice. simpl. rewrite H, drop_all. apply app_nil_r.
Qed.

Lemma splice_read {A : Type} (v : list A) (off : nat) (xs : list A) :
  (off + length xs <= length v)%nat ->
  take (length xs) (drop off (splice v off xs)) = xs.
Proof.
  intros H. unfold splice.
  rewrite drop_app_length' by (rewrite length_take; lia).
  apply take_app_length.
Qed.

Lemma vwrite_splice {A : Type} (v : list A) (off : Z) (xs : list A) :
  0 <= off -> off + size xs <= size v ->
  vwrite v off xs = Returned (splice v (Z.to_nat off) xs).
Proof. apply vwrite_in. Qed.

Lemma size_splice {A : Type} (v : list A) (off : nat) (xs : list A) :
  Z.of_nat off + size xs <= size v -> size (splice v off xs) = size v.
Proof. unfold size. intros H. rewrite splice_length by lia. reflexivity. Qed.

(** ** SHX: the rounds *)

Lemma obind_Returned {A B : Type} (a : A) (k : A -> outcome B) :
  obind (Returned a) k = k a.
Proof. reflexivity. Qed.

Lemma AddKey_in (K : list Z) (c i0 i1 i2 i3 : Z) (R : Serpent.quad) :
  0 <= c -> c + 3 < size K -> i0 = c -> i1 = c + 1 -> i2 = c + 2 -> i3 = c + 3 ->
  SHX.AddKey K i0 i1 i2 i3 R = Returned (xor4 K c R).
Proof.
  intros H0 H1 -> -> -> ->. destruct R as [[[a b] c'] d].
  unfold SHX.AddKey. rewrite !vget_word by lia. reflexivity.
Qed.

Ltac key_index := rewrite ?wrap64_small by lia; lia.

Ltac add_key K c := rewrite (AddKey_in K c) by key_index; rewrite obind_Returned.

Lemma Encrypt128_loop_spec (K : list Z) (m : nat) :
  forall (fuel : nat) (c : Z) (R : Serpent.quad),
    0 <= c -> c + 32 * (Z.of_nat m + 1) + 4 = size K -> size K < 2 ^ 64 ->
    (m < fuel)%nat ->
    SHX.Encrypt128_loop fuel K (size K - 4) c R
    = Returned (size K - 4, enc_from K c m R).
Proof.
  induction m as [|m IH]; intros fuel c R Hc Hsz Hmax Hfuel.
  all: destruct fuel as [|fuel]; [lia|].
  all: cbn [SHX.Encrypt128_loop].
  all: add_key K c; add_key K (c + 4); add_key K (c + 8); add_key K (c + 12).
  all: add_key K (c + 16); add_key K (c + 20); add_key K (c + 24); add_key K (c + 28).
  all: cbv zeta; rewrite (wrap64_small (c + 32)) by lia.
  - replace (c + 32 =? size K - 4) with true by (symmetry; apply Z.eqb_eq; lia).
    cbn [negb]. f_equal. f_equal. lia.
  - replace (c + 32 =? size K - 4) with false by (symmetry; apply Z.eqb_neq; lia).
    cbn [negb]. rewrite IH by lia. reflexivity.
Qed.

Lemma Decrypt128_loop_spec (K : list Z) (m : nat) :
  forall (fuel : nat) (R : Serpent.quad),
    32 * (Z.of_nat m + 1) + 4 <= size K -> size K < 2 ^ 64 ->
    (m < fuel)%nat ->
    SHX.Decrypt128_loop fuel K 4 (32 * Z.of_nat m + 32) R
    = Returned (4, dec_from K (32 * Z.of_nat m) m R).
Proof.
  induction m as [|m IH]; intros fuel R Hsz Hmax Hfuel.
  all: destruct fuel as [|fuel]; [lia|].
  all: cbn [SHX.Decrypt128_loop].
  all: set (c := 32 * Z.of_nat _).
  all: add_key K (c + 28); add_key K (c + 24); add_key K (c + 20); add_key K (c + 16).
  all: add_key K (c + 12); add_key K (c + 8); add_key K (c + 4).
  all: cbv zeta; rewrite (wrap64_small (c + 32 - 28)) by lia.
  - replace (c + 32 - 28 =? 4) with true by (symmetry; apply Z.eqb_eq; lia).
    cbn [negb obind]. replace (c + 32 - 28 =? 4) with true by (symmetry; apply Z.eqb_eq; lia).
    cbn [negb]. f_equal; f_equal; lia.
  - replace (c + 32 - 28 =? 4) with false by (symmetry; apply Z.eqb_neq; lia).
    cbn [negb]. add_key K c. cbn [obind].
    rewrite (wrap64_small (c + 32 - 28 - 4)) by lia.
    replace (c + 32 - 28 - 4 =? 4) with false by (symmetry; apply Z.eqb_neq; lia).
    cbn [negb].
    replace (c + 32 - 28 - 4) with (32 * Z.of_nat m + 32) by lia.
    rewrite IH by lia. cbn [dec_from]. f_equal. f_equal.
    replace (c - 32) with (32 * Z.of_nat m) by lia. reflexivity.
Qed.

Lemma Ib0_Sb0 (q : Serpent.quad) : quad_ok q -> Serpent.Ib0 (Serpent.Sb0 q) = q.
Proof. apply bitslice_inverse. vm_compute. reflexivity. Qed.

Lemma Ib1_Sb1 (q : Serpent.quad) : quad_ok q -> Serpent.Ib1 (Serpent.Sb1 q) = q.
Proof. apply bitslice_inverse. vm_compute. reflexivity. Qed.

Lemma Ib2_Sb2 (q : Serpent.quad) : quad_ok q -> Serpent.Ib2 (Serpent.Sb2 q) = q.
Proof. apply bitslice_inverse. vm_compute. reflexivity. Qed.

Lemma Ib3_Sb3 (q : Serpent.quad) : quad_ok q -> Serpent.Ib3 (Serpent.Sb3 q) = q.
Proof. apply bitslice_inverse. vm_compute. reflexivity. Qed.

Lemma Ib4_Sb4 (q : Serpent.quad) : quad_ok q -> Serpent.Ib4 (Serpent.Sb4 q) = q.
Proof. apply bitslice_inverse. vm_compute. reflexivity. Qed.

Lemma Ib5_Sb5 (q : Serpent.quad) : quad_ok q -> Serpent.Ib5 (Serpent.Sb5 q) = q.
Proof. apply bitslice_inverse. vm_compute. reflexivity. Qed.

Lemma Ib6_Sb6 (q : Serpent.quad) : quad_ok q -> Serpent.Ib6 (Serpent.Sb6 q) = q.
Proof. apply bitslice_inverse. vm_compute. reflexivity. Qed.

Lemma Ib7_Sb7 (q : Serpent.quad) : quad_ok q -> Serpent.Ib7 (Serpent.Sb7 q) = q.
Proof. apply bitslice_inverse. vm_compute. reflexivity. Qed.

Lemma word_at_word32 (K : list Z) (i : Z) : Forall word32 K -> word32 (word_at K i).
Proof.
  intros HK. unfold word_at. rewrite nth_lookup.
  destruct (K !! Z.to_nat i) as [x|] eqn:E; simpl.
  - eapply Forall_lookup_1; eassumption.
  - unfold word32. lia.
Qed.

Lemma xor4_ok (K : list Z) (c : Z) (R : Serpent.quad) :
  Forall word32 K -> quad_ok R -> quad_ok (xor4 K c R).
Proof.
  intros HK. destruct R as [[[a b] c'] d]. intros (Ha & Hb & Hc & Hd).
  unfold xor4, quad_ok. repeat split; apply word32_lxor; auto using word_at_word32.
Qed.

Lemma xor4_xor4 (K : list Z) (c : Z) (R : Serpent.quad) : xor4 K c (xor4 K c R) = R.
Proof.
  destruct R as [[[a b] c'] d]. unfold xor4. now rewrite !lxor_cancel_r.
Qed.


Lemma Sb0_ok (q : Serpent.quad) : quad_ok (Serpent.Sb0 q).
Proof. apply bitslice_ok. Qed.

Lemma Sb1_ok (q : Serpent.quad) : quad_ok (Serpent.Sb1 q).
Proof. apply bitslice_ok. Qed.

Lemma Sb2_ok (q : Serpent.quad) : quad_ok (Serpent.Sb2 q).
Proof. apply bitslice_ok. Qed.

Lemma Sb3_ok (q : Serpent.quad) : quad_ok (Serpent.Sb3 q).
Proof. apply bitslice_ok. Qed.

Lemma Sb4_ok (q : Serpent.quad) : quad_ok (Serpent.Sb4 q).
Proof. apply bitslice_ok. Qed.

Lemma Sb5_ok (q : Serpent.quad) : quad_ok (Serpent.Sb5 q).
Proof. apply bitslice_ok. Qed.

Lemma Sb6_ok (q : Serpent.quad) : quad_ok (Serpent.Sb6 q).
Proof. apply bitslice_ok. Qed.

Lemma Sb7_ok (q : Serpent.quad) : quad_ok (Serpent.Sb7 q).
Proof. apply bitslice_ok. Qed.

Ltac quad_tac :=
  repeat first
    [ assumption | simple apply LinearTransform_ok
    | simple apply Sb0_ok | simple apply Sb1_ok | simple apply Sb2_ok | simple apply Sb3_ok
    | simple apply Sb4_ok | simple apply Sb5_ok | simple apply Sb6_ok | simple apply Sb7_ok
    | simple apply xor4_ok ].

Lemma enc_octet_ok (K : list Z) (c : Z) (R : Serpent.quad) : quad_ok (enc_octet K c R).
Proof. unfold enc_octet. apply Sb7_ok. Qed.

Lemma octet_inverse (K : list Z) (c : Z) (R : Serpent.quad) :
  Forall word32 K -> quad_ok R -> dec_octet K c (enc_octet K c R) = xor4 K c R.
Proof.
  intros HK HR. unfold enc_octet, dec_octet. cbv zeta.
  rewrite Ib7_Sb7, xor4_xor4, InverseTransform_LinearTransform by quad_tac.
  rewrite Ib6_Sb6, xor4_xor4, InverseTransform_LinearTransform by quad_tac.
  rewrite Ib5_Sb5, xor4_xor4, InverseTransform_LinearTransform by quad_tac.
  rewrite Ib4_Sb4, xor4_xor4, InverseTransform_LinearTransform by quad_tac.
  rewrite Ib3_Sb3, xor4_xor4, InverseTransform_LinearTransform by quad_tac.
  rewrite Ib2_Sb2, xor4_xor4, InverseTransform_LinearTransform by quad_tac.
  rewrite Ib1_Sb1, xor4_xor4, InverseTransform_LinearTransform by quad_tac.
  apply Ib0_Sb0. quad_tac.
Qed.

Lemma enc_from_O (K : list Z) (c : Z) (R : Serpent.quad) :
  enc_from K c 0 R = enc_octet K c R.
Proof. reflexivity. Qed.

Lemma enc_from_S (K : list Z) (c : Z) (m : nat) (R : Serpent.quad) :
  enc_from K c (S m) R
  = enc_from K (c + 32) m (Serpent.LinearTransform (enc_octet K c R)).
Proof. reflexivity. Qed.

Lemma dec_from_O (K : list Z) (c : Z) (R : Serpent.quad) :
  dec_from K c 0 R = dec_octet K c R.
Proof. reflexivity. Qed.

Lemma dec_from_S (K : list Z) (c : Z) (m : nat) (R : Serpent.quad) :
  dec_from K c (S m) R
  = dec_from K (c - 32) m (Serpent.InverseTransform (xor4 K c (dec_octet K c R))).
Proof. reflexivity. Qed.

Lemma dec_rest_O (K : list Z) (c : Z) (R : Serpent.quad) : dec_rest K 0 c R = xor4 K c R.
Proof. reflexivity. Qed.

Lemma dec_rest_S (K : list Z) (i : nat) (c : Z) (R : Serpent.quad) :
  dec_rest K (S i) c R = dec_from K (c - 32) i (Serpent.InverseTransform R).
Proof. reflexivity. Qed.

Lemma dec_from_octet (K : list Z) (i : nat) (c : Z) (R : Serpent.quad) :
  Forall word32 K -> quad_ok R ->
  dec_from K c i (enc_octet K c R) = dec_rest K i c R.
Proof.
  intros HK HR. destruct i as [|i].
  - rewrite dec_from_O, dec_rest_O. apply octet_inverse; assumption.
  - rewrite dec_from_S, dec_rest_S, octet_inverse, xor4_xor4 by assumption. reflexivity.
Qed.

Lemma dec_enc_from (K : list Z) (j : nat) :
  forall (i : nat) (c : Z) (R : Serpent.quad),
    Forall word32 K -> quad_ok R ->
    dec_from K (c + 32 * Z.of_nat j) (j + i) (enc_from K c j R) = dec_rest K i c R.
Proof.
  induction j as [|j IH]; intros i c R HK HR.
  - rewrite enc_from_O. replace (c + 32 * Z.of_nat 0) with c by lia.
    rewrite Nat.add_0_l. apply dec_from_octet; assumption.
  - rewrite enc_from_S.
    replace (c + 32 * Z.of_nat (S j)) with (c + 32 + 32 * Z.of_nat j) by lia.
    replace (S j + i)%nat with (j + S i)%nat by lia.
    rewrite IH by (assumption || apply LinearTransform_ok).
    rewrite dec_rest_S. replace (c + 32 - 32) with c by lia.
    rewrite InverseTransform_LinearTransform by apply enc_octet_ok.
    apply dec_from_octet; assumption.
Qed.

Lemma enc_from_ok (K : list Z) (m : nat) :
  forall (c : Z) (R : Serpent.quad), quad_ok (enc_from K c m R).
Proof.
  induction m as [|m IH]; intros c R.
  - rewrite enc_from_O. apply enc_octet_ok.
  - rewrite enc_from_S. apply IH.
Qed.

(** ** SHX: one block *)

Lemma sub_run {A : Type} (v : list A) (off k n N : nat) :
  (k + n <= N)%nat -> take n (drop k (take N (drop off v))) = take n (drop (off + k) v).
Proof.
  intros H. apply list_eq. intros i.
  destruct (decide (i < n)%nat) as [Hlt|Hge].
  - rewrite !lookup_take_lt, !lookup_drop by lia.
    rewrite lookup_take_lt, lookup_drop by lia. f_equal. lia.
  - rewrite !lookup_take_ge by lia. reflexivity.
Qed.

Lemma load_quad_ok (blk : list byte) : length blk = 16%nat -> quad_ok (load_quad blk).
Proof.
  intros H. unfold load_quad, quad_ok.
  repeat split; apply le_decode_word32; rewrite length_take, ?length_drop; lia.
Qed.

Lemma store_quad_length (q : Serpent.quad) : length (store_quad q) = 16%nat.
Proof.
  destruct q as [[[a b] c] d]. unfold store_quad.
  rewrite !length_app, !le_encode_length. reflexivity.
Qed.

Lemma load_store_quad (q : Serpent.quad) : quad_ok q -> load_quad (store_quad q) = q.
Proof.
  destruct q as [[[a b] c] d]. intros (Ha & Hb & Hc & Hd).
  unfold store_quad, load_quad.
  assert (La : length (IntUtils.le_encode 4 a) = 4%nat) by apply le_encode_length.
  assert (Lb : length (IntUtils.le_encode 4 b) = 4%nat) by apply le_encode_length.
  assert (Lc : length (IntUtils.le_encode 4 c) = 4%nat) by apply le_encode_length.
  assert (Ld : length (IntUtils.le_encode 4 d) = 4%nat) by apply le_encode_length.
  set (A := IntUtils.le_encode 4 a) in *. set (B := IntUtils.le_encode 4 b) in *.
  set (C := IntUtils.le_encode 4 c) in *. set (D := IntUtils.le_encode 4 d) in *.
  replace (drop 8 (A ++ B ++ C ++ D)) with (C ++ D).
  2:{ rewrite (app_assoc A B). symmetry. apply drop_app_length'. rewrite length_app. lia. }
  replace (drop 12 (A ++ B ++ C ++ D)) with D.
  2:{ rewrite (app_assoc A B), (app_assoc (A ++ B) C). symmetry.
      apply drop_app_length'. rewrite !length_app. lia. }
  rewrite (drop_app_length' A) by lia.
  rewrite !take_app_length' by lia.
  rewrite (take_ge D) by lia.
  unfold A, B, C, D. now rewrite !le_decode_encode4.
Qed.

Lemma store_load_quad (blk : list byte) : length blk = 16%nat -> store_quad (load_quad blk) = blk.
Proof.
  intros H.
  do 16 (destruct blk as [|? blk]; [discriminate H|]).
  destruct blk; [|discriminate H].
  unfold load_quad, store_quad. cbn [take drop].
  rewrite !le_encode_decode4 by reflexivity. reflexivity.
Qed.

Lemma LeBytesTo32_in (Input : list byte) (off : Z) :
  0 <= off -> off + 4 <= size Input ->
  IntUtils.LeBytesTo32 Input off
  = Returned (IntUtils.le_decode (take 4 (drop (Z.to_nat off) Input))).
Proof.
  intros H0 H1. unfold IntUtils.LeBytesTo32.
  rewrite vread_in by (simpl; lia). reflexivity.
Qed.

Lemma load_quad_at (Input : list byte) (off : Z) :
  0 <= off ->
  load_quad (take 16 (drop (Z.to_nat off) Input))
  = (IntUtils.le_decode (take 4 (drop (Z.to_nat off) Input)),
     IntUtils.le_decode (take 4 (drop (Z.to_nat (off + 4)) Input)),
     IntUtils.le_decode (take 4 (drop (Z.to_nat (off + 8)) Input)),
     IntUtils.le_decode (take 4 (drop (Z.to_nat (off + 12)) Input))).
Proof.
  intros H. unfold load_quad.
  rewrite <- (drop_0 (take 16 (drop (Z.to_nat off) Input))) at 1.
  rewrite !sub_run by lia.
  repeat f_equal; lia.
Qed.

Lemma four_writes_up (Output : list byte) (oo : Z) (a b c d : list byte) :
  length a = 4%nat -> length b = 4%nat -> length c = 4%nat -> length d = 4%nat ->
  0 <= oo -> oo + 16 <= size Output ->
  splice (splice (splice (splice Output (Z.to_nat oo) a) (Z.to_nat (oo + 4)) b)
                 (Z.to_nat (oo + 8)) c) (Z.to_nat (oo + 12)) d
  = splice Output (Z.to_nat oo) (a ++ b ++ c ++ d).
Proof.
  intros La Lb Lc Ld H0 H1. unfold size in H1.
  replace (Z.to_nat (oo + 4)) with (Z.to_nat oo + length a)%nat by lia.
  rewrite splice_after by lia.
  replace (Z.to_nat (oo + 8)) with (Z.to_nat oo + length (a ++ b))%nat
    by (rewrite length_app; lia).
  rewrite splice_after by (rewrite length_app; lia).
  replace (Z.to_nat (oo + 12)) with (Z.to_nat oo + length ((a ++ b) ++ c))%nat
    by (rewrite !length_app; lia).
  rewrite splice_after by (rewrite !length_app; lia).
  now rewrite <- !app_assoc.
Qed.

Lemma four_writes_down (Output : list byte) (oo : Z) (a b c d : list byte) :
  length a = 4%nat -> length b = 4%nat -> length c = 4%nat -> length d = 4%nat ->
  0 <= oo -> oo + 16 <= size Output ->
  splice (splice (splice (splice Output (Z.to_nat (oo + 12)) d) (Z.to_nat (oo + 8)) c)
                 (Z.to_nat (oo + 4)) b) (Z.to_nat oo) a
  = splice Output (Z.to_nat oo) (a ++ b ++ c ++ d).
Proof.
  intros La Lb Lc Ld H0 H1. unfold size in H1.
  replace (Z.to_nat (oo + 12)) with (Z.to_nat (oo + 8) + length c)%nat by lia.
  rewrite splice_before by lia.
  replace (Z.to_nat (oo + 8)) with (Z.to_nat (oo + 4) + length b)%nat by lia.
  rewrite splice_before by (rewrite length_app; lia).
  replace (Z.to_nat (oo + 4)) with (Z.to_nat oo + length a)%nat by lia.
  rewrite splice_before by (rewrite !length_app; lia).
  reflexivity.
Qed.

Lemma Le32ToBytes_in (x : Z) (Output : list byte) (off : Z) :
  0 <= off -> off + 4 <= size Output ->
  IntUtils.Le32ToBytes x Output off
  = Returned (splice Output (Z.to_nat off) (IntUtils.le_encode 4 x)).
Proof.
  intros H0 H1. unfold IntUtils.Le32ToBytes. apply vwrite_splice; [assumption|].
  unfold size at 1. rewrite le_encode_length. lia.
Qed.

Ltac size_tac :=
  repeat rewrite size_splice; unfold size in *; rewrite ?le_encode_length; lia.

Lemma key_for_fuel (m : nat) (K : list Z) : key_for m K -> (m < length K)%nat.
Proof. intros (Hs & _ & _). unfold size in Hs. lia. Qed.

Lemma Encrypt128_spec (m : nat) (K : list Z) (Input : list byte) (io : Z)
    (Output : list byte) (oo : Z) :
  key_for m K ->
  0 <= io -> io + 16 <= size Input -> size Input < 2 ^ 64 ->
  0 <= oo -> oo + 16 <= size Output -> size Output < 2 ^ 64 ->
  SHX.Encrypt128 K Input io Output oo
  = Returned (splice Output (Z.to_nat oo)
                (enc_block m K (take 16 (drop (Z.to_nat io) Input)))).
Proof.
  intros HK Hi0 Hi1 Hi2 Ho0 Ho1 Ho2.
  pose proof (key_for_fuel m K HK) as Hfuel. destruct HK as (Hs & Hmax & HKw).
  unfold SHX.Encrypt128, enc_block.
  rewrite load_quad_at by lia.
  rewrite (wrap64_small (io + 4)), (wrap64_small (io + 8)), (wrap64_small (io + 12)) by lia.
  rewrite !LeBytesTo32_in by lia. rewrite !obind_Returned.
  rewrite (wrap64_small (size K - 4)) by lia.
  rewrite (Encrypt128_loop_spec K m) by lia. rewrite obind_Returned.
  destruct (enc_from K 0 m _) as [[[y0 y1] y2] y3].
  rewrite (wrap64_small (size K - 4 + 1)), (wrap64_small (size K - 4 + 2)),
    (wrap64_small (size K - 4 + 3)) by lia.
  rewrite (wrap64_small (oo + 4)), (wrap64_small (oo + 8)), (wrap64_small (oo + 12)) by lia.
  rewrite (vget_word K (size K - 4)) by lia. rewrite obind_Returned.
  rewrite Le32ToBytes_in by lia. rewrite obind_Returned.
  rewrite (vget_word K (size K - 4 + 1)) by lia. rewrite obind_Returned.
  rewrite Le32ToBytes_in
    by size_tac.
  rewrite obind_Returned.
  rewrite (vget_word K (size K - 4 + 2)) by lia. rewrite obind_Returned.
  rewrite Le32ToBytes_in
    by size_tac.
  rewrite obind_Returned.
  rewrite (vget_word K (size K - 4 + 3)) by lia. rewrite obind_Returned.
  rewrite Le32ToBytes_in
    by size_tac.
  rewrite four_writes_up by (apply le_encode_length || lia).
  unfold xor4, store_quad.
  now rewrite !(Z.lxor_comm (word_at K _)).
Qed.

Lemma Decrypt128_spec (m : nat) (K : list Z) (Input : list byte) (io : Z)
    (Output : list byte) (oo : Z) :
  key_for m K ->
  0 <= io -> io + 16 <= size Input -> size Input < 2 ^ 64 ->
  0 <= oo -> oo + 16 <= size Output -> size Output < 2 ^ 64 ->
  SHX.Decrypt128 K Input io Output oo
  = Returned (splice Output (Z.to_nat oo)
                (dec_block m K (take 16 (drop (Z.to_nat io) Input)))).
Proof.
  intros HK Hi0 Hi1 Hi2 Ho0 Ho1 Ho2.
  pose proof (key_for_fuel m K HK) as Hfuel. destruct HK as (Hs & Hmax & HKw).
  unfold SHX.Decrypt128, dec_block.
  rewrite load_quad_at by lia.
  rewrite (wrap64_small (io + 4)), (wrap64_small (io + 8)), (wrap64_small (io + 12)) by lia.
  rewrite !LeBytesTo32_in by lia. rewrite !obind_Returned.
  add_key K (size K - 4).
  rewrite (wrap64_small (size K - 4)) by lia.
  replace (size K - 4) with (32 * Z.of_nat m + 32) at 1 by lia.
  rewrite (Decrypt128_loop_spec K m) by lia. rewrite obind_Returned.
  replace (size K - 36) with (32 * Z.of_nat m) by lia.
  destruct (dec_from K (32 * Z.of_nat m) m _) as [[[y0 y1] y2] y3].
  rewrite (wrap64_small (4 - 1)), (wrap64_small (4 - 2)), (wrap64_small (4 - 3)),
    (wrap64_small (4 - 4)) by lia.
  rewrite (wrap64_small (oo + 4)), (wrap64_small (oo + 8)), (wrap64_small (oo + 12)) by lia.
  rewrite (vget_word K (4 - 1)) by lia. rewrite obind_Returned.
  rewrite Le32ToBytes_in by lia. rewrite obind_Returned.
  rewrite (vget_word K (4 - 2)) by lia. rewrite obind_Returned.
  rewrite Le32ToBytes_in by size_tac. rewrite obind_Returned.
  rewrite (vget_word K (4 - 3)) by lia. rewrite obind_Returned.
  rewrite Le32ToBytes_in by size_tac. rewrite obind_Returned.
  rewrite (vget_word K (4 - 4)) by lia. rewrite obind_Returned.
  rewrite Le32ToBytes_in by size_tac.
  rewrite four_writes_down by (apply le_encode_length || lia).
  reflexivity.
Qed.

(** Decrypting what was encrypted under the same expanded key gives the
    block back. *)
Lemma dec_enc_block (m : nat) (K : list Z) (blk : list byte) :
  key_for m K -> length blk = 16%nat -> dec_block m K (enc_block m K blk) = blk.
Proof.
  intros (Hs & Hmax & HKw) Hb. unfold dec_block, enc_block.
  rewrite load_store_quad by (apply xor4_ok; [assumption | apply enc_from_ok]).
  rewrite xor4_xor4.
  pose proof (dec_enc_from K m 0%nat 0 (load_quad blk) HKw (load_quad_ok blk Hb)) as E.
  replace (0 + 32 * Z.of_nat m) with (size K - 36) in E by lia.
  rewrite Nat.add_0_r in E. rewrite E.
  rewrite dec_rest_O, xor4_xor4. now apply store_load_quad.
Qed.

Lemma enc_block_length (m : nat) (K : list Z) (blk : list byte) :
  length (enc_block m K blk) = 16%nat.
Proof. apply store_quad_length. Qed.

Lemma dec_block_length (m : nat) (K : list Z) (blk : list byte) :
  length (dec_block m K blk) = 16%nat.
Proof. apply store_quad_length. Qed.

(** ** SHX: the HKDF key schedule *)

Lemma size_resize_to {A : Type} (d : A) (v : list A) (n : Z) :
  0 <= n -> size (resize_to d v n) = n.
Proof.
  intros Hn. unfold size, resize_to.
  rewrite length_app, length_take, length_replicate. lia.
Qed.

Lemma for_each_fill (f : Z -> outcome Z) (g : Z -> Z) (n : nat) :
  forall (a : Z) (pre rest : list Z),
    size pre = a -> length rest = n ->
    (forall i, a <= i < a + Z.of_nat n -> f i = Returned (g i)) ->
    for_each (fun K i => w <~ f i ;; vset K i w) (seqZ a (Z.of_nat n)) (pre ++ rest)
    = Returned (pre ++ map g (seqZ a (Z.of_nat n))).
Proof.
  induction n as [|n IH]; intros a pre rest Ha Hr Hf.
  - destruct rest; [|discriminate]. reflexivity.
  - destruct rest as [|x rest]; [discriminate|]. injection Hr as Hr.
    rewrite seqZ_cons by lia. cbn [for_each map].
    rewrite Hf by lia. rewrite obind_Returned.
    pose proof (size_nonneg pre) as Hp.
    rewrite vset_in by (rewrite size_app; unfold size in *; simpl; lia).
    rewrite obind_Returned.
    replace (Z.to_nat a) with (length pre + 0)%nat by (unfold size in Ha; lia).
    rewrite insert_app_r. change (<[0%nat:=g a]> (x :: rest)) with (g a :: rest).
    replace (Z.pred (Z.of_nat (S n))) with (Z.of_nat n) by lia.
    replace (pre ++ g a :: rest) with ((pre ++ [g a]) ++ rest)
      by (now rewrite <- app_assoc).
    replace (pre ++ g a :: map g (seqZ (Z.succ a) (Z.of_nat n)))
      with ((pre ++ [g a]) ++ map g (seqZ (Z.succ a) (Z.of_nat n)))
      by (now rewrite <- app_assoc).
    rewrite (IH (Z.succ a) (pre ++ [g a]) rest).
    + reflexivity.
    + rewrite size_app. unfold size at 2. simpl. lia.
    + assumption.
    + intros i Hi. apply Hf. lia.
Qed.

Lemma SecureExpand_init_returns (s : SHX.t) (Key : list byte) :
  0 <= DigestFromName.GetBlockSize (SHX.m_kdfEngineType s) ->
  size Key < 2 ^ 64 ->
  exists s' gen,
    SHX.SecureExpand_init s Key = Returned (s', gen)
    /\ SHX.m_rndCount s' = SHX.m_rndCount s
    /\ SHX.m_kdfEngineType s' = SHX.m_kdfEngineType s
    /\ SHX.m_isEncryption s' = SHX.m_isEncryption s
    /\ SHX.m_expKey s' = SHX.m_expKey s.
Proof.
  intros Hb Hk. unfold SHX.SecureExpand_init.
  set (blk := DigestFromName.GetBlockSize (SHX.m_kdfEngineType s)) in *.
  destruct (Z.gtb_spec (size Key) blk) as [Hgt|Hle].
  - cbn [SHX.m_kdfKeySize SHX.set_kdfKeySize].
    unfold IntUtils.Copy.
    destruct (Z.eqb_spec blk 0) as [E0|N0].
    + rewrite obind_Returned.
      destruct (Z.eqb_spec (size Key -% blk) 0).
      * rewrite obind_Returned. eexists _, _. split; [reflexivity|]. now repeat split.
      * rewrite (wrap64_small (size Key - blk)) in * by lia.
        rewrite Z.div_1_r.
        rewrite vread_in by lia. rewrite obind_Returned.
        rewrite vwrite_in.
        -- rewrite obind_Returned. eexists _, _. split; [reflexivity|]. now repeat split.
        -- lia.
        -- rewrite size_replicate. unfold size at 1.
           rewrite length_take, length_drop. unfold size in *. lia.
    + rewrite Z.div_1_r. rewrite vread_in by lia. rewrite obind_Returned.
      rewrite vwrite_in.
      2: lia.
      2:{ rewrite size_replicate. unfold size at 1.
          rewrite length_take, length_drop. unfold size in *. lia. }
      rewrite obind_Returned.
      rewrite (wrap64_small (size Key - blk)) by lia.
      destruct (Z.eqb_spec (size Key - blk) 0); [lia|].
      rewrite Z.div_1_r. rewrite vread_in by lia. rewrite obind_Returned.
      rewrite vwrite_in.
      2: lia.
      2:{ rewrite size_replicate. unfold size at 1.
          rewrite length_take, length_drop. unfold size in *. lia. }
      rewrite obind_Returned. eexists _, _. split; [reflexivity|]. now repeat split.
  - eexists _, _. split; [reflexivity|]. now repeat split.
Qed.

Lemma Generate_length `{HKDF.Generator} (d : Digests.t) (g : HKDF.init) (Output : list byte) :
  length (HKDF.Generate d g Output) = length Output.
Proof. unfold HKDF.Generate. now rewrite length_map, length_seq. Qed.

(** The words the HKDF schedule stores: the stream read four bytes at a
    time, least significant byte first. *)
Lemma SecureExpand_spec `{HKDF.Generator} (s : SHX.t) (Key : list byte) (m : nat) :
  SHX.m_rndCount s = 8 * (Z.of_nat m + 1) -> (m < 100)%nat ->
  0 <= DigestFromName.GetBlockSize (SHX.m_kdfEngineType s) ->
  size Key < 2 ^ 64 ->
  exists s',
    SHX.SecureExpand s Key = Returned s'
    /\ key_for m (SHX.m_expKey s')
    /\ SHX.m_rndCount s' = SHX.m_rndCount s
    /\ SHX.m_isEncryption s' = SHX.m_isEncryption s.
Proof.
  intros Hr Hm Hb Hk. unfold SHX.SecureExpand.
  destruct (SecureExpand_init_returns s Key Hb Hk) as (s1 & gen & E & Er & Et & Ee & Ek).
  rewrite E, obind_Returned. cbv zeta.
  rewrite Hr.
  rewrite (wrap64_small (8 * (Z.of_nat m + 1) + 1)) by lia.
  rewrite (wrap64_small (4 * _)) by lia.
  rewrite (wrap64_small (4 * _ * 4)) by lia.
  set (keySize := 4 * (8 * (Z.of_nat m + 1) + 1)).
  set (rawKey := HKDF.Generate _ gen _).
  assert (Lraw : size rawKey = keySize * 4).
  { unfold size, rawKey. rewrite Generate_length, length_replicate. lia. }
  assert (Hsz : size (resize_to 0 (SHX.m_expKey s1) keySize) = keySize)
    by (apply size_resize_to; lia).
  rewrite Hsz.
  pose (g := fun i => IntUtils.le_decode (take 4 (drop (Z.to_nat (i * 4)) rawKey))).
  pose proof (for_each_fill (fun i => IntUtils.LeBytesTo32 rawKey (i *% 4)) g
                (Z.to_nat keySize) 0 [] (resize_to 0 (SHX.m_expKey s1) keySize)) as F.
  rewrite Z2Nat.id in F by lia. cbn [app] in F.
  rewrite F; clear F.
  - rewrite obind_Returned. eexists. split; [reflexivity|].
    cbn [SHX.m_expKey SHX.set_expKey SHX.m_rndCount SHX.m_isEncryption].
    repeat split; try assumption.
    + unfold size. rewrite length_map, length_seqZ. lia.
    + unfold size. rewrite length_map, length_seqZ. lia.
    + apply Forall_map. apply Forall_seqZ. intros i Hi. unfold g.
      apply le_decode_word32. rewrite length_take, length_drop. unfold size in Lraw. lia.
    + now rewrite Er.
  - reflexivity.
  - unfold size in Hsz. lia.
  - intros i Hi. rewrite (wrap64_small (i * 4)) by lia.
    apply LeBytesTo32_in; lia.
Qed.

(** ** SHX: the standard key schedule *)

Lemma word_at_lookup (v : list Z) (i : Z) :
  word_at v i = default 0 (v !! Z.to_nat i).
Proof. unfold word_at. apply nth_lookup. Qed.

Lemma Forall_word_at (W : list Z) :
  (forall j, 0 <= j < size W -> word32 (word_at W j)) -> Forall word32 W.
Proof.
  intros H. apply Forall_lookup. intros i x Hx.
  specialize (H (Z.of_nat i)).
  rewrite word_at_lookup, Nat2Z.id, Hx in H. apply H.
  apply lookup_lt_Some in Hx. unfold size. lia.
Qed.

Lemma Poly8_in (W : list Z) (i c : Z) :
  8 <= i < size W -> size W < 2 ^ 64 ->
  SHX.Poly8 W i c = Returned (<[Z.to_nat i := poly8 W i c]> W).
Proof.
  intros Hi Hs. unfold SHX.Poly8, poly8.
  rewrite (wrap64_small (i - 8)), (wrap64_small (i - 5)), (wrap64_small (i - 3)),
    (wrap64_small (i - 1)) by lia.
  rewrite !vget_word by lia. rewrite !obind_Returned.
  apply vset_in. lia.
Qed.

Lemma Poly16_in (W : list Z) (i c : Z) :
  16 <= i < size W -> size W < 2 ^ 64 ->
  SHX.Poly16 W i c = Returned (<[Z.to_nat i := poly16 W i c]> W).
Proof.
  intros Hi Hs. unfold SHX.Poly16, poly16.
  rewrite (wrap64_small (i - 16)), (wrap64_small (i - 13)), (wrap64_small (i - 11)),
    (wrap64_small (i - 10)), (wrap64_small (i - 8)), (wrap64_small (i - 5)),
    (wrap64_small (i - 3)), (wrap64_small (i - 1)) by lia.
  rewrite !vget_word by lia. rewrite !obind_Returned.
  apply vset_in. lia.
Qed.

Lemma poly8_local (W1 W2 : list Z) (i c : Z) :
  8 <= i -> (forall j, 0 <= j < i -> word_at W1 j = word_at W2 j) ->
  poly8 W1 i c = poly8 W2 i c.
Proof. intros Hi H. unfold poly8. rewrite !H by lia. reflexivity. Qed.

Lemma poly16_local (W1 W2 : list Z) (i c : Z) :
  16 <= i -> (forall j, 0 <= j < i -> word_at W1 j = word_at W2 j) ->
  poly16 W1 i c = poly16 W2 i c.
Proof. intros Hi H. unfold poly16. rewrite !H by lia. reflexivity. Qed.

(** A loop that stores at each index a word computed from the words
    below it: afterwards every index of the range holds that word,
    computed from the final vector. *)
Lemma for_each_update (body : list Z -> Z -> outcome (list Z)) (g : list Z -> Z -> Z)
    (n : nat) :
  forall (a : Z) (W : list Z),
    0 <= a -> a + Z.of_nat n <= size W ->
    (forall W' i, size W' = size W -> a <= i < a + Z.of_nat n ->
                  body W' i = Returned (<[Z.to_nat i := g W' i]> W')) ->
    (forall W1 W2 i, a <= i ->
                     (forall j, 0 <= j < i -> word_at W1 j = word_at W2 j) ->
                     g W1 i = g W2 i) ->
    exists W',
      for_each body (seqZ a (Z.of_nat n)) W = Returned W'
      /\ size W' = size W
      /\ (forall j, 0 <= j -> j < a \/ a + Z.of_nat n <= j -> word_at W' j = word_at W j)
      /\ (forall j, a <= j < a + Z.of_nat n -> word_at W' j = g W' j).
Proof.
  induction n as [|n IH]; intros a W Ha Hsz Hbody Hloc.
  - exists W. split; [reflexivity|]. split; [reflexivity|]. split.
    + reflexivity.
    + intros j Hj. lia.
  - rewrite seqZ_cons by lia. cbn [for_each].
    rewrite Hbody by lia. rewrite obind_Returned.
    replace (Z.pred (Z.of_nat (S n))) with (Z.of_nat n) by lia.
    set (W1 := <[Z.to_nat a := g W a]> W).
    assert (S1 : size W1 = size W) by apply size_insert.
    destruct (IH (Z.succ a) W1) as (W' & E & S' & Hout & Hin).
    + lia.
    + lia.
    + intros W2 i HW2 Hi. apply Hbody; lia.
    + intros W2 W3 i Hi. apply Hloc. lia.
    + exists W'. split; [exact E|]. split; [lia|]. split.
      * intros j Hj Hr. rewrite Hout by lia.
        unfold W1. apply word_at_insert_ne; lia.
      * intros j Hj. destruct (Z.eq_dec j a) as [->|Hne].
        -- rewrite Hout by lia. unfold W1. rewrite word_at_insert_eq by lia.
           apply Hloc; [lia|]. intros j Hj'. rewrite Hout by lia.
           unfold W1. symmetry. apply word_at_insert_ne; lia.
        -- apply Hin. lia.
Qed.

Lemma BeBytesTo32_in (Input : list byte) (off : Z) :
  0 <= off -> off + 4 <= size Input ->
  IntUtils.BeBytesTo32 Input off
  = Returned (IntUtils.be_decode (take 4 (drop (Z.to_nat off) Input))).
Proof.
  intros H0 H1. unfold IntUtils.BeBytesTo32.
  rewrite vread_in by (simpl; lia). reflexivity.
Qed.

Lemma be_decode_word32 (bs : list byte) : length bs = 4%nat -> word32 (IntUtils.be_decode bs).
Proof. intros H. unfold IntUtils.be_decode. apply le_decode_word32. now rewrite length_rev. Qed.

Lemma ReverseCopy_spec (Key : list byte) (k : nat) :
  forall (fuel : nat) (Wp : list Z) (j : Z),
    size Key < 2 ^ 64 -> 4 * Z.of_nat k <= size Key ->
    0 <= j -> j + Z.of_nat k <= size Wp -> j + Z.of_nat k < 2 ^ 32 ->
    (k < fuel)%nat ->
    exists Wp',
      SHX.ReverseCopy fuel Key Wp (4 * Z.of_nat k) j = Returned (Wp', j + Z.of_nat k)
      /\ size Wp' = size Wp
      /\ (forall t, 0 <= t < Z.of_nat k ->
                    word_at Wp' (j + t)
                    = IntUtils.be_decode
                        (take 4 (drop (Z.to_nat (4 * (Z.of_nat k - 1 - t))) Key)))
      /\ (forall i, 0 <= i -> i < j \/ j + Z.of_nat k <= i -> word_at Wp' i = word_at Wp i).
Proof.
  induction k as [|k IH]; intros fuel Wp j Hmax Hk Hj Hsz H32 Hfuel.
  all: destruct fuel as [|fuel]; [lia|].
  - exists Wp. cbn [SHX.ReverseCopy]. change (4 * Z.of_nat 0 >? 0) with false.
    cbv iota. rewrite Z.add_0_r. split; [reflexivity|]. split; [reflexivity|]. split.
    + intros t Ht. lia.
    + reflexivity.
  - cbn [SHX.ReverseCopy].
    destruct (Z.gtb_spec (4 * Z.of_nat (S k)) 0) as [_|C]; [|lia].
    rewrite (wrap64_small (4 * Z.of_nat (S k) - 4)) by lia.
    rewrite BeBytesTo32_in by lia. rewrite obind_Returned.
    rewrite vset_in by lia. rewrite obind_Returned.
    rewrite (wrap32_small (j + 1)) by lia.
    replace (4 * Z.of_nat (S k) - 4) with (4 * Z.of_nat k) by lia.
    set (w := IntUtils.be_decode _).
    set (Wp1 := <[Z.to_nat j := w]> Wp).
    assert (S1 : size Wp1 = size Wp) by apply size_insert.
    destruct (IH fuel Wp1 (j + 1)) as (Wp' & E & S' & Hin & Hout); try lia.
    exists Wp'. rewrite E. split; [f_equal; f_equal; lia|]. split; [lia|]. split.
    + intros t Ht. destruct (Z.eq_dec t 0) as [->|Hne].
      * rewrite Z.add_0_r, Hout by lia. unfold Wp1.
        rewrite word_at_insert_eq by lia. unfold w. do 3 f_equal. lia.
      * replace (j + t) with (j + 1 + (t - 1)) by lia. rewrite Hin by lia.
        do 3 f_equal. lia.
    + intros i Hi Hr. rewrite Hout by lia. unfold Wp1. apply word_at_insert_ne; lia.
Qed.

Lemma word_at_replicate0 (k : nat) (t : Z) : word_at (replicate k 0) t = 0.
Proof.
  rewrite word_at_lookup.
  destruct (replicate k 0 !! Z.to_nat t) as [x|] eqn:E; [|reflexivity].
  apply lookup_replicate in E as [-> _]. reflexivity.
Qed.

Lemma word_at_splice0 (v xs : list Z) (i : Z) :
  size xs <= size v -> 0 <= i < size xs -> word_at (splice v 0 xs) i = word_at xs i.
Proof.
  intros Hs Hi. unfold size in *. rewrite !word_at_lookup, splice_lookup by lia.
  destruct (decide (Z.to_nat i < 0)%nat); [lia|].
  destruct (decide (Z.to_nat i < 0 + length xs)%nat); [|lia].
  now rewrite Nat.sub_0_r.
Qed.

Lemma word_at_run (v : list Z) (off n : nat) (i : Z) :
  0 <= i < Z.of_nat n ->
  word_at (take n (drop off v)) i = word_at v (Z.of_nat off + i).
Proof.
  intros Hi. rewrite !word_at_lookup, lookup_take_lt, lookup_drop by lia.
  repeat f_equal. lia.
Qed.

Lemma Copy_words (Wp Wk : list Z) (off : Z) (n : nat) :
  0 < Z.of_nat n -> 0 <= off -> off + Z.of_nat n <= size Wp -> Z.of_nat n <= size Wk ->
  IntUtils.Copy 4 Wp off Wk 0 (Z.of_nat n * 4)
  = Returned (splice Wk 0 (take n (drop (Z.to_nat off) Wp))).
Proof.
  intros Hn Ho Hp Hk. unfold IntUtils.Copy.
  destruct (Z.eqb_spec (Z.of_nat n * 4) 0); [lia|].
  rewrite Z.div_mul, Nat2Z.id by lia.
  rewrite vread_in by lia. rewrite obind_Returned.
  rewrite vwrite_splice; [reflexivity | lia |].
  unfold size in *. rewrite length_take, length_drop. lia.
Qed.

Lemma poly8_word (W : list Z) (i c : Z) : word32 (poly8 W i c).
Proof. apply RotL32_word. Qed.

Lemma poly16_word (W : list Z) (i c : Z) : word32 (poly16 W i c).
Proof. apply RotL32_word. Qed.

Lemma StandardPrekey_8 (Key : list byte) (n : nat) :
  size Key = 4 * Z.of_nat n -> (n <= 8)%nat ->
  exists Wp Wk,
    SHX.StandardPrekey Key 132 = Returned Wk
    /\ size Wk = 132 /\ Forall word32 Wk /\ prekey8 Key Wp Wk.
Proof.
  intros Hsz Hn. unfold SHX.StandardPrekey.
  replace (if size Key <? 32 then 16 else size Key / 2) with 16.
  2:{ destruct (Z.ltb_spec (size Key) 32); [reflexivity|].
      replace (size Key) with 32 by lia. reflexivity. }
  change (Z.to_nat 16) with 16%nat. change (Z.to_nat 132) with 132%nat.
  change (16 =? 16) with true. cbv iota.
  (* step 1 *)
  destruct (ReverseCopy_spec Key n (S (length Key)) (replicate 16 0) 0)
    as (Wp1 & E1 & S1 & In1 & Out1);
    try (rewrite ?size_replicate; unfold size in *; lia).
  rewrite <- Hsz in E1. rewrite E1, obind_Returned. clear E1.
  rewrite size_replicate in S1. rewrite Z.add_0_l.
  (* the padding word *)
  assert (Hpad : exists Wp2,
             (if Z.of_nat n <? 8 then vset Wp1 (Z.of_nat n) 1 else Returned Wp1)
             = Returned Wp2
             /\ size Wp2 = 16
             /\ (forall t, 0 <= t < Z.of_nat n -> word_at Wp2 t = key_word Key t)
             /\ (Z.of_nat n < 8 -> word_at Wp2 (Z.of_nat n) = 1)
             /\ (forall t, Z.of_nat n < t < 8 -> word_at Wp2 t = 0)).
  { assert (K1 : forall t, 0 <= t < Z.of_nat n -> word_at Wp1 t = key_word Key t).
    { intros t Ht. specialize (In1 t Ht). rewrite Z.add_0_l in In1. rewrite In1.
      unfold key_word. do 3 f_equal. lia. }
    assert (Z1 : forall t, Z.of_nat n <= t -> word_at Wp1 t = 0).
    { intros t Ht. rewrite Out1 by lia. apply word_at_replicate0. }
    destruct (Z.ltb_spec (Z.of_nat n) 8) as [Hlt|Hge].
    - rewrite vset_in by lia. eexists. split; [reflexivity|].
      split; [now rewrite size_insert|]. split; [|split].
      + intros t Ht. rewrite word_at_insert_ne by lia. now apply K1.
      + intros _. apply word_at_insert_eq. lia.
      + intros t Ht. rewrite word_at_insert_ne by lia. apply Z1. lia.
    - exists Wp1. split; [reflexivity|]. split; [assumption|]. split; [assumption|].
      split; [lia|]. intros t Ht. lia. }
  destruct Hpad as (Wp2 & E2 & S2 & Key2 & Pad2 & Zero2).
  rewrite E2, obind_Returned. clear E2.
  (* step 2 *)
  change (16 - 8) with (Z.of_nat 8).
  destruct (for_each_update (fun W i => SHX.Poly8 W i (i -% 8))
              (fun W i => poly8 W i (i - 8)) 8 8 Wp2)
    as (Wp3 & E3 & S3 & Out3 & In3); try lia.
  { intros W' i HS Hi. cbv beta. rewrite (wrap64_small (i - 8)) by lia.
    apply Poly8_in; lia. }
  { intros W1 W2 i Hi Hag. now apply poly8_local. }
  rewrite E3, obind_Returned. clear E3.
  change (8 *% 4) with (Z.of_nat 8 * 4).
  rewrite Copy_words by (rewrite ?size_replicate; lia).
  rewrite obind_Returned.
  set (Wk1 := splice (replicate 132 0) 0 _).
  assert (Sk1 : size Wk1 = 132).
  { unfold Wk1. rewrite size_splice; [apply size_replicate|].
    rewrite size_replicate. unfold size in *. rewrite length_take, length_drop. lia. }
  (* step 3 *)
  change (132 - 8) with (Z.of_nat 124).
  destruct (for_each_update (fun W i => SHX.Poly8 W i i)
              (fun W i => poly8 W i i) 124 8 Wk1)
    as (Wk & E4 & S4 & Out4 & In4); try lia.
  { intros W' i HS Hi. cbv beta. apply Poly8_in; lia. }
  { intros W1 W2 i Hi Hag. now apply poly8_local. }
  assert (Low : forall i, 0 <= i < 8 -> word_at Wk i = word_at Wp3 (i + 8)).
  { intros i Hi. rewrite Out4 by lia. unfold Wk1.
    rewrite word_at_splice0, word_at_run.
    - f_equal. lia.
    - lia.
    - rewrite size_replicate. unfold size in *. rewrite length_take, length_drop. lia.
    - unfold size in *. rewrite length_take, length_drop. lia. }
  exists Wp3, Wk. split; [exact E4|]. split; [lia|]. split.
  - apply Forall_word_at. intros j Hj.
    destruct (Z_lt_ge_dec j 8).
    + rewrite Low, In3 by lia. apply poly8_word.
    + rewrite In4 by lia. apply poly8_word.
  - unfold prekey8. cbv zeta. rewrite Hsz.
    replace (4 * Z.of_nat n / 4) with (Z.of_nat n)
      by (rewrite Z.mul_comm, Z.div_mul; lia).
    split; [lia|]. split; [|split; [|split; [|split; [|split]]]].
    + intros t Ht. rewrite Out3 by lia. now apply Key2.
    + intros Hlt. rewrite Out3 by lia. now apply Pad2.
    + intros t Ht. rewrite Out3 by lia. now apply Zero2.
    + intros i Hi. apply In3. lia.
    + exact Low.
    + intros i Hi. apply In4. lia.
Qed.

Lemma StandardPrekey_16 (Key : list byte) :
  size Key = 64 ->
  exists Wp Wk,
    SHX.StandardPrekey Key 164 = Returned Wk
    /\ size Wk = 164 /\ Forall word32 Wk /\ prekey16 Key Wp Wk.
Proof.
  intros Hsz. unfold SHX.StandardPrekey. rewrite Hsz.
  change (if 64 <? 32 then 16 else 64 / 2) with 32.
  change (Z.to_nat 32) with 32%nat. change (Z.to_nat 164) with 164%nat.
  change (32 =? 16) with false. cbv iota.
  (* step 1 *)
  destruct (ReverseCopy_spec Key 16 (S (length Key)) (replicate 32 0) 0)
    as (Wp1 & E1 & S1 & In1 & Out1);
    try (rewrite ?size_replicate; unfold size in *; lia).
  change (4 * Z.of_nat 16) with 64 in E1. rewrite E1, obind_Returned. clear E1.
  rewrite size_replicate in S1. change (0 + Z.of_nat 16 <? 8) with false. cbv iota.
  rewrite obind_Returned.
  assert (K1 : forall t, 0 <= t < 16 -> word_at Wp1 t = key_word Key t).
  { intros t Ht. specialize (In1 t). rewrite Z.add_0_l in In1. rewrite In1 by lia.
    unfold key_word. do 3 f_equal. lia. }
  (* step 3, on Wp *)
  change (32 - 16) with (Z.of_nat 16).
  destruct (for_each_update (fun W i => SHX.Poly16 W i (i -% 16))
              (fun W i => poly16 W i (i - 16)) 16 16 Wp1)
    as (Wp3 & E3 & S3 & Out3 & In3); try lia.
  { intros W' i HS Hi. cbv beta. rewrite (wrap64_small (i - 16)) by lia.
    apply Poly16_in; lia. }
  { intros W1 W2 i Hi Hag. now apply poly16_local. }
  rewrite E3, obind_Returned. clear E3.
  change (16 *% 4) with (Z.of_nat 16 * 4).
  rewrite Copy_words by (rewrite ?size_replicate; lia).
  rewrite obind_Returned.
  set (Wk1 := splice (replicate 164 0) 0 _).
  assert (Sk1 : size Wk1 = 164).
  { unfold Wk1. rewrite size_splice; [apply size_replicate|].
    rewrite size_replicate. unfold size in *. rewrite length_take, length_drop. lia. }
  (* step 3, on Wk *)
  change (164 - 16) with (Z.of_nat 148).
  destruct (for_each_update (fun W i => SHX.Poly16 W i i)
              (fun W i => poly16 W i i) 148 16 Wk1)
    as (Wk & E4 & S4 & Out4 & In4); try lia.
  { intros W' i HS Hi. cbv beta. apply Poly16_in; lia. }
  { intros W1 W2 i Hi Hag. now apply poly16_local. }
  assert (Low : forall i, 0 <= i < 16 -> word_at Wk i = word_at Wp3 (i + 16)).
  { intros i Hi. rewrite Out4 by lia. unfold Wk1.
    rewrite word_at_splice0, word_at_run.
    - f_equal. lia.
    - lia.
    - rewrite size_replicate. unfold size in *. rewrite length_take, length_drop. lia.
    - unfold size in *. rewrite length_take, length_drop. lia. }
  exists Wp3, Wk. split; [exact E4|]. split; [lia|]. split.
  - apply Forall_word_at. intros j Hj.
    destruct (Z_lt_ge_dec j 16).
    + rewrite Low, In3 by lia. apply poly16_word.
    + rewrite In4 by lia. apply poly16_word.
  - unfold prekey16.
    split; [lia|]. split; [|split; [|split]].
    + intros t Ht. rewrite Out3 by lia. now apply K1.
    + intros i Hi. apply In3. lia.
    + exact Low.
    + intros i Hi. apply In4. lia.
Qed.

(** The S-box pass keeps the length of the key and words of 32 bits. *)
Lemma SbAt_spec (Sb : Serpent.quad -> Serpent.quad) (Wk : list Z) (cnt : Z) :
  (forall q, quad_ok (Sb q)) ->
  0 <= cnt -> cnt + 4 <= size Wk -> size Wk < 2 ^ 32 ->
  exists W',
    SHX.SbAt Sb Wk cnt = Returned W'
    /\ size W' = size Wk /\ (Forall word32 Wk -> Forall word32 W').
Proof.
  intros HSb H0 H1 H2. unfold SHX.SbAt.
  rewrite (wrap32_small (cnt + 1)), (wrap32_small (cnt + 2)), (wrap32_small (cnt + 3)) by lia.
  rewrite !vget_word by lia. rewrite !obind_Returned.
  specialize (HSb (word_at Wk cnt, word_at Wk (cnt + 1), word_at Wk (cnt + 2),
                   word_at Wk (cnt + 3))).
  destruct (Sb _) as [[[a b] c] d]. destruct HSb as (Ha & Hb & Hc & Hd).
  rewrite vset_in by lia. rewrite obind_Returned.
  rewrite vset_in by (rewrite ?size_insert; lia). rewrite obind_Returned.
  rewrite vset_in by (rewrite ?size_insert; lia). rewrite obind_Returned.
  rewrite vset_in by (rewrite ?size_insert; lia).
  eexists. split; [reflexivity|]. split.
  - now rewrite !size_insert.
  - intros HW. repeat apply Forall_insert; assumption.
Qed.

Lemma SboxPass_spec (n : nat) :
  forall (fuel : nat) (Wk : list Z) (cnt : Z),
    0 <= cnt -> size Wk = cnt + 32 * Z.of_nat n + 4 -> size Wk < 2 ^ 32 ->
    (n < fuel)%nat ->
    exists W',
      SHX.SboxPass fuel Wk cnt (size Wk) = Returned (W', size Wk - 4)
      /\ size W' = size Wk /\ (Forall word32 Wk -> Forall word32 W').
Proof.
  induction n as [|n IH]; intros fuel Wk cnt H0 Hs Hmax Hfuel.
  all: destruct fuel as [|fuel]; [lia|].
  all: cbn [SHX.SboxPass].
  all: rewrite (wrap64_small (size Wk - 4)) by lia.
  - destruct (Z.ltb_spec cnt (size Wk - 4)) as [C|_]; [lia|].
    exists Wk. split; [f_equal; f_equal; lia|]. split; [reflexivity|]. auto.
  - destruct (Z.ltb_spec cnt (size Wk - 4)) as [_|C]; [|lia].
    destruct (SbAt_spec Serpent.Sb3 Wk cnt Sb3_ok) as (W1 & E1 & S1 & F1); try lia.
    rewrite E1, obind_Returned. cbv zeta. rewrite (wrap32_small (cnt + 4)) by lia.
    destruct (SbAt_spec Serpent.Sb2 W1 (cnt + 4) Sb2_ok) as (W2 & E2 & S2 & F2); try lia.
    rewrite E2, obind_Returned. rewrite (wrap32_small (cnt + 4 + 4)) by lia.
    destruct (SbAt_spec Serpent.Sb1 W2 (cnt + 4 + 4) Sb1_ok) as (W3 & E3 & S3 & F3); try lia.
    rewrite E3, obind_Returned. rewrite (wrap32_small (cnt + 4 + 4 + 4)) by lia.
    destruct (SbAt_spec Serpent.Sb0 W3 (cnt + 4 + 4 + 4) Sb0_ok)
      as (W4 & E4 & S4 & F4); try lia.
    rewrite E4, obind_Returned. rewrite (wrap32_small (cnt + 4 + 4 + 4 + 4)) by lia.
    destruct (SbAt_spec Serpent.Sb7 W4 (cnt + 4 + 4 + 4 + 4) Sb7_ok)
      as (W5 & E5 & S5 & F5); try lia.
    rewrite E5, obind_Returned. rewrite (wrap32_small (cnt + 4 + 4 + 4 + 4 + 4)) by lia.
    destruct (SbAt_spec Serpent.Sb6 W5 (cnt + 4 + 4 + 4 + 4 + 4) Sb6_ok)
      as (W6 & E6 & S6 & F6); try lia.
    rewrite E6, obind_Returned.
    rewrite (wrap32_small (cnt + 4 + 4 + 4 + 4 + 4 + 4)) by lia.
    destruct (SbAt_spec Serpent.Sb5 W6 (cnt + 4 + 4 + 4 + 4 + 4 + 4) Sb5_ok)
      as (W7 & E7 & S7 & F7); try lia.
    rewrite E7, obind_Returned.
    rewrite (wrap32_small (cnt + 4 + 4 + 4 + 4 + 4 + 4 + 4)) by lia.
    destruct (SbAt_spec Serpent.Sb4 W7 (cnt + 4 + 4 + 4 + 4 + 4 + 4 + 4) Sb4_ok)
      as (W8 & E8 & S8 & F8); try lia.
    rewrite E8, obind_Returned.
    rewrite (wrap32_small (cnt + 4 + 4 + 4 + 4 + 4 + 4 + 4 + 4)) by lia.
    destruct (IH fuel W8 (cnt + 4 + 4 + 4 + 4 + 4 + 4 + 4 + 4)) as (W' & E & S' & F);
      try lia.
    replace (size Wk) with (size W8) by lia.
    exists W'. split; [exact E|]. split; [lia|]. auto 12.
Qed.

Lemma StandardExpand_spec (s : SHX.t) (Key : list byte) (n : nat) :
  size Key = 4 * Z.of_nat n -> (n <= 8)%nat \/ n = 16%nat ->
  let m := if size Key =? 64 then 4%nat else 3%nat in
  exists s' Wk,
    SHX.StandardExpand s Key = Returned s'
    /\ s' = SHX.set_expKey (SHX.set_rndCount s (8 * (Z.of_nat m + 1))) (SHX.m_expKey s')
    /\ key_for m (SHX.m_expKey s')
    /\ SHX.StandardPrekey Key (4 * (8 * (Z.of_nat m + 1) + 1)) = Returned Wk
    /\ (r <~ SHX.SboxPass (S (length Wk)) Wk 0 (size Wk) ;;
        SHX.SbAt Serpent.Sb3 (fst r) (snd r)) = Returned (SHX.m_expKey s').
Proof.
  intros Hsz Hn. unfold SHX.StandardExpand. cbv zeta.
  cbn [SHX.m_rndCount SHX.set_rndCount].
  assert (Hpre : exists Wk, let m := if size Key =? 64 then 4%nat else 3%nat in
             SHX.StandardPrekey Key (4 * (8 * (Z.of_nat m + 1) + 1)) = Returned Wk
             /\ size Wk = 32 * (Z.of_nat m + 1) + 4 /\ Forall word32 Wk).
  { destruct Hn as [Hn | ->].
    - destruct (Z.eqb_spec (size Key) 64); [lia|].
      destruct (StandardPrekey_8 Key n Hsz Hn) as (Wp & Wk & E & S & F & _).
      exists Wk. cbv zeta. split; [exact E|]. split; [exact S | exact F].
    - destruct (Z.eqb_spec (size Key) 64); [|lia].
      destruct (StandardPrekey_16 Key Hsz) as (Wp & Wk & E & S & F & _).
      exists Wk. cbv zeta. split; [exact E|]. split; [exact S | exact F]. }
  destruct Hpre as (Wk & Hpre). cbv zeta in Hpre.
  set (m := if size Key =? 64 then 4%nat else 3%nat) in *.
  assert (Hm : (m = 3 \/ m = 4)%nat) by (unfold m; destruct (size Key =? 64); auto).
  replace (if size Key =? 64 then 40 else 32) with (8 * (Z.of_nat m + 1))
    by (unfold m; destruct (size Key =? 64); reflexivity).
  rewrite (wrap64_small (8 * (Z.of_nat m + 1) + 1)) by lia.
  rewrite (wrap64_small (4 * _)) by lia.
  destruct Hpre as (E & HS & F). rewrite E, obind_Returned.
  replace (4 * (8 * (Z.of_nat m + 1) + 1)) with (size Wk) by lia.
  destruct (SboxPass_spec (m + 1) (S (length Wk)) Wk 0) as (W1 & E1 & S1 & F1);
    try (unfold size in *; lia).
  rewrite E1, obind_Returned.
  destruct (SbAt_spec Serpent.Sb3 W1 (size Wk - 4) Sb3_ok) as (W2 & E2 & S2 & F2); try lia.
  rewrite E2, obind_Returned.
  exists (SHX.set_expKey (SHX.set_rndCount s (8 * (Z.of_nat m + 1))) W2), Wk.
  cbn [SHX.m_expKey SHX.set_expKey].
  split; [reflexivity|]. split; [reflexivity|]. split.
  - unfold key_for. split; [lia|]. split; [lia|]. auto.
  - split; [reflexivity|]. rewrite E1, obind_Returned. cbn [fst snd]. exact E2.
Qed.

(** ** SHX: construction and initialisation *)

Lemma new_inv (d : Digests.t) (r : Z) (s0 : SHX.t) :
  SHX.new d r = Returned s0 ->
  (32 <= r <= 64 /\ r mod 8 = 0)
  /\ s0 = SHX.LoadState
            {| SHX.m_cprKeySize := 0; SHX.m_expKey := []; SHX.m_kdfEngineType := d;
               SHX.m_kdfInfo := SHX.DEF_DSTINFO; SHX.m_kdfInfoMax := 0;
               SHX.m_kdfKeySize := 0; SHX.m_isEncryption := false;
               SHX.m_isInitialized := false; SHX.m_legalKeySizes := [];
               SHX.m_legalRounds := []; SHX.m_rndCount := r |} d.
Proof.
  unfold SHX.new, SHX.MAX_ROUNDS, SHX.MIN_ROUNDS. intros H.
  destruct (Z.leb_spec r 64); [|discriminate H].
  destruct (Z.geb_spec r 32); [|discriminate H].
  destruct (Z.eqb_spec (r mod 8) 0); [|discriminate H].
  cbn [andb] in H. injection H as <-. split; [lia | reflexivity].
Qed.

Lemma new_fields (d : Digests.t) (r : Z) (s0 : SHX.t) :
  SHX.new d r = Returned s0 ->
  SHX.m_rndCount s0 = r /\ SHX.m_kdfEngineType s0 = d /\ SHX.m_expKey s0 = []
  /\ SHX.m_isInitialized s0 = false.
Proof.
  intros H. apply new_inv in H as [_ ->]. unfold SHX.LoadState.
  destruct d; cbn; repeat split; reflexivity.
Qed.

Lemma rounds_octets (r : Z) :
  32 <= r <= 64 -> r mod 8 = 0 -> exists m : nat, r = 8 * (Z.of_nat m + 1) /\ (m < 100)%nat.
Proof.
  intros Hr Hm. exists (Z.to_nat (r / 8 - 1)).
  pose proof (Z.div_mod r 8 ltac:(lia)) as E. rewrite Hm in E. lia.
Qed.

Lemma Contains_In (sizes : list SymmetricKeySize) (n : Z) :
  Contains sizes n = true -> exists e, In e sizes /\ KeySize e = n.
Proof.
  unfold Contains. rewrite existsb_exists. intros (e & Hin & He).
  exists e. split; [assumption|]. now apply Z.eqb_eq.
Qed.

Lemma legal_standard_sizes (r : Z) (s0 : SHX.t) (n : Z) :
  SHX.new Digests.None r = Returned s0 ->
  Contains (SHX.LegalKeySizes s0) n = true ->
  n = 16 \/ n = 24 \/ n = 32 \/ n = 64.
Proof.
  intros H Hc. apply new_inv in H as [_ ->].
  apply Contains_In in Hc as (e & Hin & <-). cbn in Hin.
  destruct Hin as [<- | [<- | [<- | [<- | []]]]]; cbn; lia.
Qed.

Lemma legal_size_bound (d : Digests.t) (r : Z) (s0 : SHX.t) (n : Z) :
  SHX.new d r = Returned s0 ->
  Contains (SHX.LegalKeySizes s0) n = true -> 0 < n <= 256.
Proof.
  intros H Hc. apply new_inv in H as [_ ->].
  apply Contains_In in Hc as (e & Hin & <-).
  destruct d; vm_compute in Hin.
  - destruct Hin as [<- | [<- | [<- | [<- | []]]]]; cbn; lia.
  - destruct Hin as [<- | [<- | [<- | []]]]; cbn; lia.
  - destruct Hin as [<- | [<- | [<- | []]]]; cbn; lia.
Qed.

(** The key schedule does not read the direction of the instance. *)
Lemma ExpandKey_isEncryption `{HKDF.Generator} (s : SHX.t) (e : bool) (Key : list byte) :
  SHX.ExpandKey (SHX.set_isEncryption s e) Key
  = (s' <~ SHX.ExpandKey s Key ;; Returned (SHX.set_isEncryption s' e)).
Proof.
  destruct s as [cpr K ty info imax ksz enc ini lks lr rc].
  unfold SHX.ExpandKey, SHX.SecureExpand, SHX.StandardExpand, SHX.SecureExpand_init.
  cbn [SHX.set_isEncryption SHX.set_rndCount SHX.set_expKey SHX.set_kdfKeySize
       SHX.m_cprKeySize SHX.m_expKey SHX.m_kdfEngineType SHX.m_kdfInfo SHX.m_kdfInfoMax
       SHX.m_kdfKeySize SHX.m_isEncryption SHX.m_isInitialized SHX.m_legalKeySizes
       SHX.m_legalRounds SHX.m_rndCount].
  destruct (negb (Digests.eqb ty Digests.None)).
  - destruct (size Key >? DigestFromName.GetBlockSize ty).
    + destruct (IntUtils.Copy 1 Key 0 _ 0 _); cbn [obind]; try reflexivity.
      destruct (IntUtils.Copy 1 Key _ _ 0 _); cbn [obind]; try reflexivity.
      cbn [SHX.m_kdfEngineType SHX.m_expKey].
      destruct (for_each _ _ _); reflexivity.
    + cbn [obind SHX.m_kdfEngineType SHX.m_expKey].
      destruct (for_each _ _ _); reflexivity.
  - destruct (SHX.StandardPrekey Key _); cbn [obind]; try reflexivity.
    destruct (SHX.SboxPass _ _ _ _) as [[W c]| | |]; cbn [obind]; try reflexivity.
    destruct (SHX.SbAt _ _ _); reflexivity.
Qed.

Section Initialize.
Context `{HKDF.Generator}.

(** What [Initialize] leaves behind on a constructed instance, for a key
    of a legal size (and, with a digest, an info within the limit). *)
Lemma Initialize_spec (d : Digests.t) (r : Z) (s0 : SHX.t) (enc : bool)
    (kp : ISymmetricKey) :
  SHX.new d r = Returned s0 ->
  Contains (SHX.LegalKeySizes s0) (size (Key kp)) = true ->
  (d <> Digests.None -> size (Info kp) <= SHX.m_kdfInfoMax s0) ->
  exists s m,
    SHX.Initialize s0 enc kp = Returned s
    /\ key_for m (SHX.m_expKey s)
    /\ SHX.m_isEncryption s = enc
    /\ SHX.m_isInitialized s = true
    /\ SHX.Rounds s = 8 * (Z.of_nat m + 1)
    /\ (d = Digests.None -> SHX.Rounds s = if size (Key kp) =? 64 then 40 else 32)
    /\ (d <> Digests.None -> SHX.Rounds s = r).
Proof.
  intros Hnew Hlegal Hinfo.
  pose proof (legal_size_bound d r s0 _ Hnew Hlegal) as Hkb.
  pose proof (new_fields d r s0 Hnew) as (Fr & Ft & Fk & Fi).
  pose proof (new_inv d r s0 Hnew) as [[Hr Hr8] _].
  unfold SHX.Initialize. unfold SHX.LegalKeySizes in Hlegal. rewrite Hlegal. cbn [negb].
  rewrite Ft.
  set (s1 := if size (Info kp) >? 0 then SHX.set_kdfInfo s0 (Info kp) else s0).
  assert (F1 : SHX.m_rndCount s1 = r /\ SHX.m_kdfEngineType s1 = d).
  { unfold s1. destruct (size (Info kp) >? 0); cbn; auto. }
  destruct F1 as [F1r F1t].
  destruct (Digests.eqb d Digests.None) eqn:Ed.
  - (* standard schedule *)
    assert (Hd : d = Digests.None) by (destruct d; (reflexivity || discriminate)).
    clear Ed. rewrite Hd in *. cbn [negb andb].
    unfold SHX.ExpandKey.
    cbn [SHX.m_kdfEngineType SHX.set_cprKeySize SHX.set_isEncryption].
    rewrite F1t. cbn [Digests.eqb negb].
    pose proof (legal_standard_sizes r s0 _ Hnew Hlegal) as Hsizes.
    destruct (StandardExpand_spec
                (SHX.set_cprKeySize (SHX.set_isEncryption s1 enc) (size (Key kp) *% 8))
                (Key kp) (Z.to_nat (size (Key kp) / 4)))
      as (s' & Wk & E & Es & HK & _).
    { destruct Hsizes as [-> | [-> | [-> | ->]]]; reflexivity. }
    { destruct Hsizes as [Hs | [Hs | [Hs | Hs]]]; rewrite Hs;
        [left; vm_compute; lia .. | right; reflexivity]. }
    cbv zeta in HK.
    rewrite E, obind_Returned.
    exists (SHX.set_isInitialized s' true),
      (if size (Key kp) =? 64 then 4%nat else 3%nat).
    split; [reflexivity|]. rewrite Es.
    cbn [SHX.set_isInitialized SHX.set_expKey SHX.set_rndCount SHX.set_cprKeySize
         SHX.set_isEncryption SHX.m_expKey SHX.m_isEncryption SHX.m_isInitialized
         SHX.Rounds SHX.m_rndCount].
    split; [exact HK|]. split; [reflexivity|]. split; [reflexivity|].
    split; [reflexivity|]. split.
    + intros _. destruct (size (Key kp) =? 64); reflexivity.
    + intros C. now contradiction C.
  - (* HKDF schedule *)
    assert (Hd : d <> Digests.None) by (intros ->; discriminate).
    cbn [negb andb].
    destruct (Z.gtb_spec (size (Info kp)) (SHX.m_kdfInfoMax s0)) as [C|_];
      [specialize (Hinfo Hd); lia|].
    unfold SHX.ExpandKey.
    cbn [SHX.m_kdfEngineType SHX.set_cprKeySize SHX.set_isEncryption].
    rewrite F1t, Ed. cbn [negb].
    destruct (rounds_octets r Hr Hr8) as (m & Em & Hm).
    destruct (SecureExpand_spec
                (SHX.set_cprKeySize (SHX.set_isEncryption s1 enc) (size (Key kp) *% 8))
                (Key kp) m)
      as (s' & E & HK & Er & Ee).
    { cbn [SHX.m_rndCount SHX.set_cprKeySize SHX.set_isEncryption]. lia. }
    { exact Hm. }
    { cbn [SHX.m_kdfEngineType SHX.set_cprKeySize SHX.set_isEncryption].
      rewrite F1t. destruct d; cbn; lia. }
    { lia. }
    rewrite E, obind_Returned.
    cbn [SHX.m_rndCount SHX.m_isEncryption SHX.set_cprKeySize SHX.set_isEncryption]
      in Er, Ee.
    exists (SHX.set_isInitialized s' true), m.
    split; [reflexivity|].
    cbn [SHX.set_isInitialized SHX.m_expKey SHX.m_isEncryption SHX.m_isInitialized
         SHX.Rounds SHX.m_rndCount].
    split; [exact HK|]. split; [exact Ee|]. split; [reflexivity|].
    split; [lia|]. split.
    + intros C. now contradiction Hd.
    + intros _. lia.
Qed.

(** Both directions are given the same expanded key. *)
Lemma Initialize_same_key (s0 : SHX.t) (kp : ISymmetricKey) (se sd : SHX.t) :
  SHX.Initialize s0 true kp = Returned se ->
  SHX.Initialize s0 false kp = Returned sd ->
  SHX.m_expKey sd = SHX.m_expKey se.
Proof.
  unfold SHX.Initialize.
  destruct (negb (Contains _ _)); [discriminate|].
  destruct (negb _ && _); [discriminate|].
  set (s1 := if size (Info kp) >? 0 then SHX.set_kdfInfo s0 (Info kp) else s0).
  set (c := size (Key kp) *% 8).
  assert (Ee : forall e,
             SHX.set_cprKeySize (SHX.set_isEncryption s1 e) c
             = SHX.set_isEncryption (SHX.set_cprKeySize s1 c) e) by reflexivity.
  rewrite !Ee, !ExpandKey_isEncryption.
  destruct (SHX.ExpandKey (SHX.set_cprKeySize s1 c) (Key kp)) as [s'| | |];
    cbn [obind]; try discriminate.
  intros He Hd. injection He as <-. injection Hd as <-. reflexivity.
Qed.

End Initialize.

(** ** SHX on a published vector *)

(** A known answer: with the 256-bit key and the block of zero bytes the
    standard mode gives the ciphertext the designers of Serpent list for
    that key and block: the tables, the linear transform and the schedule
    of the embedding are those of the cipher. *)
Example SHX_zero_key_vector :
  match SHX.Initialize (H := counting_stream) (constructed Digests.None 32) true
          {| Key := replicate 32 x00; Nonce := []; Info := [] |} with
  | Returned s => SHX.EncryptBlock s (replicate 16 x00) (replicate 16 x00)
  | _ => Undefined
  end
  = Returned [x49; x67; x2b; xa8; x98; xd9; x8d; xf9;
              x50; x19; x18; x04; x45; x49; x10; x89].
Proof. vm_compute. reflexivity. Qed.

(** ** SHX: the cipher and its key schedule *)

(** C1: for every key of a size listed in LegalKeySizes (with a digest, an
    info within DistributionCodeMax, without which Initialize throws) and
    every 16-byte block [P], an instance initialised for encryption turns
    [P] into a block that an instance initialised for decryption with the
    same key material turns back into [P]. *)
Theorem SHX_decrypt_encrypt {G : HKDF.Generator} (d : Digests.t) (r : Z) (s0 : SHX.t)
    (kp : ISymmetricKey) (P Out1 Out2 : list byte) :
  SHX.new d r = Returned s0 ->
  Contains (SHX.LegalKeySizes s0) (size (Key kp)) = true ->
  (d <> Digests.None -> size (Info kp) <= SHX.m_kdfInfoMax s0) ->
  length P = 16%nat -> length Out1 = 16%nat -> length Out2 = 16%nat ->
  exists se sd C,
    SHX.Initialize s0 true kp = Returned se
    /\ SHX.Initialize s0 false kp = Returned sd
    /\ SHX.EncryptBlock se P Out1 = Returned C
    /\ SHX.DecryptBlock sd C Out2 = Returned P.
Proof.
  intros Hnew Hlegal Hinfo HP H1 H2.
  destruct (Initialize_spec d r s0 true kp Hnew Hlegal Hinfo)
    as (se & m & Ee & HK & _).
  destruct (Initialize_spec d r s0 false kp Hnew Hlegal Hinfo)
    as (sd & m' & Ed & _).
  pose proof (Initialize_same_key s0 kp se sd Ee Ed) as Ek.
  exists se, sd, (enc_block m (SHX.m_expKey se) P).
  split; [exact Ee|]. split; [exact Ed|].
  unfold SHX.EncryptBlock, SHX.DecryptBlock. rewrite Ek.
  assert (B16 : forall v : list byte, length v = 16%nat -> 0 + 16 <= size v < 2 ^ 64)
    by (intros v Hv; unfold size; rewrite Hv; lia).
  split.
  - rewrite (Encrypt128_spec m) by (assumption || lia || apply B16; assumption).
    f_equal. change (Z.to_nat 0) with 0%nat. rewrite drop_0.
    rewrite (take_ge P) by lia. apply splice_all.
    now rewrite enc_block_length.
  - rewrite (Decrypt128_spec m)
      by (assumption || lia || apply B16; (assumption || apply enc_block_length)).
    f_equal. change (Z.to_nat 0) with 0%nat. rewrite drop_0.
    rewrite (take_ge (enc_block _ _ _)) by (rewrite enc_block_length; lia).
    rewrite dec_enc_block by assumption.
    apply splice_all. congruence.
Qed.

Lemma SHX_decrypt_encrypt_witness :
  SHX.new Digests.SHA256 40 = Returned (constructed Digests.SHA256 40)
  /\ exists se sd C,
      SHX.Initialize (H := counting_stream) (constructed Digests.SHA256 40) true
        (sample_key 32) = Returned se
      /\ SHX.Initialize (H := counting_stream) (constructed Digests.SHA256 40) false
           (sample_key 32) = Returned sd
      /\ SHX.EncryptBlock se sample_block (replicate 16 x00) = Returned C
      /\ SHX.DecryptBlock sd C (replicate 16 x00) = Returned sample_block.
Proof.
  split; [reflexivity|].
  apply (SHX_decrypt_encrypt (G := counting_stream) Digests.SHA256 40).
  - reflexivity.
  - reflexivity.
  - intros _. vm_compute. discriminate.
  - reflexivity.
  - reflexivity.
  - reflexivity.
Defined.

(** C9: without a digest the Rounds argument of the constructor does not
    reach the cipher: whatever legal values two instances were constructed
    with, Initialize leaves them in the same state, and Rounds() is 40 for
    a 64-byte key and 32 for every other legal key. *)
Theorem SHX_standard_rounds_ignored {G : HKDF.Generator} (r1 r2 : Z) (s1 s2 : SHX.t)
    (enc : bool) (kp : ISymmetricKey) :
  SHX.new Digests.None r1 = Returned s1 ->
  SHX.new Digests.None r2 = Returned s2 ->
  Contains (SHX.LegalKeySizes s1) (size (Key kp)) = true ->
  exists s,
    SHX.Initialize s1 enc kp = Returned s
    /\ SHX.Initialize s2 enc kp = Returned s
    /\ SHX.Rounds s = if size (Key kp) =? 64 then 40 else 32.
Proof.
  intros H1 H2 Hlegal.
  destruct (Initialize_spec Digests.None r1 s1 enc kp H1 Hlegal)
    as (s & m & E & _ & _ & _ & _ & Hr & _); [congruence|].
  exists s. split; [exact E|]. split; [|now apply Hr].
  rewrite <- E.
  apply new_inv in H1 as [_ ->]. apply new_inv in H2 as [_ ->].
  unfold SHX.Initialize, SHX.ExpandKey, SHX.StandardExpand.
  cbn [SHX.LoadState Digests.eqb SHX.m_legalKeySizes SHX.set_legalKeySizes
       SHX.set_legalRounds SHX.m_kdfEngineType SHX.m_kdfInfoMax negb andb].
  destruct (Contains _ _); cbn [negb]; [|reflexivity].
  destruct (size (Info kp) >? 0); reflexivity.
Qed.

Lemma SHX_standard_rounds_ignored_witness :
  SHX.new Digests.None 64 = Returned (constructed Digests.None 64)
  /\ SHX.new Digests.None 32 = Returned (constructed Digests.None 32)
  /\ exists s,
      SHX.Initialize (H := counting_stream) (constructed Digests.None 64) true
        (sample_key 24) = Returned s
      /\ SHX.Initialize (H := counting_stream) (constructed Digests.None 32) true
           (sample_key 24) = Returned s
      /\ SHX.Rounds s = if size (Key (sample_key 24)) =? 64 then 40 else 32.
Proof.
  split; [reflexivity|]. split; [reflexivity|].
  apply (SHX_standard_rounds_ignored (G := counting_stream) 64 32); reflexivity.
Defined.

Lemma Initialize_standard {G : HKDF.Generator} (r : Z) (s0 : SHX.t) (enc : bool)
    (kp : ISymmetricKey) :
  SHX.new Digests.None r = Returned s0 ->
  Contains (SHX.LegalKeySizes s0) (size (Key kp)) = true ->
  exists s1,
    SHX.Initialize s0 enc kp
    = (s' <~ SHX.StandardExpand s1 (Key kp) ;; Returned (SHX.set_isInitialized s' true)).
Proof.
  intros Hnew Hlegal.
  pose proof (new_fields _ r s0 Hnew) as (_ & Ft & _).
  unfold SHX.Initialize. unfold SHX.LegalKeySizes in Hlegal. rewrite Hlegal, Ft.
  cbn [negb andb Digests.eqb].
  eexists. unfold SHX.ExpandKey.
  cbn [SHX.m_kdfEngineType SHX.set_cprKeySize SHX.set_isEncryption].
  replace (SHX.m_kdfEngineType (if size (Info kp) >? 0 then _ else s0)) with Digests.None
    by (destruct (size (Info kp) >? 0); cbn; congruence).
  reflexivity.
Qed.

(** C4: without a digest, Initialize with a 64-byte key fills the key with
    the extended polynomial (the words 16, 13, 11, 10, 8, 5, 3 and 1 places
    below, rotated left by 11: [poly16]), sets the round count to 40 and
    leaves 4 * (40 + 1) words; the other legal keys, of 16, 24 and 32
    bytes, are expanded with the standard polynomial ([poly8]) to
    4 * (32 + 1) words for 32 rounds. [Wk] holds the words before the
    S-boxes are applied to them. *)
Theorem SHX_standard_schedule {G : HKDF.Generator} (r : Z) (s0 : SHX.t) (enc : bool)
    (kp : ISymmetricKey) :
  SHX.new Digests.None r = Returned s0 ->
  Contains (SHX.LegalKeySizes s0) (size (Key kp)) = true ->
  exists s Wp Wk,
    SHX.Initialize s0 enc kp = Returned s
    /\ SHX.StandardPrekey (Key kp) (size (SHX.m_expKey s)) = Returned Wk
    /\ (r <~ SHX.SboxPass (S (length Wk)) Wk 0 (size Wk) ;;
        SHX.SbAt Serpent.Sb3 (fst r) (snd r)) = Returned (SHX.m_expKey s)
    /\ if size (Key kp) =? 64
       then SHX.Rounds s = 40
            /\ size (SHX.m_expKey s) = 4 * (40 + 1)
            /\ prekey16 (Key kp) Wp Wk
       else (size (Key kp) = 16 \/ size (Key kp) = 24 \/ size (Key kp) = 32)
            /\ SHX.Rounds s = 32
            /\ size (SHX.m_expKey s) = 4 * (32 + 1)
            /\ prekey8 (Key kp) Wp Wk.
Proof.
  intros Hnew Hlegal.
  pose proof (legal_standard_sizes r s0 _ Hnew Hlegal) as Hsizes.
  destruct (Initialize_standard r s0 enc kp Hnew Hlegal) as (s1 & EI).
  destruct (StandardExpand_spec s1 (Key kp) (Z.to_nat (size (Key kp) / 4)))
    as (s' & Wk & E & Es & HK & Epre & Esb).
  { destruct Hsizes as [-> | [-> | [-> | ->]]]; reflexivity. }
  { destruct Hsizes as [Hs | [Hs | [Hs | Hs]]]; rewrite Hs;
      [left; vm_compute; lia .. | right; reflexivity]. }
  cbv zeta in HK, Epre. rewrite E, obind_Returned in EI.
  assert (Er : SHX.m_rndCount s'
               = 8 * (Z.of_nat (if size (Key kp) =? 64 then 4%nat else 3%nat) + 1))
    by (rewrite Es; reflexivity).
  destruct HK as (Hsz & Hmax & HKw).
  destruct (Z.eqb_spec (size (Key kp)) 64) as [H64|Hn64].
  - destruct (StandardPrekey_16 (Key kp) H64) as (Wp & Wk' & E' & _ & _ & Hp).
    change (4 * (8 * (Z.of_nat 4 + 1) + 1)) with 164 in Epre.
    assert (Wk' = Wk) by congruence. subst Wk'.
    exists (SHX.set_isInitialized s' true), Wp, Wk.
    cbn [SHX.m_expKey SHX.set_isInitialized SHX.Rounds SHX.m_rndCount].
    split; [exact EI|]. rewrite Hsz. split; [exact Epre|]. split; [exact Esb|].
    split; [rewrite Er; reflexivity|]. split; [reflexivity | exact Hp].
  - assert (Hs3 : size (Key kp) = 16 \/ size (Key kp) = 24 \/ size (Key kp) = 32) by lia.
    destruct (StandardPrekey_8 (Key kp) (Z.to_nat (size (Key kp) / 4)))
      as (Wp & Wk' & E' & _ & _ & Hp).
    { destruct Hs3 as [-> | [-> | ->]]; reflexivity. }
    { destruct Hs3 as [Hs | [Hs | Hs]]; rewrite Hs; vm_compute; lia. }
    change (4 * (8 * (Z.of_nat 3 + 1) + 1)) with 132 in Epre.
    assert (Wk' = Wk) by congruence. subst Wk'.
    exists (SHX.set_isInitialized s' true), Wp, Wk.
    cbn [SHX.m_expKey SHX.set_isInitialized SHX.Rounds SHX.m_rndCount].
    split; [exact EI|]. rewrite Hsz. split; [exact Epre|]. split; [exact Esb|].
    split; [exact Hs3|]. split; [rewrite Er; reflexivity|].
    split; [reflexivity | exact Hp].
Qed.

Lemma SHX_standard_schedule_witness :
  SHX.new Digests.None 32 = Returned (constructed Digests.None 32)
  /\ exists s Wp Wk,
      SHX.Initialize (H := counting_stream) (constructed Digests.None 32) true
        (sample_key 64) = Returned s
      /\ SHX.StandardPrekey (Key (sample_key 64)) (size (SHX.m_expKey s)) = Returned Wk
      /\ (r <~ SHX.SboxPass (S (length Wk)) Wk 0 (size Wk) ;;
          SHX.SbAt Serpent.Sb3 (fst r) (snd r)) = Returned (SHX.m_expKey s)
      /\ SHX.Rounds s = 40
      /\ size (SHX.m_expKey s) = 4 * (40 + 1)
      /\ prekey16 (Key (sample_key 64)) Wp Wk.
Proof.
  split; [reflexivity|].
  apply (SHX_standard_schedule (G := counting_stream) 32 (constructed Digests.None 32) true
           (sample_key 64)); reflexivity.
Defined.

(** ** SHX: the branch of the HKDF key schedule *)

Lemma Copy_bytes (Input : list byte) (io : Z) (Output : list byte) (oo n : Z) :
  0 < n -> 0 <= io -> io + n <= size Input -> 0 <= oo -> oo + n <= size Output ->
  IntUtils.Copy 1 Input io Output oo n
  = Returned (splice Output (Z.to_nat oo) (take (Z.to_nat n) (drop (Z.to_nat io) Input))).
Proof.
  intros Hn Hi0 Hi1 Ho0 Ho1. unfold IntUtils.Copy.
  destruct (Z.eqb_spec n 0); [lia|]. rewrite Z.div_1_r.
  rewrite vread_in by lia. rewrite obind_Returned.
  apply vwrite_splice; [assumption|].
  unfold size in *. rewrite length_take, length_drop. lia.
Qed.

Lemma SecureExpand_init_branch (s : SHX.t) (Key : list byte) :
  0 < DigestFromName.GetBlockSize (SHX.m_kdfEngineType s) ->
  size Key < 2 ^ 64 ->
  let blk := DigestFromName.GetBlockSize (SHX.m_kdfEngineType s) in
  SHX.SecureExpand_init s Key
  = if size Key >? blk
    then Returned (SHX.set_kdfKeySize s blk,
                   HKDF.InitializeKeySaltInfo (take (Z.to_nat blk) Key)
                     (drop (Z.to_nat blk) Key) (SHX.m_kdfInfo s))
    else Returned (s, HKDF.InitializeKey
                        (if negb (size (SHX.m_kdfInfo s) =? 0)
                         then Some (SHX.m_kdfInfo s) else None) Key).
Proof.
  intros Hb Hk blk. unfold SHX.SecureExpand_init. fold blk.
  destruct (Z.gtb_spec (size Key) blk) as [Hgt|Hle]; [|reflexivity].
  cbn [SHX.m_kdfKeySize SHX.set_kdfKeySize SHX.m_kdfInfo].
  rewrite Copy_bytes by (rewrite ?size_replicate; lia).
  rewrite obind_Returned.
  rewrite (wrap64_small (size Key - blk)) by lia.
  rewrite Copy_bytes by (rewrite ?size_replicate; lia).
  rewrite obind_Returned.
  change (Z.to_nat 0) with 0%nat. rewrite drop_0.
  rewrite !splice_all.
  - rewrite (take_ge (drop _ _)) by (rewrite length_drop; unfold size in *; lia).
    reflexivity.
  - rewrite length_take, length_drop, length_replicate. unfold size in *. lia.
  - rewrite length_take, length_replicate. unfold size in *. lia.
Qed.

Lemma Initialize_secure {G : HKDF.Generator} (d : Digests.t) (r : Z) (s0 : SHX.t)
    (enc : bool) (kp : ISymmetricKey) :
  d <> Digests.None ->
  SHX.new d r = Returned s0 ->
  Contains (SHX.LegalKeySizes s0) (size (Key kp)) = true ->
  size (Info kp) <= SHX.m_kdfInfoMax s0 ->
  exists s1,
    SHX.m_kdfEngineType s1 = d
    /\ SHX.m_kdfInfo s1 = (if size (Info kp) >? 0 then Info kp else SHX.DEF_DSTINFO)
    /\ SHX.Initialize s0 enc kp
       = (s' <~ SHX.SecureExpand s1 (Key kp) ;; Returned (SHX.set_isInitialized s' true)).
Proof.
  intros Hd Hnew Hlegal Hinfo.
  pose proof (new_fields _ r s0 Hnew) as (_ & Ft & _).
  assert (Fi : SHX.m_kdfInfo s0 = SHX.DEF_DSTINFO).
  { apply new_inv in Hnew as [_ ->]. destruct d; reflexivity. }
  unfold SHX.Initialize. unfold SHX.LegalKeySizes in Hlegal. rewrite Hlegal, Ft.
  assert (Ed : Digests.eqb d Digests.None = false)
    by (destruct d; [congruence | reflexivity | reflexivity]).
  rewrite Ed. cbn [negb andb].
  destruct (Z.gtb_spec (size (Info kp)) (SHX.m_kdfInfoMax s0)) as [C|_]; [lia|].
  eexists. split; [|split]; cycle 2.
  - unfold SHX.ExpandKey.
    cbn [SHX.m_kdfEngineType SHX.set_cprKeySize SHX.set_isEncryption].
    replace (SHX.m_kdfEngineType (if size (Info kp) >? 0 then _ else s0)) with d
      by (destruct (size (Info kp) >? 0); cbn; congruence).
    rewrite Ed. cbn [negb]. reflexivity.
  - cbn [SHX.m_kdfEngineType SHX.set_cprKeySize SHX.set_isEncryption].
    destruct (size (Info kp) >? 0); cbn; congruence.
  - cbn [SHX.m_kdfInfo SHX.set_cprKeySize SHX.set_isEncryption].
    destruct (size (Info kp) >? 0); [reflexivity | exact Fi].
Qed.

(** C3, as the code has it: with a digest, Initialize starts the generator
    with key, salt and info (Extract, then Expand), the key being the first
    block-size bytes of the user key and the salt the rest, exactly when the
    user key is longer than the digest's block; otherwise it passes the
    whole key and the generator only expands. With SHA-512 the block is 128
    bytes: of the legal key sizes 64, 128 and 256, the 256-byte key alone
    takes the Extract branch, and a 64-byte key does not. *)
Theorem SHX_extract_branch {G : HKDF.Generator} (d : Digests.t) (r : Z) (s0 : SHX.t)
    (enc : bool) (kp : ISymmetricKey) :
  d <> Digests.None ->
  SHX.new d r = Returned s0 ->
  Contains (SHX.LegalKeySizes s0) (size (Key kp)) = true ->
  size (Info kp) <= SHX.m_kdfInfoMax s0 ->
  let blk := DigestFromName.GetBlockSize d in
  exists s1 s2 gen,
    SHX.Initialize s0 enc kp
    = (s' <~ SHX.SecureExpand s1 (Key kp) ;; Returned (SHX.set_isInitialized s' true))
    /\ SHX.SecureExpand_init s1 (Key kp) = Returned (s2, gen)
    /\ gen = (if size (Key kp) >? blk
              then HKDF.InitializeKeySaltInfo
                     (take (Z.to_nat blk) (Key kp)) (drop (Z.to_nat blk) (Key kp))
                     (SHX.m_kdfInfo s1)
              else HKDF.InitializeKey (Some (SHX.m_kdfInfo s1)) (Key kp))
    /\ ((size (Key kp) >? blk) = true <-> size (Key kp) = 2 * blk)
    /\ (d = Digests.SHA512 -> blk = 128).
Proof.
  intros Hd Hnew Hlegal Hinfo blk.
  pose proof (legal_size_bound d r s0 _ Hnew Hlegal) as Hkb.
  destruct (Initialize_secure d r s0 enc kp Hd Hnew Hlegal Hinfo) as (s1 & Et & Ei & EI).
  assert (Hblk : 0 < blk) by (unfold blk; destruct d; cbn; (lia || congruence)).
  pose proof (SecureExpand_init_branch s1 (Key kp)) as Hb. rewrite Et in Hb.
  specialize (Hb Hblk ltac:(lia)). cbv zeta in Hb. fold blk in Hb.
  assert (Hne : negb (size (SHX.m_kdfInfo s1) =? 0) = true).
  { rewrite Ei. destruct (Z.gtb_spec (size (Info kp)) 0) as [Hp|Hz].
    - destruct (Z.eqb_spec (size (Info kp)) 0); [lia | reflexivity].
    - reflexivity. }
  rewrite Hne in Hb.
  assert (Hiff : (size (Key kp) >? blk) = true <-> size (Key kp) = 2 * blk).
  { apply new_inv in Hnew as [_ ->].
    apply Contains_In in Hlegal as (e & Hin & <-).
    unfold blk. destruct d; [congruence | |]; vm_compute in Hin.
    - destruct Hin as [<- | [<- | [<- | []]]]; cbn; split; (discriminate || reflexivity).
    - destruct Hin as [<- | [<- | [<- | []]]]; cbn; split; (discriminate || reflexivity). }
  destruct (size (Key kp) >? blk).
  - eexists s1, _, _. split; [exact EI|]. split; [exact Hb|]. split; [reflexivity|].
    split; [exact Hiff|]. intros ->. reflexivity.
  - eexists s1, _, _. split; [exact EI|]. split; [exact Hb|]. split; [reflexivity|].
    split; [exact Hiff|]. intros ->. reflexivity.
Qed.

Lemma SHX_extract_branch_witness :
  Digests.SHA512 <> Digests.None
  /\ SHX.new Digests.SHA512 32 = Returned (constructed Digests.SHA512 32)
  /\ exists s1 s2 gen,
      SHX.Initialize (H := counting_stream) (constructed Digests.SHA512 32) true
        (sample_key 256)
      = (s' <~ SHX.SecureExpand (H := counting_stream) s1 (Key (sample_key 256)) ;;
         Returned (SHX.set_isInitialized s' true))
      /\ SHX.SecureExpand_init s1 (Key (sample_key 256)) = Returned (s2, gen)
      /\ gen = (if size (Key (sample_key 256)) >? 128
                then HKDF.InitializeKeySaltInfo
                       (take (Z.to_nat 128) (Key (sample_key 256)))
                       (drop (Z.to_nat 128) (Key (sample_key 256)))
                       (SHX.m_kdfInfo s1)
                else HKDF.InitializeKey (Some (SHX.m_kdfInfo s1)) (Key (sample_key 256)))
      /\ ((size (Key (sample_key 256)) >? 128) = true
          <-> size (Key (sample_key 256)) = 2 * 128)
      /\ (Digests.SHA512 = Digests.SHA512 -> 128 = 128).
Proof.
  split; [discriminate|]. split; [reflexivity|].
  apply (SHX_extract_branch (G := counting_stream) Digests.SHA512 32
           (constructed Digests.SHA512 32) true (sample_key 256)).
  - discriminate.
  - reflexivity.
  - reflexivity.
  - vm_compute. discriminate.
Defined.

(** C3 as stated fails: an instance over SHA-512 given a 64-byte key starts
    the generator with the key alone, not with key, salt and info. *)
Lemma SHX_sha512_key64_no_extract :
  SHX.new Digests.SHA512 32 = Returned (constructed Digests.SHA512 32)
  /\ Contains (SHX.LegalKeySizes (constructed Digests.SHA512 32)) 64 = true
  /\ SHX.SecureExpand_init (constructed Digests.SHA512 32) (Key (sample_key 64))
     = Returned (constructed Digests.SHA512 32,
                 HKDF.InitializeKey (Some SHX.DEF_DSTINFO) (Key (sample_key 64)))
  /\ ~ (exists s' key salt info,
          SHX.SecureExpand_init (constructed Digests.SHA512 32) (Key (sample_key 64))
          = Returned (s', HKDF.InitializeKeySaltInfo key salt info)).
Proof.
  split; [reflexivity|]. split; [reflexivity|].
  assert (E : SHX.SecureExpand_init (constructed Digests.SHA512 32) (Key (sample_key 64))
              = Returned (constructed Digests.SHA512 32,
                          HKDF.InitializeKey (Some SHX.DEF_DSTINFO) (Key (sample_key 64))))
    by (vm_compute; reflexivity).
  split; [exact E|].
  intros (s' & key & salt & info & E'). rewrite E in E'. discriminate E'.
Qed.

(** ** SHX: a transform on an instance that was not initialised *)

Lemma not_throws_Returned {A : Type} (a : A) : ~ throws (Returned a).
Proof. intros (o & m & E). discriminate E. Qed.

Lemma not_throws_Undefined {A : Type} : ~ throws (@Undefined A).
Proof. intros (o & m & E). discriminate E. Qed.

Lemma not_throws_bind {A B : Type} (c : outcome A) (k : A -> outcome B) :
  ~ throws c -> (forall a, ~ throws (k a)) -> ~ throws (obind c k).
Proof.
  intros Hc Hk. destruct c as [a|o m|m|]; cbn [obind].
  - apply Hk.
  - exfalso. apply Hc. now exists o, m.
  - intros (o & m' & E). discriminate E.
  - apply not_throws_Undefined.
Qed.

Lemma not_throws_vget {A : Type} (v : list A) (i : Z) : ~ throws (vget v i).
Proof.
  unfold vget. destruct (in_bounds v i); [|apply not_throws_Undefined].
  destruct (v !! Z.to_nat i); [apply not_throws_Returned | apply not_throws_Undefined].
Qed.

Lemma not_throws_vread {A : Type} (v : list A) (off : Z) (n : nat) : ~ throws (vread v off n).
Proof.
  unfold vread. destruct (_ && _); [apply not_throws_Returned | apply not_throws_Undefined].
Qed.

Lemma not_throws_vwrite {A : Type} (v : list A) (off : Z) (xs : list A) :
  ~ throws (vwrite v off xs).
Proof.
  unfold vwrite. destruct (_ && _); [apply not_throws_Returned | apply not_throws_Undefined].
Qed.

Lemma not_throws_LeBytesTo32 (Input : list byte) (off : Z) :
  ~ throws (IntUtils.LeBytesTo32 Input off).
Proof.
  unfold IntUtils.LeBytesTo32. apply not_throws_bind; [apply not_throws_vread|].
  intros a. apply not_throws_Returned.
Qed.

Lemma not_throws_AddKey (K : list Z) (i0 i1 i2 i3 : Z) (R : Serpent.quad) :
  ~ throws (SHX.AddKey K i0 i1 i2 i3 R).
Proof.
  destruct R as [[[a b] c] d]. unfold SHX.AddKey.
  repeat (apply not_throws_bind; [apply not_throws_vget | intros ?]).
  apply not_throws_Returned.
Qed.

Ltac quiet :=
  repeat first
    [ apply not_throws_Returned
    | apply not_throws_Undefined
    | apply not_throws_AddKey
    | apply not_throws_LeBytesTo32
    | apply not_throws_vget
    | apply not_throws_vwrite
    | apply not_throws_bind; [ | intros ? ] ].

Lemma not_throws_Encrypt128_loop (fuel : nat) (K : list Z) (RNDCNT : Z) :
  forall (keyCtr : Z) (R : Serpent.quad),
    ~ throws (SHX.Encrypt128_loop fuel K RNDCNT keyCtr R).
Proof.
  induction fuel as [|fuel IH]; intros keyCtr R; cbn [SHX.Encrypt128_loop].
  - apply not_throws_Undefined.
  - do 8 (apply not_throws_bind; [apply not_throws_AddKey | intros ?]).
    cbv zeta. destruct (negb _); [apply IH | apply not_throws_Returned].
Qed.

Lemma not_throws_Decrypt128_loop (fuel : nat) (K : list Z) (RNDCNT : Z) :
  forall (keyCtr : Z) (R : Serpent.quad),
    ~ throws (SHX.Decrypt128_loop fuel K RNDCNT keyCtr R).
Proof.
  induction fuel as [|fuel IH]; intros keyCtr R; cbn [SHX.Decrypt128_loop].
  - apply not_throws_Undefined.
  - do 7 (apply not_throws_bind; [apply not_throws_AddKey | intros ?]).
    cbv zeta. apply not_throws_bind.
    + destruct (negb _); quiet.
    + intros [k R']. destruct (negb _); [apply IH | apply not_throws_Returned].
Qed.

Lemma not_throws_Encrypt128 (K : list Z) (Input : list byte) (io : Z)
    (Output : list byte) (oo : Z) :
  ~ throws (SHX.Encrypt128 K Input io Output oo).
Proof.
  unfold SHX.Encrypt128. cbv zeta.
  do 4 (apply not_throws_bind; [apply not_throws_LeBytesTo32 | intros ?]).
  apply not_throws_bind; [apply not_throws_Encrypt128_loop|].
  intros [k [[[w0 w1] w2] w3]]. unfold IntUtils.Le32ToBytes. quiet.
Qed.

Lemma not_throws_Decrypt128 (K : list Z) (Input : list byte) (io : Z)
    (Output : list byte) (oo : Z) :
  ~ throws (SHX.Decrypt128 K Input io Output oo).
Proof.
  unfold SHX.Decrypt128. cbv zeta.
  do 4 (apply not_throws_bind; [apply not_throws_LeBytesTo32 | intros ?]).
  apply not_throws_bind; [apply not_throws_AddKey | intros ?].
  apply not_throws_bind; [apply not_throws_Decrypt128_loop|].
  intros [k [[[w0 w1] w2] w3]]. unfold IntUtils.Le32ToBytes. quiet.
Qed.

Lemma LeBytesTo32_cases (Input : list byte) (off : Z) :
  (exists x, IntUtils.LeBytesTo32 Input off = Returned x)
  \/ IntUtils.LeBytesTo32 Input off = Undefined.
Proof.
  unfold IntUtils.LeBytesTo32, vread. destruct (_ && _); cbn [obind]; eauto.
Qed.

Lemma vget_nil {A : Type} (i : Z) : vget (@nil A) i = Undefined.
Proof. apply vget_out. unfold size. simpl. lia. Qed.

Lemma Encrypt128_no_key (Input : list byte) (io : Z) (Output : list byte) (oo : Z) :
  SHX.Encrypt128 [] Input io Output oo = Undefined.
Proof.
  unfold SHX.Encrypt128. cbv zeta.
  destruct (LeBytesTo32_cases Input io) as [[x0 ->]| ->]; [|reflexivity].
  destruct (LeBytesTo32_cases Input (io +% 4)) as [[x1 ->]| ->]; [|reflexivity].
  destruct (LeBytesTo32_cases Input (io +% 8)) as [[x2 ->]| ->]; [|reflexivity].
  destruct (LeBytesTo32_cases Input (io +% 12)) as [[x3 ->]| ->]; [|reflexivity].
  rewrite !obind_Returned. cbn [length SHX.Encrypt128_loop].
  unfold SHX.AddKey. rewrite vget_nil. reflexivity.
Qed.

Lemma Decrypt128_no_key (Input : list byte) (io : Z) (Output : list byte) (oo : Z) :
  SHX.Decrypt128 [] Input io Output oo = Undefined.
Proof.
  unfold SHX.Decrypt128. cbv zeta.
  destruct (LeBytesTo32_cases Input (io +% 12)) as [[x3 ->]| ->]; [|reflexivity].
  destruct (LeBytesTo32_cases Input (io +% 8)) as [[x2 ->]| ->]; [|reflexivity].
  destruct (LeBytesTo32_cases Input (io +% 4)) as [[x1 ->]| ->]; [|reflexivity].
  destruct (LeBytesTo32_cases Input io) as [[x0 ->]| ->]; [|reflexivity].
  rewrite !obind_Returned.
  unfold SHX.AddKey. rewrite vget_nil. reflexivity.
Qed.

(** C6, as the code has it: Transform, EncryptBlock and DecryptBlock make
    no check of the initialisation and throw nothing, whatever the state
    and the arguments; on a constructed instance on which Initialize was
    not called the expanded key is empty, and the call indexes it outside
    its bounds, which C++ leaves undefined. *)
Theorem SHX_Transform_unchecked (d : Digests.t) (r : Z) (s0 : SHX.t)
    (Input : list byte) (InOffset : Z) (Output : list byte) (OutOffset : Z) :
  SHX.new d r = Returned s0 ->
  SHX.IsInitialized s0 = false
  /\ SHX.Transform s0 Input InOffset Output OutOffset = Undefined
  /\ SHX.EncryptBlock s0 Input Output = Undefined
  /\ SHX.DecryptBlock s0 Input Output = Undefined
  /\ (forall s : SHX.t,
         ~ throws (SHX.Transform s Input InOffset Output OutOffset)
         /\ ~ throws (SHX.EncryptBlock s Input Output)
         /\ ~ throws (SHX.DecryptBlock s Input Output)).
Proof.
  intros Hnew. destruct (new_fields d r s0 Hnew) as (_ & _ & Hk & Hi).
  split; [exact Hi|].
  unfold SHX.Transform, SHX.EncryptBlock, SHX.DecryptBlock. rewrite Hk.
  split; [|split; [|split]].
  - destruct (SHX.m_isEncryption s0); [apply Encrypt128_no_key | apply Decrypt128_no_key].
  - apply Encrypt128_no_key.
  - apply Decrypt128_no_key.
  - intros s. split; [|split].
    + destruct (SHX.m_isEncryption s);
        [apply not_throws_Encrypt128 | apply not_throws_Decrypt128].
    + apply not_throws_Encrypt128.
    + apply not_throws_Decrypt128.
Qed.

Lemma SHX_Transform_unchecked_witness :
  SHX.new Digests.None 32 = Returned (constructed Digests.None 32)
  /\ SHX.IsInitialized (constructed Digests.None 32) = false
  /\ SHX.Transform (constructed Digests.None 32) sample_block 0 (replicate 16 x00) 0
     = Undefined
  /\ SHX.EncryptBlock (constructed Digests.None 32) sample_block (replicate 16 x00)
     = Undefined
  /\ SHX.DecryptBlock (constructed Digests.None 32) sample_block (replicate 16 x00)
     = Undefined
  /\ (forall s : SHX.t,
         ~ throws (SHX.Transform s sample_block 0 (replicate 16 x00) 0)
         /\ ~ throws (SHX.EncryptBlock s sample_block (replicate 16 x00))
         /\ ~ throws (SHX.DecryptBlock s sample_block (replicate 16 x00))).
Proof.
  split; [reflexivity|].
  apply (SHX_Transform_unchecked Digests.None 32). reflexivity.
Defined.

(** C6 as stated fails: on a constructed instance that was not initialised
    Transform ends in no exception. *)
Lemma SHX_Transform_uninitialized_no_error :
  SHX.new Digests.None 32 = Returned (constructed Digests.None 32)
  /\ SHX.IsInitialized (constructed Digests.None 32) = false
  /\ ~ throws (SHX.Transform (constructed Digests.None 32) sample_block 0
                 (replicate 16 x00) 0).
Proof.
  split; [reflexivity|]. split; [reflexivity|].
  assert (E : SHX.Transform (constructed Digests.None 32) sample_block 0
                (replicate 16 x00) 0 = Undefined) by (vm_compute; reflexivity).
  rewrite E. intros (o & m & C). discriminate C.
Qed.

(** ** SHX: the bulk transforms, block by block *)

Lemma splice_nil {A : Type} (v : list A) (off : nat) : splice v off [] = v.
Proof.
  unfold splice. cbn [length app]. rewrite Nat.add_0_r. apply take_drop.
Qed.

Lemma blocks_length (g : list byte -> list byte) (Input : list byte) :
  (forall b, length (g b) = 16%nat) ->
  forall n off, length (blocks g Input off n) = (16 * n)%nat.
Proof.
  intros Hg. induction n as [|n IH]; intros off; cbn [blocks]; [reflexivity|].
  rewrite length_app, Hg, IH. lia.
Qed.

Lemma blocks_app (g : list byte -> list byte) (Input : list byte) (n1 n2 : nat) :
  forall off,
    blocks g Input off (n1 + n2)
    = blocks g Input off n1 ++ blocks g Input (off + 16 * n1) n2.
Proof.
  induction n1 as [|n1 IH]; intros off.
  - cbn [blocks Nat.add app]. f_equal. lia.
  - cbn [blocks Nat.add]. rewrite IH, <- app_assoc. do 3 f_equal. lia.
Qed.

Lemma lanes_apply_blocks (f : list byte -> outcome (list byte))
    (g : list byte -> list byte) (Input : list byte) :
  (forall blk, length blk = 16%nat -> f blk = Returned (g blk)) ->
  forall n off,
    (off + 16 * n <= length Input)%nat ->
    SHX.lanes_apply f n (take (16 * n) (drop off Input))
    = Returned (blocks g Input off n).
Proof.
  intros Hf. induction n as [|n IH]; intros off Hoff; [reflexivity|].
  cbn [SHX.lanes_apply blocks].
  rewrite take_take. replace (16 `min` (16 * S n))%nat with 16%nat by lia.
  rewrite Hf by (rewrite length_take, length_drop; lia).
  rewrite obind_Returned.
  replace (16 * S n)%nat with (16 + 16 * n)%nat by lia.
  rewrite <- take_drop_commute, drop_drop.
  rewrite IH by lia. reflexivity.
Qed.

Section Blockwise.
Variable f128 : list byte -> Z -> list byte -> Z -> outcome (list byte).
Variable g : list byte -> list byte.
Hypothesis Hf : forall (I : list byte) (a : Z) (O : list byte) (b : Z),
  0 <= a -> a + 16 <= size I -> size I < 2 ^ 64 ->
  0 <= b -> b + 16 <= size O -> size O < 2 ^ 64 ->
  f128 I a O b = Returned (splice O (Z.to_nat b) (g (take 16 (drop (Z.to_nat a) I)))).
Hypothesis Hg : forall b, length (g b) = 16%nat.

Lemma lane_call (blk : list byte) :
  length blk = 16%nat -> f128 blk 0 (replicate 16 x00) 0 = Returned (g blk).
Proof.
  intros Hb. rewrite Hf by (unfold size; rewrite ?Hb, ?length_replicate; lia).
  change (Z.to_nat 0) with 0%nat. rewrite drop_0, take_ge by lia.
  rewrite splice_all by (rewrite Hg, length_replicate; reflexivity).
  reflexivity.
Qed.

Lemma wide_blocks (lanes : nat) (Input : list byte) (io : Z) (Output : list byte) (oo : Z) :
  0 <= io -> io + 16 * Z.of_nat lanes <= size Input ->
  0 <= oo -> oo + 16 * Z.of_nat lanes <= size Output ->
  (data <~ vread Input io (16 * lanes) ;;
   res <~ SHX.lanes_apply (fun blk => f128 blk 0 (replicate 16 x00) 0) lanes data ;;
   vwrite Output oo res)
  = Returned (splice Output (Z.to_nat oo) (blocks g Input (Z.to_nat io) lanes)).
Proof.
  intros Hi0 Hi1 Ho0 Ho1. unfold size in *.
  rewrite vread_in by (unfold size; lia). rewrite obind_Returned.
  rewrite (lanes_apply_blocks _ g) by (try apply lane_call; lia).
  rewrite obind_Returned.
  apply vwrite_splice; [lia|]. unfold size. rewrite blocks_length by exact Hg. lia.
Qed.

Lemma single_blocks (Input : list byte) (io : Z) (Output : list byte) (oo : Z) :
  0 <= io -> io + 16 * Z.of_nat 1 <= size Input -> size Input < 2 ^ 64 ->
  0 <= oo -> oo + 16 * Z.of_nat 1 <= size Output -> size Output < 2 ^ 64 ->
  f128 Input io Output oo
  = Returned (splice Output (Z.to_nat oo) (blocks g Input (Z.to_nat io) 1)).
Proof.
  intros. rewrite Hf by lia. cbn [blocks]. now rewrite app_nil_r.
Qed.

Lemma calls_blocks (F : list byte -> Z -> list byte -> Z -> outcome (list byte))
    (lanes : nat) (Input : list byte) (io oo : Z) :
  (forall (O : list byte) (a b : Z),
      0 <= a -> a + 16 * Z.of_nat lanes <= size Input -> size Input < 2 ^ 64 ->
      0 <= b -> b + 16 * Z.of_nat lanes <= size O -> size O < 2 ^ 64 ->
      F Input a O b
      = Returned (splice O (Z.to_nat b) (blocks g Input (Z.to_nat a) lanes))) ->
  0 <= io -> size Input < 2 ^ 64 -> 0 <= oo ->
  forall (k : nat) (d : Z) (Output : list byte),
    0 <= d ->
    io + d + 16 * Z.of_nat lanes * Z.of_nat k <= size Input ->
    oo + d + 16 * Z.of_nat lanes * Z.of_nat k <= size Output ->
    size Output < 2 ^ 64 ->
    SHX.calls F (offsets d (16 * Z.of_nat lanes) k) Input io Output oo
    = Returned (splice Output (Z.to_nat (oo + d))
                  (blocks g Input (Z.to_nat (io + d)) (k * lanes))).
Proof.
  intros HF Hi0 Hi2 Ho0. unfold SHX.calls.
  induction k as [|k IH]; intros d Output Hd Hi1 Ho1 Ho2; cbn [offsets for_each].
  - cbn [Nat.mul blocks]. now rewrite splice_nil.
  - rewrite (wrap64_small (io + d)), (wrap64_small (oo + d)) by lia.
    rewrite HF by lia. rewrite obind_Returned.
    assert (Hl : length (blocks g Input (Z.to_nat (io + d)) lanes) = (16 * lanes)%nat)
      by (apply blocks_length; exact Hg).
    assert (Hs : size (splice Output (Z.to_nat (oo + d))
                         (blocks g Input (Z.to_nat (io + d)) lanes)) = size Output).
    { apply size_splice. unfold size in *. rewrite Hl. lia. }
    rewrite IH by (rewrite ?Hs; lia).
    f_equal.
    replace (Z.to_nat (oo + (d + 16 * Z.of_nat lanes)))
      with (Z.to_nat (oo + d) + length (blocks g Input (Z.to_nat (io + d)) lanes))%nat
      by (rewrite Hl; lia).
    rewrite splice_after.
    + f_equal. cbn [Nat.mul]. rewrite blocks_app. do 2 f_equal. lia.
    + rewrite Hl, blocks_length by exact Hg. unfold size in *. lia.
Qed.

Lemma calls_wide_blocks (lanes k : nat) (ds : list Z) (Input : list byte) (io : Z)
    (Output : list byte) (oo : Z) :
  ds = offsets 0 (16 * Z.of_nat lanes) k ->
  0 <= io -> io + 16 * Z.of_nat (k * lanes) <= size Input -> size Input < 2 ^ 64 ->
  0 <= oo -> oo + 16 * Z.of_nat (k * lanes) <= size Output -> size Output < 2 ^ 64 ->
  SHX.calls
    (fun I a O b =>
       data <~ vread I a (16 * lanes) ;;
       res <~ SHX.lanes_apply (fun blk => f128 blk 0 (replicate 16 x00) 0) lanes data ;;
       vwrite O b res)
    ds Input io Output oo
  = Returned (splice Output (Z.to_nat oo) (blocks g Input (Z.to_nat io) (k * lanes))).
Proof.
  intros -> Hi0 Hi1 Hi2 Ho0 Ho1 Ho2.
  rewrite calls_blocks; try lia.
  - now rewrite !Z.add_0_r.
  - intros. now apply wide_blocks.
Qed.

Lemma calls_single_blocks (k : nat) (ds : list Z) (Input : list byte) (io : Z)
    (Output : list byte) (oo : Z) :
  ds = offsets 0 (16 * Z.of_nat 1) k ->
  0 <= io -> io + 16 * Z.of_nat (k * 1) <= size Input -> size Input < 2 ^ 64 ->
  0 <= oo -> oo + 16 * Z.of_nat (k * 1) <= size Output -> size Output < 2 ^ 64 ->
  SHX.calls f128 ds Input io Output oo
  = Returned (splice Output (Z.to_nat oo) (blocks g Input (Z.to_nat io) (k * 1))).
Proof.
  intros -> Hi0 Hi1 Hi2 Ho0 Ho1 Ho2.
  rewrite calls_blocks; try lia.
  - now rewrite !Z.add_0_r.
  - intros. now apply single_blocks.
Qed.

End Blockwise.

Lemma Transform_spec (s : SHX.t) (m : nat) (I : list byte) (a : Z) (O : list byte) (b : Z) :
  key_for m (SHX.m_expKey s) ->
  0 <= a -> a + 16 <= size I -> size I < 2 ^ 64 ->
  0 <= b -> b + 16 <= size O -> size O < 2 ^ 64 ->
  SHX.Transform s I a O b
  = Returned (splice O (Z.to_nat b) (tfm_block s m (take 16 (drop (Z.to_nat a) I)))).
Proof.
  intros. unfold SHX.Transform, tfm_block.
  destruct (SHX.m_isEncryption s); [now apply Encrypt128_spec | now apply Decrypt128_spec].
Qed.

Lemma tfm_block_length (s : SHX.t) (m : nat) (blk : list byte) :
  length (tfm_block s m blk) = 16%nat.
Proof.
  unfold tfm_block.
  destruct (SHX.m_isEncryption s); [apply enc_block_length | apply dec_block_length].
Qed.

Lemma Encrypt2048_blocks (cfg : Simd) (m : nat) (K : list Z) (Input : list byte) (io : Z)
    (Output : list byte) (oo : Z) :
  key_for m K ->
  0 <= io -> io + 256 <= size Input -> size Input < 2 ^ 64 ->
  0 <= oo -> oo + 256 <= size Output -> size Output < 2 ^ 64 ->
  SHX.Encrypt2048 cfg K Input io Output oo
  = Returned (splice Output (Z.to_nat oo) (blocks (enc_block m K) Input (Z.to_nat io) 16)).
Proof.
  intros HK Hi0 Hi1 Hi2 Ho0 Ho1 Ho2.
  pose proof (fun I a O b => Encrypt128_spec m K I a O b HK) as Hf.
  pose proof (enc_block_length m K) as Hg.
  unfold SHX.Encrypt2048, SHX.SHXEncryptW.
  destruct (AVX512 cfg), (AVX2 cfg), (AVX cfg); cbn [negb andb].
  1-4: apply (wide_blocks _ _ Hf Hg SHX.UInt512); assumption.
  1-2: apply (calls_wide_blocks _ _ Hf Hg SHX.UInt256 2); (reflexivity || assumption).
  - apply (calls_wide_blocks _ _ Hf Hg SHX.UInt128 4); (reflexivity || assumption).
  - apply (calls_single_blocks _ _ Hf Hg 16); (reflexivity || assumption).
Qed.

Lemma Decrypt2048_blocks (cfg : Simd) (m : nat) (K : list Z) (Input : list byte) (io : Z)
    (Output : list byte) (oo : Z) :
  key_for m K ->
  0 <= io -> io + 256 <= size Input -> size Input < 2 ^ 64 ->
  0 <= oo -> oo + 256 <= size Output -> size Output < 2 ^ 64 ->
  SHX.Decrypt2048 cfg K Input io Output oo
  = Returned (splice Output (Z.to_nat oo) (blocks (dec_block m K) Input (Z.to_nat io) 16)).
Proof.
  intros HK Hi0 Hi1 Hi2 Ho0 Ho1 Ho2.
  pose proof (fun I a O b => Decrypt128_spec m K I a O b HK) as Hf.
  pose proof (dec_block_length m K) as Hg.
  unfold SHX.Decrypt2048, SHX.SHXDecryptW.
  destruct (AVX512 cfg), (AVX2 cfg), (AVX cfg); cbn [negb andb].
  1-4: apply (wide_blocks _ _ Hf Hg SHX.UInt512); assumption.
  1-2: apply (calls_wide_blocks _ _ Hf Hg SHX.UInt256 2); (reflexivity || assumption).
  - apply (calls_wide_blocks _ _ Hf Hg SHX.UInt128 4); (reflexivity || assumption).
  - apply (calls_single_blocks _ _ Hf Hg 16); (reflexivity || assumption).
Qed.

(** C2: on an initialised instance Transform2048 returns, whatever the
    SIMD build, what the sixteen calls of Transform on the consecutive
    16-byte blocks return, each block being transformed on its own: 256
    bytes of output from 256 bytes of input, the rest of the output buffer
    untouched. *)
Theorem SHX_Transform2048_blockwise {G : HKDF.Generator} (cfg : Simd) (d : Digests.t)
    (r : Z) (s0 s : SHX.t) (enc : bool) (kp : ISymmetricKey)
    (Input : list byte) (InOffset : Z) (Output : list byte) (OutOffset : Z) :
  SHX.new d r = Returned s0 ->
  Contains (SHX.LegalKeySizes s0) (size (Key kp)) = true ->
  (d <> Digests.None -> size (Info kp) <= SHX.m_kdfInfoMax s0) ->
  SHX.Initialize s0 enc kp = Returned s ->
  0 <= InOffset -> InOffset + 256 <= size Input -> size Input < 2 ^ 64 ->
  0 <= OutOffset -> OutOffset + 256 <= size Output -> size Output < 2 ^ 64 ->
  exists Out' : list byte,
    SHX.Transform2048 cfg s Input InOffset Output OutOffset = Returned Out'
    /\ SHX.calls (SHX.Transform s)
         [0; 16; 32; 48; 64; 80; 96; 112; 128; 144; 160; 176; 192; 208; 224; 240]
         Input InOffset Output OutOffset = Returned Out'
    /\ SHX.Transform_blockwise s 16 Input InOffset Output OutOffset = Returned Out'
    /\ size Out' = size Output
    /\ take (Z.to_nat OutOffset) Out' = take (Z.to_nat OutOffset) Output
    /\ drop (Z.to_nat OutOffset + 256) Out' = drop (Z.to_nat OutOffset + 256) Output.
Proof.
  intros Hnew Hlegal Hinfo Hinit Hi0 Hi1 Hi2 Ho0 Ho1 Ho2.
  destruct (Initialize_spec d r s0 enc kp Hnew Hlegal Hinfo) as (s' & m & Es & HK & _).
  rewrite Hinit in Es. injection Es as <-.
  pose proof (fun I a O b => Transform_spec s m I a O b HK) as Hf.
  pose proof (tfm_block_length s m) as Hg.
  assert (Hl : length (blocks (tfm_block s m) Input (Z.to_nat InOffset) 16) = 256%nat)
    by (rewrite blocks_length by exact Hg; reflexivity).
  exists (splice Output (Z.to_nat OutOffset)
            (blocks (tfm_block s m) Input (Z.to_nat InOffset) 16)).
  split; [|split; [|split; [|split; [|split]]]].
  - unfold SHX.Transform2048, tfm_block.
    destruct (SHX.m_isEncryption s);
      [now apply Encrypt2048_blocks | now apply Decrypt2048_blocks].
  - apply (calls_single_blocks _ _ Hf Hg 16); (reflexivity || assumption).
  - unfold SHX.Transform_blockwise.
    apply (wide_blocks _ _ Hf Hg 16); assumption.
  - apply size_splice. unfold size in *. rewrite Hl. lia.
  - unfold splice. rewrite take_app_le by (rewrite length_take; unfold size in *; lia).
    rewrite take_take. f_equal. lia.
  - unfold splice. rewrite Hl.
    rewrite app_assoc, drop_app_length'; [reflexivity|].
    rewrite length_app, length_take, Hl. unfold size in *. lia.
Qed.

Lemma SHX_Transform2048_blockwise_witness :
  let cfg := {| AVX512 := false; AVX2 := true; AVX := true |} in
  let s0 := constructed Digests.None 32 in
  let s := initialized true 32 in
  SHX.new Digests.None 32 = Returned s0
  /\ SHX.Initialize (H := counting_stream) s0 true (sample_key 32) = Returned s
  /\ exists Out',
      SHX.Transform2048 cfg s sample_input 7 (replicate 300 x00) 20 = Returned Out'
      /\ SHX.calls (SHX.Transform s)
           [0; 16; 32; 48; 64; 80; 96; 112; 128; 144; 160; 176; 192; 208; 224; 240]
           sample_input 7 (replicate 300 x00) 20 = Returned Out'
      /\ SHX.Transform_blockwise s 16 sample_input 7 (replicate 300 x00) 20 = Returned Out'
      /\ size Out' = size (replicate 300 x00)
      /\ take (Z.to_nat 20) Out' = take (Z.to_nat 20) (replicate 300 x00)
      /\ drop (Z.to_nat 20 + 256) Out' = drop (Z.to_nat 20 + 256) (replicate 300 x00).
Proof.
  cbv zeta. split; [reflexivity|]. split; [vm_compute; reflexivity|].
  apply (SHX_Transform2048_blockwise (G := counting_stream)
           {| AVX512 := false; AVX2 := true; AVX := true |}
           Digests.None 32 (constructed Digests.None 32) (initialized true 32) true
           (sample_key 32) sample_input 7 (replicate 300 x00) 20);
    [reflexivity | reflexivity | intros C; now elim C | vm_compute; reflexivity
    | vm_compute; congruence .. ].
Defined.

(** ** CSG: LeftEncode *)

Lemma pow256_succ (k : nat) : 256 ^ Z.of_nat (S k) = 256 * 256 ^ Z.of_nat k.
Proof. rewrite Nat2Z.inj_succ. apply Z.pow_succ_r. lia. Qed.

Lemma pow256_pos (k : nat) : 0 < 256 ^ Z.of_nat k.
Proof. apply Z.pow_pos_nonneg; lia. Qed.

Lemma CountBytes_spec (fuel : nat) :
  forall v n : Z,
    0 <= v < 256 ^ Z.of_nat fuel -> 0 <= n -> n + Z.of_nat fuel <= 8 ->
    exists k : nat,
      (k <= fuel)%nat
      /\ CSG.CountBytes fuel v n = n + Z.of_nat k
      /\ v < 256 ^ Z.of_nat k
      /\ (k = 0%nat /\ v = 0 \/ exists j : nat, k = S j /\ 256 ^ Z.of_nat j <= v).
Proof.
  induction fuel as [|fuel IH]; intros v n Hv Hn Hf.
  - exists 0%nat. change (256 ^ Z.of_nat 0) with 1 in *. cbn [CSG.CountBytes].
    repeat split; lia.
  - cbn [CSG.CountBytes]. destruct (Z.eqb_spec v 0) as [Hz|Hz]; cbn [negb andb].
    + exists 0%nat. change (256 ^ Z.of_nat 0) with 1. repeat split; lia.
    + unfold CSG.sizeof_size_t. destruct (Z.ltb_spec n 8) as [_|Hge]; [|lia].
      rewrite (wrap64_small (n + 1)) by lia.
      rewrite Z.shiftr_div_pow2 by lia. change (2 ^ 8) with 256.
      rewrite pow256_succ in Hv.
      pose proof (Z.div_mod v 256 ltac:(lia)) as Hdm.
      pose proof (Z.mod_pos_bound v 256 ltac:(lia)) as Hm.
      destruct (IH (v / 256) (n + 1)) as (k & Hk & Ek & Hlt & Hmin); try lia.
      exists (S k). rewrite Ek, pow256_succ.
      split; [lia|]. split; [lia|]. split; [lia|].
      right. exists k. split; [reflexivity|].
      destruct Hmin as [[-> _]|(j & -> & Hj)].
      * change (256 ^ Z.of_nat 0) with 1. lia.
      * rewrite pow256_succ. lia.
Qed.

Lemma pow256_pow2 (k : nat) : 256 ^ Z.of_nat k = 2 ^ (8 * Z.of_nat k).
Proof. rewrite Z.pow_mul_r by lia. reflexivity. Qed.

Lemma byte_length_unique (v : Z) (j : nat) :
  0 <= v < 256 ^ Z.of_nat (S j) ->
  (j = 0%nat \/ 256 ^ Z.of_nat j <= v) ->
  byte_length v = S j.
Proof.
  intros [Hv0 Hv1] Hmin. unfold byte_length.
  assert (Hq : Z.log2 v / 8 = Z.of_nat j); [|rewrite Hq; lia].
  destruct (Z.eq_dec v 0) as [->|Hnz].
  - destruct Hmin as [->|Hmin]; [reflexivity|]. pose proof (pow256_pos j). lia.
  - pose proof (Z.log2_spec v ltac:(lia)) as [Hl0 Hl1].
    pose proof (Z.log2_nonneg v) as Hl.
    rewrite pow256_pow2 in Hv1.
    assert (Hup : Z.log2 v < 8 * Z.of_nat (S j)).
    { apply (Z.pow_lt_mono_r_iff 2); lia. }
    assert (Hlo : 8 * Z.of_nat j <= Z.log2 v).
    { destruct Hmin as [->|Hmin]; [lia|]. rewrite pow256_pow2 in Hmin.
      assert (8 * Z.of_nat j < Z.succ (Z.log2 v)); [|lia].
      apply (Z.pow_lt_mono_r_iff 2); lia. }
    symmetry. apply (Z.div_unique _ _ _ (Z.log2 v - 8 * Z.of_nat j)); lia.
Qed.

Lemma CountBytes_byte_length (Value : Z) :
  0 <= Value < 2 ^ 64 ->
  (if CSG.CountBytes 8 Value 0 =? 0 then 1 else CSG.CountBytes 8 Value 0)
  = Z.of_nat (byte_length Value)
  /\ (1 <= byte_length Value <= 8)%nat
  /\ Value < 256 ^ Z.of_nat (byte_length Value)
  /\ (byte_length Value = 1%nat \/ 256 ^ (Z.of_nat (byte_length Value) - 1) <= Value).
Proof.
  intros HV.
  assert (HV8 : 0 <= Value < 256 ^ Z.of_nat 8)
    by (change (256 ^ Z.of_nat 8) with (2 ^ 64); exact HV).
  destruct (CountBytes_spec 8 Value 0 HV8) as (k & Hk & Ek & Hlt & Hmin); [lia | lia |].
  rewrite Ek. destruct Hmin as [[-> ->]|(j & -> & Hj)].
  - assert (E : byte_length 0 = 1%nat) by reflexivity. rewrite E.
    repeat split; first [lia | left; reflexivity].
  - rewrite (byte_length_unique Value j); [| split; [lia | exact Hlt] | right; exact Hj].
    destruct (Z.eqb_spec (0 + Z.of_nat (S j)) 0); [lia|].
    split; [lia|]. split; [lia|]. split; [exact Hlt|].
    right. replace (Z.of_nat (S j) - 1) with (Z.of_nat j) by lia. exact Hj.
Qed.

Lemma insert_splice {A : Type} (v : list A) (i : nat) (x : A) :
  (i < length v)%nat -> <[i := x]> v = splice v i [x].
Proof.
  intros Hi. apply list_eq. intros j.
  rewrite splice_lookup by (cbn [length]; lia). cbn [length].
  destruct (decide (i = j)) as [->|Hne].
  - rewrite list_lookup_insert_eq by lia.
    repeat case_decide; try lia. now replace (j - j)%nat with 0%nat by lia.
  - rewrite list_lookup_insert_ne by exact Hne.
    repeat case_decide; try lia; reflexivity.
Qed.

Lemma for_each_store (h : Z -> byte) (Offset : Z) (k : nat) :
  forall (a : Z) (Buffer : list byte),
    0 <= a -> 0 <= Offset ->
    Offset + a + Z.of_nat k <= size Buffer -> size Buffer < 2 ^ 64 ->
    for_each (fun B i => vset B (Offset +% i) (h i)) (seqZ a (Z.of_nat k)) Buffer
    = Returned (splice Buffer (Z.to_nat (Offset + a)) (map h (seqZ a (Z.of_nat k)))).
Proof.
  induction k as [|k IH]; intros a Buffer Ha Ho Hs Hmax.
  - change (seqZ a (Z.of_nat 0)) with (@nil Z). cbn [for_each map].
    now rewrite splice_nil.
  - rewrite Nat2Z.inj_succ, seqZ_cons by lia. rewrite Z.pred_succ.
    cbn [for_each map]. rewrite (wrap64_small (Offset + a)) by lia.
    rewrite vset_in by lia. rewrite obind_Returned.
    rewrite IH by (rewrite ?size_insert; lia).
    f_equal. unfold size in *.
    rewrite insert_splice by lia.
    replace (Z.to_nat (Offset + Z.succ a))
      with (Z.to_nat (Offset + a) + length [h a])%nat by (cbn [length]; lia).
    rewrite splice_after; [reflexivity|].
    cbn [length]. rewrite length_map, length_seqZ. lia.
Qed.

Lemma le_encode_snoc (n : nat) :
  forall x, IntUtils.le_encode (S n) x
            = IntUtils.le_encode n x ++ [byte_of_Z (Z.shiftr x (8 * Z.of_nat n))].
Proof.
  induction n as [|n IH]; intros x.
  - cbn. now rewrite Z.shiftr_0_r.
  - change (IntUtils.le_encode (S (S n)) x)
      with (byte_of_Z x :: IntUtils.le_encode (S n) (Z.shiftr x 8)).
    rewrite IH. cbn [IntUtils.le_encode app].
    rewrite Z.shiftr_shiftr by lia.
    replace (8 + 8 * Z.of_nat n) with (8 * Z.of_nat (S n)) by lia. reflexivity.
Qed.

Lemma be_encode_cons (n : nat) (x : Z) :
  IntUtils.be_encode (S n) x
  = byte_of_Z (Z.shiftr x (8 * Z.of_nat n)) :: IntUtils.be_encode n x.
Proof.
  unfold IntUtils.be_encode. rewrite le_encode_snoc, rev_app_distr. reflexivity.
Qed.

Lemma be_encode_map (x : Z) (n : nat) :
  forall a : Z,
    map (fun i => byte_of_Z (Z.shiftr x (8 * (a + Z.of_nat n - i))))
        (seqZ (a + 1) (Z.of_nat n))
    = IntUtils.be_encode n x.
Proof.
  induction n as [|n IH]; intros a; [reflexivity|].
  rewrite be_encode_cons, <- (IH (a + 1)).
  rewrite Nat2Z.inj_succ, seqZ_cons by lia. rewrite Z.pred_succ. cbn [map].
  f_equal; [do 2 f_equal; lia|].
  replace (Z.succ (a + 1)) with (a + 1 + 1) by lia.
  apply map_ext. intros i. do 2 f_equal. lia.
Qed.

Lemma be_encode_length (n : nat) (x : Z) : length (IntUtils.be_encode n x) = n.
Proof. unfold IntUtils.be_encode. now rewrite length_rev, le_encode_length. Qed.

Lemma be_decode_encode (n : nat) (x : Z) :
  0 <= x < 256 ^ Z.of_nat n -> IntUtils.be_decode (IntUtils.be_encode n x) = x.
Proof.
  intros Hx. unfold IntUtils.be_decode, IntUtils.be_encode.
  rewrite rev_involutive, le_decode_encode, <- pow256_pow2. now apply Z.mod_small.
Qed.

Lemma left_encode_size (x : Z) : size (left_encode x) = Z.of_nat (byte_length x) + 1.
Proof. unfold size, left_encode. cbn [length]. rewrite be_encode_length. lia. Qed.

Lemma LeftEncode_bytes (Value : Z) (n : nat) :
  (n <= 8)%nat ->
  map (fun i => byte_of_Z (Z.shiftr Value (8 *% (Z.of_nat n -% i)))) (seqZ 1 (Z.of_nat n))
  = IntUtils.be_encode n Value.
Proof.
  intros Hn. rewrite <- (be_encode_map Value n 0).
  apply map_ext_in. intros i Hi.
  apply list_elem_of_In, elem_of_seqZ in Hi.
  rewrite (wrap64_small (Z.of_nat n - i)) by lia.
  rewrite wrap64_small by lia. reflexivity.
Qed.

(** C5: LeftEncode writes at [Offset] the number of bytes of the minimal
    representation of the value, one at least, then the value in that many
    bytes, the most significant first, and returns the number of bytes
    written; the rest of the buffer is kept. The length is minimal (one
    byte less does not hold the value) and the bytes decode to the value.
    For 0 it writes 01 00, for 255 01 FF, for 256 02 01 00. *)
Theorem CSG_LeftEncode_minimal (Buffer : list byte) (Offset Value : Z) :
  0 <= Value < 2 ^ 64 -> 0 <= Offset ->
  Offset + size (left_encode Value) <= size Buffer -> size Buffer < 2 ^ 64 ->
  CSG.LeftEncode Buffer Offset Value
  = Returned (splice Buffer (Z.to_nat Offset) (left_encode Value),
              size (left_encode Value))
  /\ (1 <= byte_length Value <= 8)%nat
  /\ Value < 256 ^ Z.of_nat (byte_length Value)
  /\ (byte_length Value = 1%nat \/ 256 ^ (Z.of_nat (byte_length Value) - 1) <= Value)
  /\ IntUtils.be_decode (IntUtils.be_encode (byte_length Value) Value) = Value
  /\ CSG.LeftEncode [x00; x00] 0 0 = Returned ([x01; x00], 2)
  /\ CSG.LeftEncode [x00; x00] 0 255 = Returned ([x01; xff], 2)
  /\ CSG.LeftEncode [x00; x00; x00] 0 256 = Returned ([x02; x01; x00], 3).
Proof.
  intros HV Ho Hs Hmax.
  destruct (CountBytes_byte_length Value HV) as (En & Hb & Hlt & Hmin).
  rewrite left_encode_size in *.
  split; [|split; [exact Hb|split; [exact Hlt|split; [exact Hmin|split]]]].
  - unfold CSG.LeftEncode. cbv zeta. rewrite En.
    rewrite (for_each_store
               (fun i => byte_of_Z
                           (Z.shiftr Value (8 *% (Z.of_nat (byte_length Value) -% i))))
               Offset (byte_length Value) 1 Buffer) by lia.
    rewrite LeftEncode_bytes by lia. rewrite obind_Returned.
    assert (Hl : size (splice Buffer (Z.to_nat (Offset + 1))
                         (IntUtils.be_encode (byte_length Value) Value)) = size Buffer).
    { apply size_splice. unfold size in *. rewrite be_encode_length. lia. }
    rewrite vset_in by (rewrite Hl; lia). rewrite obind_Returned.
    rewrite (wrap64_small (Z.of_nat (byte_length Value) + 1)) by lia.
    f_equal. f_equal.
    rewrite insert_splice by (unfold size in *; lia).
    replace (Z.to_nat (Offset + 1))
      with (Z.to_nat Offset + length [byte_of_Z (Z.of_nat (byte_length Value))])%nat
      by (cbn [length]; lia).
    rewrite splice_before; [reflexivity|].
    cbn [length]. rewrite be_encode_length. unfold size in *. lia.
  - apply be_decode_encode. lia.
  - repeat split; vm_compute; reflexivity.
Qed.

Lemma CSG_LeftEncode_minimal_witness :
  CSG.LeftEncode (replicate 8 xaa) 2 70000
  = Returned ([xaa; xaa; x03; x01; x11; x70; xaa; xaa], 4)
  /\ left_encode 70000 = [x03; x01; x11; x70].
Proof.
  split; [|vm_compute; reflexivity].
  destruct (CSG_LeftEncode_minimal (replicate 8 xaa) 2 70000) as [E _];
    [lia | lia | vm_compute; congruence | vm_compute; reflexivity |].
  rewrite E. vm_compute. reflexivity.
Defined.

(** ** KDF2 *)

Lemma digest_sizes (d : Digests.t) :
  d <> Digests.None ->
  (DigestFromName.GetDigestSize d = 32 /\ DigestFromName.GetBlockSize d = 64)
  \/ (DigestFromName.GetDigestSize d = 64 /\ DigestFromName.GetBlockSize d = 128).
Proof. destruct d; [congruence | left | right]; split; reflexivity. Qed.

Lemma Finalize_size `{IDigest.Hash} (d : Digests.t) (message : list byte) (h : Z) :
  0 <= h -> size (IDigest.Finalize d message h) = h.
Proof. intros Hh. unfold size, IDigest.Finalize. rewrite length_map, length_seq. lia. Qed.

Lemma Expand_loop_fields `{IDigest.Hash} (fuel : nat) :
  forall s Output off len s' Output',
    KDF2.Expand_loop fuel s Output off len = Returned (s', Output') ->
    KDF2.m_isInitialized s' = KDF2.m_isInitialized s
    /\ KDF2.m_kdfDigestType s' = KDF2.m_kdfDigestType s
    /\ KDF2.m_hashSize s' = KDF2.m_hashSize s
    /\ KDF2.m_blockSize s' = KDF2.m_blockSize s
    /\ KDF2.m_kdfKey s' = KDF2.m_kdfKey s
    /\ KDF2.m_kdfSalt s' = KDF2.m_kdfSalt s.
Proof.
  induction fuel as [|fuel IH]; intros s Output off len s' Output' E;
    cbn [KDF2.Expand_loop] in E; [discriminate|].
  cbv zeta in E.
  destruct (IntUtils.Copy 1 _ 0 Output off _) as [O1|o m|m|]; cbn [obind] in E;
    try discriminate.
  destruct (negb _).
  - apply IH in E. exact E.
  - injection E as <- _. repeat split; reflexivity.
Qed.

Lemma Expand_loop_returns `{IDigest.Hash} (fuel : nat) :
  forall s Output off len,
    0 < KDF2.m_hashSize s -> 0 <= len < Z.of_nat fuel ->
    0 <= off -> off + len <= size Output -> size Output < 2 ^ 64 ->
    exists s' Output',
      KDF2.Expand_loop fuel s Output off len = Returned (s', Output')
      /\ size Output' = size Output.
Proof.
  induction fuel as [|fuel IH]; intros s Output off len Hh Hlen Hoff Hfit Hmax; [lia|].
  cbn [KDF2.Expand_loop]. cbv zeta.
  change (KDF2.m_hashSize (KDF2.set_kdfCounter (KDF2.set_msgDigest s []) _))
    with (KDF2.m_hashSize s).
  change (KDF2.m_kdfDigestType (KDF2.set_msgDigest s [])) with (KDF2.m_kdfDigestType s).
  set (hash := IDigest.Finalize _ _ _).
  assert (Hhash : size hash = KDF2.m_hashSize s) by (apply Finalize_size; lia).
  unfold IntUtils.Min. destruct (Z.ltb_spec (KDF2.m_hashSize s) len) as [Hlt|Hge].
  - rewrite Copy_bytes by lia. rewrite obind_Returned.
    rewrite (wrap64_small (len - _)), (wrap64_small (off + _)) by lia.
    destruct (Z.eqb_spec (len - KDF2.m_hashSize s) 0) as [|_]; [lia|]. cbn [negb].
    set (O1 := splice Output _ _).
    assert (HO1 : size O1 = size Output).
    { apply size_splice. unfold size in *. rewrite length_take, length_drop. lia. }
    destruct (IH (KDF2.set_kdfCounter (KDF2.set_msgDigest s [])
                    (wrap32 (KDF2.m_kdfCounter (KDF2.set_msgDigest s []) + 1)))
                O1 (off + KDF2.m_hashSize s) (len - KDF2.m_hashSize s))
      as (s' & O' & E & HO'); try (rewrite ?HO1; lia).
    + exact Hh.
    + exists s', O'. split; [exact E | congruence].
  - destruct (Z.eq_dec len 0) as [->|Hnz].
    + unfold IntUtils.Copy. cbn [Z.eqb obind]. rewrite Z.sub_0_r.
      change (wrap64 0) with 0. cbn [Z.eqb negb]. eauto.
    + rewrite Copy_bytes by lia. rewrite obind_Returned.
      rewrite Z.sub_diag. change (wrap64 0) with 0. cbn [Z.eqb negb].
      eexists _, _. split; [reflexivity|].
      apply size_splice. unfold size in *. rewrite length_take, length_drop. lia.
Qed.

Lemma kdf_inv_new (d : Digests.t) (s : KDF2.t) : KDF2.new d = Returned s -> kdf_inv s.
Proof.
  unfold KDF2.new. destruct d; cbn [Digests.eqb negb]; intros E; [discriminate| |];
    injection E as <-; (split; [discriminate|]); repeat split; reflexivity.
Qed.

Lemma kdf_inv_initialized (s s' : KDF2.t) :
  kdf_inv s ->
  KDF2.m_kdfDigestType s' = KDF2.m_kdfDigestType s ->
  KDF2.m_hashSize s' = KDF2.m_hashSize s ->
  KDF2.m_blockSize s' = KDF2.m_blockSize s ->
  KDF2.m_isInitialized s' = true ->
  kdf_inv s'.
Proof.
  intros (Hd & Hh & Hb & _) Ed Eh Eb Ei. unfold kdf_inv.
  rewrite Ed, Eh, Eb, Ei. repeat split; try assumption; discriminate.
Qed.

Lemma kdf_inv_Reset (s : KDF2.t) : kdf_inv s -> kdf_inv (KDF2.Reset s).
Proof. intros (Hd & Hh & Hb & _). repeat split; assumption. Qed.

Lemma kdf_cleared_fields (s : KDF2.t) :
  kdf_inv s ->
  KDF2.m_kdfKey (kdf_cleared s) = [] /\ KDF2.m_kdfSalt (kdf_cleared s) = []
  /\ KDF2.m_kdfCounter (kdf_cleared s) = 1
  /\ KDF2.m_kdfDigestType (kdf_cleared s) = KDF2.m_kdfDigestType s
  /\ KDF2.m_hashSize (kdf_cleared s) = KDF2.m_hashSize s
  /\ KDF2.m_blockSize (kdf_cleared s) = KDF2.m_blockSize s.
Proof.
  intros (_ & _ & _ & Hu). unfold kdf_cleared.
  destruct (KDF2.m_isInitialized s).
  - repeat split; reflexivity.
  - destruct (Hu eq_refl) as (? & ? & ?). repeat split; assumption.
Qed.

Lemma kdf_cleared_sizes (s : KDF2.t) :
  KDF2.m_kdfDigestType (kdf_cleared s) = KDF2.m_kdfDigestType s
  /\ KDF2.m_hashSize (kdf_cleared s) = KDF2.m_hashSize s
  /\ KDF2.m_blockSize (kdf_cleared s) = KDF2.m_blockSize s.
Proof. unfold kdf_cleared. destruct (KDF2.m_isInitialized s); repeat split; reflexivity. Qed.

Ltac kdf_cases E :=
  repeat first
    [ discriminate E
    | match type of E with
      | context [obind (IntUtils.Copy ?a ?b ?c ?d ?e ?f) _] =>
        destruct (IntUtils.Copy a b c d e f)
      | context [if ?b then _ else _] => destruct b
      end; cbn [obind] in E ].

Ltac kdf_initialized s :=
  destruct (kdf_cleared_sizes s) as (Ed & Eh & Eb);
  apply (kdf_inv_initialized s); [assumption | cbn; assumption .. | reflexivity].

Lemma kdf_inv_Initialize (s : KDF2.t) (Key : list byte) (s' : KDF2.t) :
  kdf_inv s -> KDF2.Initialize s Key = Returned s' -> kdf_inv s'.
Proof.
  intros Hinv E. unfold KDF2.Initialize in E. cbv zeta in E.
  change (if KDF2.m_isInitialized s then KDF2.Reset s else s) with (kdf_cleared s) in E.
  set (s1 := kdf_cleared s) in *.
  kdf_cases E; injection E as <-; kdf_initialized s.
Qed.

Lemma kdf_inv_Initialize2 (s : KDF2.t) (Key Salt : list byte) (s' : KDF2.t) :
  kdf_inv s -> KDF2.Initialize2 s Key Salt = Returned s' -> kdf_inv s'.
Proof.
  intros Hinv E. unfold KDF2.Initialize2 in E. cbv zeta in E.
  change (if KDF2.m_isInitialized s then KDF2.Reset s else s) with (kdf_cleared s) in E.
  set (s1 := kdf_cleared s) in *.
  kdf_cases E; injection E as <-; kdf_initialized s.
Qed.

Lemma kdf_inv_Initialize3 (s : KDF2.t) (Key Salt Info : list byte) (s' : KDF2.t) :
  kdf_inv s -> KDF2.Initialize3 s Key Salt Info = Returned s' -> kdf_inv s'.
Proof.
  intros Hinv E. unfold KDF2.Initialize3 in E. cbv zeta in E.
  change (if KDF2.m_isInitialized s then KDF2.Reset s else s) with (kdf_cleared s) in E.
  set (s1 := kdf_cleared s) in *.
  kdf_cases E; injection E as <-; kdf_initialized s.
Qed.

Lemma kdf_inv_Expand `{IDigest.Hash} (s : KDF2.t) (Output : list byte) (off len : Z)
    (s' : KDF2.t) (Output' : list byte) (n : Z) :
  kdf_inv s -> KDF2.m_isInitialized s = true ->
  KDF2.Expand s Output off len = Returned (s', Output', n) -> kdf_inv s'.
Proof.
  intros Hinv Hi E. unfold KDF2.Expand in E.
  destruct (KDF2.m_hashSize s =? 0); [discriminate|].
  destruct (_ >? 255); [discriminate|].
  destruct (KDF2.Expand_loop _ s Output off len) as [[s1 O1]|o m|m|] eqn:EL;
    cbn [obind] in E; try discriminate.
  injection E as <- _ _.
  destruct (Expand_loop_fields _ _ _ _ _ _ _ EL) as (Fi & Fd & Fh & Fb & _).
  apply (kdf_inv_initialized s); congruence.
Qed.

Lemma reachable_inv `{IDigest.Hash} (s : KDF2.t) : KDF2.reachable s -> kdf_inv s.
Proof.
  induction 1 as [d s E|s Key s' _ IH E|s Key Salt s' _ IH E|s Key Salt Info s' _ IH E
                 |s Output s' Output' n _ IH E|s Output off len s' Output' n _ IH E
                 |s _ IH].
  - exact (kdf_inv_new d s E).
  - exact (kdf_inv_Initialize s Key s' IH E).
  - exact (kdf_inv_Initialize2 s Key Salt s' IH E).
  - exact (kdf_inv_Initialize3 s Key Salt Info s' IH E).
  - unfold KDF2.Generate in E.
    destruct (KDF2.m_isInitialized s) eqn:Hi; cbn [negb] in E; [|discriminate].
    destruct (negb (negb _)); [discriminate|].
    destruct (KDF2.m_hashSize s =? 0); [discriminate|].
    destruct (_ >? 255); [discriminate|].
    exact (kdf_inv_Expand s _ _ _ s' Output' n IH Hi E).
  - unfold KDF2.GenerateAt in E.
    destruct (KDF2.m_isInitialized s) eqn:Hi; cbn [negb] in E; [|discriminate].
    destruct (negb (negb _)); [discriminate|].
    destruct (KDF2.m_hashSize s =? 0); [discriminate|].
    destruct (_ >? 255); [discriminate|].
    exact (kdf_inv_Expand s _ _ _ s' Output' n IH Hi E).
  - exact (kdf_inv_Reset s IH).
Qed.

Lemma Initialize_padded (s : KDF2.t) (K : list byte) :
  kdf_inv s ->
  KDF2.m_hashSize s <= size K <= KDF2.m_blockSize s ->
  KDF2.Initialize s K
  = Returned
      (KDF2.set_isInitialized
         (KDF2.set_kdfKey (kdf_cleared s)
            (K ++ replicate (Z.to_nat (KDF2.m_blockSize s) - length K) x00))
         true).
Proof.
  intros Hinv [H1 H2].
  destruct (kdf_cleared_fields s Hinv) as (Ek & Es & Ec & Ed & Eh & Eb).
  destruct Hinv as (Hd & Hh & Hb & _).
  assert (Hpos : 32 <= KDF2.m_hashSize s)
    by (destruct (digest_sizes _ Hd) as [[? ?]|[? ?]]; lia).
  unfold KDF2.Initialize. destruct (Z.ltb_spec (size K) (KDF2.m_hashSize s)); [lia|].
  cbv zeta.
  change (if KDF2.m_isInitialized s then KDF2.Reset s else s) with (kdf_cleared s).
  rewrite Eb, Ek. destruct (Z.leb_spec (size K) (KDF2.m_blockSize s)); [|lia].
  unfold resize_to. rewrite take_nil. cbn [app length]. rewrite Nat.sub_0_r.
  rewrite Copy_bytes by (rewrite ?size_replicate; lia).
  rewrite !obind_Returned. do 3 f_equal.
  unfold splice. change (Z.to_nat 0) with 0%nat. rewrite drop_0, take_0. cbn [app].
  rewrite take_ge by (unfold size in *; lia).
  rewrite drop_replicate. do 2 f_equal; unfold size in *; lia.
Qed.

(** C10: for a key of at least the digest size and at most the block size,
    Initialize(Key) leaves the key followed by zero bytes up to one block
    as the generator key, with no salt; the key with zero bytes appended,
    within the block size, leads to the same state, and so to the same
    output of every run of Generate calls that follows. *)
Theorem KDF2_Initialize_zero_padding `{IDigest.Hash} (s : KDF2.t) (K : list byte) (j : nat) :
  KDF2.reachable s ->
  KDF2.m_hashSize s <= size K ->
  size K + Z.of_nat j <= KDF2.m_blockSize s ->
  exists s' : KDF2.t,
    KDF2.Initialize s K = Returned s'
    /\ KDF2.Initialize s (K ++ replicate j x00) = Returned s'
    /\ KDF2.m_kdfKey s' = K ++ replicate (Z.to_nat (KDF2.m_blockSize s) - length K) x00
    /\ size (KDF2.m_kdfKey s') = KDF2.m_blockSize s'
    /\ KDF2.m_kdfSalt s' = []
    /\ KDF2.m_isInitialized s' = true
    /\ (forall s1 s2 lengths,
           KDF2.Initialize s K = Returned s1 ->
           KDF2.Initialize s (K ++ replicate j x00) = Returned s2 ->
           s1 = s2 /\ KDF2.Generate_all s1 lengths = KDF2.Generate_all s2 lengths).
Proof.
  intros Hreach H1 H2. pose proof (reachable_inv s Hreach) as Hinv.
  assert (Hsz : size (K ++ replicate j x00) = size K + Z.of_nat j)
    by (rewrite size_app, size_replicate; reflexivity).
  pose proof (Initialize_padded s K Hinv ltac:(lia)) as E1.
  pose proof (Initialize_padded s (K ++ replicate j x00) Hinv ltac:(lia)) as E2.
  assert (Epad : (K ++ replicate j x00)
                 ++ replicate (Z.to_nat (KDF2.m_blockSize s)
                               - length (K ++ replicate j x00)) x00
                 = K ++ replicate (Z.to_nat (KDF2.m_blockSize s) - length K) x00).
  { rewrite <- app_assoc, <- replicate_add. do 2 f_equal.
    rewrite length_app, length_replicate. unfold size in *. lia. }
  rewrite Epad in E2.
  destruct (kdf_cleared_fields s Hinv) as (Ek & Es & Ec & Ed & Eh & Eb).
  eexists. split; [exact E1|]. split; [exact E2|].
  split; [reflexivity|]. split.
  - cbn. rewrite Eb, size_app, size_replicate. unfold size in *. lia.
  - split; [exact Es|]. split; [reflexivity|].
    intros s1 s2 lengths F1 F2. rewrite E1 in F1. rewrite E2 in F2.
    injection F1 as <-. injection F2 as <-. split; reflexivity.
Qed.

Lemma KDF2_Initialize_zero_padding_witness :
  let s := kdf_constructed Digests.SHA256 in
  let K := Key (sample_key 40) in
  KDF2.new Digests.SHA256 = Returned s
  /\ exists s1 s2 : KDF2.t,
      KDF2.Initialize s K = Returned s1
      /\ KDF2.Initialize s (K ++ replicate 24 x00) = Returned s2
      /\ KDF2.m_kdfKey s1 = K ++ replicate 24 x00
      /\ s1 = s2
      /\ KDF2.Generate_all (H := sample_hash) s1 [40%nat; 7%nat]
         = KDF2.Generate_all (H := sample_hash) s2 [40%nat; 7%nat].
Proof.
  cbv zeta. split; [reflexivity|].
  destruct (KDF2_Initialize_zero_padding (H := sample_hash)
              (kdf_constructed Digests.SHA256) (Key (sample_key 40)) 24)
    as (s' & E1 & E2 & Ek & _ & _ & _ & Hall);
    [apply (KDF2.reach_new Digests.SHA256); reflexivity
    | vm_compute; congruence | vm_compute; congruence |].
  exists s', s'. split; [exact E1|]. split; [exact E2|]. split; [exact Ek|].
  exact (Hall s' s' [40%nat; 7%nat] E1 E2).
Defined.

(** ** KDF2: the bound on the output of Generate *)

Lemma Generate_fresh `{IDigest.Hash} (s : KDF2.t) (Output : list byte) :
  KDF2.m_isInitialized s = true -> KDF2.m_kdfCounter s = 1 ->
  32 <= KDF2.m_hashSize s -> 0 < size Output < 2 ^ 64 ->
  (size Output < 255 * KDF2.m_hashSize s ->
   exists s' Output',
     KDF2.Generate s Output = Returned (s', Output', size Output)
     /\ size Output' = size Output)
  /\ (255 * KDF2.m_hashSize s <= size Output ->
      KDF2.Generate s Output
      = Thrown "KDF2:Generate" "KDF2 may only be used for 255 * HashLen bytes of output").
Proof.
  intros Hi Hc Hh Hs.
  assert (Hq : 0 <= size Output / KDF2.m_hashSize s
               /\ 32 * (size Output / KDF2.m_hashSize s) <= size Output).
  { pose proof (Z.mul_div_le (size Output) (KDF2.m_hashSize s) ltac:(lia)) as Hm.
    assert (0 <= size Output / KDF2.m_hashSize s) by (apply Z.div_pos; lia).
    split; [assumption | nia]. }
  unfold KDF2.Generate, KDF2.Expand. rewrite Hi, Hc. cbn [negb].
  destruct (Z.eqb_spec (size Output) 0); [lia|]. cbn [negb].
  destruct (Z.eqb_spec (KDF2.m_hashSize s) 0); [lia|].
  rewrite (wrap64_small (1 + _)) by lia. rewrite Z.gtb_ltb.
  split.
  - intros Hlt.
    assert (size Output / KDF2.m_hashSize s < 255)
      by (apply Z.div_lt_upper_bound; lia).
    destruct (Z.ltb_spec 255 (1 + size Output / KDF2.m_hashSize s)); [lia|].
    destruct (Expand_loop_returns (S (Z.to_nat (size Output))) s Output 0 (size Output))
      as (s' & O' & E & HO); try lia.
    rewrite E. rewrite obind_Returned. eauto.
  - intros Hge.
    assert (255 <= size Output / KDF2.m_hashSize s)
      by (apply Z.div_le_lower_bound; lia).
    destruct (Z.ltb_spec 255 (1 + size Output / KDF2.m_hashSize s)); [reflexivity|lia].
Qed.

(** C7, at the bound: a SHA-256 generator that was just initialised throws
    for a request of 255 * 32 = 8160 bytes, the most the message of its
    exception allows, and serves the request of 8159 bytes; the counter
    starts at 1 and the test adds to it the number of whole blocks
    requested. *)
Theorem KDF2_Generate_255_blocks `{IDigest.Hash} :
  KDF2.new Digests.SHA256 = Returned (kdf_constructed Digests.SHA256)
  /\ KDF2.Initialize (kdf_constructed Digests.SHA256) (Key (sample_key 32))
     = Returned kdf_ready
  /\ KDF2.m_kdfCounter kdf_ready = 1
  /\ 255 * KDF2.m_hashSize kdf_ready = 8160
  /\ KDF2.Generate kdf_ready (replicate (Z.to_nat 8160) x00)
     = Thrown "KDF2:Generate" "KDF2 may only be used for 255 * HashLen bytes of output"
  /\ (exists s' Output',
         KDF2.Generate kdf_ready (replicate (Z.to_nat 8159) x00)
         = Returned (s', Output', 8159)
         /\ size Output' = 8159).
Proof.
  split; [reflexivity|]. split; [vm_compute; reflexivity|].
  split; [reflexivity|]. split; [reflexivity|].
  assert (Hi : KDF2.m_isInitialized kdf_ready = true) by reflexivity.
  assert (Hc : KDF2.m_kdfCounter kdf_ready = 1) by reflexivity.
  assert (Hh : 32 <= KDF2.m_hashSize kdf_ready) by (vm_compute; congruence).
  assert (Hn : forall n, 0 <= n -> size (replicate (Z.to_nat n) x00) = n)
    by (intros n Hn; rewrite size_replicate; lia).
  split.
  - destruct (Generate_fresh kdf_ready (replicate (Z.to_nat 8160) x00) Hi Hc Hh)
      as [_ Hthrow]; [rewrite Hn; lia|].
    apply Hthrow. rewrite Hn by lia. vm_compute. congruence.
  - destruct (Generate_fresh kdf_ready (replicate (Z.to_nat 8159) x00) Hi Hc Hh)
      as [Hok _]; [rewrite Hn; lia|].
    rewrite Hn in Hok by lia. apply Hok. vm_compute. reflexivity.
Qed.

(** ** StreamWriter *)

Lemma sizeof_cases (T : StreamWriter.IntType) :
  StreamWriter.sizeof T = 1 \/ StreamWriter.sizeof T = 2
  \/ StreamWriter.sizeof T = 4 \/ StreamWriter.sizeof T = 8.
Proof. destruct T; cbn; lia. Qed.

Lemma size_grown (state : list byte) (n : Z) : n <= size (grown state n).
Proof.
  unfold grown. rewrite Z.gtb_ltb. destruct (Z.ltb_spec (size state) n); [|lia].
  rewrite size_resize_to by (pose proof (size_nonneg state); lia). lia.
Qed.

Lemma splice_twice {A : Type} (v : list A) (off : nat) (xs ys : list A) :
  length xs = length ys -> (off + length xs <= length v)%nat ->
  splice (splice v off xs) off ys = splice v off ys.
Proof.
  intros Hl Hfit. apply list_eq. intros i.
  rewrite !splice_lookup by (rewrite ?splice_length; lia).
  rewrite <- Hl. repeat case_decide; try lia; reflexivity.
Qed.

Lemma concat_encode_length (f : Z -> list byte) (n : nat) (xs : list Z) :
  (forall x, length (f x) = n) -> length (concat (map f xs)) = (n * length xs)%nat.
Proof.
  intros Hf. induction xs as [|x xs IH]; cbn [map concat length]; [lia|].
  rewrite length_app, Hf, IH. lia.
Qed.

Lemma object_bytes_length (host : StreamWriter.Endian) (T : StreamWriter.IntType) (v : Z) :
  length (StreamWriter.object_bytes host T v) = Z.to_nat (StreamWriter.sizeof T).
Proof.
  destruct host; cbn [StreamWriter.object_bytes];
    [apply le_encode_length | apply be_encode_length].
Qed.

(** X1: a single value of a type of two bytes or more is written with the least
    significant byte first on every host: the stream is resized when the
    value does not fit, the [sizeof(T)] bytes at Position are those of the
    little-endian encoding, and Position moves by [sizeof(T)]. *)
Theorem StreamWriter_Write_little_endian (host : StreamWriter.Endian)
    (T : StreamWriter.IntType) (s : StreamWriter.t) (Value : Z) :
  T <> StreamWriter.UInt8 ->
  0 <= StreamWriter.m_streamPosition s ->
  StreamWriter.m_streamPosition s + StreamWriter.sizeof T < 2 ^ 64 ->
  StreamWriter.Write host T s Value
  = Returned
      {| StreamWriter.m_streamPosition :=
           StreamWriter.m_streamPosition s + StreamWriter.sizeof T;
         StreamWriter.m_streamState :=
           splice (grown (StreamWriter.m_streamState s)
                     (StreamWriter.m_streamPosition s + StreamWriter.sizeof T))
                  (Z.to_nat (StreamWriter.m_streamPosition s))
                  (IntUtils.le_encode (Z.to_nat (StreamWriter.sizeof T)) Value) |}.
Proof.
  intros HT Hp Hmax. unfold StreamWriter.Write. cbv zeta.
  rewrite (wrap64_small (_ + _)) by (destruct T; cbn in *; lia).
  fold (grown (StreamWriter.m_streamState s)
          (StreamWriter.m_streamPosition s + StreamWriter.sizeof T)).
  pose proof (size_grown (StreamWriter.m_streamState s)
                (StreamWriter.m_streamPosition s + StreamWriter.sizeof T)) as Hg.
  destruct T; [congruence| | |];
    cbn [StreamWriter.sizeof Z.eqb Pos.eqb] in *;
    unfold IntUtils.Le16ToBytes, IntUtils.Le32ToBytes, IntUtils.Le64ToBytes;
    (rewrite vwrite_splice by (unfold size in *; rewrite ?le_encode_length; lia));
    reflexivity.
Qed.

Lemma StreamWriter_Write_little_endian_witness :
  StreamWriter.Write StreamWriter.BigEndian StreamWriter.UInt32
    {| StreamWriter.m_streamPosition := 1; StreamWriter.m_streamState := [xaa; xbb] |}
    16909060
  = Returned {| StreamWriter.m_streamPosition := 5;
                StreamWriter.m_streamState := [xaa; x04; x03; x02; x01] |}.
Proof.
  rewrite (StreamWriter_Write_little_endian StreamWriter.BigEndian StreamWriter.UInt32
             {| StreamWriter.m_streamPosition := 1;
                StreamWriter.m_streamState := [xaa; xbb] |} 16909060);
    [reflexivity | discriminate | cbn; lia | cbn; lia].
Defined.

Lemma array_length_div (T : StreamWriter.IntType) (n : nat) :
  Z.to_nat (StreamWriter.sizeof T * Z.of_nat n / StreamWriter.sizeof T) = n.
Proof.
  assert (1 <= StreamWriter.sizeof T) by (destruct T; cbn; lia).
  rewrite Z.mul_comm, Z.div_mul by lia. lia.
Qed.

Lemma CopyArray_spec (host : StreamWriter.Endian) (T : StreamWriter.IntType)
    (Input : list Z) (io : Z) (Output : list byte) (oo : Z) (n : nat) :
  0 <= io -> io + Z.of_nat n <= size Input ->
  0 <= oo -> oo + StreamWriter.sizeof T * Z.of_nat n <= size Output ->
  StreamWriter.CopyArray host T Input io Output oo (StreamWriter.sizeof T * Z.of_nat n)
  = Returned (splice Output (Z.to_nat oo)
                (concat (map (StreamWriter.object_bytes host T)
                             (take n (drop (Z.to_nat io) Input))))).
Proof.
  intros Hi0 Hi1 Ho0 Ho1. unfold StreamWriter.CopyArray.
  rewrite array_length_div, vread_in by lia. rewrite obind_Returned.
  apply vwrite_splice; [lia|]. unfold size in *.
  rewrite (concat_encode_length _ (Z.to_nat (StreamWriter.sizeof T)))
    by (intros; apply object_bytes_length).
  rewrite length_take, length_drop. destruct T; cbn in *; lia.
Qed.

Lemma LeToBlock_spec (T : StreamWriter.IntType)
    (Input : list Z) (io : Z) (Output : list byte) (oo : Z) (n : nat) :
  0 <= io -> io + Z.of_nat n <= size Input ->
  0 <= oo -> oo + StreamWriter.sizeof T * Z.of_nat n <= size Output ->
  StreamWriter.LeToBlock T Input io Output oo (StreamWriter.sizeof T * Z.of_nat n)
  = Returned (splice Output (Z.to_nat oo)
                (concat (map (IntUtils.le_encode (Z.to_nat (StreamWriter.sizeof T)))
                             (take n (drop (Z.to_nat io) Input))))).
Proof. apply (CopyArray_spec StreamWriter.LittleEndian). Qed.

(** X2: on a little-endian host the elements of an array are written one after
    the other, each with the least significant byte first; the stream is
    resized when they do not fit and Position moves by the bytes written.
    The copy that follows the conversion stores the same bytes again. *)
Theorem StreamWriter_WriteArray_little_endian_host (T : StreamWriter.IntType)
    (s : StreamWriter.t) (Input : list Z) (InOffset : Z) (Elements : nat) :
  0 <= InOffset -> InOffset + Z.of_nat Elements <= size Input ->
  0 <= StreamWriter.m_streamPosition s ->
  StreamWriter.m_streamPosition s + StreamWriter.sizeof T * Z.of_nat Elements < 2 ^ 64 ->
  StreamWriter.WriteArray StreamWriter.LittleEndian T s Input InOffset (Z.of_nat Elements)
  = Returned
      {| StreamWriter.m_streamPosition :=
           StreamWriter.m_streamPosition s + StreamWriter.sizeof T * Z.of_nat Elements;
         StreamWriter.m_streamState :=
           splice (grown (StreamWriter.m_streamState s)
                     (StreamWriter.m_streamPosition s
                      + StreamWriter.sizeof T * Z.of_nat Elements))
                  (Z.to_nat (StreamWriter.m_streamPosition s))
                  (concat (map (IntUtils.le_encode (Z.to_nat (StreamWriter.sizeof T)))
                               (take Elements (drop (Z.to_nat InOffset) Input)))) |}.
Proof.
  intros Hi0 Hi1 Hp Hmax. unfold StreamWriter.WriteArray. cbv zeta.
  assert (Hsz : 1 <= StreamWriter.sizeof T <= 8) by (destruct T; cbn; lia).
  rewrite (wrap64_small (StreamWriter.sizeof T * _)) by nia.
  rewrite (wrap64_small (_ + _)) by nia.
  fold (grown (StreamWriter.m_streamState s)
          (StreamWriter.m_streamPosition s + StreamWriter.sizeof T * Z.of_nat Elements)).
  pose proof (size_grown (StreamWriter.m_streamState s)
                (StreamWriter.m_streamPosition s
                 + StreamWriter.sizeof T * Z.of_nat Elements)) as Hg.
  set (st := grown _ _) in *.
  set (bs := concat (map (IntUtils.le_encode (Z.to_nat (StreamWriter.sizeof T)))
                         (take Elements (drop (Z.to_nat InOffset) Input)))).
  assert (Hbs : size bs = StreamWriter.sizeof T * Z.of_nat Elements).
  { unfold size, bs.
    rewrite (concat_encode_length _ (Z.to_nat (StreamWriter.sizeof T)))
      by (intros; apply le_encode_length).
    rewrite length_take, length_drop. unfold size in *. nia. }
  assert (Hst : size (splice st (Z.to_nat (StreamWriter.m_streamPosition s)) bs) = size st)
    by (apply size_splice; lia).
  destruct (StreamWriter.sizeof T >? 1).
  - rewrite LeToBlock_spec by lia. fold bs. rewrite obind_Returned. cbv beta.
    rewrite CopyArray_spec by (rewrite ?Hst; lia).
    rewrite obind_Returned. cbv beta. do 2 f_equal.
    apply splice_twice; [reflexivity|]. unfold size in *. lia.
  - rewrite obind_Returned. cbv beta. rewrite CopyArray_spec by lia. reflexivity.
Qed.

Lemma StreamWriter_WriteArray_little_endian_host_witness :
  StreamWriter.WriteArray StreamWriter.LittleEndian StreamWriter.UInt16
    (StreamWriter.new 1) [7; 772; 1286] 1 (Z.of_nat 2)
  = Returned {| StreamWriter.m_streamPosition := 4;
                StreamWriter.m_streamState := [x04; x03; x06; x05] |}.
Proof.
  rewrite (StreamWriter_WriteArray_little_endian_host StreamWriter.UInt16
             (StreamWriter.new 1) [7; 772; 1286] 1 2);
    [reflexivity | lia | vm_compute; congruence | vm_compute; congruence
    | vm_compute; reflexivity].
Defined.

(** C8, on a host that stores the most significant byte first: Write of an
    array converts the elements and then copies them over the result as
    they lie in memory, the copy not being the [else] of the conversion.
    The array [{0x0304}] of 16-bit elements leaves 03 04 in the stream,
    where the Write of a vector and the Write of the single value leave
    04 03; Position is 2 after each. *)
Theorem StreamWriter_WriteArray_big_endian_host :
  StreamWriter.WriteArray StreamWriter.BigEndian StreamWriter.UInt16
    (StreamWriter.new 0) [772] 0 1
  = Returned {| StreamWriter.m_streamPosition := 2;
                StreamWriter.m_streamState := [x03; x04] |}
  /\ StreamWriter.WriteVector StreamWriter.UInt16 (StreamWriter.new 0) [772]
     = Returned {| StreamWriter.m_streamPosition := 2;
                   StreamWriter.m_streamState := [x04; x03] |}
  /\ StreamWriter.Write StreamWriter.BigEndian StreamWriter.UInt16 (StreamWriter.new 0) 772
     = Returned {| StreamWriter.m_streamPosition := 2;
                   StreamWriter.m_streamState := [x04; x03] |}
  /\ StreamWriter.WriteArray StreamWriter.LittleEndian StreamWriter.UInt16
       (StreamWriter.new 0) [772] 0 1
     = Returned {| StreamWriter.m_streamPosition := 2;
                   StreamWriter.m_streamState := [x04; x03] |}.
Proof. repeat split; vm_compute; reflexivity. Qed.

(** ** SHX: encrypting what was decrypted *)

Lemma InverseTransform_ok (q : Serpent.quad) :
  quad_ok q -> quad_ok (Serpent.InverseTransform q).
Proof.
  destruct q as [[[a b] c] d]. intros (Ha & Hb & Hc & Hd).
  unfold Serpent.InverseTransform, quad_ok.
  repeat split;
    repeat first [assumption | apply RotR32_word | apply shl32_word | apply word32_lxor].
Qed.

Lemma LinearTransform_InverseTransform (q : Serpent.quad) :
  quad_ok q -> Serpent.LinearTransform (Serpent.InverseTransform q) = q.
Proof.
  destruct q as [[[a b] c] d]. intros (Ha & Hb & Hc & Hd).
  unfold Serpent.LinearTransform, Serpent.InverseTransform.
  set (x2 := Z.lxor (Z.lxor (IntUtils.RotR32 c 22) d) (Serpent.shl32 b 7)).
  set (x0 := Z.lxor (Z.lxor (IntUtils.RotR32 a 5) b) d).
  assert (W0 : word32 x0)
    by (unfold x0; repeat first [assumption | apply RotR32_word | apply word32_lxor]).
  assert (W2 : word32 x2)
    by (unfold x2;
        repeat first [assumption | apply RotR32_word | apply shl32_word
                     | apply word32_lxor]).
  rewrite !RotL32_RotR32 by (assumption || lia).
  rewrite !lxor_cancel_2.
  rewrite !RotL32_RotR32 by (assumption || lia).
  unfold x0, x2. rewrite !lxor_cancel_2.
  rewrite !RotL32_RotR32 by (assumption || lia).
  reflexivity.
Qed.

Lemma Sb0_Ib0 (q : Serpent.quad) : quad_ok q -> Serpent.Sb0 (Serpent.Ib0 q) = q.
Proof. apply bitslice_inverse. vm_compute. reflexivity. Qed.

Lemma Sb1_Ib1 (q : Serpent.quad) : quad_ok q -> Serpent.Sb1 (Serpent.Ib1 q) = q.
Proof. apply bitslice_inverse. vm_compute. reflexivity. Qed.

Lemma Sb2_Ib2 (q : Serpent.quad) : quad_ok q -> Serpent.Sb2 (Serpent.Ib2 q) = q.
Proof. apply bitslice_inverse. vm_compute. reflexivity. Qed.

Lemma Sb3_Ib3 (q : Serpent.quad) : quad_ok q -> Serpent.Sb3 (Serpent.Ib3 q) = q.
Proof. apply bitslice_inverse. vm_compute. reflexivity. Qed.

Lemma Sb4_Ib4 (q : Serpent.quad) : quad_ok q -> Serpent.Sb4 (Serpent.Ib4 q) = q.
Proof. apply bitslice_inverse. vm_compute. reflexivity. Qed.

Lemma Sb5_Ib5 (q : Serpent.quad) : quad_ok q -> Serpent.Sb5 (Serpent.Ib5 q) = q.
Proof. apply bitslice_inverse. vm_compute. reflexivity. Qed.

Lemma Sb6_Ib6 (q : Serpent.quad) : quad_ok q -> Serpent.Sb6 (Serpent.Ib6 q) = q.
Proof. apply bitslice_inverse. vm_compute. reflexivity. Qed.

Lemma Sb7_Ib7 (q : Serpent.quad) : quad_ok q -> Serpent.Sb7 (Serpent.Ib7 q) = q.
Proof. apply bitslice_inverse. vm_compute. reflexivity. Qed.

Lemma Ib0_ok (q : Serpent.quad) : quad_ok (Serpent.Ib0 q).
Proof. apply bitslice_ok. Qed.

Lemma Ib1_ok (q : Serpent.quad) : quad_ok (Serpent.Ib1 q).
Proof. apply bitslice_ok. Qed.

Lemma Ib2_ok (q : Serpent.quad) : quad_ok (Serpent.Ib2 q).
Proof. apply bitslice_ok. Qed.

Lemma Ib3_ok (q : Serpent.quad) : quad_ok (Serpent.Ib3 q).
Proof. apply bitslice_ok. Qed.

Lemma Ib4_ok (q : Serpent.quad) : quad_ok (Serpent.Ib4 q).
Proof. apply bitslice_ok. Qed.

Lemma Ib5_ok (q : Serpent.quad) : quad_ok (Serpent.Ib5 q).
Proof. apply bitslice_ok. Qed.

Lemma Ib6_ok (q : Serpent.quad) : quad_ok (Serpent.Ib6 q).
Proof. apply bitslice_ok. Qed.

Lemma Ib7_ok (q : Serpent.quad) : quad_ok (Serpent.Ib7 q).
Proof. apply bitslice_ok. Qed.

Ltac inv_quad_tac :=
  repeat first
    [ assumption
    | simple apply Ib0_ok | simple apply Ib1_ok | simple apply Ib2_ok | simple apply Ib3_ok
    | simple apply Ib4_ok | simple apply Ib5_ok | simple apply Ib6_ok | simple apply Ib7_ok
    | simple apply xor4_ok | simple apply InverseTransform_ok ].

Lemma dec_octet_ok (K : list Z) (c : Z) (R : Serpent.quad) : quad_ok (dec_octet K c R).
Proof. unfold dec_octet. apply Ib0_ok. Qed.

Lemma octet_inverse_r (K : list Z) (c : Z) (R : Serpent.quad) :
  Forall word32 K -> quad_ok R -> enc_octet K c (xor4 K c (dec_octet K c R)) = R.
Proof.
  intros HK HR. unfold enc_octet, dec_octet. cbv zeta.
  rewrite xor4_xor4.
  rewrite Sb0_Ib0, LinearTransform_InverseTransform, xor4_xor4 by inv_quad_tac.
  rewrite Sb1_Ib1, LinearTransform_InverseTransform, xor4_xor4 by inv_quad_tac.
  rewrite Sb2_Ib2, LinearTransform_InverseTransform, xor4_xor4 by inv_quad_tac.
  rewrite Sb3_Ib3, LinearTransform_InverseTransform, xor4_xor4 by inv_quad_tac.
  rewrite Sb4_Ib4, LinearTransform_InverseTransform, xor4_xor4 by inv_quad_tac.
  rewrite Sb5_Ib5, LinearTransform_InverseTransform, xor4_xor4 by inv_quad_tac.
  rewrite Sb6_Ib6, LinearTransform_InverseTransform, xor4_xor4 by inv_quad_tac.
  apply Sb7_Ib7. assumption.
Qed.

Lemma enc_from_last (K : list Z) (m : nat) :
  forall (c : Z) (R : Serpent.quad),
    enc_from K c (S m) R
    = enc_octet K (c + 32 * Z.of_nat (S m)) (Serpent.LinearTransform (enc_from K c m R)).
Proof.
  induction m as [|m IH]; intros c R.
  - rewrite enc_from_S, !enc_from_O.
    replace (c + 32 * Z.of_nat 1) with (c + 32) by lia. reflexivity.
  - rewrite enc_from_S, IH. rewrite (enc_from_S K c m).
    replace (c + 32 + 32 * Z.of_nat (S m)) with (c + 32 * Z.of_nat (S (S m))) by lia.
    reflexivity.
Qed.

Lemma enc_dec_from (K : list Z) (m : nat) :
  forall (c : Z) (R : Serpent.quad),
    Forall word32 K -> quad_ok R ->
    enc_from K (c - 32 * Z.of_nat m) m
      (xor4 K (c - 32 * Z.of_nat m) (dec_from K c m R)) = R.
Proof.
  induction m as [|m IH]; intros c R HK HR.
  - replace (c - 32 * Z.of_nat 0) with c by lia.
    rewrite enc_from_O, dec_from_O. apply octet_inverse_r; assumption.
  - rewrite enc_from_last, dec_from_S.
    replace (c - 32 * Z.of_nat (S m)) with (c - 32 - 32 * Z.of_nat m) by lia.
    rewrite IH by (assumption || inv_quad_tac; apply dec_octet_ok).
    rewrite LinearTransform_InverseTransform by (inv_quad_tac; apply dec_octet_ok).
    replace (c - 32 - 32 * Z.of_nat m + 32 * Z.of_nat (S m)) with c by lia.
    apply octet_inverse_r; assumption.
Qed.

Lemma dec_from_ok (K : list Z) (m : nat) :
  forall (c : Z) (R : Serpent.quad), quad_ok (dec_from K c m R).
Proof.
  induction m as [|m IH]; intros c R.
  - rewrite dec_from_O. apply dec_octet_ok.
  - rewrite dec_from_S. apply IH.
Qed.

(** Encrypting what was decrypted under the same expanded key gives the
    block back. *)
Lemma enc_dec_block (m : nat) (K : list Z) (blk : list byte) :
  key_for m K -> length blk = 16%nat -> enc_block m K (dec_block m K blk) = blk.
Proof.
  intros (Hs & Hmax & HKw) Hb. unfold dec_block, enc_block.
  rewrite load_store_quad by (apply xor4_ok; [assumption | apply dec_from_ok]).
  pose proof (enc_dec_from K m (size K - 36)
                (xor4 K (size K - 4) (load_quad blk)) HKw) as E.
  replace (size K - 36 - 32 * Z.of_nat m) with 0 in E by lia.
  rewrite E by (apply xor4_ok; [assumption | now apply load_quad_ok]).
  rewrite xor4_xor4. now apply store_load_quad.
Qed.

(** ** SHX: Initialize on every state of an instance *)

Lemma new_constructed (d : Digests.t) (r : Z) :
  32 <= r <= 64 -> r mod 8 = 0 -> SHX.new d r = Returned (constructed d r).
Proof.
  intros Hr Hm. unfold SHX.new, SHX.MAX_ROUNDS, SHX.MIN_ROUNDS.
  destruct (Z.leb_spec r 64); [|lia]. destruct (Z.geb_spec r 32); [|lia].
  rewrite Hm. reflexivity.
Qed.

Lemma new_is_constructed (d : Digests.t) (r : Z) (s : SHX.t) :
  SHX.new d r = Returned s -> s = constructed d r /\ 32 <= r <= 64 /\ r mod 8 = 0.
Proof. intros H. apply new_inv in H as [[Hr Hm] ->]. now repeat split. Qed.

Lemma shx_inv_constructed (d : Digests.t) (r : Z) :
  32 <= r <= 64 -> r mod 8 = 0 -> shx_inv d r (constructed d r).
Proof.
  intros Hr Hm. unfold shx_inv. split; [now split|].
  destruct d; repeat split; intros; reflexivity.
Qed.

Lemma StandardExpand_key (s : SHX.t) (Key : list byte) (s' : SHX.t) :
  SHX.StandardExpand s Key = Returned s' ->
  s' = SHX.set_expKey (SHX.set_rndCount s (if size Key =? 64 then 40 else 32))
         (standard_key Key).
Proof.
  unfold standard_key, SHX.StandardExpand. cbv zeta.
  change (SHX.m_rndCount (SHX.set_rndCount s (if size Key =? 64 then 40 else 32)))
    with (if size Key =? 64 then 40 else 32).
  change (SHX.m_rndCount (SHX.set_rndCount (constructed Digests.None 32)
                            (if size Key =? 64 then 40 else 32)))
    with (if size Key =? 64 then 40 else 32).
  destruct (SHX.StandardPrekey Key _) as [Wk| | |]; cbn [obind]; try discriminate.
  destruct (SHX.SboxPass _ Wk 0 _) as [[W c]| | |]; cbn [obind]; try discriminate.
  destruct (SHX.SbAt _ W c) as [W'| | |]; cbn [obind]; try discriminate.
  intros E. injection E as <-. reflexivity.
Qed.

Lemma SecureExpand_words `{HKDF.Generator} (s : SHX.t) (Key : list byte) (m : nat) :
  SHX.m_rndCount s = 8 * (Z.of_nat m + 1) -> (m < 100)%nat ->
  0 < DigestFromName.GetBlockSize (SHX.m_kdfEngineType s) ->
  size Key < 2 ^ 64 ->
  let d := SHX.m_kdfEngineType s in
  let blk := DigestFromName.GetBlockSize d in
  SHX.SecureExpand s Key
  = Returned
      (SHX.set_expKey (if size Key >? blk then SHX.set_kdfKeySize s blk else s)
         (hkdf_words d (hkdf_start d (SHX.m_kdfInfo s) Key) (SHX.m_rndCount s))).
Proof.
  intros Hr Hm Hb Hk d blk. unfold SHX.SecureExpand.
  rewrite SecureExpand_init_branch by assumption. cbv zeta. fold d. fold blk.
  unfold hkdf_words, hkdf_start. cbv zeta. fold blk.
  rewrite Hr.
  rewrite (wrap64_small (8 * (Z.of_nat m + 1) + 1)) by lia.
  rewrite (wrap64_small (4 * _)) by lia.
  rewrite (wrap64_small (4 * _ * 4)) by lia.
  replace (16 * (8 * (Z.of_nat m + 1) + 1)) with (4 * (8 * (Z.of_nat m + 1) + 1) * 4)
    by lia.
  set (keySize := 4 * (8 * (Z.of_nat m + 1) + 1)).
  assert (Hfill : forall (s1 : SHX.t) (gen : HKDF.init),
    SHX.m_kdfEngineType s1 = d ->
    (let rawKey := HKDF.Generate (SHX.m_kdfEngineType s1) gen
                     (replicate (Z.to_nat (keySize * 4)) x00) in
     expKey <~ for_each
                 (fun K i => w <~ IntUtils.LeBytesTo32 rawKey (i *% 4) ;; vset K i w)
                 (seqZ 0 (size (resize_to 0 (SHX.m_expKey s1) keySize)))
                 (resize_to 0 (SHX.m_expKey s1) keySize) ;;
     Returned (SHX.set_expKey s1 expKey))
    = Returned
        (SHX.set_expKey s1
           (map (fun i => IntUtils.le_decode
                            (take 4 (drop (Z.to_nat (i * 4))
                               (HKDF.Generate d gen
                                  (replicate (Z.to_nat (keySize * 4)) x00)))))
                (seqZ 0 keySize)))).
  { intros s1 gen Ed. cbv zeta. rewrite Ed.
    set (rawKey := HKDF.Generate d gen _).
    assert (Lraw : size rawKey = keySize * 4).
    { unfold size, rawKey. rewrite Generate_length, length_replicate. lia. }
    assert (Hsz : size (resize_to 0 (SHX.m_expKey s1) keySize) = keySize)
      by (apply size_resize_to; lia).
    rewrite Hsz.
    pose (g := fun i => IntUtils.le_decode (take 4 (drop (Z.to_nat (i * 4)) rawKey))).
    pose proof (for_each_fill (fun i => IntUtils.LeBytesTo32 rawKey (i *% 4)) g
                  (Z.to_nat keySize) 0 [] (resize_to 0 (SHX.m_expKey s1) keySize)) as F.
    rewrite Z2Nat.id in F by lia. cbn [app] in F.
    rewrite F; clear F.
    - rewrite obind_Returned. reflexivity.
    - reflexivity.
    - unfold size in Hsz. lia.
    - intros i Hi. rewrite (wrap64_small (i * 4)) by lia.
      apply LeBytesTo32_in; lia. }
  destruct (size Key >? blk); rewrite obind_Returned.
  - apply (Hfill (SHX.set_kdfKeySize s blk)). reflexivity.
  - apply (Hfill s). reflexivity.
Qed.

Lemma shx_legal_sizes (d : Digests.t) (r : Z) (s : SHX.t) (n : Z) :
  shx_inv d r s -> Contains (SHX.m_legalKeySizes s) n = true ->
  0 < n <= 256
  /\ (d = Digests.None -> n = 16 \/ n = 24 \/ n = 32 \/ n = 64)
  /\ (d <> Digests.None ->
      n = DigestFromName.GetDigestSize d \/ n = DigestFromName.GetBlockSize d
      \/ n = 2 * DigestFromName.GetBlockSize d).
Proof.
  intros (_ & _ & El & _) Hc. rewrite El in Hc.
  apply Contains_In in Hc as (e & Hin & <-).
  destruct d; vm_compute in Hin.
  - destruct Hin as [<- | [<- | [<- | [<- | []]]]]; cbn;
      (split; [lia|]); (split; [intros _; lia | intros C; now contradiction C]).
  - destruct Hin as [<- | [<- | [<- | []]]]; cbn;
      (split; [lia|]); (split; [discriminate | intros _; lia]).
  - destruct Hin as [<- | [<- | [<- | []]]]; cbn;
      (split; [lia|]); (split; [discriminate | intros _; lia]).
Qed.

Lemma SHX_state_eq (a b : SHX.t) :
  SHX.m_cprKeySize a = SHX.m_cprKeySize b -> SHX.m_expKey a = SHX.m_expKey b ->
  SHX.m_kdfEngineType a = SHX.m_kdfEngineType b -> SHX.m_kdfInfo a = SHX.m_kdfInfo b ->
  SHX.m_kdfInfoMax a = SHX.m_kdfInfoMax b -> SHX.m_kdfKeySize a = SHX.m_kdfKeySize b ->
  SHX.m_isEncryption a = SHX.m_isEncryption b ->
  SHX.m_isInitialized a = SHX.m_isInitialized b ->
  SHX.m_legalKeySizes a = SHX.m_legalKeySizes b ->
  SHX.m_legalRounds a = SHX.m_legalRounds b -> SHX.m_rndCount a = SHX.m_rndCount b ->
  a = b.
Proof. destruct a, b. cbn. intros. subst. reflexivity. Qed.

Ltac shx_fields :=
  cbn [SHX.m_cprKeySize SHX.m_expKey SHX.m_kdfEngineType SHX.m_kdfInfo SHX.m_kdfInfoMax
       SHX.m_kdfKeySize SHX.m_isEncryption SHX.m_isInitialized SHX.m_legalKeySizes
       SHX.m_legalRounds SHX.m_rndCount
       SHX.set_cprKeySize SHX.set_expKey SHX.set_kdfInfo SHX.set_kdfInfoMax
       SHX.set_kdfKeySize SHX.set_isEncryption SHX.set_isInitialized
       SHX.set_legalKeySizes SHX.set_legalRounds SHX.set_rndCount].

Section Reached.
Context `{HKDF.Generator}.

(** Initialize on any state of an instance, for a key of a legal size and,
    with a digest, an info within the limit. *)
Lemma Initialize_reached (d : Digests.t) (r : Z) (s : SHX.t) (enc : bool)
    (kp : ISymmetricKey) :
  shx_inv d r s ->
  Contains (SHX.m_legalKeySizes s) (size (Key kp)) = true ->
  (d <> Digests.None -> size (Info kp) <= SHX.m_kdfInfoMax s) ->
  SHX.Initialize s enc kp = Returned (initialized_as s enc kp).
Proof.
  intros Hinv Hlegal Hinfo.
  destruct (shx_legal_sizes d r s _ Hinv Hlegal) as (Hkb & Hstd & _).
  destruct Hinv as ((Hr & Hr8) & Ed & El & Elr & Emax & Ern).
  unfold SHX.Initialize. rewrite Hlegal. cbn [negb].
  rewrite (wrap64_small (size (Key kp) * 8)) by lia.
  set (s1 := if size (Info kp) >? 0 then SHX.set_kdfInfo s (Info kp) else s).
  set (s2 := SHX.set_cprKeySize (SHX.set_isEncryption s1 enc) (size (Key kp) * 8)).
  assert (F2 : SHX.m_kdfEngineType s2 = d /\ SHX.m_rndCount s2 = SHX.m_rndCount s
               /\ SHX.m_kdfInfo s2
                  = (if size (Info kp) >? 0 then Info kp else SHX.m_kdfInfo s)).
  { unfold s2, s1. destruct (size (Info kp) >? 0); cbn; auto. }
  destruct F2 as (F2t & F2r & F2i).
  unfold SHX.ExpandKey. rewrite F2t, Ed.
  destruct (Digests.eqb d Digests.None) eqn:Eb.
  - assert (Hd : d = Digests.None) by (destruct d; (reflexivity || discriminate)).
    cbn [negb andb].
    destruct (StandardExpand_spec s2 (Key kp) (Z.to_nat (size (Key kp) / 4)))
      as (s' & Wk & E & _).
    { destruct (Hstd Hd) as [-> | [-> | [-> | ->]]]; reflexivity. }
    { destruct (Hstd Hd) as [Hs | [Hs | [Hs | Hs]]]; rewrite Hs;
        [left; vm_compute; lia .. | right; reflexivity]. }
    rewrite E, obind_Returned. apply StandardExpand_key in E. rewrite E.
    f_equal. unfold initialized_as. cbv zeta. rewrite Ed, Eb. cbn [negb andb].
    unfold s2, s1.
    apply SHX_state_eq; destruct (size (Info kp) >? 0); shx_fields;
      rewrite ?Ed; reflexivity.
  - assert (Hd : d <> Digests.None) by (intros ->; discriminate).
    cbn [negb andb].
    destruct (Z.gtb_spec (size (Info kp)) (SHX.m_kdfInfoMax s)) as [C|_];
      [specialize (Hinfo Hd); lia|].
    destruct (rounds_octets r Hr Hr8) as (m & Em & Hm).
    assert (Hblk : 0 < DigestFromName.GetBlockSize d) by (destruct d; cbn; (lia || congruence)).
    rewrite (SecureExpand_words s2 (Key kp) m);
      [| rewrite F2r, (Ern Hd); exact Em | exact Hm | rewrite F2t; exact Hblk | lia].
    rewrite obind_Returned. rewrite F2t, F2r, F2i.
    f_equal. unfold initialized_as. cbv zeta. rewrite Ed, Eb. cbn [negb andb].
    unfold s2, s1.
    apply SHX_state_eq;
      destruct (size (Info kp) >? 0), (size (Key kp) >? DigestFromName.GetBlockSize d);
      shx_fields; rewrite ?Ed; reflexivity.
Qed.

Lemma shx_inv_initialized_as (d : Digests.t) (r : Z) (s : SHX.t) (enc : bool)
    (kp : ISymmetricKey) :
  shx_inv d r s -> shx_inv d r (initialized_as s enc kp).
Proof.
  intros (Hr & Ed & El & Elr & Emax & Ern). unfold shx_inv, initialized_as.
  cbn [SHX.m_kdfEngineType SHX.m_legalKeySizes SHX.m_legalRounds SHX.m_kdfInfoMax
       SHX.m_rndCount].
  repeat split; try assumption; try apply Hr.
  intros Hd. rewrite Ed.
  destruct d; [now contradiction Hd | |]; cbn [Digests.eqb]; auto.
Qed.

Lemma Initialize_returned (d : Digests.t) (r : Z) (s : SHX.t) (enc : bool)
    (kp : ISymmetricKey) (s' : SHX.t) :
  shx_inv d r s -> SHX.Initialize s enc kp = Returned s' ->
  Contains (SHX.m_legalKeySizes s) (size (Key kp)) = true
  /\ (d <> Digests.None -> size (Info kp) <= SHX.m_kdfInfoMax s)
  /\ s' = initialized_as s enc kp.
Proof.
  intros Hinv E.
  assert (Hc : Contains (SHX.m_legalKeySizes s) (size (Key kp)) = true).
  { unfold SHX.Initialize in E.
    destruct (Contains _ _); [reflexivity | discriminate E]. }
  assert (Hi : d <> Digests.None -> size (Info kp) <= SHX.m_kdfInfoMax s).
  { intros Hd. unfold SHX.Initialize in E. rewrite Hc in E. cbn [negb] in E.
    destruct Hinv as (_ & Ed & _). rewrite Ed in E.
    destruct d; [now contradiction Hd | |]; cbn [Digests.eqb negb andb] in E;
      destruct (Z.gtb_spec (size (Info kp)) (SHX.m_kdfInfoMax s));
      (lia || discriminate E). }
  split; [exact Hc|]. split; [exact Hi|].
  rewrite (Initialize_reached d r s enc kp Hinv Hc Hi) in E. now injection E.
Qed.

Lemma shx_reachable_inv (d : Digests.t) (r : Z) (s : SHX.t) :
  shx_reachable d r s -> shx_inv d r s.
Proof.
  induction 1 as [s E|s enc kp s' _ IH E].
  - apply new_is_constructed in E as (-> & Hr & Hm). now apply shx_inv_constructed.
  - destruct (Initialize_returned d r s enc kp s' IH E) as (_ & _ & ->).
    now apply shx_inv_initialized_as.
Qed.

End Reached.

(** ** SHX: the key of every initialised instance *)

Lemma standard_key_for (Key : list byte) :
  size Key = 16 \/ size Key = 24 \/ size Key = 32 \/ size Key = 64 ->
  key_for (if size Key =? 64 then 4%nat else 3%nat) (standard_key Key).
Proof.
  intros Hs.
  destruct (StandardExpand_spec (constructed Digests.None 32) Key
              (Z.to_nat (size Key / 4))) as (s' & Wk & E & _ & HK & _).
  { destruct Hs as [-> | [-> | [-> | ->]]]; reflexivity. }
  { destruct Hs as [Hs | [Hs | [Hs | Hs]]]; rewrite Hs;
      [left; vm_compute; lia .. | right; reflexivity]. }
  cbv zeta in HK. unfold standard_key. rewrite E. exact HK.
Qed.

Lemma hkdf_words_size `{HKDF.Generator} (d : Digests.t) (gen : HKDF.init) (r : Z) :
  0 <= r -> size (hkdf_words d gen r) = 4 * (r + 1).
Proof. intros Hr. unfold hkdf_words, size. rewrite length_map, length_seqZ. lia. Qed.

Lemma hkdf_words_word32 `{HKDF.Generator} (d : Digests.t) (gen : HKDF.init) (r : Z) :
  0 <= r -> Forall word32 (hkdf_words d gen r).
Proof.
  intros Hr. unfold hkdf_words. cbv zeta. apply Forall_map, Forall_seqZ. intros i Hi.
  apply le_decode_word32.
  rewrite length_take, length_drop, Generate_length, length_replicate. lia.
Qed.

Lemma hkdf_key_for `{HKDF.Generator} (d : Digests.t) (gen : HKDF.init) (m : nat) :
  (m < 100)%nat -> key_for m (hkdf_words d gen (8 * (Z.of_nat m + 1))).
Proof.
  intros Hm. unfold key_for.
  rewrite hkdf_words_size by lia. split; [lia|]. split; [lia|].
  apply hkdf_words_word32. lia.
Qed.

Section Keys.
Context `{HKDF.Generator}.

Lemma initialized_key (d : Digests.t) (r : Z) (s : SHX.t) (enc : bool)
    (kp : ISymmetricKey) :
  shx_inv d r s ->
  Contains (SHX.m_legalKeySizes s) (size (Key kp)) = true ->
  exists m : nat,
    key_for m (SHX.m_expKey (initialized_as s enc kp))
    /\ SHX.m_rndCount (initialized_as s enc kp) = 8 * (Z.of_nat m + 1).
Proof.
  intros Hinv Hlegal.
  destruct (shx_legal_sizes d r s _ Hinv Hlegal) as (Hkb & Hstd & _).
  destruct Hinv as ((Hr & Hr8) & Ed & El & Elr & Emax & Ern).
  unfold initialized_as. cbv zeta. shx_fields. rewrite Ed.
  destruct (Digests.eqb d Digests.None) eqn:Eb.
  - assert (Hd : d = Digests.None) by (destruct d; (reflexivity || discriminate)).
    exists (if size (Key kp) =? 64 then 4%nat else 3%nat).
    split; [apply standard_key_for; auto|].
    destruct (size (Key kp) =? 64); reflexivity.
  - assert (Hd : d <> Digests.None) by (intros ->; discriminate).
    destruct (rounds_octets r Hr Hr8) as (m & Em & Hm).
    exists m. rewrite (Ern Hd), Em. split; [now apply hkdf_key_for | reflexivity].
Qed.

Lemma reachable_key (d : Digests.t) (r : Z) (s : SHX.t) :
  shx_reachable d r s -> SHX.IsInitialized s = true ->
  exists m : nat, key_for m (SHX.m_expKey s) /\ SHX.Rounds s = 8 * (Z.of_nat m + 1).
Proof.
  intros Hreach Hi. destruct Hreach as [s E|s enc kp s' Hs E].
  - apply new_fields in E as (_ & _ & _ & Fi). unfold SHX.IsInitialized in Hi. congruence.
  - apply shx_reachable_inv in Hs.
    destruct (Initialize_returned d r s enc kp s' Hs E) as (Hc & _ & ->).
    apply (initialized_key d r s enc kp Hs Hc).
Qed.

End Keys.

(** ** SHX: blocks in buffers *)

Lemma splice_take_before {A : Type} (v : list A) (off : nat) (xs : list A) :
  (off <= length v)%nat -> take off (splice v off xs) = take off v.
Proof.
  intros H. unfold splice. rewrite take_app_le by (rewrite length_take; lia).
  rewrite take_take. f_equal. lia.
Qed.

Lemma splice_drop_after {A : Type} (v : list A) (off : nat) (xs : list A) :
  (off <= length v)%nat ->
  drop (off + length xs) (splice v off xs) = drop (off + length xs) v.
Proof.
  intros H. unfold splice.
  rewrite app_assoc, drop_app_length'; [reflexivity|].
  rewrite length_app, length_take. lia.
Qed.

Lemma EncryptBlock_spec (s : SHX.t) (m : nat) (P Out : list byte) :
  key_for m (SHX.m_expKey s) -> length P = 16%nat -> length Out = 16%nat ->
  SHX.EncryptBlock s P Out = Returned (enc_block m (SHX.m_expKey s) P).
Proof.
  intros HK HP HO. unfold SHX.EncryptBlock.
  rewrite (Encrypt128_spec m) by (assumption || (unfold size; rewrite ?HP, ?HO; lia)).
  f_equal. change (Z.to_nat 0) with 0%nat. rewrite drop_0, take_ge by lia.
  apply splice_all. rewrite enc_block_length. congruence.
Qed.

Lemma DecryptBlock_spec (s : SHX.t) (m : nat) (C Out : list byte) :
  key_for m (SHX.m_expKey s) -> length C = 16%nat -> length Out = 16%nat ->
  SHX.DecryptBlock s C Out = Returned (dec_block m (SHX.m_expKey s) C).
Proof.
  intros HK HC HO. unfold SHX.DecryptBlock.
  rewrite (Decrypt128_spec m) by (assumption || (unfold size; rewrite ?HC, ?HO; lia)).
  f_equal. change (Z.to_nat 0) with 0%nat. rewrite drop_0, take_ge by lia.
  apply splice_all. rewrite dec_block_length. congruence.
Qed.

(** X3: on every initialised instance, whatever its direction, EncryptBlock is
    a bijection of the 16-byte blocks and DecryptBlock is its inverse:
    every block is the encryption of the block DecryptBlock returns for
    it, and of no other. *)
Theorem SHX_EncryptBlock_bijective {G : HKDF.Generator} (d : Digests.t) (r : Z)
    (s : SHX.t) (C Out1 Out2 : list byte) :
  shx_reachable d r s -> SHX.IsInitialized s = true ->
  length C = 16%nat -> length Out1 = 16%nat -> length Out2 = 16%nat ->
  exists P : list byte,
    length P = 16%nat
    /\ SHX.DecryptBlock s C Out1 = Returned P
    /\ SHX.EncryptBlock s P Out2 = Returned C
    /\ (forall P', length P' = 16%nat -> SHX.EncryptBlock s P' Out2 = Returned C ->
                   P' = P).
Proof.
  intros Hreach Hinit HC H1 H2.
  destruct (reachable_key d r s Hreach Hinit) as (m & HK & _).
  exists (dec_block m (SHX.m_expKey s) C).
  split; [apply dec_block_length|].
  split; [now apply DecryptBlock_spec|].
  split.
  - rewrite (EncryptBlock_spec s m) by (assumption || apply dec_block_length).
    f_equal. now apply enc_dec_block.
  - intros P' HP' E. rewrite (EncryptBlock_spec s m) in E by assumption.
    injection E as <-. symmetry. now apply dec_enc_block.
Qed.

Lemma standard_instance_reachable (enc : bool) (n : nat) :
  Contains (SHX.LegalKeySizes (constructed Digests.None 32)) (size (Key (sample_key n)))
  = true ->
  shx_reachable (H := counting_stream) Digests.None 32 (initialized enc n)
  /\ SHX.IsInitialized (initialized enc n) = true.
Proof.
  intros Hc.
  assert (Hinv : shx_inv Digests.None 32 (constructed Digests.None 32))
    by (apply shx_inv_constructed; [lia | reflexivity]).
  pose proof (Initialize_reached (H := counting_stream) Digests.None 32
                (constructed Digests.None 32) enc (sample_key n) Hinv Hc
                ltac:(intros C; now contradiction C)) as E.
  unfold initialized. rewrite E. split; [|reflexivity].
  eapply shx_initialized; [|exact E]. apply shx_constructed. reflexivity.
Qed.

Lemma SHX_EncryptBlock_bijective_witness :
  exists P : list byte,
    length P = 16%nat
    /\ SHX.DecryptBlock (initialized false 32) sample_block (replicate 16 x00) = Returned P
    /\ SHX.EncryptBlock (initialized false 32) P (replicate 16 x00)
       = Returned sample_block
    /\ (forall P', length P' = 16%nat ->
                   SHX.EncryptBlock (initialized false 32) P' (replicate 16 x00)
                   = Returned sample_block -> P' = P).
Proof.
  destruct (standard_instance_reachable false 32 eq_refl) as [Hr Hi].
  exact (SHX_EncryptBlock_bijective (G := counting_stream) Digests.None 32
           (initialized false 32) sample_block (replicate 16 x00) (replicate 16 x00)
           Hr Hi eq_refl eq_refl eq_refl).
Defined.

(** X4: EncryptBlock with offsets on an initialised instance writes the 16
    bytes at OutOffset and nothing else, and DecryptBlock with offsets on
    what it wrote gives the 16 input bytes back, wherever it is told to
    put them, again writing nothing else. *)
Theorem SHX_block_offsets_round_trip {G : HKDF.Generator} (d : Digests.t) (r : Z)
    (s : SHX.t) (Input : list byte) (InOffset : Z) (Output : list byte) (OutOffset : Z) :
  shx_reachable d r s -> SHX.IsInitialized s = true ->
  0 <= InOffset -> InOffset + 16 <= size Input -> size Input < 2 ^ 64 ->
  0 <= OutOffset -> OutOffset + 16 <= size Output -> size Output < 2 ^ 64 ->
  exists Out' : list byte,
    SHX.EncryptBlockAt s Input InOffset Output OutOffset = Returned Out'
    /\ size Out' = size Output
    /\ take (Z.to_nat OutOffset) Out' = take (Z.to_nat OutOffset) Output
    /\ drop (Z.to_nat OutOffset + 16) Out' = drop (Z.to_nat OutOffset + 16) Output
    /\ (SHX.IsEncryption s = true ->
        SHX.Transform s Input InOffset Output OutOffset = Returned Out')
    /\ (forall (Buf : list byte) (BufOffset : Z),
           0 <= BufOffset -> BufOffset + 16 <= size Buf -> size Buf < 2 ^ 64 ->
           exists Buf' : list byte,
             SHX.DecryptBlockAt s Out' OutOffset Buf BufOffset = Returned Buf'
             /\ take 16 (drop (Z.to_nat BufOffset) Buf')
                = take 16 (drop (Z.to_nat InOffset) Input)
             /\ size Buf' = size Buf
             /\ take (Z.to_nat BufOffset) Buf' = take (Z.to_nat BufOffset) Buf
             /\ drop (Z.to_nat BufOffset + 16) Buf'
                = drop (Z.to_nat BufOffset + 16) Buf).
Proof.
  intros Hreach Hinit Hi0 Hi1 Hi2 Ho0 Ho1 Ho2.
  destruct (reachable_key d r s Hreach Hinit) as (m & HK & _).
  set (K := SHX.m_expKey s) in *.
  set (P := take 16 (drop (Z.to_nat InOffset) Input)).
  assert (HP : length P = 16%nat)
    by (unfold P; rewrite length_take, length_drop; unfold size in *; lia).
  pose proof (enc_block_length m K P) as HC.
  assert (E : SHX.Encrypt128 K Input InOffset Output OutOffset
              = Returned (splice Output (Z.to_nat OutOffset) (enc_block m K P)))
    by (now apply Encrypt128_spec).
  exists (splice Output (Z.to_nat OutOffset) (enc_block m K P)).
  assert (Hsz : size (splice Output (Z.to_nat OutOffset) (enc_block m K P)) = size Output)
    by (apply size_splice; unfold size in *; lia).
  split; [exact E|]. split; [exact Hsz|].
  split; [apply splice_take_before; unfold size in *; lia|].
  split; [rewrite <- HC; apply splice_drop_after; unfold size in *; lia|].
  split.
  { intros He. unfold SHX.Transform, SHX.IsEncryption in *. rewrite He. exact E. }
  intros Buf bo Hb0 Hb1 Hb2.
  pose proof (dec_block_length m K (enc_block m K P)) as HD.
  exists (splice Buf (Z.to_nat bo) (dec_block m K (enc_block m K P))).
  split.
  { unfold SHX.DecryptBlockAt. fold K.
    rewrite (Decrypt128_spec m) by (assumption || rewrite ?Hsz; lia).
    do 2 f_equal. f_equal. rewrite <- HC at 1. apply splice_read.
    unfold size in *. lia. }
  split.
  { rewrite <- HD at 1. rewrite splice_read by (unfold size in *; lia).
    now apply dec_enc_block. }
  split; [apply size_splice; unfold size in *; lia|].
  split; [apply splice_take_before; unfold size in *; lia|].
  rewrite <- HD. apply splice_drop_after. unfold size in *. lia.
Qed.

Lemma SHX_block_offsets_round_trip_witness :
  exists Out' : list byte,
    SHX.EncryptBlockAt (initialized true 32) sample_input 7 (replicate 40 x00) 20
    = Returned Out'
    /\ size Out' = size (replicate 40 x00)
    /\ take (Z.to_nat 20) Out' = take (Z.to_nat 20) (replicate 40 x00)
    /\ drop (Z.to_nat 20 + 16) Out' = drop (Z.to_nat 20 + 16) (replicate 40 x00)
    /\ (SHX.IsEncryption (initialized true 32) = true ->
        SHX.Transform (initialized true 32) sample_input 7 (replicate 40 x00) 20
        = Returned Out')
    /\ (forall (Buf : list byte) (BufOffset : Z),
           0 <= BufOffset -> BufOffset + 16 <= size Buf -> size Buf < 2 ^ 64 ->
           exists Buf' : list byte,
             SHX.DecryptBlockAt (initialized true 32) Out' 20 Buf BufOffset
             = Returned Buf'
             /\ take 16 (drop (Z.to_nat BufOffset) Buf')
                = take 16 (drop (Z.to_nat 7) sample_input)
             /\ size Buf' = size Buf
             /\ take (Z.to_nat BufOffset) Buf' = take (Z.to_nat BufOffset) Buf
             /\ drop (Z.to_nat BufOffset + 16) Buf'
                = drop (Z.to_nat BufOffset + 16) Buf).
Proof.
  destruct (standard_instance_reachable true 32 eq_refl) as [Hr Hi].
  apply (SHX_block_offsets_round_trip (G := counting_stream) Digests.None 32
           (initialized true 32) sample_input 7 (replicate 40 x00) 20 Hr Hi);
    vm_compute; (reflexivity || congruence).
Defined.

(** ** SHX: the bulk transforms of 4 and 8 blocks *)

Lemma Encrypt512_blocks (cfg : Simd) (m : nat) (K : list Z) (Input : list byte) (io : Z)
    (Output : list byte) (oo : Z) :
  key_for m K ->
  0 <= io -> io + 64 <= size Input -> size Input < 2 ^ 64 ->
  0 <= oo -> oo + 64 <= size Output -> size Output < 2 ^ 64 ->
  SHX.Encrypt512 cfg K Input io Output oo
  = Returned (splice Output (Z.to_nat oo) (blocks (enc_block m K) Input (Z.to_nat io) 4)).
Proof.
  intros HK Hi0 Hi1 Hi2 Ho0 Ho1 Ho2.
  pose proof (fun I a O b => Encrypt128_spec m K I a O b HK) as Hf.
  pose proof (enc_block_length m K) as Hg.
  unfold SHX.Encrypt512, SHX.SHXEncryptW.
  destruct (negb (AVX512 cfg) && negb (AVX2 cfg) && AVX cfg).
  - apply (wide_blocks _ _ Hf Hg SHX.UInt128); assumption.
  - apply (calls_single_blocks _ _ Hf Hg 4); (reflexivity || assumption).
Qed.

Lemma Decrypt512_blocks (cfg : Simd) (m : nat) (K : list Z) (Input : list byte) (io : Z)
    (Output : list byte) (oo : Z) :
  key_for m K ->
  0 <= io -> io + 64 <= size Input -> size Input < 2 ^ 64 ->
  0 <= oo -> oo + 64 <= size Output -> size Output < 2 ^ 64 ->
  SHX.Decrypt512 cfg K Input io Output oo
  = Returned (splice Output (Z.to_nat oo) (blocks (dec_block m K) Input (Z.to_nat io) 4)).
Proof.
  intros HK Hi0 Hi1 Hi2 Ho0 Ho1 Ho2.
  pose proof (fun I a O b => Decrypt128_spec m K I a O b HK) as Hf.
  pose proof (dec_block_length m K) as Hg.
  unfold SHX.Decrypt512, SHX.SHXDecryptW.
  destruct (negb (AVX512 cfg) && negb (AVX2 cfg) && AVX cfg).
  - apply (wide_blocks _ _ Hf Hg SHX.UInt128); assumption.
  - apply (calls_single_blocks _ _ Hf Hg 4); (reflexivity || assumption).
Qed.

Lemma Encrypt1024_blocks (cfg : Simd) (m : nat) (K : list Z) (Input : list byte) (io : Z)
    (Output : list byte) (oo : Z) :
  key_for m K ->
  0 <= io -> io + 128 <= size Input -> size Input < 2 ^ 64 ->
  0 <= oo -> oo + 128 <= size Output -> size Output < 2 ^ 64 ->
  SHX.Encrypt1024 cfg K Input io Output oo
  = Returned (splice Output (Z.to_nat oo) (blocks (enc_block m K) Input (Z.to_nat io) 8)).
Proof.
  intros HK Hi0 Hi1 Hi2 Ho0 Ho1 Ho2.
  pose proof (fun I a O b => Encrypt128_spec m K I a O b HK) as Hf.
  pose proof (enc_block_length m K) as Hg.
  unfold SHX.Encrypt1024, SHX.SHXEncryptW.
  destruct (negb (AVX512 cfg) && AVX2 cfg).
  - apply (wide_blocks _ _ Hf Hg SHX.UInt256); assumption.
  - destruct (negb (AVX512 cfg) && negb (AVX2 cfg) && AVX cfg).
    + apply (calls_wide_blocks _ _ Hf Hg SHX.UInt128 2); (reflexivity || assumption).
    + apply (calls_single_blocks _ _ Hf Hg 8); (reflexivity || assumption).
Qed.

Lemma Decrypt1024_blocks (cfg : Simd) (m : nat) (K : list Z) (Input : list byte) (io : Z)
    (Output : list byte) (oo : Z) :
  key_for m K ->
  0 <= io -> io + 128 <= size Input -> size Input < 2 ^ 64 ->
  0 <= oo -> oo + 128 <= size Output -> size Output < 2 ^ 64 ->
  SHX.Decrypt1024 cfg K Input io Output oo
  = Returned (splice Output (Z.to_nat oo) (blocks (dec_block m K) Input (Z.to_nat io) 8)).
Proof.
  intros HK Hi0 Hi1 Hi2 Ho0 Ho1 Ho2.
  pose proof (fun I a O b => Decrypt128_spec m K I a O b HK) as Hf.
  pose proof (dec_block_length m K) as Hg.
  unfold SHX.Decrypt1024, SHX.SHXDecryptW.
  destruct (negb (AVX512 cfg) && AVX2 cfg).
  - apply (wide_blocks _ _ Hf Hg SHX.UInt256); assumption.
  - destruct (negb (AVX512 cfg) && negb (AVX2 cfg) && AVX cfg).
    + apply (calls_wide_blocks _ _ Hf Hg SHX.UInt128 2); (reflexivity || assumption).
    + apply (calls_single_blocks _ _ Hf Hg 8); (reflexivity || assumption).
Qed.

(** X5: Transform512 on an initialised instance returns, whatever the SIMD
    build, what the four calls of Transform on the consecutive 16-byte
    blocks return, each block transformed on its own; it writes 64 bytes
    at OutOffset and nothing else. *)
Theorem SHX_Transform512_blockwise {G : HKDF.Generator} (cfg : Simd) (d : Digests.t)
    (r : Z) (s : SHX.t) (Input : list byte) (InOffset : Z)
    (Output : list byte) (OutOffset : Z) :
  shx_reachable d r s -> SHX.IsInitialized s = true ->
  0 <= InOffset -> InOffset + 64 <= size Input -> size Input < 2 ^ 64 ->
  0 <= OutOffset -> OutOffset + 64 <= size Output -> size Output < 2 ^ 64 ->
  exists Out' : list byte,
    SHX.Transform512 cfg s Input InOffset Output OutOffset = Returned Out'
    /\ SHX.calls (SHX.Transform s) [0; 16; 32; 48] Input InOffset Output OutOffset
       = Returned Out'
    /\ SHX.Transform_blockwise s 4 Input InOffset Output OutOffset = Returned Out'
    /\ size Out' = size Output
    /\ take (Z.to_nat OutOffset) Out' = take (Z.to_nat OutOffset) Output
    /\ drop (Z.to_nat OutOffset + 64) Out' = drop (Z.to_nat OutOffset + 64) Output.
Proof.
  intros Hreach Hinit Hi0 Hi1 Hi2 Ho0 Ho1 Ho2.
  destruct (reachable_key d r s Hreach Hinit) as (m & HK & _).
  pose proof (fun I a O b => Transform_spec s m I a O b HK) as Hf.
  pose proof (tfm_block_length s m) as Hg.
  assert (Hl : length (blocks (tfm_block s m) Input (Z.to_nat InOffset) 4) = 64%nat)
    by (rewrite blocks_length by exact Hg; reflexivity).
  exists (splice Output (Z.to_nat OutOffset)
            (blocks (tfm_block s m) Input (Z.to_nat InOffset) 4)).
  split; [|split; [|split; [|split; [|split]]]].
  - unfold SHX.Transform512, tfm_block.
    destruct (SHX.m_isEncryption s);
      [now apply Encrypt512_blocks | now apply Decrypt512_blocks].
  - apply (calls_single_blocks _ _ Hf Hg 4); (reflexivity || assumption).
  - unfold SHX.Transform_blockwise.
    apply (wide_blocks _ _ Hf Hg 4); assumption.
  - apply size_splice. unfold size in *. rewrite Hl. lia.
  - apply splice_take_before. unfold size in *. lia.
  - rewrite <- Hl. apply splice_drop_after. unfold size in *. lia.
Qed.

Lemma SHX_Transform512_blockwise_witness :
  let cfg := {| AVX512 := false; AVX2 := false; AVX := true |} in
  let s := initialized false 24 in
  exists Out' : list byte,
    SHX.Transform512 cfg s sample_input 3 (replicate 100 x00) 9 = Returned Out'
    /\ SHX.calls (SHX.Transform s) [0; 16; 32; 48] sample_input 3 (replicate 100 x00) 9
       = Returned Out'
    /\ SHX.Transform_blockwise s 4 sample_input 3 (replicate 100 x00) 9 = Returned Out'
    /\ size Out' = size (replicate 100 x00)
    /\ take (Z.to_nat 9) Out' = take (Z.to_nat 9) (replicate 100 x00)
    /\ drop (Z.to_nat 9 + 64) Out' = drop (Z.to_nat 9 + 64) (replicate 100 x00).
Proof.
  cbv zeta. destruct (standard_instance_reachable false 24 eq_refl) as [Hr Hi].
  apply (SHX_Transform512_blockwise (G := counting_stream)
           {| AVX512 := false; AVX2 := false; AVX := true |} Digests.None 32
           (initialized false 24) sample_input 3 (replicate 100 x00) 9 Hr Hi);
    vm_compute; (reflexivity || congruence).
Defined.

(** X6: Transform1024 on an initialised instance returns, whatever the SIMD
    build, what the eight calls of Transform on the consecutive 16-byte
    blocks return, each block transformed on its own; it writes 128 bytes
    at OutOffset and nothing else. *)
Theorem SHX_Transform1024_blockwise {G : HKDF.Generator} (cfg : Simd) (d : Digests.t)
    (r : Z) (s : SHX.t) (Input : list byte) (InOffset : Z)
    (Output : list byte) (OutOffset : Z) :
  shx_reachable d r s -> SHX.IsInitialized s = true ->
  0 <= InOffset -> InOffset + 128 <= size Input -> size Input < 2 ^ 64 ->
  0 <= OutOffset -> OutOffset + 128 <= size Output -> size Output < 2 ^ 64 ->
  exists Out' : list byte,
    SHX.Transform1024 cfg s Input InOffset Output OutOffset = Returned Out'
    /\ SHX.calls (SHX.Transform s) [0; 16; 32; 48; 64; 80; 96; 112]
         Input InOffset Output OutOffset = Returned Out'
    /\ SHX.Transform_blockwise s 8 Input InOffset Output OutOffset = Returned Out'
    /\ size Out' = size Output
    /\ take (Z.to_nat OutOffset) Out' = take (Z.to_nat OutOffset) Output
    /\ drop (Z.to_nat OutOffset + 128) Out' = drop (Z.to_nat OutOffset + 128) Output.
Proof.
  intros Hreach Hinit Hi0 Hi1 Hi2 Ho0 Ho1 Ho2.
  destruct (reachable_key d r s Hreach Hinit) as (m & HK & _).
  pose proof (fun I a O b => Transform_spec s m I a O b HK) as Hf.
  pose proof (tfm_block_length s m) as Hg.
  assert (Hl : length (blocks (tfm_block s m) Input (Z.to_nat InOffset) 8) = 128%nat)
    by (rewrite blocks_length by exact Hg; reflexivity).
  exists (splice Output (Z.to_nat OutOffset)
            (blocks (tfm_block s m) Input (Z.to_nat InOffset) 8)).
  split; [|split; [|split; [|split; [|split]]]].
  - unfold SHX.Transform1024, tfm_block.
    destruct (SHX.m_isEncryption s);
      [now apply Encrypt1024_blocks | now apply Decrypt1024_blocks].
  - apply (calls_single_blocks _ _ Hf Hg 8); (reflexivity || assumption).
  - unfold SHX.Transform_blockwise.
    apply (wide_blocks _ _ Hf Hg 8); assumption.
  - apply size_splice. unfold size in *. rewrite Hl. lia.
  - apply splice_take_before. unfold size in *. lia.
  - rewrite <- Hl. apply splice_drop_after. unfold size in *. lia.
Qed.

Lemma SHX_Transform1024_blockwise_witness :
  let cfg := {| AVX512 := false; AVX2 := true; AVX := true |} in
  let s := initialized true 64 in
  exists Out' : list byte,
    SHX.Transform1024 cfg s sample_input 5 (replicate 150 x00) 11 = Returned Out'
    /\ SHX.calls (SHX.Transform s) [0; 16; 32; 48; 64; 80; 96; 112]
         sample_input 5 (replicate 150 x00) 11 = Returned Out'
    /\ SHX.Transform_blockwise s 8 sample_input 5 (replicate 150 x00) 11 = Returned Out'
    /\ size Out' = size (replicate 150 x00)
    /\ take (Z.to_nat 11) Out' = take (Z.to_nat 11) (replicate 150 x00)
    /\ drop (Z.to_nat 11 + 128) Out' = drop (Z.to_nat 11 + 128) (replicate 150 x00).
Proof.
  cbv zeta. destruct (standard_instance_reachable true 64 eq_refl) as [Hr Hi].
  apply (SHX_Transform1024_blockwise (G := counting_stream)
           {| AVX512 := false; AVX2 := true; AVX := true |} Digests.None 32
           (initialized true 64) sample_input 5 (replicate 150 x00) 11 Hr Hi);
    vm_compute; (reflexivity || congruence).
Defined.

(** ** SHX: the constructor and the checks of Initialize *)

(** X7: the constructor accepts the round counts 32, 40, 48, 56 and 64 for
    every digest setting and throws for every other count. The instance
    it returns is not initialised, has an empty expanded key and the
    default distribution code; without a digest its LegalRounds are 32
    and 40 only, although 48, 56 and 64 were accepted. *)
Theorem SHX_constructor_rounds (d : Digests.t) (r : Z) :
  (In r [32; 40; 48; 56; 64] ->
   SHX.new d r = Returned (constructed d r)
   /\ SHX.Rounds (constructed d r) = r
   /\ SHX.KdfEngine (constructed d r) = d
   /\ SHX.IsInitialized (constructed d r) = false
   /\ SHX.m_expKey (constructed d r) = []
   /\ SHX.DistributionCode (constructed d r) = SHX.DEF_DSTINFO
   /\ SHX.LegalRounds (constructed d r)
      = (if Digests.eqb d Digests.None then [32; 40] else [32; 40; 48; 56; 64]))
  /\ (~ In r [32; 40; 48; 56; 64] ->
      SHX.new d r
      = Thrown "SHX:CTor" "Invalid rounds size! Sizes supported are 32, 40, 48, 56, 64.").
Proof.
  split.
  - intros Hin.
    assert (Hr : 32 <= r <= 64 /\ r mod 8 = 0).
    { cbn in Hin. destruct Hin as [<- | [<- | [<- | [<- | [<- | []]]]]];
        split; (lia || reflexivity). }
    split; [apply new_constructed; tauto|].
    destruct d; repeat split; reflexivity.
  - intros Hout. unfold SHX.new, SHX.MAX_ROUNDS, SHX.MIN_ROUNDS.
    destruct (Z.leb_spec r 64); [|reflexivity].
    destruct (Z.geb_spec r 32); [|reflexivity].
    destruct (Z.eqb_spec (r mod 8) 0) as [Hm|]; [|reflexivity].
    exfalso. apply Hout. cbn.
    pose proof (Z.div_mod r 8 ltac:(lia)) as E. rewrite Hm in E. lia.
Qed.

Lemma SHX_constructor_rounds_witness :
  SHX.new Digests.None 48 = Returned (constructed Digests.None 48)
  /\ SHX.LegalRounds (constructed Digests.None 48) = [32; 40]
  /\ SHX.new Digests.SHA256 36
     = Thrown "SHX:CTor" "Invalid rounds size! Sizes supported are 32, 40, 48, 56, 64.".
Proof.
  destruct (SHX_constructor_rounds Digests.None 48) as [Hok _].
  destruct (SHX_constructor_rounds Digests.SHA256 36) as [_ Hbad].
  destruct Hok as (E & _ & _ & _ & _ & _ & EL); [cbn; tauto|].
  split; [exact E|]. split; [exact EL|]. apply Hbad. cbn. intuition lia.
Defined.

Section Checks.
Context `{HKDF.Generator}.

Lemma legal_sizes_list (d : Digests.t) (r : Z) (s : SHX.t) (n : Z) :
  shx_inv d r s ->
  Contains (SHX.m_legalKeySizes s) n = true
  <-> In n (if Digests.eqb d Digests.None then [16; 24; 32; 64]
            else [DigestFromName.GetDigestSize d; DigestFromName.GetBlockSize d;
                  2 * DigestFromName.GetBlockSize d]).
Proof.
  intros (_ & _ & El & _). rewrite El. unfold Contains.
  set (L := SHX.m_legalKeySizes (constructed d r)).
  destruct d; vm_compute in L; subst L;
    cbn [existsb KeySize Digests.eqb In
         DigestFromName.GetDigestSize DigestFromName.GetBlockSize];
    rewrite ?orb_true_iff, ?orb_false_r, ?Z.eqb_eq; intuition lia.
Qed.

End Checks.

(** X8: Initialize, on every state of an instance: a key whose length is not
    in LegalKeySizes is refused with the key size exception, whatever the
    info; with a digest, an info longer than DistributionCodeMax is
    refused with the info size exception; every other call returns, and
    leaves the instance initialised for the direction asked. The legal
    lengths are 16, 24, 32 and 64 bytes without a digest, and the digest
    size, the block size and twice the block size with one. *)
Theorem SHX_Initialize_checks {G : HKDF.Generator} (d : Digests.t) (r : Z) (s : SHX.t)
    (enc : bool) (kp : ISymmetricKey) :
  shx_reachable d r s ->
  (Contains (SHX.LegalKeySizes s) (size (Key kp)) = true
   <-> In (size (Key kp))
          (if Digests.eqb d Digests.None then [16; 24; 32; 64]
           else [DigestFromName.GetDigestSize d; DigestFromName.GetBlockSize d;
                 2 * DigestFromName.GetBlockSize d]))
  /\ (Contains (SHX.LegalKeySizes s) (size (Key kp)) = false ->
      SHX.Initialize s enc kp
      = Thrown "SHX:Initialize"
               "Invalid key size! Key must be one of the LegalKeySizes() in length.")
  /\ (Contains (SHX.LegalKeySizes s) (size (Key kp)) = true ->
      d <> Digests.None -> size (Info kp) > SHX.DistributionCodeMax s ->
      SHX.Initialize s enc kp
      = Thrown "SHX:Initialize"
               "Invalid info size! Info parameter must be no longer than DistributionCodeMax size.")
  /\ (Contains (SHX.LegalKeySizes s) (size (Key kp)) = true ->
      (d <> Digests.None -> size (Info kp) <= SHX.DistributionCodeMax s) ->
      exists s' : SHX.t,
        SHX.Initialize s enc kp = Returned s'
        /\ SHX.IsInitialized s' = true
        /\ SHX.IsEncryption s' = enc
        /\ SHX.LegalKeySizes s' = SHX.LegalKeySizes s
        /\ SHX.DistributionCodeMax s' = SHX.DistributionCodeMax s
        /\ SHX.m_cprKeySize s' = size (Key kp) * 8).
Proof.
  intros Hreach. pose proof (shx_reachable_inv d r s Hreach) as Hinv.
  unfold SHX.LegalKeySizes, SHX.DistributionCodeMax.
  split; [now apply (legal_sizes_list d r)|].
  split; [|split].
  - intros Hc. unfold SHX.Initialize. rewrite Hc. reflexivity.
  - intros Hc Hd Hi. unfold SHX.Initialize. rewrite Hc. cbn [negb].
    destruct Hinv as (_ & Ed & _). rewrite Ed.
    destruct (Z.gtb_spec (size (Info kp)) (SHX.m_kdfInfoMax s)); [|lia].
    destruct d; [now contradiction Hd | reflexivity | reflexivity].
  - intros Hc Hi. exists (initialized_as s enc kp).
    split; [now apply (Initialize_reached d r)|]. repeat split; reflexivity.
Qed.

Lemma SHX_Initialize_checks_witness :
  let s := constructed Digests.SHA256 40 in
  SHX.Initialize (H := counting_stream) s true (sample_key 48)
  = Thrown "SHX:Initialize"
           "Invalid key size! Key must be one of the LegalKeySizes() in length."
  /\ SHX.Initialize (H := counting_stream) s true
       {| Key := Key (sample_key 64); Nonce := []; Info := replicate 55 x01 |}
     = Thrown "SHX:Initialize"
              "Invalid info size! Info parameter must be no longer than DistributionCodeMax size."
  /\ exists s', SHX.Initialize (H := counting_stream) s true
                  {| Key := Key (sample_key 64); Nonce := []; Info := replicate 54 x01 |}
                = Returned s'.
Proof.
  cbv zeta.
  assert (Hr : shx_reachable (H := counting_stream) Digests.SHA256 40
                 (constructed Digests.SHA256 40))
    by (apply shx_constructed; reflexivity).
  split; [|split].
  - apply (SHX_Initialize_checks (G := counting_stream) Digests.SHA256 40
             (constructed Digests.SHA256 40) true (sample_key 48) Hr). reflexivity.
  - apply (SHX_Initialize_checks (G := counting_stream) Digests.SHA256 40
             (constructed Digests.SHA256 40) true
             {| Key := Key (sample_key 64); Nonce := []; Info := replicate 55 x01 |} Hr);
      [reflexivity | discriminate | vm_compute; reflexivity].
  - destruct (SHX_Initialize_checks (G := counting_stream) Digests.SHA256 40
                (constructed Digests.SHA256 40) true
                {| Key := Key (sample_key 64); Nonce := []; Info := replicate 54 x01 |} Hr)
      as (_ & _ & _ & Hok).
    destruct Hok as (s' & E & _); [reflexivity | intros _; vm_compute; congruence |].
    exists s'. exact E.
Defined.

(** ** SHX: what Initialize leaves, call after call *)

(** X9: with a digest, on every state of an instance: Initialize keeps the
    round count of the constructor and fills the expanded key with
    4 * (Rounds + 1) words, word [i] being bytes [4 i .. 4 i + 3] of the
    generator's output, the least significant first. The generator is
    started on the key (split in key and salt when it is longer than the
    digest's block) with the distribution code in force: the info of this
    call, or, when the call has none, the code left by the calls before. *)
Theorem SHX_hkdf_schedule {G : HKDF.Generator} (d : Digests.t) (r : Z) (s : SHX.t)
    (enc : bool) (kp : ISymmetricKey) (s' : SHX.t) :
  d <> Digests.None ->
  shx_reachable d r s ->
  SHX.Initialize s enc kp = Returned s' ->
  SHX.Rounds s' = r
  /\ size (SHX.m_expKey s') = 4 * (r + 1)
  /\ SHX.DistributionCode s'
     = (if size (Info kp) >? 0 then Info kp else SHX.DistributionCode s)
  /\ SHX.m_expKey s' = hkdf_words d (hkdf_start d (SHX.DistributionCode s') (Key kp)) r
  /\ (forall i, 0 <= i < 4 * (r + 1) ->
        word_at (SHX.m_expKey s') i
        = IntUtils.le_decode
            (take 4 (drop (Z.to_nat (4 * i))
               (HKDF.Generate d (hkdf_start d (SHX.DistributionCode s') (Key kp))
                  (replicate (Z.to_nat (16 * (r + 1))) x00))))).
Proof.
  intros Hd Hreach E. pose proof (shx_reachable_inv d r s Hreach) as Hinv.
  destruct (Initialize_returned d r s enc kp s' Hinv E) as (Hc & Hi & ->).
  destruct Hinv as ((Hr & Hr8) & Ed & El & Elr & Emax & Ern).
  assert (Eb : Digests.eqb d Digests.None = false)
    by (destruct d; [now contradiction Hd | reflexivity | reflexivity]).
  unfold SHX.Rounds, SHX.DistributionCode, initialized_as. cbv zeta. shx_fields.
  rewrite Ed, Eb, (Ern Hd).
  split; [reflexivity|]. split; [apply hkdf_words_size; lia|].
  split; [reflexivity|]. split; [reflexivity|].
  intros i Hi'. unfold word_at, hkdf_words. cbv zeta.
  rewrite nth_lookup, list_lookup_fmap.
  rewrite (lookup_seqZ_lt 0 (4 * (r + 1)) (Z.to_nat i)) by lia.
  cbn [fmap option_fmap option_map default].
  replace (Z.to_nat ((0 + Z.of_nat (Z.to_nat i)) * 4)) with (Z.to_nat (4 * i)) by lia.
  reflexivity.
Qed.

Lemma SHX_hkdf_schedule_witness :
  let s := constructed Digests.SHA256 48 in
  let kp := {| Key := Key (sample_key 128); Nonce := []; Info := [x01; x02] |} in
  let s' := initialized_as (H := counting_stream) s false kp in
  SHX.Initialize (H := counting_stream) s false kp = Returned s'
  /\ SHX.Rounds s' = 48
  /\ size (SHX.m_expKey s') = 4 * (48 + 1)
  /\ SHX.DistributionCode s' = [x01; x02]
  /\ SHX.m_expKey s'
     = hkdf_words (H := counting_stream) Digests.SHA256
         (HKDF.InitializeKeySaltInfo (take 64 (Key (sample_key 128)))
            (drop 64 (Key (sample_key 128))) [x01; x02]) 48.
Proof.
  cbv zeta.
  assert (E : SHX.Initialize (H := counting_stream) (constructed Digests.SHA256 48) false
                {| Key := Key (sample_key 128); Nonce := []; Info := [x01; x02] |}
              = Returned (initialized_as (H := counting_stream)
                            (constructed Digests.SHA256 48) false
                            {| Key := Key (sample_key 128); Nonce := [];
                               Info := [x01; x02] |})).
  { apply (Initialize_reached (H := counting_stream) Digests.SHA256 48);
      [apply shx_inv_constructed; [lia | reflexivity] | reflexivity
      | intros _; vm_compute; congruence]. }
  split; [exact E|].
  destruct (SHX_hkdf_schedule (G := counting_stream) Digests.SHA256 48
              (constructed Digests.SHA256 48) false
              {| Key := Key (sample_key 128); Nonce := []; Info := [x01; x02] |}
              _ ltac:(discriminate) ltac:(apply shx_constructed; reflexivity) E)
    as (E1 & E2 & E3 & E4 & _).
  split; [exact E1|]. split; [exact E2|]. split; [exact E3|].
  rewrite E4, E3. reflexivity.
Defined.

(** X10: Initialize leaves no trace of the key an instance had before: two
    instances of one construction, whatever Initialize calls each has
    seen, hold the same expanded key and round count after Initialize
    with one key, and transform alike. With a digest the distribution
    code in force must be the same: the call carries an info, or the two
    instances hold the same code. *)
Theorem SHX_Initialize_overwrites {G : HKDF.Generator} (d : Digests.t) (r : Z)
    (s1 s2 : SHX.t) (enc : bool) (kp : ISymmetricKey) (s1' s2' : SHX.t) :
  shx_reachable d r s1 -> shx_reachable d r s2 ->
  (d <> Digests.None -> size (Info kp) = 0 ->
   SHX.DistributionCode s1 = SHX.DistributionCode s2) ->
  SHX.Initialize s1 enc kp = Returned s1' ->
  SHX.Initialize s2 enc kp = Returned s2' ->
  SHX.m_expKey s1' = SHX.m_expKey s2'
  /\ SHX.Rounds s1' = SHX.Rounds s2'
  /\ SHX.IsEncryption s1' = SHX.IsEncryption s2'
  /\ (forall Input InOffset Output OutOffset,
         SHX.Transform s1' Input InOffset Output OutOffset
         = SHX.Transform s2' Input InOffset Output OutOffset).
Proof.
  intros Hr1 Hr2 Hcode E1 E2.
  pose proof (shx_reachable_inv d r s1 Hr1) as Hinv1.
  pose proof (shx_reachable_inv d r s2 Hr2) as Hinv2.
  destruct (Initialize_returned d r s1 enc kp s1' Hinv1 E1) as (_ & _ & ->).
  destruct (Initialize_returned d r s2 enc kp s2' Hinv2 E2) as (_ & _ & ->).
  destruct Hinv1 as (_ & Ed1 & _ & _ & _ & Ern1).
  destruct Hinv2 as (_ & Ed2 & _ & _ & _ & Ern2).
  assert (Ek : SHX.m_expKey (initialized_as s1 enc kp)
               = SHX.m_expKey (initialized_as s2 enc kp)
               /\ SHX.m_rndCount (initialized_as s1 enc kp)
                  = SHX.m_rndCount (initialized_as s2 enc kp)).
  { unfold initialized_as. cbv zeta. shx_fields. rewrite Ed1, Ed2.
    destruct (Digests.eqb d Digests.None) eqn:Eb; [split; reflexivity|].
    assert (Hd : d <> Digests.None) by (intros ->; discriminate).
    rewrite (Ern1 Hd), (Ern2 Hd). split; [|reflexivity].
    destruct (Z.gtb_spec (size (Info kp)) 0) as [|Hz]; [reflexivity|].
    unfold SHX.DistributionCode in Hcode. rewrite Hcode; [reflexivity | exact Hd |].
    pose proof (size_nonneg (Info kp)). lia. }
  destruct Ek as [Ek Ern].
  split; [exact Ek|]. split; [exact Ern|]. split; [reflexivity|].
  intros Input io Output oo. unfold SHX.Transform. rewrite Ek. reflexivity.
Qed.

Lemma SHX_Initialize_overwrites_witness :
  let s1 := initialized true 64 in
  let s2 := constructed Digests.None 32 in
  exists s1' s2',
    SHX.Initialize (H := counting_stream) s1 false (sample_key 16) = Returned s1'
    /\ SHX.Initialize (H := counting_stream) s2 false (sample_key 16) = Returned s2'
    /\ SHX.m_expKey s1' = SHX.m_expKey s2'
    /\ SHX.Rounds s1' = SHX.Rounds s2'.
Proof.
  cbv zeta.
  destruct (standard_instance_reachable true 64 eq_refl) as [Hr1 _].
  assert (Hr2 : shx_reachable (H := counting_stream) Digests.None 32
                  (constructed Digests.None 32))
    by (apply shx_constructed; reflexivity).
  assert (E1 : SHX.Initialize (H := counting_stream) (initialized true 64) false
                 (sample_key 16)
               = Returned (initialized_as (H := counting_stream) (initialized true 64)
                             false (sample_key 16))).
  { apply (Initialize_reached (H := counting_stream) Digests.None 32);
      [exact (shx_reachable_inv (H := counting_stream) _ _ _ Hr1)
      | vm_compute; reflexivity | intros C; now contradiction C]. }
  assert (E2 : SHX.Initialize (H := counting_stream) (constructed Digests.None 32) false
                 (sample_key 16)
               = Returned (initialized_as (H := counting_stream)
                             (constructed Digests.None 32) false (sample_key 16))).
  { apply (Initialize_reached (H := counting_stream) Digests.None 32);
      [exact (shx_reachable_inv (H := counting_stream) _ _ _ Hr2) | reflexivity
      | intros C; now contradiction C]. }
  destruct (SHX_Initialize_overwrites (G := counting_stream) Digests.None 32
              (initialized true 64) (constructed Digests.None 32) false (sample_key 16)
              _ _ Hr1 Hr2 ltac:(intros C; now contradiction C) E1 E2)
    as (Ek & Ern & _).
  eexists _, _. split; [exact E1|]. split; [exact E2|]. split; assumption.
Defined.

(** X11: Initialize again with the same key parameters: the expanded key, the
    round count and the distribution code stay as the first call left
    them and the direction is the one asked last; asked for the same
    direction, the second call changes nothing. *)
Theorem SHX_Initialize_again {G : HKDF.Generator} (d : Digests.t) (r : Z) (s : SHX.t)
    (e1 e2 : bool) (kp : ISymmetricKey) (s1 : SHX.t) :
  shx_reachable d r s ->
  SHX.Initialize s e1 kp = Returned s1 ->
  exists s2 : SHX.t,
    SHX.Initialize s1 e2 kp = Returned s2
    /\ SHX.IsEncryption s2 = e2
    /\ SHX.m_expKey s2 = SHX.m_expKey s1
    /\ SHX.Rounds s2 = SHX.Rounds s1
    /\ SHX.DistributionCode s2 = SHX.DistributionCode s1
    /\ (e2 = e1 -> s2 = s1).
Proof.
  intros Hreach E1. pose proof (shx_reachable_inv d r s Hreach) as Hinv.
  destruct (Initialize_returned d r s e1 kp s1 Hinv E1) as (Hc & Hi & ->).
  pose proof (shx_inv_initialized_as d r s e1 kp Hinv) as Hinv1.
  exists (initialized_as (initialized_as s e1 kp) e2 kp).
  split.
  { apply (Initialize_reached d r); [exact Hinv1 | exact Hc | exact Hi]. }
  destruct Hinv as (_ & Ed & _).
  assert (Efields : forall e,
    initialized_as (initialized_as s e1 kp) e kp
    = SHX.set_isEncryption (initialized_as s e1 kp) e).
  { intros e. apply SHX_state_eq; unfold initialized_as; cbv zeta; shx_fields;
      rewrite ?Ed; try reflexivity.
    - destruct (Digests.eqb d Digests.None); [reflexivity|].
      destruct (size (Info kp) >? 0); reflexivity.
    - destruct (size (Info kp) >? 0); reflexivity.
    - destruct (negb (Digests.eqb d Digests.None)
                && (size (Key kp) >? DigestFromName.GetBlockSize d)); reflexivity.
    - destruct (Digests.eqb d Digests.None); reflexivity. }
  rewrite Efields. repeat split; try reflexivity.
  intros ->. reflexivity.
Qed.

Lemma SHX_Initialize_again_witness :
  exists s2 : SHX.t,
    SHX.Initialize (H := counting_stream) (initialized true 32) false (sample_key 32)
    = Returned s2
    /\ SHX.IsEncryption s2 = false
    /\ SHX.m_expKey s2 = SHX.m_expKey (initialized true 32)
    /\ SHX.Rounds s2 = SHX.Rounds (initialized true 32)
    /\ SHX.DistributionCode s2 = SHX.DistributionCode (initialized true 32)
    /\ (false = true -> s2 = initialized true 32).
Proof.
  apply (SHX_Initialize_again (G := counting_stream) Digests.None 32
           (constructed Digests.None 32) true false (sample_key 32) (initialized true 32)).
  - apply shx_constructed. reflexivity.
  - vm_compute. reflexivity.
Defined.

(** ** KDF2: the output, block by block *)

Lemma KDF2_state_eq (a b : KDF2.t) :
  KDF2.m_msgDigest a = KDF2.m_msgDigest b -> KDF2.m_blockSize a = KDF2.m_blockSize b ->
  KDF2.m_hashSize a = KDF2.m_hashSize b ->
  KDF2.m_isInitialized a = KDF2.m_isInitialized b ->
  KDF2.m_kdfCounter a = KDF2.m_kdfCounter b ->
  KDF2.m_kdfDigestType a = KDF2.m_kdfDigestType b ->
  KDF2.m_kdfKey a = KDF2.m_kdfKey b -> KDF2.m_kdfSalt a = KDF2.m_kdfSalt b ->
  KDF2.m_legalKeySizes a = KDF2.m_legalKeySizes b ->
  a = b.
Proof. destruct a, b. cbn. intros. subst. reflexivity. Qed.

Ltac kdf_fields :=
  cbn [KDF2.m_msgDigest KDF2.m_blockSize KDF2.m_hashSize KDF2.m_isInitialized
       KDF2.m_kdfCounter KDF2.m_kdfDigestType KDF2.m_kdfKey KDF2.m_kdfSalt
       KDF2.m_legalKeySizes
       KDF2.set_msgDigest KDF2.set_isInitialized KDF2.set_kdfCounter KDF2.set_kdfKey
       KDF2.set_kdfSalt KDF2.set_legalKeySizes].

Lemma be_encode_4 (c : Z) :
  IntUtils.be_encode 4 c
  = [byte_of_Z (Z.shiftr c 24); byte_of_Z (Z.shiftr c 16); byte_of_Z (Z.shiftr c 8);
     byte_of_Z c].
Proof.
  unfold IntUtils.be_encode. cbn [IntUtils.le_encode rev app].
  rewrite !Z.shiftr_shiftr by lia. reflexivity.
Qed.

Lemma kdf2_block_length `{IDigest.Hash} (d : Digests.t) (h : Z) (key salt : list byte)
    (c : Z) :
  0 <= h -> length (kdf2_block d h key salt c) = Z.to_nat h.
Proof.
  intros Hh. unfold kdf2_block, IDigest.Finalize. now rewrite length_map, length_seq.
Qed.

Lemma kdf2_blocks_length `{IDigest.Hash} (d : Digests.t) (h : Z) (key salt : list byte)
    (k : nat) :
  0 <= h -> forall c, length (kdf2_blocks d h key salt c k) = (k * Z.to_nat h)%nat.
Proof.
  intros Hh. induction k as [|k IH]; intros c; cbn [kdf2_blocks]; [reflexivity|].
  rewrite length_app, kdf2_block_length, IH by lia. lia.
Qed.

Lemma kdf2_blocks_app `{IDigest.Hash} (d : Digests.t) (h : Z) (key salt : list byte)
    (k1 k2 : nat) :
  forall c,
    kdf2_blocks d h key salt c (k1 + k2)
    = kdf2_blocks d h key salt c k1 ++ kdf2_blocks d h key salt (c + Z.of_nat k1) k2.
Proof.
  induction k1 as [|k1 IH]; intros c.
  - cbn [kdf2_blocks Nat.add app]. f_equal; lia.
  - cbn [kdf2_blocks Nat.add]. rewrite IH, <- app_assoc. do 3 f_equal. lia.
Qed.

Lemma kdf2_passes_cases (h n : Z) :
  0 < h -> 0 <= n ->
  (n = 0 /\ kdf2_passes h n = 1)
  \/ (0 < n <= h /\ kdf2_passes h n = 1)
  \/ (h < n /\ kdf2_passes h n = 1 + kdf2_passes h (n - h) /\ 1 <= kdf2_passes h (n - h)).
Proof.
  intros Hh Hn. unfold kdf2_passes.
  destruct (Z.eqb_spec n 0) as [->|Hnz]; [left; split; reflexivity|].
  destruct (Z_le_gt_dec n h) as [Hle|Hgt].
  - right. left. split; [lia|].
    symmetry. apply (Z.div_unique _ _ _ (n - 1)); lia.
  - right. right. split; [lia|].
    destruct (Z.eqb_spec (n - h) 0); [lia|].
    replace (n + h - 1) with ((n - h + h - 1) + 1 * h) by lia.
    rewrite Z.div_add by lia. split; [lia|].
    apply Z.div_le_lower_bound; lia.
Qed.

Lemma kdf2_passes_bound (h n : Z) :
  0 < h -> 0 <= n -> 1 <= kdf2_passes h n <= n / h + 1 /\ n <= kdf2_passes h n * h.
Proof.
  intros Hh Hn. unfold kdf2_passes.
  destruct (Z.eqb_spec n 0) as [->|Hnz].
  - rewrite Z.div_0_l by lia. lia.
  - pose proof (Z.div_mod n h ltac:(lia)) as E.
    pose proof (Z.mod_pos_bound n h Hh) as Hm.
    pose proof (Z.div_mod (n + h - 1) h ltac:(lia)) as E'.
    pose proof (Z.mod_pos_bound (n + h - 1) h Hh) as Hm'.
    assert (0 <= n / h) by (apply Z.div_pos; lia).
    split; [split|]; nia.
Qed.

Section Stream.
Context `{IDigest.Hash}.

Lemma Expand_loop_stream (fuel : nat) :
  forall (s : KDF2.t) (Output : list byte) (off len : Z),
    KDF2.m_msgDigest s = [] -> 0 < KDF2.m_hashSize s ->
    0 <= len < Z.of_nat fuel ->
    0 <= off -> off + len <= size Output -> size Output < 2 ^ 64 ->
    0 <= KDF2.m_kdfCounter s ->
    KDF2.m_kdfCounter s + kdf2_passes (KDF2.m_hashSize s) len < 2 ^ 32 ->
    KDF2.Expand_loop fuel s Output off len
    = Returned
        (KDF2.set_kdfCounter s
           (KDF2.m_kdfCounter s + kdf2_passes (KDF2.m_hashSize s) len),
         splice Output (Z.to_nat off)
           (kdf2_stream (KDF2.m_kdfDigestType s) (KDF2.m_hashSize s) (KDF2.m_kdfKey s)
              (KDF2.m_kdfSalt s) (KDF2.m_kdfCounter s) len)).
Proof.
  induction fuel as [|fuel IH];
    intros s Output off len Hmd Hh Hlen Hoff Hfit Hmax Hc Hwrap; [lia|].
  cbn [KDF2.Expand_loop]. cbv zeta.
  change (KDF2.m_hashSize (KDF2.set_kdfCounter (KDF2.set_msgDigest s []) _))
    with (KDF2.m_hashSize s).
  change (KDF2.m_kdfDigestType (KDF2.set_msgDigest s [])) with (KDF2.m_kdfDigestType s).
  change (KDF2.m_kdfCounter (KDF2.set_msgDigest s [])) with (KDF2.m_kdfCounter s).
  set (h := KDF2.m_hashSize s) in *. set (c := KDF2.m_kdfCounter s) in *.
  set (d := KDF2.m_kdfDigestType s).
  assert (Emsg : (if negb (size (KDF2.m_kdfSalt s) =? 0)
                  then (KDF2.m_msgDigest s ++ KDF2.m_kdfKey s
                        ++ [byte_of_Z (Z.shiftr c 24); byte_of_Z (Z.shiftr c 16);
                            byte_of_Z (Z.shiftr c 8); byte_of_Z c])
                       ++ KDF2.m_kdfSalt s
                  else KDF2.m_msgDigest s ++ KDF2.m_kdfKey s
                       ++ [byte_of_Z (Z.shiftr c 24); byte_of_Z (Z.shiftr c 16);
                           byte_of_Z (Z.shiftr c 8); byte_of_Z c])
                 = KDF2.m_kdfKey s ++ IntUtils.be_encode 4 c ++ KDF2.m_kdfSalt s).
  { rewrite Hmd, be_encode_4. cbn [app].
    destruct (Z.eqb_spec (size (KDF2.m_kdfSalt s)) 0) as [Hz|Hnz]; cbn [negb].
    - assert (KDF2.m_kdfSalt s = []) as ->
        by (destruct (KDF2.m_kdfSalt s); [reflexivity | discriminate Hz]).
      cbn [app]. reflexivity.
    - rewrite <- app_assoc. reflexivity. }
  rewrite Emsg. fold (kdf2_block d h (KDF2.m_kdfKey s) (KDF2.m_kdfSalt s) c).
  set (B := kdf2_block d h (KDF2.m_kdfKey s) (KDF2.m_kdfSalt s) c).
  assert (HB : length B = Z.to_nat h) by (apply kdf2_block_length; lia).
  assert (HBs : size B = h) by (unfold size; rewrite HB; lia).
  unfold kdf2_stream.
  destruct (kdf2_passes_cases h len Hh ltac:(lia))
    as [[Hz Hp] | [[Hle Hp] | (Hgt & Hp & Hp1)]]; rewrite Hp in *.
  - (* nothing asked *)
    subst len. unfold IntUtils.Min. destruct (Z.ltb_spec h 0); [lia|].
    unfold IntUtils.Copy. cbn [Z.eqb obind]. rewrite Z.sub_0_r.
    change (wrap64 0) with 0. cbn [Z.eqb negb].
    rewrite (wrap32_small (c + 1)) by lia.
    change (Z.to_nat 0) with 0%nat. rewrite take_0, splice_nil.
    f_equal. f_equal. apply KDF2_state_eq; kdf_fields; auto.
  - (* the last block *)
    unfold IntUtils.Min. destruct (Z.ltb_spec h len); [lia|].
    rewrite Copy_bytes by lia. rewrite obind_Returned.
    rewrite Z.sub_diag. change (wrap64 0) with 0. cbn [Z.eqb negb].
    rewrite (wrap32_small (c + 1)) by lia.
    change (Z.to_nat 1) with 1%nat. cbn [kdf2_blocks]. fold B. rewrite app_nil_r.
    change (Z.to_nat 0) with 0%nat. rewrite drop_0.
    f_equal. f_equal. apply KDF2_state_eq; kdf_fields; auto.
  - (* a whole block, and more to come *)
    unfold IntUtils.Min. destruct (Z.ltb_spec h len); [|lia].
    rewrite Copy_bytes by lia. rewrite obind_Returned.
    rewrite (wrap64_small (len - h)), (wrap64_small (off + h)) by lia.
    destruct (Z.eqb_spec (len - h) 0); [lia|]. cbn [negb].
    rewrite (wrap32_small (c + 1)) by lia.
    change (Z.to_nat 0) with 0%nat. rewrite drop_0, take_ge by lia.
    assert (Hs1 : size (splice Output (Z.to_nat off) B) = size Output)
      by (apply size_splice; lia).
    rewrite IH; kdf_fields; try assumption; try reflexivity; try (fold h; lia).
    fold h. fold d. unfold kdf2_stream. f_equal. f_equal.
    + apply KDF2_state_eq; kdf_fields; auto. lia.
    + replace (Z.to_nat (off + h)) with (Z.to_nat off + length B)%nat by lia.
      rewrite splice_after.
      2:{ rewrite length_take, kdf2_blocks_length by lia. unfold size in *. nia. }
      f_equal.
      replace (Z.to_nat (1 + kdf2_passes h (len - h)))
        with (S (Z.to_nat (kdf2_passes h (len - h)))) by lia.
      cbn [kdf2_blocks]. fold B.
      rewrite take_app_ge by lia. f_equal. f_equal. lia.
Qed.

End Stream.

(** ** KDF2: what every state keeps *)

Lemma kdf_cleared_inv2 (s : KDF2.t) :
  kdf_inv2 s ->
  KDF2.m_msgDigest (kdf_cleared s) = []
  /\ KDF2.m_kdfCounter (kdf_cleared s) = 1
  /\ KDF2.m_kdfKey (kdf_cleared s) = []
  /\ KDF2.m_kdfSalt (kdf_cleared s) = []
  /\ KDF2.m_legalKeySizes (kdf_cleared s) = KDF2.m_legalKeySizes s
  /\ KDF2.m_kdfDigestType (kdf_cleared s) = KDF2.m_kdfDigestType s
  /\ KDF2.m_hashSize (kdf_cleared s) = KDF2.m_hashSize s
  /\ KDF2.m_blockSize (kdf_cleared s) = KDF2.m_blockSize s
  /\ KDF2.m_isInitialized (kdf_cleared s) = false.
Proof.
  intros ((_ & _ & _ & Hu) & Hm & _ & _). unfold kdf_cleared.
  destruct (KDF2.m_isInitialized s) eqn:Ei.
  - repeat split; reflexivity.
  - destruct (Hu eq_refl) as (? & ? & ?). repeat split; assumption.
Qed.

(** A state built from the cleared state by storing a key and a salt. *)
Lemma kdf_inv2_keyed (s s' : KDF2.t) :
  kdf_inv2 s ->
  KDF2.m_msgDigest s' = KDF2.m_msgDigest (kdf_cleared s) ->
  KDF2.m_kdfCounter s' = KDF2.m_kdfCounter (kdf_cleared s) ->
  KDF2.m_legalKeySizes s' = KDF2.m_legalKeySizes (kdf_cleared s) ->
  KDF2.m_kdfDigestType s' = KDF2.m_kdfDigestType (kdf_cleared s) ->
  KDF2.m_hashSize s' = KDF2.m_hashSize (kdf_cleared s) ->
  KDF2.m_blockSize s' = KDF2.m_blockSize (kdf_cleared s) ->
  KDF2.m_isInitialized s' = true ->
  kdf_inv2 s'.
Proof.
  intros Hinv Em Ec El Ed Eh Eb Ei.
  destruct (kdf_cleared_inv2 s Hinv) as (Cm & Cc & _ & _ & Cl & Cd & Ch & Cb & _).
  destruct Hinv as (Hk & _ & _ & Hl).
  split; [|split; [|split]].
  - apply (kdf_inv_initialized s); congruence.
  - congruence.
  - rewrite Ec, Cc. lia.
  - rewrite El, Cl, Ed, Cd. exact Hl.
Qed.

Ltac kdf_keyed s :=
  apply (kdf_inv2_keyed s); [assumption | reflexivity ..].

Lemma kdf_inv2_Initialize (s : KDF2.t) (Key : list byte) (s' : KDF2.t) :
  kdf_inv2 s -> KDF2.Initialize s Key = Returned s' -> kdf_inv2 s'.
Proof.
  intros Hinv E. unfold KDF2.Initialize in E. cbv zeta in E.
  change (if KDF2.m_isInitialized s then KDF2.Reset s else s) with (kdf_cleared s) in E.
  set (s1 := kdf_cleared s) in *.
  kdf_cases E; injection E as <-; kdf_keyed s.
Qed.

Lemma kdf_inv2_Initialize2 (s : KDF2.t) (Key Salt : list byte) (s' : KDF2.t) :
  kdf_inv2 s -> KDF2.Initialize2 s Key Salt = Returned s' -> kdf_inv2 s'.
Proof.
  intros Hinv E. unfold KDF2.Initialize2 in E. cbv zeta in E.
  change (if KDF2.m_isInitialized s then KDF2.Reset s else s) with (kdf_cleared s) in E.
  set (s1 := kdf_cleared s) in *.
  kdf_cases E; injection E as <-; kdf_keyed s.
Qed.

Lemma kdf_inv2_Initialize3 (s : KDF2.t) (Key Salt Info : list byte) (s' : KDF2.t) :
  kdf_inv2 s -> KDF2.Initialize3 s Key Salt Info = Returned s' -> kdf_inv2 s'.
Proof.
  intros Hinv E. unfold KDF2.Initialize3 in E. cbv zeta in E.
  change (if KDF2.m_isInitialized s then KDF2.Reset s else s) with (kdf_cleared s) in E.
  set (s1 := kdf_cleared s) in *.
  kdf_cases E; injection E as <-; kdf_keyed s.
Qed.

Lemma kdf_inv2_new (d : Digests.t) (s : KDF2.t) : KDF2.new d = Returned s -> kdf_inv2 s.
Proof.
  intros E. split; [exact (kdf_inv_new d s E)|].
  unfold KDF2.new in E. destruct d; cbn [Digests.eqb negb] in E; [discriminate| |];
    injection E as <-; repeat split; first [reflexivity | cbn; lia].
Qed.

Lemma kdf_inv2_Reset (s : KDF2.t) : kdf_inv2 s -> kdf_inv2 (KDF2.Reset s).
Proof.
  intros (Hk & _ & _ & Hl). split; [now apply kdf_inv_Reset|].
  repeat split; (exact Hl || reflexivity || (cbn; lia)).
Qed.

Ltac kdf_fields_in E :=
  cbn [KDF2.m_msgDigest KDF2.m_blockSize KDF2.m_hashSize KDF2.m_isInitialized
       KDF2.m_kdfCounter KDF2.m_kdfDigestType KDF2.m_kdfKey KDF2.m_kdfSalt
       KDF2.m_legalKeySizes
       KDF2.set_msgDigest KDF2.set_isInitialized KDF2.set_kdfCounter KDF2.set_kdfKey
       KDF2.set_kdfSalt KDF2.set_legalKeySizes] in E.

Section Counter.
Context `{IDigest.Hash}.

Lemma Expand_loop_counter (fuel : nat) :
  forall (s : KDF2.t) (Output : list byte) (off len : Z) (s' : KDF2.t)
         (Output' : list byte),
    KDF2.Expand_loop fuel s Output off len = Returned (s', Output') ->
    0 < KDF2.m_hashSize s -> 0 <= len < 2 ^ 64 -> 0 <= KDF2.m_kdfCounter s ->
    KDF2.m_kdfCounter s + kdf2_passes (KDF2.m_hashSize s) len < 2 ^ 32 ->
    KDF2.m_kdfCounter s' = KDF2.m_kdfCounter s + kdf2_passes (KDF2.m_hashSize s) len
    /\ KDF2.m_msgDigest s' = []
    /\ KDF2.m_legalKeySizes s' = KDF2.m_legalKeySizes s.
Proof.
  induction fuel as [|fuel IH]; intros s Output off len s' Output' E Hh Hlen Hc Hwrap;
    cbn [KDF2.Expand_loop] in E; [discriminate|].
  cbv zeta in E.
  change (KDF2.m_hashSize (KDF2.set_kdfCounter (KDF2.set_msgDigest s []) _))
    with (KDF2.m_hashSize s) in E.
  change (KDF2.m_kdfCounter (KDF2.set_msgDigest s [])) with (KDF2.m_kdfCounter s) in E.
  set (h := KDF2.m_hashSize s) in *. set (c := KDF2.m_kdfCounter s) in *.
  destruct (IntUtils.Copy 1 _ 0 Output off _) as [O1|o m|m|]; cbn [obind] in E;
    try discriminate.
  unfold IntUtils.Min in E.
  destruct (kdf2_passes_cases h len Hh ltac:(lia))
    as [[Hz Hp] | [[Hle Hp] | (Hgt & Hp & Hp1)]]; rewrite Hp in *.
  - subst len. destruct (Z.ltb_spec h 0); [lia|].
    rewrite Z.sub_diag in E. change (wrap64 0) with 0 in E. cbn [Z.eqb negb] in E.
    injection E as <- _. kdf_fields. rewrite wrap32_small by lia. auto.
  - destruct (Z.ltb_spec h len); [lia|].
    rewrite Z.sub_diag in E. change (wrap64 0) with 0 in E. cbn [Z.eqb negb] in E.
    injection E as <- _. kdf_fields. rewrite wrap32_small by lia. auto.
  - destruct (Z.ltb_spec h len); [|lia].
    rewrite (wrap64_small (len - h)) in E by lia.
    destruct (Z.eqb_spec (len - h) 0); [lia|]. cbn [negb] in E.
    rewrite (wrap32_small (c + 1)) in E by lia.
    apply IH in E; kdf_fields; try (fold h; lia).
    kdf_fields_in E. fold h in E. destruct E as (E1 & E2 & E3).
    split; [lia|]. split; assumption.
Qed.

Lemma guard_passed (s : KDF2.t) (len : Z) :
  kdf_inv2 s -> 0 <= len < 2 ^ 64 ->
  (KDF2.m_kdfCounter s +% (len / KDF2.m_hashSize s) >? 255) = false ->
  32 <= KDF2.m_hashSize s
  /\ KDF2.m_kdfCounter s + len / KDF2.m_hashSize s <= 255.
Proof.
  intros ((Hd & Hh & _) & _ & Hc & _) Hlen Hg.
  assert (Hpos : 32 <= KDF2.m_hashSize s)
    by (destruct (digest_sizes _ Hd) as [[? ?]|[? ?]]; lia).
  split; [exact Hpos|].
  assert (0 <= len / KDF2.m_hashSize s < 2 ^ 59).
  { split; [apply Z.div_pos; lia|].
    apply Z.div_lt_upper_bound; lia. }
  rewrite wrap64_small in Hg by lia.
  destruct (Z.gtb_spec (KDF2.m_kdfCounter s + len / KDF2.m_hashSize s) 255);
    [discriminate | lia].
Qed.

Lemma kdf_inv2_Expand (s : KDF2.t) (Output : list byte) (off len : Z)
    (s' : KDF2.t) (Output' : list byte) (n : Z) :
  kdf_inv2 s -> KDF2.m_isInitialized s = true -> 0 <= len < 2 ^ 64 ->
  KDF2.Expand s Output off len = Returned (s', Output', n) -> kdf_inv2 s'.
Proof.
  intros Hinv Hi Hlen E.
  pose proof (kdf_inv_Expand s Output off len s' Output' n (proj1 Hinv) Hi E) as Hk.
  unfold KDF2.Expand in E.
  destruct (KDF2.m_hashSize s =? 0); [discriminate|].
  destruct (_ >? 255) eqn:Hg; [discriminate|].
  destruct (guard_passed s len Hinv Hlen Hg) as [Hpos Hguard].
  destruct Hinv as (_ & Hm & Hc & Hl).
  pose proof (kdf2_passes_bound (KDF2.m_hashSize s) len ltac:(lia) ltac:(lia)) as Hp.
  destruct (KDF2.Expand_loop _ s Output off len) as [[s1 O1]|o m|m|] eqn:EL;
    cbn [obind] in E; try discriminate.
  injection E as <- _ _.
  destruct (Expand_loop_fields _ _ _ _ _ _ _ EL) as (_ & Fd & _).
  destruct (Expand_loop_counter _ _ _ _ _ _ _ EL) as (Ec & Em & El); try lia.
  split; [exact Hk|]. split; [exact Em|]. split; [lia|].
  rewrite El, Fd. exact Hl.
Qed.

Lemma kdf_run_inv2 (s : KDF2.t) : kdf_run s -> kdf_inv2 s.
Proof.
  induction 1 as [d s E|s Key s' _ IH E|s Key Salt s' _ IH E|s Key Salt Info s' _ IH E
                 |s gp s' _ IH E|s Seed s' _ IH E
                 |s Output s' Output' n _ IH Hsz E
                 |s Output off len s' Output' n _ IH Hoff Hlen E|s _ IH].
  - exact (kdf_inv2_new d s E).
  - exact (kdf_inv2_Initialize s Key s' IH E).
  - exact (kdf_inv2_Initialize2 s Key Salt s' IH E).
  - exact (kdf_inv2_Initialize3 s Key Salt Info s' IH E).
  - unfold KDF2.InitializeKey in E.
    destruct (negb (size (Nonce gp) =? 0)); [destruct (negb (size (Info gp) =? 0))|].
    + exact (kdf_inv2_Initialize3 s _ _ _ s' IH E).
    + exact (kdf_inv2_Initialize2 s _ _ s' IH E).
    + exact (kdf_inv2_Initialize s _ s' IH E).
  - unfold KDF2.ReSeed in E. destruct (size Seed <? KDF2.m_hashSize s); [discriminate|].
    exact (kdf_inv2_Initialize s Seed s' IH E).
  - unfold KDF2.Generate in E.
    destruct (KDF2.m_isInitialized s) eqn:Hi; cbn [negb] in E; [|discriminate].
    destruct (negb (negb _)); [discriminate|].
    destruct (KDF2.m_hashSize s =? 0); [discriminate|].
    destruct (_ >? 255); [discriminate|].
    pose proof (size_nonneg Output).
    exact (kdf_inv2_Expand s Output 0 (size Output) s' Output' n IH Hi ltac:(lia) E).
  - unfold KDF2.GenerateAt in E.
    destruct (KDF2.m_isInitialized s) eqn:Hi; cbn [negb] in E; [|discriminate].
    destruct (negb (negb _)); [discriminate|].
    destruct (KDF2.m_hashSize s =? 0); [discriminate|].
    destruct (_ >? 255); [discriminate|].
    exact (kdf_inv2_Expand s Output off len s' Output' n IH Hi Hlen E).
  - exact (kdf_inv2_Reset s IH).
Qed.

End Counter.

(** ** KDF2: Reset and Initialize *)

Lemma kdf_cleared_constructed (s : KDF2.t) :
  kdf_inv2 s -> kdf_cleared s = kdf_constructed (KDF2.m_kdfDigestType s).
Proof.
  intros Hinv.
  destruct (kdf_cleared_inv2 s Hinv) as (Cm & Cc & Ck & Cs & Cl & Cd & Ch & Cb & Ci).
  destruct Hinv as ((_ & Hh & Hb & _) & _ & _ & Hl).
  apply KDF2_state_eq; rewrite ?Cm, ?Cc, ?Ck, ?Cs, ?Cl, ?Cd, ?Ch, ?Cb, ?Ci;
    first [reflexivity | assumption].
Qed.

Lemma Reset_constructed (s : KDF2.t) :
  kdf_inv2 s -> KDF2.Reset s = kdf_constructed (KDF2.m_kdfDigestType s).
Proof.
  intros ((_ & Hh & Hb & _) & _ & _ & Hl).
  apply KDF2_state_eq; kdf_fields;
    first [reflexivity | assumption].
Qed.

Lemma Copy_fill (X : list byte) :
  IntUtils.Copy 1 X 0 (resize_to x00 [] (size X)) 0 (size X) = Returned X.
Proof.
  destruct X as [|x X]; [reflexivity|].
  assert (Hs : 0 < size (x :: X)) by (unfold size; cbn [length]; lia).
  rewrite Copy_bytes by (rewrite ?size_resize_to; lia).
  change (Z.to_nat 0) with 0%nat. rewrite drop_0.
  rewrite take_ge by (unfold size; lia).
  rewrite splice_all; [reflexivity|].
  pose proof (size_resize_to x00 (@nil byte) (size (x :: X)) ltac:(lia)) as E.
  unfold size in *. lia.
Qed.

Section Started.
Variable s : KDF2.t.
Hypothesis Hinv : kdf_inv2 s.

Let d := KDF2.m_kdfDigestType s.

Lemma started_sizes :
  32 <= KDF2.m_hashSize s /\ 64 <= KDF2.m_blockSize s
  /\ KDF2.m_hashSize s <= KDF2.m_blockSize s < 2 ^ 32.
Proof.
  destruct Hinv as ((Hd & Hh & Hb & _) & _).
  destruct (digest_sizes _ Hd) as [[? ?]|[? ?]]; lia.
Qed.

Lemma Initialize_long (Key : list byte) :
  KDF2.m_blockSize s < size Key < 2 ^ 64 ->
  KDF2.Initialize s Key
  = Returned (kdf_started d (take (Z.to_nat (KDF2.m_blockSize s)) Key)
                (drop (Z.to_nat (KDF2.m_blockSize s)) Key)).
Proof.
  intros Hk. pose proof started_sizes as (Hh & Hb & Hhb).
  unfold KDF2.Initialize.
  destruct (Z.ltb_spec (size Key) (KDF2.m_hashSize s)); [lia|]. cbv zeta.
  change (if KDF2.m_isInitialized s then KDF2.Reset s else s) with (kdf_cleared s).
  rewrite (kdf_cleared_constructed s Hinv). fold d.
  assert (Eb : KDF2.m_blockSize (kdf_constructed d) = KDF2.m_blockSize s)
    by (destruct Hinv as ((_ & _ & Eb & _) & _); rewrite Eb; reflexivity).
  rewrite Eb.
  destruct (Z.leb_spec (size Key) (KDF2.m_blockSize s)); [lia|].
  change (KDF2.m_kdfKey (kdf_constructed d)) with (@nil byte).
  set (b := KDF2.m_blockSize s) in *.
  rewrite Copy_bytes by (rewrite ?size_resize_to; lia).
  rewrite obind_Returned. kdf_fields.
  change (KDF2.m_kdfSalt (kdf_constructed d)) with (@nil byte).
  rewrite ?Eb.
  rewrite wrap64_small by lia.
  rewrite size_resize_to by lia.
  rewrite Copy_bytes by (rewrite ?size_resize_to; lia).
  rewrite !obind_Returned. unfold kdf_started.
  change (Z.to_nat 0) with 0%nat. rewrite drop_0.
  rewrite (take_ge (drop _ Key)) by (rewrite length_drop; unfold size in *; lia).
  rewrite !splice_all; [reflexivity | |].
  - pose proof (size_resize_to x00 (@nil byte) (size Key - b) ltac:(lia)) as E.
    unfold size in *. rewrite length_drop. lia.
  - pose proof (size_resize_to x00 (@nil byte) b ltac:(lia)) as E.
    unfold size in *. rewrite length_take. lia.
Qed.

Lemma Initialize2_started (Key Salt : list byte) :
  KDF2.m_hashSize s <= size Key -> KDF2.MIN_SALTLEN <= size Salt ->
  KDF2.Initialize2 s Key Salt = Returned (kdf_started d Key Salt).
Proof.
  intros Hk Hs. unfold KDF2.Initialize2.
  destruct (Z.ltb_spec (size Key) (KDF2.m_hashSize s)); [lia|].
  destruct (Z.ltb_spec (size Salt) KDF2.MIN_SALTLEN); [lia|]. cbv zeta.
  change (if KDF2.m_isInitialized s then KDF2.Reset s else s) with (kdf_cleared s).
  rewrite (kdf_cleared_constructed s Hinv). fold d.
  change (KDF2.m_kdfKey (kdf_constructed d)) with (@nil byte).
  rewrite Copy_fill, obind_Returned. kdf_fields.
  change (KDF2.m_kdfSalt (kdf_constructed d)) with (@nil byte).
  rewrite Z.gtb_ltb. destruct (Z.ltb_spec 0 (size Salt)) as [Hp|Hz].
  - rewrite Copy_fill, !obind_Returned. reflexivity.
  - rewrite obind_Returned. unfold kdf_started.
    assert (Salt = []) as -> by (destruct Salt; [reflexivity | unfold size in Hz; cbn in Hz; lia]).
    reflexivity.
Qed.

Lemma Initialize3_started (Key Salt Info : list byte) :
  KDF2.m_hashSize s <= size Key -> KDF2.MIN_SALTLEN <= size Salt -> 0 < size Salt ->
  size Salt + size Info < 2 ^ 64 ->
  KDF2.Initialize3 s Key Salt Info = Returned (kdf_started d Key (Salt ++ Info)).
Proof.
  intros Hk Hs Hp Hb. unfold KDF2.Initialize3.
  destruct (Z.ltb_spec (size Key) (KDF2.m_hashSize s)); [lia|].
  destruct (Z.ltb_spec (size Salt) KDF2.MIN_SALTLEN); [lia|]. cbv zeta.
  change (if KDF2.m_isInitialized s then KDF2.Reset s else s) with (kdf_cleared s).
  rewrite (kdf_cleared_constructed s Hinv). fold d.
  change (KDF2.m_kdfKey (kdf_constructed d)) with (@nil byte).
  rewrite Copy_fill, obind_Returned. kdf_fields.
  change (KDF2.m_kdfSalt (kdf_constructed d)) with (@nil byte).
  pose proof (size_nonneg Info) as Hi.
  rewrite Z.gtb_ltb. destruct (Z.ltb_spec 0 (size Salt)); [|lia].
  rewrite wrap64_small by lia.
  assert (Er : resize_to x00 (@nil byte) (size Salt + size Info)
               = replicate (length Salt + length Info) x00).
  { unfold resize_to. rewrite take_nil. cbn [app length].
    f_equal. unfold size. lia. }
  rewrite Er.
  rewrite Copy_bytes by (rewrite ?size_replicate; unfold size in *; lia).
  rewrite obind_Returned.
  change (Z.to_nat 0) with 0%nat. rewrite drop_0.
  rewrite (take_ge Salt) by (unfold size; lia).
  rewrite Z.gtb_ltb. destruct (Z.ltb_spec 0 (size Info)) as [Hip|Hiz].
  - rewrite Copy_bytes;
      [|lia|lia|lia|lia
       |rewrite size_splice, size_replicate by (rewrite size_replicate; unfold size; lia);
        unfold size; lia].
    rewrite !obind_Returned. change (Z.to_nat 0) with 0%nat. rewrite drop_0.
    rewrite (take_ge Info) by (unfold size; lia).
    replace (Z.to_nat (size Salt)) with (0 + length Salt)%nat by (unfold size; lia).
    rewrite splice_after by (rewrite length_replicate; lia).
    rewrite splice_all by (rewrite length_app, length_replicate; reflexivity).
    reflexivity.
  - rewrite !obind_Returned.
    assert (Info = []) as ->
      by (destruct Info; [reflexivity | unfold size in Hiz; cbn in Hiz; lia]).
    cbn [length]. rewrite Nat.add_0_r, app_nil_r.
    rewrite splice_all by (rewrite length_replicate; reflexivity).
    reflexivity.
Qed.

End Started.

(** ** KDF2: the bytes Generate writes *)

Lemma kdf2_stream_length `{IDigest.Hash} (d : Digests.t) (h : Z) (key salt : list byte)
    (c n : Z) :
  0 < h -> 0 <= n -> length (kdf2_stream d h key salt c n) = Z.to_nat n.
Proof.
  intros Hh Hn. unfold kdf2_stream.
  destruct (kdf2_passes_bound h n Hh Hn) as [Hp Hb].
  rewrite length_take, kdf2_blocks_length by lia. nia.
Qed.

Lemma kdf2_passes_whole (h n : Z) :
  0 < h -> 0 < n -> n mod h = 0 -> kdf2_passes h n = n / h /\ n = n / h * h.
Proof.
  intros Hh Hn Hm. pose proof (Z.div_mod n h ltac:(lia)) as E. rewrite Hm in E.
  unfold kdf2_passes. destruct (Z.eqb_spec n 0); [lia|]. split; [|lia].
  symmetry. apply (Z.div_unique _ _ _ (h - 1)); lia.
Qed.

Lemma kdf2_stream_app `{IDigest.Hash} (d : Digests.t) (h : Z) (key salt : list byte)
    (c n1 n2 : Z) :
  0 < h -> 0 < n1 -> 0 < n2 -> n1 mod h = 0 ->
  kdf2_passes h (n1 + n2) = n1 / h + kdf2_passes h n2
  /\ kdf2_stream d h key salt c (n1 + n2)
     = kdf2_stream d h key salt c n1 ++ kdf2_stream d h key salt (c + n1 / h) n2.
Proof.
  intros Hh H1 H2 Hm.
  destruct (kdf2_passes_whole h n1 Hh H1 Hm) as [Ep Eq].
  assert (Hq : 0 < n1 / h) by nia.
  assert (Ep2 : kdf2_passes h (n1 + n2) = n1 / h + kdf2_passes h n2).
  { unfold kdf2_passes.
    destruct (Z.eqb_spec (n1 + n2) 0); [lia|]. destruct (Z.eqb_spec n2 0); [lia|].
    replace (n1 + n2 + h - 1) with (n2 + h - 1 + n1 / h * h) by lia.
    rewrite Z.div_add by lia. lia. }
  split; [exact Ep2|].
  destruct (kdf2_passes_bound h n2 Hh ltac:(lia)) as [Hp Hb].
  unfold kdf2_stream. rewrite Ep2, Ep.
  rewrite (Z2Nat.inj_add (n1 / h)) by lia.
  rewrite kdf2_blocks_app. rewrite Z2Nat.id by lia.
  set (B1 := kdf2_blocks d h key salt c (Z.to_nat (n1 / h))).
  assert (L1 : length B1 = Z.to_nat n1).
  { unfold B1. rewrite kdf2_blocks_length by lia. nia. }
  rewrite (take_ge B1) by lia.
  rewrite take_app_ge by lia. rewrite L1.
  do 2 f_equal. lia.
Qed.

Section Generated.
Context `{IDigest.Hash}.
Variable s : KDF2.t.
Hypothesis Hinv : kdf_inv2 s.

Let d := KDF2.m_kdfDigestType s.
Let h := KDF2.m_hashSize s.
Let c := KDF2.m_kdfCounter s.

Lemma Expand_stream (Output : list byte) (off len : Z) :
  0 <= off -> 0 <= len -> off + len <= size Output -> size Output < 2 ^ 64 ->
  c + len / h <= 255 ->
  KDF2.Expand s Output off len
  = Returned (KDF2.set_kdfCounter s (c + kdf2_passes h len),
              splice Output (Z.to_nat off)
                (kdf2_stream d h (KDF2.m_kdfKey s) (KDF2.m_kdfSalt s) c len),
              len).
Proof.
  intros Ho Hl Hfit Hsz Hg.
  pose proof (started_sizes s Hinv) as (Hh & _).
  destruct Hinv as (_ & Hm & Hc & _). fold h in Hh. fold c in Hc.
  destruct (kdf2_passes_bound h len ltac:(lia) Hl) as [Hp _].
  assert (0 <= len / h) by (apply Z.div_pos; lia).
  unfold KDF2.Expand. fold h c.
  destruct (Z.eqb_spec h 0); [lia|].
  rewrite wrap64_small by lia.
  destruct (Z.gtb_spec (c + len / h) 255); [lia|].
  rewrite Expand_loop_stream; fold h c; try assumption; try lia.
  rewrite obind_Returned. reflexivity.
Qed.

Lemma Generate_stream (Output : list byte) :
  KDF2.m_isInitialized s = true -> 0 < size Output < 2 ^ 64 ->
  c + size Output / h <= 255 ->
  KDF2.Generate s Output
  = Returned (KDF2.set_kdfCounter s (c + kdf2_passes h (size Output)),
              kdf2_stream d h (KDF2.m_kdfKey s) (KDF2.m_kdfSalt s) c (size Output),
              size Output).
Proof.
  intros Hi Hs Hg.
  pose proof (started_sizes s Hinv) as (Hh & _). fold h in Hh.
  assert (Hc : 1 <= c <= 256) by (destruct Hinv as (_ & _ & Hc & _); exact Hc).
  assert (0 <= size Output / h) by (apply Z.div_pos; lia).
  unfold KDF2.Generate. rewrite Hi. cbn [negb]. fold h c.
  destruct (Z.eqb_spec (size Output) 0); [lia|]. cbn [negb].
  destruct (Z.eqb_spec h 0); [lia|].
  rewrite wrap64_small by lia.
  destruct (Z.gtb_spec (c + size Output / h) 255); [lia|].
  rewrite Expand_stream by lia.
  change (Z.to_nat 0) with 0%nat.
  rewrite splice_all; [reflexivity|].
  rewrite kdf2_stream_length by lia. unfold size. lia.
Qed.

Lemma Generate_refused (Output : list byte) :
  KDF2.m_isInitialized s = true -> 0 < size Output < 2 ^ 64 ->
  255 < c + size Output / h ->
  KDF2.Generate s Output
  = Thrown "KDF2:Generate" "KDF2 may only be used for 255 * HashLen bytes of output".
Proof.
  intros Hi Hs Hg.
  pose proof (started_sizes s Hinv) as (Hh & _). fold h in Hh.
  assert (Hc : 1 <= c <= 256) by (destruct Hinv as (_ & _ & Hc & _); exact Hc).
  assert (0 <= size Output / h < 2 ^ 59).
  { split; [apply Z.div_pos; lia|]. apply Z.div_lt_upper_bound; lia. }
  unfold KDF2.Generate. rewrite Hi. cbn [negb]. fold h c.
  destruct (Z.eqb_spec (size Output) 0); [lia|]. cbn [negb].
  destruct (Z.eqb_spec h 0); [lia|].
  rewrite wrap64_small by lia.
  destruct (Z.gtb_spec (c + size Output / h) 255); [reflexivity|lia].
Qed.

Lemma GenerateAt_stream (Output : list byte) (off len : Z) :
  KDF2.m_isInitialized s = true -> 0 < size Output < 2 ^ 64 ->
  0 <= off -> 0 <= len -> off + len <= size Output ->
  c + len / h <= 255 ->
  KDF2.GenerateAt s Output off len
  = Returned (KDF2.set_kdfCounter s (c + kdf2_passes h len),
              splice Output (Z.to_nat off)
                (kdf2_stream d h (KDF2.m_kdfKey s) (KDF2.m_kdfSalt s) c len),
              len).
Proof.
  intros Hi Hs Ho Hl Hfit Hg.
  pose proof (started_sizes s Hinv) as (Hh & _). fold h in Hh.
  assert (Hc : 1 <= c <= 256) by (destruct Hinv as (_ & _ & Hc & _); exact Hc).
  assert (0 <= len / h) by (apply Z.div_pos; lia).
  unfold KDF2.GenerateAt. rewrite Hi. cbn [negb]. fold h c.
  destruct (Z.eqb_spec (size Output) 0); [lia|]. cbn [negb].
  destruct (Z.eqb_spec h 0); [lia|].
  rewrite wrap64_small by lia.
  destruct (Z.gtb_spec (c + len / h) 255); [lia|].
  apply Expand_stream; lia.
Qed.

End Generated.

Lemma kdf_ready_run : kdf_run (H := sample_hash) kdf_ready.
Proof.
  apply (run_Initialize (kdf_constructed Digests.SHA256) (Key (sample_key 32))).
  - apply (run_new Digests.SHA256). reflexivity.
  - vm_compute. reflexivity.
Qed.

(** X12: whatever calls a KDF2 object has served, its block counter lies
    between 1 and 256, so the four counter bytes never wrap, and no digest
    input is left pending between two calls. *)
Theorem KDF2_counter_range `{IDigest.Hash} (s : KDF2.t) :
  kdf_run s ->
  1 <= KDF2.m_kdfCounter s <= 256 /\ KDF2.m_msgDigest s = [].
Proof.
  intros Hrun. destruct (kdf_run_inv2 s Hrun) as (_ & Hm & Hc & _).
  split; assumption.
Qed.

Lemma KDF2_counter_range_witness :
  kdf_run (H := sample_hash) kdf_ready
  /\ 1 <= KDF2.m_kdfCounter kdf_ready <= 256 /\ KDF2.m_msgDigest kdf_ready = [].
Proof.
  split; [exact kdf_ready_run|].
  apply (KDF2_counter_range (H := sample_hash)). exact kdf_ready_run.
Defined.

(** X13: Generate on an initialised object fills the whole buffer with the
    first bytes of the blocks Hash(key, counter as 4 big-endian bytes,
    salt) for the counter values from the current one on, and moves the
    counter past every block it began, the last, partly used one
    included; key and salt are unchanged. It throws, and writes nothing,
    when the counter plus the number of whole blocks requested is above
    255. *)
Theorem KDF2_Generate_stream `{IDigest.Hash} (s : KDF2.t) (Output : list byte) :
  kdf_run s -> KDF2.m_isInitialized s = true -> 0 < size Output < 2 ^ 64 ->
  (KDF2.m_kdfCounter s + size Output / KDF2.m_hashSize s <= 255 ->
   KDF2.Generate s Output
   = Returned
       (KDF2.set_kdfCounter s
          (KDF2.m_kdfCounter s + kdf2_passes (KDF2.m_hashSize s) (size Output)),
        kdf2_stream (KDF2.m_kdfDigestType s) (KDF2.m_hashSize s) (KDF2.m_kdfKey s)
          (KDF2.m_kdfSalt s) (KDF2.m_kdfCounter s) (size Output),
        size Output))
  /\ (255 < KDF2.m_kdfCounter s + size Output / KDF2.m_hashSize s ->
      KDF2.Generate s Output
      = Thrown "KDF2:Generate" "KDF2 may only be used for 255 * HashLen bytes of output").
Proof.
  intros Hrun Hi Hs. pose proof (kdf_run_inv2 s Hrun) as Hinv. split; intros Hg.
  - exact (Generate_stream s Hinv Output Hi Hs Hg).
  - exact (Generate_refused s Hinv Output Hi Hs Hg).
Qed.

Lemma KDF2_Generate_stream_witness :
  let Output := replicate 40 x00 in
  KDF2.Generate (H := sample_hash) kdf_ready Output
  = Returned
      (KDF2.set_kdfCounter kdf_ready 3,
       kdf2_block (H := sample_hash) Digests.SHA256 32 (KDF2.m_kdfKey kdf_ready) [] 1
       ++ take 8 (kdf2_block (H := sample_hash) Digests.SHA256 32
                    (KDF2.m_kdfKey kdf_ready) [] 2),
       40).
Proof.
  cbv zeta.
  destruct (KDF2_Generate_stream (H := sample_hash) kdf_ready (replicate 40 x00))
    as [Hok _];
    [exact kdf_ready_run | reflexivity | vm_compute; split; reflexivity |].
  rewrite Hok by (vm_compute; congruence).
  vm_compute. reflexivity.
Defined.

(** X14: Generate with an offset and a length writes the next [Length]
    bytes of the stream at the offset and leaves every other byte of the
    buffer as it was; the bytes and the state that follows are those of
    Generate on a buffer of [Length] bytes. A length of zero writes
    nothing and still uses up one counter value. *)
Theorem KDF2_GenerateAt_frame `{IDigest.Hash} (s : KDF2.t) (Output : list byte)
    (OutOffset Length : Z) :
  kdf_run s -> KDF2.m_isInitialized s = true -> 0 < size Output < 2 ^ 64 ->
  0 <= OutOffset -> 0 <= Length -> OutOffset + Length <= size Output ->
  KDF2.m_kdfCounter s + Length / KDF2.m_hashSize s <= 255 ->
  exists (s' : KDF2.t) (Output' : list byte),
    KDF2.GenerateAt s Output OutOffset Length = Returned (s', Output', Length)
    /\ size Output' = size Output
    /\ take (Z.to_nat OutOffset) Output' = take (Z.to_nat OutOffset) Output
    /\ drop (Z.to_nat (OutOffset + Length)) Output'
       = drop (Z.to_nat (OutOffset + Length)) Output
    /\ (0 < Length ->
        KDF2.Generate s (replicate (Z.to_nat Length) x00)
        = Returned (s', take (Z.to_nat Length) (drop (Z.to_nat OutOffset) Output'),
                    Length))
    /\ (Length = 0 ->
        Output' = Output
        /\ s' = KDF2.set_kdfCounter s (KDF2.m_kdfCounter s + 1)).
Proof.
  intros Hrun Hi Hs Ho Hl Hfit Hg. pose proof (kdf_run_inv2 s Hrun) as Hinv.
  pose proof (started_sizes s Hinv) as (Hh & _).
  set (B := kdf2_stream (KDF2.m_kdfDigestType s) (KDF2.m_hashSize s) (KDF2.m_kdfKey s)
              (KDF2.m_kdfSalt s) (KDF2.m_kdfCounter s) Length).
  assert (LB : length B = Z.to_nat Length)
    by (unfold B; apply kdf2_stream_length; lia).
  exists (KDF2.set_kdfCounter s
            (KDF2.m_kdfCounter s + kdf2_passes (KDF2.m_hashSize s) Length)),
         (splice Output (Z.to_nat OutOffset) B).
  split; [exact (GenerateAt_stream s Hinv Output OutOffset Length Hi Hs Ho Hl Hfit Hg)|].
  split; [apply size_splice; unfold size in *; lia|].
  split; [apply splice_take_before; unfold size in *; lia|].
  split.
  { replace (Z.to_nat (OutOffset + Length)) with (Z.to_nat OutOffset + length B)%nat by lia.
    apply splice_drop_after. unfold size in *. lia. }
  split.
  - intros Hp.
    rewrite <- LB at 2. rewrite splice_read by (unfold size in *; lia).
    assert (Er : size (replicate (Z.to_nat Length) x00) = Length)
      by (rewrite size_replicate; lia).
    rewrite (Generate_stream s Hinv) by (rewrite ?Er; first [assumption | lia]).
    rewrite Er. reflexivity.
  - intros ->. destruct B; [|discriminate LB].
    rewrite splice_nil. split; reflexivity.
Qed.

Lemma KDF2_GenerateAt_frame_witness :
  exists (s' : KDF2.t) (Output' : list byte),
    KDF2.GenerateAt (H := sample_hash) kdf_ready (replicate 50 xff) 5 40
    = Returned (s', Output', 40)
    /\ take 5 Output' = replicate 5 xff
    /\ drop 45 Output' = replicate 5 xff
    /\ KDF2.Generate (H := sample_hash) kdf_ready (replicate 40 x00)
       = Returned (s', take 40 (drop 5 Output'), 40).
Proof.
  destruct (KDF2_GenerateAt_frame (H := sample_hash) kdf_ready (replicate 50 xff) 5 40)
    as (s' & O' & E & _ & Ht & Hd & Hgen & _);
    [exact kdf_ready_run | reflexivity | vm_compute; split; reflexivity
    | lia | lia | vm_compute; congruence | vm_compute; congruence |].
  exists s', O'. split; [exact E|]. split; [exact Ht|]. split; [exact Hd|].
  apply Hgen. lia.
Defined.

(** X15: output taken in whole blocks can be taken in pieces: when the
    first request is a multiple of the digest size, two calls of Generate
    return, one after the other, the bytes one call for the sum of the
    lengths returns, and leave the same state. *)
Theorem KDF2_Generate_compose `{IDigest.Hash} (s : KDF2.t) (Out1 Out2 : list byte) :
  kdf_run s -> KDF2.m_isInitialized s = true ->
  0 < size Out1 -> 0 < size Out2 -> size Out1 + size Out2 < 2 ^ 64 ->
  size Out1 mod KDF2.m_hashSize s = 0 ->
  KDF2.m_kdfCounter s + (size Out1 + size Out2) / KDF2.m_hashSize s <= 255 ->
  exists (s1 s2 : KDF2.t) (R1 R2 : list byte),
    KDF2.Generate s Out1 = Returned (s1, R1, size Out1)
    /\ KDF2.Generate s1 Out2 = Returned (s2, R2, size Out2)
    /\ KDF2.Generate s (Out1 ++ Out2) = Returned (s2, R1 ++ R2, size Out1 + size Out2).
Proof.
  intros Hrun Hi H1 H2 Hb Hm Hg. pose proof (kdf_run_inv2 s Hrun) as Hinv.
  pose proof (started_sizes s Hinv) as (Hh & _).
  set (h := KDF2.m_hashSize s) in *. set (c := KDF2.m_kdfCounter s) in *.
  destruct (kdf2_passes_whole h (size Out1) ltac:(lia) H1 Hm) as [Ep Eq].
  assert (Ediv : (size Out1 + size Out2) / h = size Out1 / h + size Out2 / h).
  { rewrite Eq at 1. rewrite Z.add_comm, Z.div_add by lia. lia. }
  assert (0 <= size Out2 / h) by (apply Z.div_pos; lia).
  assert (0 < size Out1 / h) by nia.
  assert (E1 : KDF2.Generate s Out1
               = Returned (KDF2.set_kdfCounter s (c + size Out1 / h),
                           kdf2_stream (KDF2.m_kdfDigestType s) h (KDF2.m_kdfKey s)
                             (KDF2.m_kdfSalt s) c (size Out1),
                           size Out1)).
  { rewrite (Generate_stream s Hinv) by (first [assumption | fold h c; lia]).
    fold h c. rewrite Ep. reflexivity. }
  set (s1 := KDF2.set_kdfCounter s (c + size Out1 / h)) in *.
  assert (Hrun1 : kdf_run s1)
    by (apply (run_Generate s Out1 s1 _ _ Hrun ltac:(lia) E1)).
  pose proof (kdf_run_inv2 s1 Hrun1) as Hinv1.
  destruct (kdf2_stream_app (KDF2.m_kdfDigestType s) h (KDF2.m_kdfKey s)
              (KDF2.m_kdfSalt s) c (size Out1) (size Out2)
              ltac:(lia) H1 H2 Hm) as [Epp Est].
  exists s1,
    (KDF2.set_kdfCounter s1 (c + size Out1 / h + kdf2_passes h (size Out2))),
    (kdf2_stream (KDF2.m_kdfDigestType s) h (KDF2.m_kdfKey s) (KDF2.m_kdfSalt s) c
       (size Out1)),
    (kdf2_stream (KDF2.m_kdfDigestType s) h (KDF2.m_kdfKey s) (KDF2.m_kdfSalt s)
       (c + size Out1 / h) (size Out2)).
  split; [exact E1|]. split.
  - rewrite (Generate_stream s1 Hinv1);
      [reflexivity | exact Hi | lia |].
    change (KDF2.m_kdfCounter s1) with (c + size Out1 / h).
    change (KDF2.m_hashSize s1) with h. lia.
  - rewrite (Generate_stream s Hinv);
      [| exact Hi | rewrite size_app; lia | rewrite size_app; fold h c; lia].
    rewrite size_app. fold h c. rewrite Epp, Est.
    apply f_equal. apply (f_equal (fun x => (x, _, _))).
    apply KDF2_state_eq; kdf_fields; first [reflexivity | lia].
Qed.

Lemma KDF2_Generate_compose_witness :
  exists (s1 s2 : KDF2.t) (R1 R2 : list byte),
    KDF2.Generate (H := sample_hash) kdf_ready (replicate 64 x00)
    = Returned (s1, R1, 64)
    /\ KDF2.Generate (H := sample_hash) s1 (replicate 7 x00) = Returned (s2, R2, 7)
    /\ KDF2.Generate (H := sample_hash) kdf_ready (replicate 71 x00)
       = Returned (s2, R1 ++ R2, 71).
Proof.
  destruct (KDF2_Generate_compose (H := sample_hash) kdf_ready
              (replicate 64 x00) (replicate 7 x00))
    as (s1 & s2 & R1 & R2 & E1 & E2 & E3);
    [exact kdf_ready_run | reflexivity | reflexivity | reflexivity
    | vm_compute; reflexivity | reflexivity | vm_compute; congruence |].
  exists s1, s2, R1, R2. split; [exact E1|]. split; [exact E2|]. exact E3.
Defined.

(** X16: Reset puts a KDF2 object back into the state in which its
    constructor left it: no key, no salt, the counter at 1, not
    initialised, and the digest, the sizes and the legal key sizes of its
    digest type. *)
Theorem KDF2_Reset_constructed `{IDigest.Hash} (s : KDF2.t) :
  kdf_run s ->
  KDF2.new (KDF2.m_kdfDigestType s) = Returned (KDF2.Reset s)
  /\ KDF2.IsInitialized (KDF2.Reset s) = false
  /\ KDF2.m_kdfKey (KDF2.Reset s) = [] /\ KDF2.m_kdfSalt (KDF2.Reset s) = []
  /\ KDF2.m_kdfCounter (KDF2.Reset s) = 1.
Proof.
  intros Hrun. pose proof (kdf_run_inv2 s Hrun) as Hinv.
  split; [|repeat split].
  rewrite (Reset_constructed s Hinv).
  destruct Hinv as ((Hd & _) & _). unfold KDF2.new.
  destruct (KDF2.m_kdfDigestType s); [congruence | reflexivity | reflexivity].
Qed.

Lemma KDF2_Reset_constructed_witness :
  KDF2.new Digests.SHA256 = Returned (KDF2.Reset kdf_ready).
Proof.
  apply (KDF2_Reset_constructed (H := sample_hash) kdf_ready). exact kdf_ready_run.
Defined.

(** X17: Initialize(Key) with a key longer than the block size of the
    digest keeps the first block of it as the key and the rest as the
    salt; when the rest has the minimum salt length, that is the state
    Initialize(Key, Salt) reaches from the two parts. *)
Theorem KDF2_Initialize_long_key `{IDigest.Hash} (s : KDF2.t) (Key : list byte) :
  kdf_run s -> KDF2.m_blockSize s < size Key < 2 ^ 64 ->
  exists s' : KDF2.t,
    KDF2.Initialize s Key = Returned s'
    /\ KDF2.m_kdfKey s' = take (Z.to_nat (KDF2.m_blockSize s)) Key
    /\ KDF2.m_kdfSalt s' = drop (Z.to_nat (KDF2.m_blockSize s)) Key
    /\ KDF2.m_kdfKey s' ++ KDF2.m_kdfSalt s' = Key
    /\ KDF2.m_kdfCounter s' = 1
    /\ KDF2.m_isInitialized s' = true
    /\ (KDF2.MIN_SALTLEN <= size Key - KDF2.m_blockSize s ->
        KDF2.Initialize2 s (take (Z.to_nat (KDF2.m_blockSize s)) Key)
          (drop (Z.to_nat (KDF2.m_blockSize s)) Key)
        = Returned s').
Proof.
  intros Hrun Hk. pose proof (kdf_run_inv2 s Hrun) as Hinv.
  pose proof (started_sizes s Hinv) as (Hh & Hb & Hhb).
  eexists. split; [exact (Initialize_long s Hinv Key Hk)|].
  split; [reflexivity|]. split; [reflexivity|].
  split; [apply take_drop|]. split; [reflexivity|]. split; [reflexivity|].
  intros Hs. apply (Initialize2_started s Hinv).
  - unfold size in *. rewrite length_take. lia.
  - unfold size in *. rewrite length_drop. lia.
Qed.

Lemma KDF2_Initialize_long_key_witness :
  exists s' : KDF2.t,
    KDF2.Initialize kdf_ready (Key (sample_key 70)) = Returned s'
    /\ KDF2.m_kdfKey s' = take 64 (Key (sample_key 70))
    /\ KDF2.m_kdfSalt s' = drop 64 (Key (sample_key 70))
    /\ KDF2.Initialize2 kdf_ready (take 64 (Key (sample_key 70)))
         (drop 64 (Key (sample_key 70)))
       = Returned s'.
Proof.
  destruct (KDF2_Initialize_long_key (H := sample_hash) kdf_ready (Key (sample_key 70)))
    as (s' & E & Ek & Es & _ & _ & _ & E2);
    [exact kdf_ready_run | vm_compute; split; reflexivity |].
  exists s'. split; [exact E|]. split; [exact Ek|]. split; [exact Es|].
  apply E2. vm_compute. congruence.
Defined.

(** X18: Initialize(Key, Salt, Info) appends the info to the salt: it
    reaches the state of Initialize(Key, Salt ++ Info), with the key kept
    as given, not padded to a block. *)
Theorem KDF2_Initialize_info_appended `{IDigest.Hash} (s : KDF2.t)
    (Key Salt Info : list byte) :
  kdf_run s ->
  KDF2.m_hashSize s <= size Key ->
  KDF2.MIN_SALTLEN <= size Salt -> 0 < size Salt ->
  size Salt + size Info < 2 ^ 64 ->
  exists s' : KDF2.t,
    KDF2.Initialize3 s Key Salt Info = Returned s'
    /\ KDF2.Initialize2 s Key (Salt ++ Info) = Returned s'
    /\ KDF2.m_kdfKey s' = Key
    /\ KDF2.m_kdfSalt s' = Salt ++ Info
    /\ KDF2.m_kdfCounter s' = 1
    /\ KDF2.m_isInitialized s' = true.
Proof.
  intros Hrun Hk Hs Hp Hb. pose proof (kdf_run_inv2 s Hrun) as Hinv.
  eexists. split; [exact (Initialize3_started s Hinv Key Salt Info Hk Hs Hp Hb)|].
  split; [|repeat split].
  apply (Initialize2_started s Hinv); [exact Hk|].
  rewrite size_app. pose proof (size_nonneg Info). lia.
Qed.

Lemma KDF2_Initialize_info_appended_witness :
  let K := Key (sample_key 40) in
  exists s' : KDF2.t,
    KDF2.Initialize3 kdf_ready K [x01; x02; x03; x04] [x05; x06] = Returned s'
    /\ KDF2.Initialize2 kdf_ready K [x01; x02; x03; x04; x05; x06] = Returned s'
    /\ KDF2.m_kdfKey s' = K.
Proof.
  cbv zeta.
  destruct (KDF2_Initialize_info_appended (H := sample_hash) kdf_ready
              (Key (sample_key 40)) [x01; x02; x03; x04] [x05; x06])
    as (s' & E3 & E2 & Ek & _);
    [exact kdf_ready_run | vm_compute; congruence | vm_compute; congruence
    | reflexivity | reflexivity |].
  exists s'. split; [exact E3|]. split; [exact E2|]. exact Ek.
Defined.

(** X19: the outcome of Initialize, in each of its forms, and of ReSeed
    does not depend on what the object did before: it is the outcome of
    the same call on an object that was just constructed for the digest
    type. A key, a salt or a counter of an earlier use never reaches the
    new state. *)
Theorem KDF2_Initialize_history_free `{IDigest.Hash} (s : KDF2.t)
    (Key Salt Info : list byte) :
  kdf_run s ->
  forall fresh : KDF2.t,
    KDF2.new (KDF2.m_kdfDigestType s) = Returned fresh ->
    KDF2.Initialize s Key = KDF2.Initialize fresh Key
    /\ KDF2.Initialize2 s Key Salt = KDF2.Initialize2 fresh Key Salt
    /\ KDF2.Initialize3 s Key Salt Info = KDF2.Initialize3 fresh Key Salt Info
    /\ KDF2.ReSeed s Key = KDF2.ReSeed fresh Key.
Proof.
  intros Hrun fresh Hnew. pose proof (kdf_run_inv2 s Hrun) as Hinv.
  assert (Hf : fresh = kdf_constructed (KDF2.m_kdfDigestType s)).
  { unfold KDF2.new in Hnew. destruct (negb _); [|discriminate].
    injection Hnew as <-. reflexivity. }
  pose proof (kdf_cleared_constructed s Hinv) as Ec.
  assert (Eh : KDF2.m_hashSize fresh = KDF2.m_hashSize s).
  { destruct Hinv as ((_ & Hh & _) & _). rewrite Hf, Hh. reflexivity. }
  assert (Ef : kdf_cleared fresh = kdf_cleared s) by (rewrite Ec, Hf; reflexivity).
  assert (E1 : KDF2.Initialize s Key = KDF2.Initialize fresh Key).
  { unfold KDF2.Initialize. cbv zeta. rewrite Eh.
    change (if KDF2.m_isInitialized s then KDF2.Reset s else s) with (kdf_cleared s).
    change (if KDF2.m_isInitialized fresh then KDF2.Reset fresh else fresh)
      with (kdf_cleared fresh).
    rewrite Ef. reflexivity. }
  split; [exact E1|]. split; [|split].
  - unfold KDF2.Initialize2. cbv zeta. rewrite Eh.
    change (if KDF2.m_isInitialized s then KDF2.Reset s else s) with (kdf_cleared s).
    change (if KDF2.m_isInitialized fresh then KDF2.Reset fresh else fresh)
      with (kdf_cleared fresh).
    rewrite Ef. reflexivity.
  - unfold KDF2.Initialize3. cbv zeta. rewrite Eh.
    change (if KDF2.m_isInitialized s then KDF2.Reset s else s) with (kdf_cleared s).
    change (if KDF2.m_isInitialized fresh then KDF2.Reset fresh else fresh)
      with (kdf_cleared fresh).
    rewrite Ef. reflexivity.
  - unfold KDF2.ReSeed. rewrite Eh, E1. reflexivity.
Qed.

Lemma KDF2_Initialize_history_free_witness :
  let K := Key (sample_key 40) in
  let fresh := kdf_constructed Digests.SHA256 in
  KDF2.m_kdfKey kdf_ready <> []
  /\ KDF2.Initialize2 kdf_ready K [x01; x02; x03; x04]
     = KDF2.Initialize2 fresh K [x01; x02; x03; x04]
  /\ KDF2.ReSeed kdf_ready K = KDF2.ReSeed fresh K.
Proof.
  cbv zeta. split; [vm_compute; discriminate|].
  destruct (KDF2_Initialize_history_free (H := sample_hash) kdf_ready
              (Key (sample_key 40)) [x01; x02; x03; x04] [] kdf_ready_run
              (kdf_constructed Digests.SHA256) eq_refl)
    as (_ & E2 & _ & Er).
  split; [exact E2 | exact Er].
Defined.

(** X25: Initialize on a key container takes the nonce as the salt and
    appends the info to it, with the key stored as given; a nonce shorter
    than the minimum salt length is refused; and the info of a container
    without a nonce is dropped: the call is Initialize(Key). *)
Theorem KDF2_InitializeKey_container `{IDigest.Hash} (s : KDF2.t) (GenParam : ISymmetricKey) :
  kdf_run s ->
  KDF2.m_hashSize s <= size (Key GenParam) ->
  size (Nonce GenParam) + size (Info GenParam) < 2 ^ 64 ->
  (size (Nonce GenParam) = 0 ->
   KDF2.InitializeKey s GenParam = KDF2.Initialize s (Key GenParam))
  /\ (0 < size (Nonce GenParam) < KDF2.MIN_SALTLEN ->
      KDF2.InitializeKey s GenParam
      = Thrown "KDF2:Initialize" "Salt size is too small; must be a minumum of 4 bytes!")
  /\ (0 < size (Nonce GenParam) -> KDF2.MIN_SALTLEN <= size (Nonce GenParam) ->
      exists s' : KDF2.t,
        KDF2.InitializeKey s GenParam = Returned s'
        /\ KDF2.m_kdfKey s' = Key GenParam
        /\ KDF2.m_kdfSalt s' = Nonce GenParam ++ Info GenParam
        /\ KDF2.m_kdfCounter s' = 1
        /\ KDF2.m_isInitialized s' = true).
Proof.
  intros Hrun Hk Hb. pose proof (kdf_run_inv2 s Hrun) as Hinv.
  unfold KDF2.InitializeKey. split; [|split].
  - intros ->. reflexivity.
  - intros [Hp Hlt]. destruct (Z.eqb_spec (size (Nonce GenParam)) 0); [lia|].
    cbn [negb]. unfold KDF2.Initialize3, KDF2.Initialize2.
    destruct (Z.ltb_spec (size (Key GenParam)) (KDF2.m_hashSize s)); [lia|].
    destruct (Z.ltb_spec (size (Nonce GenParam)) KDF2.MIN_SALTLEN); [|lia].
    destruct (negb _); reflexivity.
  - intros Hp Hmin. destruct (Z.eqb_spec (size (Nonce GenParam)) 0); [lia|].
    cbn [negb]. destruct (Z.eqb_spec (size (Info GenParam)) 0) as [Ez|Enz]; cbn [negb].
    + assert (Info GenParam = []) as ->
        by (destruct (Info GenParam); [reflexivity | unfold size in Ez; cbn in Ez; lia]).
      rewrite app_nil_r. eexists.
      split; [apply (Initialize2_started s Hinv); assumption|].
      repeat split.
    + eexists. split; [apply (Initialize3_started s Hinv); assumption|].
      repeat split.
Qed.

Lemma KDF2_InitializeKey_container_witness :
  let K := Key (sample_key 40) in
  (exists s' : KDF2.t,
      KDF2.InitializeKey kdf_ready
        {| Key := K; Nonce := [x01; x02; x03; x04]; Info := [x05; x06] |} = Returned s'
      /\ KDF2.m_kdfKey s' = K
      /\ KDF2.m_kdfSalt s' = [x01; x02; x03; x04; x05; x06])
  /\ KDF2.InitializeKey kdf_ready {| Key := K; Nonce := []; Info := [x05; x06] |}
     = KDF2.Initialize kdf_ready K.
Proof.
  cbv zeta. split.
  - destruct (KDF2_InitializeKey_container (H := sample_hash) kdf_ready
                {| Key := Key (sample_key 40); Nonce := [x01; x02; x03; x04];
                   Info := [x05; x06] |})
      as (_ & _ & Hok);
      [exact kdf_ready_run | vm_compute; congruence | reflexivity |].
    destruct Hok as (s' & E & Ek & Es & _);
      [reflexivity | vm_compute; congruence |].
    exists s'. split; [exact E|]. split; [exact Ek | exact Es].
  - destruct (KDF2_InitializeKey_container (H := sample_hash) kdf_ready
                {| Key := Key (sample_key 40); Nonce := []; Info := [x05; x06] |})
      as (Hdrop & _);
      [exact kdf_ready_run | vm_compute; congruence | reflexivity |].
    apply Hdrop. reflexivity.
Defined.

(** ** StreamWriter: a vector and its elements *)

Lemma grown_app (state : list byte) (n : Z) :
  grown state n = state ++ replicate (Z.to_nat n - length state) x00.
Proof.
  unfold grown. rewrite Z.gtb_ltb. destruct (Z.ltb_spec (size state) n) as [Hlt|Hge].
  - unfold resize_to. rewrite take_ge by (unfold size in *; lia). reflexivity.
  - replace (Z.to_nat n - length state)%nat with 0%nat by (unfold size in *; lia).
    cbn [replicate]. now rewrite app_nil_r.
Qed.

Lemma splice_app_l {A : Type} (v w : list A) (off : nat) (xs : list A) :
  (off + length xs <= length v)%nat ->
  splice (v ++ w) off xs = splice v off xs ++ w.
Proof.
  intros Hfit. unfold splice.
  rewrite take_app_le by lia. rewrite drop_app_le by lia.
  now rewrite <- !app_assoc.
Qed.

Lemma grown_splice (state : list byte) (p : nat) (a : list byte) (n : Z) :
  Z.of_nat (p + length a) <= n ->
  grown (splice (grown state (Z.of_nat (p + length a))) p a) n
  = splice (grown state n) p a.
Proof.
  intros Hn.
  pose proof (size_grown state (Z.of_nat (p + length a))) as Hg.
  rewrite (grown_app (splice _ _ _)).
  rewrite splice_length by (unfold size in Hg; lia).
  rewrite <- splice_app_l by (unfold size in Hg; lia).
  f_equal. rewrite (grown_app state n).
  rewrite (grown_app state (Z.of_nat (p + length a))) at 1.
  rewrite <- app_assoc. f_equal.
  rewrite <- replicate_add. f_equal.
  rewrite grown_app, length_app, length_replicate. lia.
Qed.

Lemma Write_spec (host : StreamWriter.Endian) (T : StreamWriter.IntType)
    (s : StreamWriter.t) (Value : Z) :
  0 <= StreamWriter.m_streamPosition s ->
  StreamWriter.m_streamPosition s + StreamWriter.sizeof T < 2 ^ 64 ->
  StreamWriter.Write host T s Value
  = Returned
      {| StreamWriter.m_streamPosition :=
           StreamWriter.m_streamPosition s + StreamWriter.sizeof T;
         StreamWriter.m_streamState :=
           splice (grown (StreamWriter.m_streamState s)
                     (StreamWriter.m_streamPosition s + StreamWriter.sizeof T))
                  (Z.to_nat (StreamWriter.m_streamPosition s))
                  (IntUtils.le_encode (Z.to_nat (StreamWriter.sizeof T)) Value) |}.
Proof.
  intros Hp Hmax. unfold StreamWriter.Write. cbv zeta.
  rewrite (wrap64_small (_ + _)) by (destruct T; cbn in *; lia).
  fold (grown (StreamWriter.m_streamState s)
          (StreamWriter.m_streamPosition s + StreamWriter.sizeof T)).
  pose proof (size_grown (StreamWriter.m_streamState s)
                (StreamWriter.m_streamPosition s + StreamWriter.sizeof T)) as Hg.
  assert (E8 : take (Z.to_nat 1) (StreamWriter.object_bytes host StreamWriter.UInt8 Value)
               = IntUtils.le_encode (Z.to_nat 1) Value)
    by (destruct host; reflexivity).
  destruct T;
    cbn [StreamWriter.sizeof Z.eqb Pos.eqb] in *;
    unfold IntUtils.Le16ToBytes, IntUtils.Le32ToBytes, IntUtils.Le64ToBytes,
      StreamWriter.CopyFromValue;
    rewrite ?E8;
    (rewrite vwrite_splice by (unfold size in *; rewrite ?le_encode_length; lia));
    reflexivity.
Qed.

Lemma WriteVector_spec (host : StreamWriter.Endian) (T : StreamWriter.IntType)
    (s : StreamWriter.t) (Input : list Z) :
  0 <= StreamWriter.m_streamPosition s ->
  StreamWriter.m_streamPosition s + size Input * StreamWriter.sizeof T < 2 ^ 64 ->
  StreamWriter.WriteVector T s Input
  = Returned
      {| StreamWriter.m_streamPosition :=
           StreamWriter.m_streamPosition s + size Input * StreamWriter.sizeof T;
         StreamWriter.m_streamState :=
           splice (grown (StreamWriter.m_streamState s)
                     (StreamWriter.m_streamPosition s
                      + size Input * StreamWriter.sizeof T))
                  (Z.to_nat (StreamWriter.m_streamPosition s))
                  (concat (map (IntUtils.le_encode (Z.to_nat (StreamWriter.sizeof T)))
                             Input)) |}.
Proof.
  intros Hp Hmax. unfold StreamWriter.WriteVector. cbv zeta.
  assert (Hsz : 1 <= StreamWriter.sizeof T <= 8) by (destruct T; cbn; lia).
  pose proof (size_nonneg Input) as Hn.
  rewrite (wrap64_small (size Input * _)) by nia.
  rewrite (wrap64_small (_ + _)) by nia.
  fold (grown (StreamWriter.m_streamState s)
          (StreamWriter.m_streamPosition s + size Input * StreamWriter.sizeof T)).
  pose proof (size_grown (StreamWriter.m_streamState s)
                (StreamWriter.m_streamPosition s + size Input * StreamWriter.sizeof T))
    as Hg.
  replace (size Input * StreamWriter.sizeof T)
    with (StreamWriter.sizeof T * Z.of_nat (length Input)) in * by (unfold size; lia).
  rewrite LeToBlock_spec by (unfold size in *; lia).
  rewrite obind_Returned. change (Z.to_nat 0) with 0%nat.
  rewrite drop_0, take_ge by lia. reflexivity.
Qed.

Lemma Write_each_spec (host : StreamWriter.Endian) (T : StreamWriter.IntType)
    (Input : list Z) :
  forall s : StreamWriter.t,
    0 <= StreamWriter.m_streamPosition s <= size (StreamWriter.m_streamState s) ->
    StreamWriter.m_streamPosition s + size Input * StreamWriter.sizeof T < 2 ^ 64 ->
    Write_each host T s Input
    = Returned
        {| StreamWriter.m_streamPosition :=
             StreamWriter.m_streamPosition s + size Input * StreamWriter.sizeof T;
           StreamWriter.m_streamState :=
             splice (grown (StreamWriter.m_streamState s)
                       (StreamWriter.m_streamPosition s
                        + size Input * StreamWriter.sizeof T))
                    (Z.to_nat (StreamWriter.m_streamPosition s))
                    (concat (map (IntUtils.le_encode (Z.to_nat (StreamWriter.sizeof T)))
                               Input)) |}.
Proof.
  assert (Hsz : 1 <= StreamWriter.sizeof T <= 8) by (destruct T; cbn; lia).
  induction Input as [|x rest IH]; intros [p st] Hp Hmax;
    cbn [StreamWriter.m_streamPosition StreamWriter.m_streamState] in *.
  - cbn [Write_each map concat]. rewrite splice_nil.
    change (size (@nil Z)) with 0. rewrite Z.mul_0_l, Z.add_0_r.
    rewrite grown_app.
    replace (Z.to_nat p - length st)%nat with 0%nat by (unfold size in *; lia).
    cbn [replicate]. now rewrite app_nil_r.
  - assert (Es : size (x :: rest) = size rest + 1) by (unfold size; cbn [length]; lia).
    pose proof (size_nonneg rest) as Hn. rewrite Es in *.
    cbn [Write_each]. rewrite Write_spec by (cbn; nia).
    rewrite obind_Returned.
    cbn [StreamWriter.m_streamPosition StreamWriter.m_streamState].
    set (sz := StreamWriter.sizeof T) in *.
    set (a := IntUtils.le_encode (Z.to_nat sz) x).
    assert (La : length a = Z.to_nat sz) by apply le_encode_length.
    pose proof (size_grown st (p + sz)) as Hg.
    rewrite IH; cbn [StreamWriter.m_streamPosition StreamWriter.m_streamState];
      [|rewrite size_splice by (unfold size in *; lia); lia | nia].
    f_equal. f_equal; [lia|].
    cbn [map concat]. fold a.
    replace (p + sz) with (Z.of_nat (Z.to_nat p + length a)) at 1 by lia.
    replace (p + sz + size rest * sz) with (p + (size rest + 1) * sz) by lia.
    rewrite grown_splice by nia.
    pose proof (size_grown st (p + (size rest + 1) * sz)) as Hg2.
    replace (Z.to_nat (p + sz)) with (Z.to_nat p + length a)%nat by lia.
    apply splice_after.
    rewrite (concat_encode_length _ (Z.to_nat sz)) by (intros; apply le_encode_length).
    unfold size in *. nia.
Qed.

(** X20: writing a vector is writing its elements one at a time: from a
    Position inside the stream, Write(vector) and a loop of Write(value)
    over the elements lead to the same stream and the same Position, on a
    host of either byte order and for every element type. The bytes
    before Position are kept, the elements follow with the least
    significant byte first, and Position ends inside the stream. *)
Theorem StreamWriter_WriteVector_elementwise (host : StreamWriter.Endian)
    (T : StreamWriter.IntType) (s : StreamWriter.t) (Input : list Z) :
  0 <= StreamWriter.Position s <= size (StreamWriter.GetBytes s) ->
  StreamWriter.Position s + size Input * StreamWriter.sizeof T < 2 ^ 64 ->
  exists s' : StreamWriter.t,
    StreamWriter.WriteVector T s Input = Returned s'
    /\ Write_each host T s Input = Returned s'
    /\ StreamWriter.Position s' = StreamWriter.Position s + size Input * StreamWriter.sizeof T
    /\ StreamWriter.Position s' <= size (StreamWriter.GetBytes s')
    /\ take (Z.to_nat (StreamWriter.Position s)) (StreamWriter.GetBytes s')
       = take (Z.to_nat (StreamWriter.Position s)) (StreamWriter.GetBytes s)
    /\ drop (Z.to_nat (StreamWriter.Position s)) (StreamWriter.GetBytes s')
       = concat (map (IntUtils.le_encode (Z.to_nat (StreamWriter.sizeof T))) Input)
         ++ drop (Z.to_nat (StreamWriter.Position s')) (StreamWriter.GetBytes s).
Proof.
  unfold StreamWriter.Position, StreamWriter.GetBytes. intros Hp Hmax.
  assert (Hsz : 1 <= StreamWriter.sizeof T <= 8) by (destruct T; cbn; lia).
  pose proof (size_nonneg Input) as Hn.
  set (N := StreamWriter.m_streamPosition s + size Input * StreamWriter.sizeof T) in *.
  set (B := concat (map (IntUtils.le_encode (Z.to_nat (StreamWriter.sizeof T))) Input)).
  assert (LB : length B = Z.to_nat (size Input * StreamWriter.sizeof T)).
  { unfold B. rewrite (concat_encode_length _ (Z.to_nat (StreamWriter.sizeof T)))
      by (intros; apply le_encode_length). unfold size. nia. }
  pose proof (size_grown (StreamWriter.m_streamState s) N) as Hg.
  eexists. split; [apply (WriteVector_spec host); [lia | exact Hmax]|].
  split; [apply Write_each_spec; [exact Hp | exact Hmax]|].
  cbn [StreamWriter.m_streamPosition StreamWriter.m_streamState]. fold N B.
  split; [reflexivity|].
  split; [rewrite size_splice by (unfold size in *; nia); exact Hg|].
  split.
  - rewrite splice_take_before by (unfold size in *; nia).
    rewrite grown_app, take_app_le by (unfold size in *; lia). reflexivity.
  - unfold splice. rewrite drop_app_length'
      by (rewrite length_take; unfold size in *; nia).
    f_equal. rewrite grown_app.
    replace (Z.to_nat (StreamWriter.m_streamPosition s) + length B)%nat
      with (Z.to_nat N) by (unfold N; nia).
    destruct (Z_le_gt_dec N (size (StreamWriter.m_streamState s))) as [Hle|Hgt].
    + replace (Z.to_nat N - length (StreamWriter.m_streamState s))%nat with 0%nat
        by (unfold size in *; lia).
      cbn [replicate]. now rewrite app_nil_r.
    + rewrite drop_ge by (rewrite length_app, length_replicate; unfold size in *; lia).
      rewrite drop_ge by (unfold size in *; lia). reflexivity.
Qed.

Lemma StreamWriter_WriteVector_elementwise_witness :
  let s := {| StreamWriter.m_streamPosition := 1;
              StreamWriter.m_streamState := [xaa; xbb] |} in
  let s' := {| StreamWriter.m_streamPosition := 5;
               StreamWriter.m_streamState := [xaa; x02; x01; x04; x03] |} in
  StreamWriter.WriteVector StreamWriter.UInt16 s [258; 772] = Returned s'
  /\ Write_each StreamWriter.BigEndian StreamWriter.UInt16 s [258; 772] = Returned s'.
Proof.
  cbv zeta.
  destruct (StreamWriter_WriteVector_elementwise StreamWriter.BigEndian
              StreamWriter.UInt16
              {| StreamWriter.m_streamPosition := 1;
                 StreamWriter.m_streamState := [xaa; xbb] |} [258; 772])
    as (s' & E1 & E2 & _);
    [vm_compute; split; congruence | vm_compute; reflexivity |].
  rewrite E1, E2. assert (E : Returned s' = Returned s') by reflexivity.
  rewrite <- E1 in E at 2. vm_compute in E. rewrite E. split; reflexivity.
Defined.

(** ** CSG: AbsorbBlock and the reader of LeftEncode *)

Lemma for_each_app {A : Type} (body : A -> Z -> outcome A) (l1 l2 : list Z) :
  forall a : A,
    for_each body (l1 ++ l2) a = (a' <~ for_each body l1 a ;; for_each body l2 a').
Proof.
  induction l1 as [|i l1 IH]; intros a; cbn [app for_each]; [reflexivity|].
  destruct (body a i) as [a'|o m|m|]; cbn [obind]; [apply IH | reflexivity ..].
Qed.

Lemma absorbed_lookup (Input : list byte) (InOffset : Z) (k : nat) (State : list Z)
    (i : nat) :
  absorbed Input InOffset k State !! i
  = (fun x => if (i <? k)%nat then Z.lxor x (absorb_word Input InOffset i) else x)
      <$> State !! i.
Proof. unfold absorbed. apply list_lookup_imap. Qed.

Lemma absorbed_length (Input : list byte) (InOffset : Z) (k : nat) (State : list Z) :
  length (absorbed Input InOffset k State) = length State.
Proof. unfold absorbed. apply length_imap. Qed.

Lemma AbsorbBlock_steps (Input : list byte) (InOffset : Z) (State : list Z) (k : nat) :
  0 <= InOffset -> Z.of_nat k <= size State ->
  InOffset + 8 * Z.of_nat k <= size Input -> size Input < 2 ^ 64 ->
  for_each
    (fun St i =>
       w <~ IntUtils.LeBytesTo64 Input (InOffset +% (i *% CSG.sizeof_ulong)) ;;
       x <~ vget St i ;;
       vset St i (Z.lxor x w))
    (seqZ 0 (Z.of_nat k)) State
  = Returned (absorbed Input InOffset k State).
Proof.
  intros Ho. induction k as [|k IH]; intros Hk Hi Hmax.
  - change (seqZ 0 (Z.of_nat 0)) with (@nil Z). cbn [for_each]. f_equal.
    apply list_eq. intros i. rewrite absorbed_lookup.
    destruct (State !! i); reflexivity.
  - replace (Z.of_nat (S k)) with (Z.of_nat k + 1) by lia.
    rewrite seqZ_app by lia. rewrite for_each_app, IH by lia.
    rewrite obind_Returned. rewrite Z.add_0_l.
    change (seqZ (Z.of_nat k) 1) with [Z.of_nat k]. cbn [for_each].
    unfold CSG.sizeof_ulong, IntUtils.LeBytesTo64.
    rewrite (wrap64_small (Z.of_nat k * 8)) by lia.
    rewrite (wrap64_small (InOffset + _)) by lia.
    rewrite vread_in by lia. rewrite !obind_Returned.
    destruct (lookup_lt_is_Some_2 State k) as [x Hx]; [unfold size in *; lia|].
    assert (Hax : absorbed Input InOffset k State !! Z.to_nat (Z.of_nat k) = Some x).
    { rewrite Nat2Z.id, absorbed_lookup, Hx. cbn [fmap option_fmap option_map].
      rewrite Nat.ltb_irrefl. reflexivity. }
    rewrite (vget_in _ _ x) by (lia || exact Hax). rewrite obind_Returned.
    rewrite vset_in by (unfold size in *; rewrite absorbed_length; lia).
    rewrite obind_Returned. cbn [for_each]. f_equal. rewrite Nat2Z.id.
    apply list_eq. intros i. rewrite absorbed_lookup.
    destruct (decide (i = k)) as [->|Hne].
    + rewrite list_lookup_insert_eq by (rewrite absorbed_length; unfold size in *; lia).
      rewrite Hx. cbn [fmap option_fmap option_map].
      destruct (Nat.ltb_spec k (S k)); [|lia].
      unfold absorb_word.
      replace (InOffset + Z.of_nat k * 8) with (InOffset + 8 * Z.of_nat k) by lia.
      reflexivity.
    + rewrite list_lookup_insert_ne by congruence. rewrite absorbed_lookup.
      destruct (State !! i); [|reflexivity]. cbn [fmap option_fmap option_map].
      destruct (Nat.ltb_spec i k); destruct (Nat.ltb_spec i (S k)); try lia; reflexivity.
Qed.

Lemma AbsorbBlock_absorbed (Input : list byte) (InOffset Length : Z) (State : list Z) :
  0 <= InOffset -> 0 <= Length -> Length / 8 <= size State ->
  InOffset + 8 * (Length / 8) <= size Input -> size Input < 2 ^ 64 ->
  CSG.AbsorbBlock Input InOffset Length State
  = Returned (absorbed Input InOffset (Z.to_nat (Length / 8)) State).
Proof.
  intros Ho Hl Hs Hi Hmax. unfold CSG.AbsorbBlock.
  change (Length / CSG.sizeof_ulong) with (Length / 8).
  assert (0 <= Length / 8) by (apply Z.div_pos; lia).
  rewrite <- (Z2Nat.id (Length / 8)) at 1 by lia.
  apply AbsorbBlock_steps; lia.
Qed.

(** X21: AbsorbBlock xors the first [Length / 8] words of the state with
    the 64-bit little-endian words of the input from [InOffset] on; the
    other words of the state are kept, the bytes of an incomplete last
    word are not read, and absorbing the same input again gives the state
    back. *)
Theorem CSG_AbsorbBlock_xor (Input : list byte) (InOffset Length : Z) (State : list Z) :
  0 <= InOffset -> 0 <= Length -> Length / 8 <= size State ->
  InOffset + 8 * (Length / 8) <= size Input -> size Input < 2 ^ 64 ->
  exists State' : list Z,
    CSG.AbsorbBlock Input InOffset Length State = Returned State'
    /\ length State' = length State
    /\ (forall (i : nat) (x : Z),
           Z.of_nat i < Length / 8 -> State !! i = Some x ->
           State' !! i
           = Some (Z.lxor x (IntUtils.le_decode
                               (take 8 (drop (Z.to_nat (InOffset + 8 * Z.of_nat i)) Input)))))
    /\ (forall i : nat, Length / 8 <= Z.of_nat i -> State' !! i = State !! i)
    /\ CSG.AbsorbBlock Input InOffset (8 * (Length / 8)) State = Returned State'
    /\ CSG.AbsorbBlock Input InOffset Length State' = Returned State.
Proof.
  intros Ho Hl Hs Hi Hmax.
  assert (Hq : 0 <= Length / 8) by (apply Z.div_pos; lia).
  exists (absorbed Input InOffset (Z.to_nat (Length / 8)) State).
  split; [apply AbsorbBlock_absorbed; assumption|].
  split; [apply absorbed_length|].
  split; [|split; [|split]].
  - intros i x Hlt Hx. rewrite absorbed_lookup, Hx. cbn [fmap option_fmap option_map].
    destruct (Nat.ltb_spec i (Z.to_nat (Length / 8))); [reflexivity | lia].
  - intros i Hge. rewrite absorbed_lookup.
    destruct (State !! i); [|reflexivity]. cbn [fmap option_fmap option_map].
    destruct (Nat.ltb_spec i (Z.to_nat (Length / 8))); [lia | reflexivity].
  - rewrite AbsorbBlock_absorbed;
      rewrite ?(Z.mul_comm 8), ?Z.div_mul by lia; first [reflexivity | lia].
  - rewrite AbsorbBlock_absorbed;
      try (unfold size in *; rewrite ?absorbed_length); try lia.
    f_equal. apply list_eq. intros i. rewrite !absorbed_lookup.
    destruct (State !! i) as [x|]; [|reflexivity]. cbn [fmap option_fmap option_map].
    destruct (Nat.ltb_spec i (Z.to_nat (Length / 8))); [|reflexivity].
    rewrite Z.lxor_assoc, Z.lxor_nilpotent, Z.lxor_0_r. reflexivity.
Qed.

Lemma CSG_AbsorbBlock_xor_witness :
  let Input := [x01; x00; x00; x00; x00; x00; x00; x00;
                x00; x01; x00; x00; x00; x00; x00; x00; xff; xff; xff] in
  CSG.AbsorbBlock Input 0 19 [3; 5; 7] = Returned [2; 261; 7]
  /\ CSG.AbsorbBlock Input 0 19 [2; 261; 7] = Returned [3; 5; 7].
Proof.
  cbv zeta.
  destruct (CSG_AbsorbBlock_xor
              [x01; x00; x00; x00; x00; x00; x00; x00;
               x00; x01; x00; x00; x00; x00; x00; x00; xff; xff; xff] 0 19 [3; 5; 7])
    as (State' & E & _ & _ & _ & _ & Eback);
    [lia | lia | vm_compute; congruence | vm_compute; congruence
    | vm_compute; reflexivity |].
  assert (Es : State' = [2; 261; 7])
    by (vm_compute in E; injection E as <-; reflexivity).
  subst State'. split; [exact E | exact Eback].
Defined.

Lemma LeftEncode_splice (Buffer : list byte) (Offset Value : Z) :
  0 <= Value < 2 ^ 64 -> 0 <= Offset ->
  Offset + size (left_encode Value) <= size Buffer -> size Buffer < 2 ^ 64 ->
  CSG.LeftEncode Buffer Offset Value
  = Returned (splice Buffer (Z.to_nat Offset) (left_encode Value),
              size (left_encode Value)).
Proof.
  intros HV Ho Hs Hmax.
  destruct (CountBytes_byte_length Value HV) as (En & Hb & Hlt & Hmin).
  rewrite left_encode_size in *.
  unfold CSG.LeftEncode. cbv zeta. rewrite En.
  rewrite (for_each_store
             (fun i => byte_of_Z
                         (Z.shiftr Value (8 *% (Z.of_nat (byte_length Value) -% i))))
             Offset (byte_length Value) 1 Buffer) by lia.
  rewrite LeftEncode_bytes by lia. rewrite obind_Returned.
  assert (Hl : size (splice Buffer (Z.to_nat (Offset + 1))
                       (IntUtils.be_encode (byte_length Value) Value)) = size Buffer).
  { apply size_splice. unfold size in *. rewrite be_encode_length. lia. }
  rewrite vset_in by (rewrite Hl; lia). rewrite obind_Returned.
  rewrite (wrap64_small (Z.of_nat (byte_length Value) + 1)) by lia.
  f_equal. f_equal.
  rewrite insert_splice by (unfold size in *; lia).
  replace (Z.to_nat (Offset + 1))
    with (Z.to_nat Offset + length [byte_of_Z (Z.of_nat (byte_length Value))])%nat
    by (cbn [length]; lia).
  rewrite splice_before; [reflexivity|].
  cbn [length]. rewrite be_encode_length. unfold size in *. lia.
Qed.

Lemma left_decode_splice (Buffer : list byte) (off : nat) (Value : Z) :
  0 <= Value < 2 ^ 64 ->
  (off + length (left_encode Value) <= length Buffer)%nat ->
  left_decode (splice Buffer off (left_encode Value)) off = Value.
Proof.
  intros HV Hfit.
  destruct (CountBytes_byte_length Value HV) as (_ & Hb & Hlt & _).
  pose proof (splice_read Buffer off (left_encode Value) Hfit) as Hr.
  set (S1 := splice Buffer off (left_encode Value)) in *.
  unfold left_encode in Hr. cbn [length] in Hr. rewrite be_encode_length in Hr.
  destruct (drop off S1) as [|b rest] eqn:Ed; [discriminate Hr|].
  cbn [take] in Hr. injection Hr as Eb Er.
  unfold left_decode.
  assert (El : S1 !! off = Some b).
  { pose proof (lookup_drop S1 off 0) as E. rewrite Nat.add_0_r, Ed in E.
    symmetry. exact E. }
  rewrite El.
  assert (Edr : drop (S off) S1 = rest).
  { replace (S off) with (off + 1)%nat by lia. rewrite <- drop_drop, Ed. reflexivity. }
  rewrite Edr, Eb, byte_to_of_Z.
  rewrite Z.mod_small by lia. rewrite Nat2Z.id, Er.
  apply be_decode_encode. lia.
Qed.

(** X22: the encoding of LeftEncode can be read back: the byte at
    [Offset] is the number of bytes that follow, and those bytes, read
    with the most significant first, are the value. So two values that
    leave the same buffer are equal. *)
Theorem CSG_LeftEncode_round_trip (Buffer : list byte) (Offset Value : Z) :
  0 <= Value < 2 ^ 64 -> 0 <= Offset ->
  Offset + size (left_encode Value) <= size Buffer -> size Buffer < 2 ^ 64 ->
  exists (Buffer' : list byte) (n : Z),
    CSG.LeftEncode Buffer Offset Value = Returned (Buffer', n)
    /\ left_decode Buffer' (Z.to_nat Offset) = Value
    /\ (forall Value2 n2 : Z,
           0 <= Value2 < 2 ^ 64 ->
           Offset + size (left_encode Value2) <= size Buffer ->
           CSG.LeftEncode Buffer Offset Value2 = Returned (Buffer', n2) ->
           Value2 = Value).
Proof.
  intros HV Ho Hs Hmax.
  exists (splice Buffer (Z.to_nat Offset) (left_encode Value)), (size (left_encode Value)).
  split; [apply LeftEncode_splice; assumption|].
  assert (Hd : left_decode (splice Buffer (Z.to_nat Offset) (left_encode Value))
                 (Z.to_nat Offset) = Value)
    by (apply left_decode_splice; [assumption | unfold size in *; lia]).
  split; [exact Hd|].
  intros V2 n2 HV2 Hs2 E2.
  rewrite LeftEncode_splice in E2 by assumption.
  injection E2 as E2 _. rewrite <- Hd, <- E2. symmetry.
  apply left_decode_splice; [assumption | unfold size in *; lia].
Qed.

Lemma CSG_LeftEncode_round_trip_witness :
  exists (Buffer' : list byte) (n : Z),
    CSG.LeftEncode (replicate 8 xaa) 2 70000 = Returned (Buffer', n)
    /\ left_decode Buffer' 2 = 70000.
Proof.
  destruct (CSG_LeftEncode_round_trip (replicate 8 xaa) 2 70000)
    as (B' & n & E & Hd & _);
    [lia | lia | vm_compute; congruence | vm_compute; reflexivity |].
  exists B', n. split; [exact E | exact Hd].
Defined.

(** ** TestUtils: IsEqual and Reduce *)

Lemma byte_to_Z_inj (a b : byte) : byte_to_Z a = byte_to_Z b -> a = b.
Proof. intros E. rewrite <- (byte_of_to_Z a), <- (byte_of_to_Z b), E. reflexivity. Qed.

Lemma IsEqual_loop_spec (A B : list byte) :
  length A = length B -> size A < 2 ^ 64 ->
  forall (i fuel : nat),
    (i <= length A)%nat -> (i < fuel)%nat ->
    exists r : bool,
      TestUtils.IsEqual_loop fuel A B (Z.of_nat i) = Returned r
      /\ (r = true <-> take i A = take i B).
Proof.
  intros Hl Hmax. induction i as [|i IH]; intros fuel Hi Hf;
    (destruct fuel as [|fuel]; [lia|]); cbn [TestUtils.IsEqual_loop].
  - exists true. split; [reflexivity|]. split; reflexivity.
  - destruct (Z.eqb_spec (Z.of_nat (S i)) 0); [lia|]. cbn [negb]. cbv zeta.
    rewrite wrap64_small by (unfold size in *; lia).
    replace (Z.of_nat (S i) - 1) with (Z.of_nat i) by lia.
    destruct (lookup_lt_is_Some_2 A i) as [a Ha]; [lia|].
    destruct (lookup_lt_is_Some_2 B i) as [b Hb]; [lia|].
    rewrite (vget_in A _ a), (vget_in B _ b) by (rewrite ?Nat2Z.id; lia || assumption).
    rewrite !obind_Returned.
    rewrite (take_S_r A i a Ha), (take_S_r B i b Hb).
    destruct (Z.eqb_spec (byte_to_Z a) (byte_to_Z b)) as [Eab|Nab]; cbn [negb].
    + apply byte_to_Z_inj in Eab. subst b.
      destruct (IH fuel ltac:(lia) ltac:(lia)) as (r & Er & Hr).
      exists r. split; [exact Er|]. rewrite Hr. split.
      * intros ->. reflexivity.
      * intros E. apply app_inj_tail in E. tauto.
    + exists false. split; [reflexivity|]. split; [discriminate|].
      intros E. apply app_inj_tail in E. destruct E as [_ ->]. congruence.
Qed.

(** X23: IsEqual decides the equality of two byte vectors: it returns
    true exactly when the two have the same length and the same bytes,
    and false, without reading a byte, when the lengths differ. *)
Theorem TestUtils_IsEqual_decides (A B : list byte) :
  size A < 2 ^ 64 ->
  exists r : bool,
    TestUtils.IsEqual A B = Returned r
    /\ (r = true <-> A = B)
    /\ (length A <> length B -> r = false).
Proof.
  intros Hmax. unfold TestUtils.IsEqual. cbv zeta.
  destruct (Z.eqb_spec (size A) (size B)) as [Es|Ns]; cbn [negb].
  - assert (Hl : length A = length B) by (unfold size in Es; lia).
    destruct (IsEqual_loop_spec A B Hl Hmax (length A) (S (length A))) as (r & Er & Hr);
      [lia | lia |].
    exists r. split; [exact Er|].
    rewrite take_ge in Hr by lia. rewrite (take_ge B) in Hr by lia.
    split; [exact Hr | congruence].
  - exists false. split; [reflexivity|]. split; [|reflexivity].
    split; [discriminate|]. intros ->. congruence.
Qed.

Lemma TestUtils_IsEqual_decides_witness :
  TestUtils.IsEqual [x01; x02; x03] [x01; x02; x03] = Returned true
  /\ TestUtils.IsEqual [x01; x02; x03] [x01; x07; x03] = Returned false
  /\ TestUtils.IsEqual [x01; x02; x03] [x01; x02] = Returned false.
Proof.
  destruct (TestUtils_IsEqual_decides [x01; x02; x03] [x01; x02; x03])
    as (r & Er & Hr & _); [vm_compute; reflexivity|].
  split; [|split; vm_compute; reflexivity].
  rewrite Er. f_equal. apply Hr. reflexivity.
Defined.

Lemma for_each_tabulate {A : Type} (body : list A -> Z -> outcome (list A)) (g : Z -> A)
    (data : list A) (k : nat) :
  (k <= length data)%nat ->
  (forall (d : list A) (i : Z),
      0 <= i < Z.of_nat k -> length d = length data -> body d i = vset d i (g i)) ->
  for_each body (seqZ 0 (Z.of_nat k)) data
  = Returned (map g (seqZ 0 (Z.of_nat k)) ++ drop k data).
Proof.
  induction k as [|k IH]; intros Hk Hbody.
  - change (seqZ 0 (Z.of_nat 0)) with (@nil Z). cbn [for_each map app].
    now rewrite drop_0.
  - replace (Z.of_nat (S k)) with (Z.of_nat k + 1) by lia.
    rewrite seqZ_app by lia. rewrite for_each_app.
    rewrite IH by (lia || (intros; apply Hbody; lia)).
    rewrite obind_Returned, Z.add_0_l.
    change (seqZ (Z.of_nat k) 1) with [Z.of_nat k]. cbn [for_each].
    set (l1 := map g (seqZ 0 (Z.of_nat k))).
    assert (L1 : length l1 = k) by (unfold l1; rewrite length_map, length_seqZ; lia).
    assert (Ld : length (l1 ++ drop k data) = length data)
      by (rewrite length_app, length_drop; lia).
    rewrite Hbody by (lia || exact Ld).
    rewrite vset_in by (unfold size; lia). rewrite obind_Returned. f_equal.
    rewrite Nat2Z.id, map_app. fold l1. cbn [map].
    destruct (lookup_lt_is_Some_2 data k) as [x Hx]; [lia|].
    rewrite (drop_S data x k Hx).
    replace k with (length l1 + 0)%nat at 1 by lia.
    rewrite insert_app_r. cbn. now rewrite <- app_assoc.
Qed.

(** X24: Reduce folds a seed in two: the result has half the length of the
    seed, and its byte [i] is the xor of byte [i] of the first half and
    byte [i] of the second; the last byte of a seed of odd length is not
    read. *)
Theorem TestUtils_Reduce_xor (Seed : list byte) :
  size Seed < 2 ^ 32 ->
  exists data : list byte,
    TestUtils.Reduce Seed = Returned data
    /\ length data = (length Seed / 2)%nat
    /\ (forall (i : nat) (a b : byte),
           Seed !! i = Some a -> Seed !! (length Seed / 2 + i)%nat = Some b ->
           (i < length Seed / 2)%nat ->
           data !! i = Some (byte_of_Z (Z.lxor (byte_to_Z a) (byte_to_Z b)))).
Proof.
  intros Hmax. unfold TestUtils.Reduce. cbv zeta.
  set (len := (length Seed / 2)%nat).
  assert (Elen : size Seed / 2 = Z.of_nat len)
    by (unfold size, len; rewrite Nat2Z.inj_div; reflexivity).
  assert (Hlen : (2 * len <= length Seed)%nat)
    by (unfold len; pose proof (Nat.Div0.mul_div_le (length Seed) 2); lia).
  rewrite Elen. rewrite wrap32_small by (unfold size in *; lia).
  rewrite Nat2Z.id.
  set (g := fun i : Z =>
              byte_of_Z
                (Z.lxor (byte_to_Z (default x00 (Seed !! Z.to_nat i)))
                   (byte_to_Z (default x00 (Seed !! (len + Z.to_nat i)%nat))))).
  rewrite (for_each_tabulate _ g).
  - eexists. split; [reflexivity|].
    rewrite drop_ge by (rewrite length_replicate; lia). rewrite app_nil_r.
    split; [rewrite length_map, length_seqZ; lia|].
    intros i a b Ha Hb Hi.
    rewrite list_lookup_fmap, lookup_seqZ_lt by lia.
    cbn [fmap option_fmap option_map]. unfold g.
    rewrite Z.add_0_l, Nat2Z.id, Ha, Hb. reflexivity.
  - rewrite length_replicate. lia.
  - intros d i Hi Hd.
    destruct (lookup_lt_is_Some_2 Seed (Z.to_nat i)) as [a Ha]; [lia|].
    destruct (lookup_lt_is_Some_2 Seed (len + Z.to_nat i)) as [b Hb]; [lia|].
    rewrite wrap32_small by (unfold size in *; lia).
    rewrite (vget_in Seed i a) by (lia || assumption).
    rewrite (vget_in Seed (Z.of_nat len + i) b)
      by (lia || (replace (Z.to_nat (Z.of_nat len + i)) with (len + Z.to_nat i)%nat by lia;
                  assumption)).
    rewrite !obind_Returned. unfold g. rewrite Ha, Hb. reflexivity.
Qed.

Lemma TestUtils_Reduce_xor_witness :
  TestUtils.Reduce [x0f; x33; xf0; x55; xaa] = Returned [xff; x66].
Proof.
  destruct (TestUtils_Reduce_xor [x0f; x33; xf0; x55; xaa])
    as (data & E & _); [vm_compute; reflexivity|].
  rewrite E. vm_compute in E. injection E as <-. reflexivity.
Defined.
